(** * PIK: rate control, Y-to-B search, target-size controller, pipeline
      entry points and the Rec 709 YUV pixel conversions.

    A shallow embedding of [pik.cc] and [yuv_convert.cc].

    - C++ [float] is IEEE binary32 and [double] is binary64; both are
      modelled bit-exactly with the Standard Library's [SpecFloat]
      (round to nearest, ties to even), so every operation computes.
    - [int], [size_t], [uint32_t], [uint64_t] values are [Z]; where the
      source relies on a width, the reduction is written out.
    - [Image<T>] is a record of its two sizes and its rows.
    - Pointers the source writes through ([float* q], [size_t* best_objval],
      [CompressedImageT* img]) become explicit state passing.
    - Code of other translation units (quantizer, entropy coder,
      butteraugli comparator, header I/O) enters as section variables. *)

From Stdlib Require Import ZArith Lia Bool String.
From Stdlib Require Import Floats.SpecFloat.
From stdpp Require Import base option numbers list.

Local Open Scope Z_scope.

(* ================================================================== *)
(** * Floating point                                                   *)
(* ================================================================== *)

(** Operations shared by the two formats: C++ comparison operators and
    [std::max].  A comparison with a NaN operand is false. *)
Module FP.
Definition ltb (a b : spec_float) : bool := SFltb a b.
Definition leb (a b : spec_float) : bool := SFleb a b.
Definition gtb (a b : spec_float) : bool := SFltb b a.
Definition geb (a b : spec_float) : bool := SFleb b a.
Definition eqb (a b : spec_float) : bool := SFeqb a b.

(** [std::max(a, b)] is [(a < b) ? b : a]. *)
Definition max (a b : spec_float) : spec_float := if ltb a b then b else a.

Definition is_nan (a : spec_float) : bool :=
    match a with S754_nan => true | _ => false end.

Definition is_finite (a : spec_float) : bool :=
    match a with S754_zero _ | S754_finite _ _ _ => true | _ => false end.

(** Truncation toward zero, the value a floating to integer conversion
      starts from; there is none for NaN and the infinities. *)
Definition trunc (a : spec_float) : option Z :=
    match a with
    | S754_zero _ => Some 0
    | S754_finite s m e =>
        let n := Z.shiftl (Zpos m) e in Some (if s then - n else n)
    | _ => None
    end.

(** Conversion to an unsigned integer type of [w] bits.  It is
      undefined ([None]) unless the truncated value fits the type. *)
Definition to_unsigned (w : Z) (a : spec_float) : option Z :=
    match trunc a with
    | Some n => if (0 <=? n) && (n <? 2 ^ w) then Some n else None
    | None => None
    end.
End FP.

(** C++ [float]. *)
Module F32.
Definition prec : Z := 24.
Definition emax : Z := 128.
Definition add := SFadd prec emax.
Definition sub := SFsub prec emax.
Definition mul := SFmul prec emax.
Definition div := SFdiv prec emax.
(** Conversion of an [int] to [float]. *)
Definition of_Z (n : Z) : spec_float := binary_normalize prec emax n 0 false.
(** The float nearest to the decimal literal [n / d]. *)
Definition lit (n d : Z) : spec_float := div (of_Z n) (of_Z d).
End F32.

(** C++ [double]. *)
Module F64.
Definition prec : Z := 53.
Definition emax : Z := 1024.
Definition add := SFadd prec emax.
Definition sub := SFsub prec emax.
Definition mul := SFmul prec emax.
Definition div := SFdiv prec emax.
Definition of_Z (n : Z) : spec_float := binary_normalize prec emax n 0 false.
Definition lit (n d : Z) : spec_float := div (of_Z n) (of_Z d).
(** Narrowing conversion [double -> float]. *)
Definition to_f32 (x : spec_float) : spec_float :=
    match x with
    | S754_finite s m e => binary_round F32.prec F32.emax s m e
    | _ => x
    end.
End F64.

Abbreviation float := spec_float (only parsing).
Abbreviation double := spec_float (only parsing).

(* ================================================================== *)
(** * Images and loops                                                 *)
(* ================================================================== *)

(** [for (int i = lo; i < hi; ++i) body] over a state [S]. *)
Definition for_range {S : Type} (lo hi : Z) (body : Z -> S -> S) (s : S) : S :=
  foldl (fun acc i => body i acc) s (seqZ lo (hi - lo)).

Record Image (A : Type) := mkImage {
  xsize : Z;
  ysize : Z;
  rows : list (list A)
}.
Arguments mkImage {A}.
Arguments xsize {A}.
Arguments ysize {A}.
Arguments rows {A}.

Module Img.
(** [Image<T>(xsize, ysize, val)]. *)
Definition fill {A} (xs ys : Z) (v : A) : Image A :=
    mkImage xs ys (replicate (Z.to_nat ys) (replicate (Z.to_nat xs) v)).

(** [img.Row(y)[x]]; [d] stands for the unspecified value of a read
      outside the image, which the source never performs. *)
Definition get {A} (d : A) (img : Image A) (y x : Z) : A :=
    if (0 <=? y) && (0 <=? x) then
      match rows img !! Z.to_nat y with
      | Some r => default d (r !! Z.to_nat x)
      | None => d
      end
    else d.

(** [img.Row(y)[x] = v]. *)
Definition set {A} (img : Image A) (y x : Z) (v : A) : Image A :=
    if (0 <=? y) && (0 <=? x) then
      mkImage (xsize img) (ysize img)
              (alter (fun r => <[Z.to_nat x := v]> r) (Z.to_nat y) (rows img))
    else img.

Definition wf {A} (img : Image A) : Prop :=
    0 <= xsize img /\ 0 <= ysize img /\
    length (rows img) = Z.to_nat (ysize img) /\
    Forall (fun r => length r = Z.to_nat (xsize img)) (rows img).
End Img.

Abbreviation ImageF := (Image spec_float) (only parsing).

(** Reads of float planes. *)
Definition RowF (img : ImageF) (y x : Z) : float := Img.get S754_nan img y x.

(* ================================================================== *)
(** * pik.cc: rate control                                             *)
(* ================================================================== *)

Definition kBlockEdge : Z := 8.
Definition kTileToBlockRatio : Z := 8.
Definition kBlockSize : Z := kBlockEdge * kBlockEdge.

Definition Clamp (minval maxval val : Z) : Z :=
  Z.min maxval (Z.max minval val).

Definition TileDistMap (distmap : ImageF) (tile_size : Z) : ImageF :=
  let tile_xsize := (xsize distmap + tile_size - 1) ÷ tile_size in
  let tile_ysize := (ysize distmap + tile_size - 1) ÷ tile_size in
  let tile_distmap := Img.fill tile_xsize tile_ysize (S754_zero false) in
  for_range 0 tile_ysize (fun tile_y =>
    for_range 0 tile_xsize (fun tile_x tile_distmap =>
      let x_max := Z.min (xsize distmap) (tile_size * (tile_x + 1)) in
      let y_max := Z.min (ysize distmap) (tile_size * (tile_y + 1)) in
      let max_dist :=
        for_range (tile_size * tile_y) y_max (fun y =>
          for_range (tile_size * tile_x) x_max (fun x max_dist =>
            FP.max max_dist (RowF distmap y x)))
          (S754_zero false) in
      Img.set tile_distmap tile_y tile_x max_dist))
    tile_distmap.

Section DistToPeakMap.
Variable field : ImageF.
Variable peak_min : float.
Variable local_radius : Z.
Variable peak_weight : float.

(** Bounds of the clipped neighbourhood of [(x0, y0)]. *)
Definition nb_x_min (x0 : Z) : Z := Z.max 0 (x0 - local_radius).
Definition nb_y_min (y0 : Z) : Z := Z.max 0 (y0 - local_radius).
Definition nb_x_max (x0 : Z) : Z := Z.min (xsize field) (x0 + 1 + local_radius).
Definition nb_y_max (y0 : Z) : Z := Z.min (ysize field) (y0 + 1 + local_radius).

Definition local_max (y0 x0 : Z) : float :=
    for_range (nb_y_min y0) (nb_y_max y0) (fun y =>
      for_range (nb_x_min x0) (nb_x_max x0) (fun x local_max =>
        FP.max local_max (RowF field y x)))
      peak_min.

(** The test that makes [(x0, y0)] a peak. *)
Definition is_peak (y0 x0 : Z) : bool :=
    FP.gtb (RowF field y0 x0)
           (F32.add (F32.mul (F32.sub (F32.of_Z 1) peak_weight) peak_min)
                    (F32.mul peak_weight (local_max y0 x0))).

(** The two inner loops that stamp the distances around one peak. *)
Definition stamp_peak (y0 x0 : Z) (result : ImageF) : ImageF :=
    for_range (nb_y_min y0) (nb_y_max y0) (fun y =>
      for_range (nb_x_min x0) (nb_x_max x0) (fun x result =>
        let dist := F32.of_Z (Z.max (Z.abs (y - y0)) (Z.abs (x - x0))) in
        let cur_dist := RowF result y x in
        if FP.ltb cur_dist (S754_zero false) || FP.gtb cur_dist dist
        then Img.set result y x dist
        else result))
      result.

Definition DistToPeakMap : ImageF :=
    let result := Img.fill (xsize field) (ysize field) (F32.of_Z (-1)) in
    for_range 0 (ysize field) (fun y0 =>
      for_range 0 (xsize field) (fun x0 result =>
        if is_peak y0 x0 then stamp_peak y0 x0 result else result))
      result.
End DistToPeakMap.

(** [bool AdjustQuantVal(float* q, d, factor, quant_max)]: the returned
    pair is the result and the value left in [*q]. *)
Definition AdjustQuantVal (q d factor quant_max : float) : bool * float :=
  if FP.geb q (F32.mul (F32.lit 999 1000) quant_max) then (false, q)
  else
    let inv_q := F32.div (F32.of_Z 1) q in
    let adj_inv_q := F32.sub inv_q (F32.div factor (F32.add d (F32.of_Z 1))) in
    (true, F32.div (F32.of_Z 1)
                   (FP.max (F32.div (F32.of_Z 1) quant_max) adj_inv_q)).


(** [CompressedImage::adaptive_quant_params()] of compressed_image.h. *)
Record AdaptiveQuantParams := {
  initial_quant_val_dc : float;
  initial_quant_val_ac : float
}.

Definition adaptive_quant_params : AdaptiveQuantParams :=
  {| initial_quant_val_dc := F32.lit 10625 10000;
     initial_quant_val_ac := F32.lit 5625 10000 |}.

Definition kMaxOuterIters : Z := 3.

(** [static const float kAdjSpeed[kMaxOuterIters] = { 0.1, 0.05, 0.025 }]:
    double literals narrowed to float. *)
Definition kAdjSpeed : list float :=
  [F64.to_f32 (F64.lit 1 10); F64.to_f32 (F64.lit 5 100);
   F64.to_f32 (F64.lit 25 1000)].

(** [static const float kQuantScale[kMaxOuterIters] = { 0.0, 0.8, 0.9 }]. *)
Definition kQuantScale : list float :=
  [S754_zero false; F64.to_f32 (F64.lit 8 10); F64.to_f32 (F64.lit 9 10)].

(** [a[i]] on a C array; [NaN] stands for a read outside it. *)
Definition array_get (a : list float) (i : Z) : float :=
  if 0 <=? i then default S754_nan (a !! Z.to_nat i) else S754_nan.

(** What the rate-control loop does to the outside world, in order. *)
Inductive event :=
  | EvCompare                 (* [comparator.Compare(srgb)] *)
  | EvScale (outer_iter : Z). (* field multiplied by [kQuantScale[outer_iter]] *)

Section FindBestQuantization.
(** The compressed image with its quantizer, and the butteraugli
      comparator, are code of other translation units. *)
Variable CompressedImageT : Type.
Variable block_xsize block_ysize : CompressedImageT -> Z.
Variable SetQuantField :
    float -> ImageF -> CompressedImageT -> bool * CompressedImageT.
Variable Quantize : CompressedImageT -> CompressedImageT.
Variable Image3B : Type.
Variable ToSRGB : CompressedImageT -> Image3B.
Variable ButteraugliComparator : Type.
Variable Compare : Image3B -> ButteraugliComparator -> ButteraugliComparator.
Variable distance : ButteraugliComparator -> float.
Variable distmap : ButteraugliComparator -> ImageF.

Variable butteraugli_target : float.
Variable max_butteraugli_iters : Z.

(** The local variables of [FindBestQuantization] that live across
      iterations of its [for (;;)], and the trace of events so far. *)
Record FBQ := mkFBQ {
    img : CompressedImageT;
    comparator : ButteraugliComparator;
    quant_field : ImageF;
    tile_distmap : ImageF;
    outer_iter : Z;
    butteraugli_iter : Z;
    quant_max : float;
    trace : list event
  }.

Definition kInitialQuantDC : float :=
    F32.div (initial_quant_val_dc adaptive_quant_params) butteraugli_target.
Definition kInitialQuantAC : float :=
    F32.div (initial_quant_val_ac adaptive_quant_params) butteraugli_target.

(** Lines 215-241: set the field and, if it changed, quantize and
      compare.  [inr] is the [break] taken when the budget is used up. *)
Definition quantize_and_compare (s : FBQ) : FBQ + FBQ :=
    let '(field_changed, img1) := SetQuantField kInitialQuantDC (quant_field s) (img s) in
    if field_changed then
      let img2 := Quantize img1 in
      if max_butteraugli_iters <=? butteraugli_iter s then
        inr (mkFBQ img2 (comparator s) (quant_field s) (tile_distmap s)
                   (outer_iter s) (butteraugli_iter s) (quant_max s) (trace s))
      else
        let srgb := ToSRGB img2 in
        let comparator' := Compare srgb (comparator s) in
        inl (mkFBQ img2 comparator' (quant_field s)
                   (TileDistMap (distmap comparator') kBlockEdge)
                   (outer_iter s) (butteraugli_iter s + 1) (quant_max s)
                   (trace s ++ [EvCompare]))
    else
      inl (mkFBQ img1 (comparator s) (quant_field s) (tile_distmap s)
                 (outer_iter s) (butteraugli_iter s) (quant_max s) (trace s)).

(** Lines 245-261: one radius of the adjustment, over every block. *)
Definition adjust_radius (s : FBQ) (radius : Z)
      (acc : ImageF * bool) : ImageF * bool :=
    let dist_to_peak_map :=
      DistToPeakMap (tile_distmap s) butteraugli_target radius
                    (F64.to_f32 (F64.lit 65 100)) in
    for_range 0 (block_ysize (img s)) (fun y =>
      for_range 0 (block_xsize (img s)) (fun x acc =>
        let '(quant_field, changed) := acc in
        let row_dist_x := RowF dist_to_peak_map y x in
        if FP.geb row_dist_x (S754_zero false) then
          let factor :=
            F32.mul (array_get kAdjSpeed (outer_iter s))
                    (RowF (tile_distmap s) y x) in
          let '(adjusted, q) :=
            AdjustQuantVal (RowF quant_field y x) row_dist_x factor (quant_max s) in
          if adjusted then (Img.set quant_field y x q, true)
          else (quant_field, changed)
        else (quant_field, changed)))
      acc.

(** [for (int radius = 1; radius <= 4 && !changed; ++radius)]. *)
Definition adjust_radii (s : FBQ) (acc : ImageF * bool) : ImageF * bool :=
    for_range 1 5 (fun radius (acc : ImageF * bool) =>
      if snd acc then acc else adjust_radius s radius acc) acc.

Definition with_field (s : FBQ) (qf : ImageF) (qm : float) : FBQ :=
    mkFBQ (img s) (comparator s) qf (tile_distmap s) (outer_iter s)
          (butteraugli_iter s) qm (trace s).

(** Lines 243-265: [while (!changed && comparator.distance() > target)].
      [None] when [fuel] iterations did not reach the exit. *)
Fixpoint adjust_loop (fuel : nat) (s : FBQ) (changed : bool)
      : option (FBQ * bool) :=
    if negb changed && FP.gtb (distance (comparator s)) butteraugli_target then
      match fuel with
      | O => None
      | S fuel' =>
          let '(qf, changed') := adjust_radii s (quant_field s, changed) in
          if FP.geb (quant_max s) (F32.of_Z 8) then
            Some (with_field s qf (quant_max s), changed')
          else if negb changed' then
            adjust_loop fuel'
              (with_field s qf (F32.add (quant_max s) (F32.lit 5 10))) changed'
          else
            adjust_loop fuel' (with_field s qf (quant_max s)) changed'
      end
    else Some (s, changed).

(** Lines 269-273: every cell times [kQuantScale[outer_iter]]. *)
Definition scale_field (s : FBQ) (o : Z) : ImageF :=
    for_range 0 (block_ysize (img s)) (fun y =>
      for_range 0 (block_xsize (img s)) (fun x quant_field =>
        Img.set quant_field y x
          (F32.mul (RowF quant_field y x) (array_get kQuantScale o))))
      (quant_field s).

(** Lines 266-274. *)
Definition outer_step (s : FBQ) (changed : bool) : FBQ + FBQ :=
    if negb changed then
      let o := outer_iter s + 1 in
      if o =? kMaxOuterIters then
        inr (mkFBQ (img s) (comparator s) (quant_field s) (tile_distmap s) o
                   (butteraugli_iter s) (quant_max s) (trace s))
      else
        inl (mkFBQ (img s) (comparator s) (scale_field s o) (tile_distmap s) o
                   (butteraugli_iter s) (quant_max s) (trace s ++ [EvScale o]))
    else inl s.

(** One iteration of [for (;;)]: [Some (inl s')] continues with [s'],
      [Some (inr s')] leaves the loop, [None] is the inner loop out of
      fuel. *)
Definition loop_body (fuel : nat) (s : FBQ) : option (FBQ + FBQ) :=
    match quantize_and_compare s with
    | inr s1 => Some (inr s1)
    | inl s1 =>
        match adjust_loop fuel s1 false with
        | None => None
        | Some (s2, changed) => Some (outer_step s2 changed)
        end
    end.

Fixpoint FBQ_loop (fuel : nat) (s : FBQ) : option FBQ :=
    match fuel with
    | O => None
    | S fuel' =>
        match loop_body fuel' s with
        | None => None
        | Some (inr s') => Some s'
        | Some (inl s') => FBQ_loop fuel' s'
        end
    end.

Definition FBQ_init (img0 : CompressedImageT)
      (comparator0 : ButteraugliComparator) : FBQ :=
    mkFBQ img0 comparator0
          (Img.fill (block_xsize img0) (block_ysize img0) kInitialQuantAC)
          (mkImage 0 0 [])
          0 0 (F32.of_Z 4) [].

(** [FindBestQuantization]; [comparator0] is the comparator as its
      constructor leaves it. *)
Definition FindBestQuantization (fuel : nat) (img0 : CompressedImageT)
      (comparator0 : ButteraugliComparator) : option FBQ :=
    FBQ_loop fuel (FBQ_init img0 comparator0).
End FindBestQuantization.

(* ================================================================== *)
(** * pik.cc: refined grid search                                      *)
(* ================================================================== *)

(** [int] arithmetic: the value when it is representable.  Signed
    overflow is undefined behaviour, [None]. *)
Definition INT_MIN : Z := - 2 ^ 31.
Definition INT_MAX : Z := 2 ^ 31 - 1.
Definition int_add (a b : Z) : option Z :=
  if (INT_MIN <=? a + b) && (a + b <=? INT_MAX) then Some (a + b) else None.
Definition int_sub (a b : Z) : option Z :=
  if (INT_MIN <=? a - b) && (a - b <=? INT_MAX) then Some (a - b) else None.

Section Optimize.
(** [Eval] is the evaluator object: [eval_call v] is the call of the
      evaluator's [operator()] on [v], which
      returns the objective and may change the evaluator; [SetVal] is
      [eval->SetVal]. *)
Variable Eval : Type.
Variable eval_call : Z -> Eval -> Z * Eval.
Variable SetVal : Z -> Eval -> Eval.

(** The variables the sweeps update: [best_val], the objective behind
      [best_objval] and the evaluator. *)
Definition search : Type := Z * Z * Eval.

(** Body of the inner [for]. *)
Definition try_val (val : Z) (s : search) : search :=
    let '(best_val, best_objval, ev) := s in
    let '(objval, ev') := eval_call val ev in
    if objval <? best_objval then (val, objval, ev')
    else (best_val, best_objval, ev').

(** [for (int val = ...; val <= end; val += resolution)], from [val]
      on; [None] when [val += resolution] overflows, or when [fuel]
      iterations did not reach the exit. *)
Fixpoint sweep_from (fuel : nat) (resolution end_ val : Z) (s : search)
      : option search :=
    if val <=? end_
    then
      match fuel with
      | O => None
      | S fuel' =>
          let s' := try_val val s in
          val' ← int_add val resolution;
          sweep_from fuel' resolution end_ val' s'
      end
    else Some s.

(** The inner [for]; with [resolution >= 1] it makes at most
      [end - start + 1] iterations. *)
Definition sweep (resolution start end_ : Z) (s : search) : option search :=
    sweep_from (Z.to_nat (end_ - start + 1)) resolution end_ start s.

(** The values of [resolution] in
      [for (int resolution = 16; resolution >= 1; resolution /= 4)]. *)
Definition resolutions : list Z := [16; 4; 1].

(** Body of the outer [for], on [(start, end, search)]; [None] when
      [best_val - resolution + 1] or [best_val + resolution - 1]
      overflows. *)
Definition refine (minval maxval : Z) (acc : Z * Z * search) (resolution : Z)
      : option (Z * Z * search) :=
    let '(start, end_, s) := acc in
    s' ← sweep resolution start end_ s;
    let best_val := fst (fst s') in
    lo ← (d ← int_sub best_val resolution; int_add d 1);
    hi ← (d ← int_add best_val resolution; int_sub d 1);
    Some (Z.max minval lo, Z.min maxval hi, s').

(** [int Optimize(eval, minval, maxval, best_val, best_objval)]:
      the returned value, the objective left behind [best_objval] and the
      evaluator on return; [None] when an [int] operation overflows. *)
Definition Optimize (ev : Eval) (minval maxval best_val best_objval : Z)
      : option search :=
    acc ← foldl (fun acc resolution =>
                   a ← acc; refine minval maxval a resolution)
                (Some (minval, maxval, (best_val, best_objval, ev)))
                resolutions;
    let '(_, _, (best_val', best_objval', ev')) := acc in
    Some (best_val', best_objval', SetVal best_val' ev').
End Optimize.

(* ================================================================== *)
(** * pik.cc: target-size controller                                   *)
(* ================================================================== *)

(** Widening conversion [float -> double]. *)
Definition f32_to_f64 (x : float) : double :=
  match x with
  | S754_finite s m e => binary_round F64.prec F64.emax s m e
  | _ => x
  end.

Section CompressToTargetSize.
Variable CompressedImageT : Type.
Variable GetQuantField : CompressedImageT -> float * ImageF.
Variable SetQuantField :
    float -> ImageF -> CompressedImageT -> bool * CompressedImageT.
Variable Quantize : CompressedImageT -> CompressedImageT.
Variable Encode : CompressedImageT -> list Byte.byte.
Variable ScaleImage : float -> ImageF -> ImageF.

Definition ScaleQuantizationMap (quant_dc : float) (quant_field_ac : ImageF)
      (scale : float) (img : CompressedImageT) : bool * CompressedImageT :=
    let scale_dc :=
      F64.to_f32 (F64.add (F64.mul (F64.lit 8 10) (f32_to_f64 scale))
                          (F64.lit 2 10)) in
    let '(changed, img1) :=
      SetQuantField (F32.mul scale_dc quant_dc)
                    (ScaleImage scale quant_field_ac) img in
    (changed, Quantize img1).

Variable target_size : Z.

(** Locals of [CompressToTargetSize] and the candidates encoded so far. *)
Record TS := mkTS {
    ts_img : CompressedImageT;
    scale_bad : float;
    scale_good : float;
    candidate : list Byte.byte;
    compressed : list Byte.byte;
    attempts : list (list Byte.byte)
  }.

(** [std::string::size], [std::string::empty]. *)
Definition size (b : list Byte.byte) : Z := Z.of_nat (length b).
Definition empty (b : list Byte.byte) : bool :=
    match b with [] => true | _ => false end.

(** Lines 439-448: [for (int i = 0; i < 10; ++i)] with [n] iterations
      left. *)
Fixpoint halving (n : nat) (quant_dc : float) (quant_ac : ImageF) (s : TS)
      : TS :=
    match n with
    | O => s
    | S n' =>
        let '(_, img1) :=
          ScaleQuantizationMap quant_dc quant_ac (scale_good s) (ts_img s) in
        let candidate := Encode img1 in
        if size candidate <=? target_size then
          mkTS img1 (scale_bad s) (scale_good s) candidate candidate
               (attempts s ++ [candidate])
        else
          halving n' quant_dc quant_ac
            (mkTS img1 (scale_good s)
                  (F64.to_f32 (F64.mul (f32_to_f64 (scale_good s)) (F64.lit 5 10)))
                  candidate (compressed s) (attempts s ++ [candidate]))
    end.

(** Lines 458-470: [for (int i = 0; i < 16; ++i)] with [n] iterations
      left. *)
Fixpoint bisection (n : nat) (quant_dc : float) (quant_ac : ImageF) (s : TS)
      : TS :=
    match n with
    | O => s
    | S n' =>
        let scale :=
          F64.to_f32 (F64.mul (F64.lit 5 10)
                        (f32_to_f64 (F32.add (scale_bad s) (scale_good s)))) in
        let '(changed, img1) :=
          ScaleQuantizationMap quant_dc quant_ac scale (ts_img s) in
        if negb changed then
          mkTS img1 (scale_bad s) (scale_good s) (candidate s) (compressed s)
               (attempts s)
        else
          let candidate := Encode img1 in
          if size candidate <=? target_size then
            bisection n' quant_dc quant_ac
              (mkTS img1 (scale_bad s) scale candidate candidate
                    (attempts s ++ [candidate]))
          else
            bisection n' quant_dc quant_ac
              (mkTS img1 scale (scale_good s) candidate (compressed s)
                    (attempts s ++ [candidate]))
    end.

(** The template [CompressToTargetSize(opsin_orig, target_size, img,
      aux_out)]: the string returned and the final locals. *)
Definition CompressToTargetSize (img : CompressedImageT)
      : list Byte.byte * TS :=
    let '(quant_dc, quant_ac) := GetQuantField img in
    let s0 := mkTS img (F32.of_Z 1) (F32.of_Z 1) [] [] [] in
    let s1 := halving 10 quant_dc quant_ac s0 in
    if empty (compressed s1) then (candidate s1, s1)
    else if FP.eqb (f32_to_f64 (scale_good s1)) (F64.of_Z 1) then
      (compressed s1, s1)
    else
      let s2 := bisection 16 quant_dc quant_ac s1 in
      (compressed s2, s2).
End CompressToTargetSize.

(* ================================================================== *)
(** * pik.cc: encoder and decoder entry points                         *)
(* ================================================================== *)

(** A [bool] function that fails through [PIK_FAILURE(msg)] or through a
    bare [return false]. *)
Inductive status (A : Type) :=
  | Ok (a : A)
  | PIK_FAILURE (msg : string)
  | ReturnFalse.
Arguments Ok {A}.
Arguments PIK_FAILURE {A}.
Arguments ReturnFalse {A}.

Record CompressParams := {
  butteraugli_distance : float;
  target_bitrate : float;
  uniform_quant : float;
  fast_mode : bool;
  max_butteraugli_iters : Z;
  alpha_channel : bool
}.

Record Header := mkHeader {
  h_xsize : Z;
  h_ysize : Z;
  h_flags : Z
}.

(** [Header::kAlpha]. *)
Definition kAlpha : Z := 1.

(** The four branches of [OpsinToPik] that produce [compressed_data]. *)
Inductive mode := Perceptual | TargetSize | ConstantQuant | Fast.

Section OpsinToPik.
Variable Image3F : Type.
Variable opsin_xsize opsin_ysize : Image3F -> Z.

(** The bodies of the four branches; each runs the quantizer and the
      entropy coder, and the first two run the rate-control loop.  [None]
      is a call that does not return. *)
Variable CompressToButteraugliDistance :
    Image3F -> CompressParams -> option (list Byte.byte).
Variable CompressToTargetSize_ :
    Image3F -> CompressParams -> Z -> option (list Byte.byte).
Variable CompressUniformQuant : Image3F -> float -> option (list Byte.byte).
Variable CompressFast : Image3F -> CompressParams -> option (list Byte.byte).
(** [StoreHeader] and the bytes it leaves in the sink. *)
Variable StoreHeader : Header -> option (list Byte.byte).

(** [size_t target_size = xsize * ysize * target_bitrate / 8.0]: the
      product of the sizes is a [size_t], converted to [float] for the
      multiplication; the division is in [double]. *)
Definition target_size_of (opsin : Image3F) (params : CompressParams)
      : option Z :=
    let npix := (opsin_xsize opsin * opsin_ysize opsin) mod 2 ^ 64 in
    FP.to_unsigned 64
      (F64.div (f32_to_f64 (F32.mul (F32.of_Z npix) (target_bitrate params)))
               (F64.of_Z 8)).

(** Lines 573-589: the branch taken, and [compressed_data] or the
      failure.  The inner [None] is undefined behaviour or a call that
      does not return. *)
Definition select_and_compress (params : CompressParams) (opsin : Image3F)
      : list mode * option (status (list Byte.byte)) :=
    if FP.geb (f32_to_f64 (butteraugli_distance params)) (S754_zero false) then
      ([Perceptual], Ok <$> CompressToButteraugliDistance opsin params)
    else if FP.gtb (f32_to_f64 (target_bitrate params)) (S754_zero false) then
      ([TargetSize],
       match target_size_of opsin params with
       | Some target_size => Ok <$> CompressToTargetSize_ opsin params target_size
       | None => None
       end)
    else if FP.gtb (f32_to_f64 (uniform_quant params)) (S754_zero false) then
      ([ConstantQuant], Ok <$> CompressUniformQuant opsin (uniform_quant params))
    else if fast_mode params then
      ([Fast], Ok <$> CompressFast opsin params)
    else ([], Some (PIK_FAILURE "Not implemented")).

(** [bool OpsinToPik(params, opsin, compressed, aux_out)]: the branches
      entered and, when the call returns, its status with the bytes left
      in [compressed]. *)
Definition OpsinToPik (params : CompressParams) (opsin : Image3F)
      : list mode * option (status (list Byte.byte)) :=
    if (opsin_xsize opsin =? 0) || (opsin_ysize opsin =? 0) then
      ([], Some (PIK_FAILURE "Empty image"))
    else
      match select_and_compress params opsin with
      | (ms, Some (Ok compressed_data)) =>
          let header :=
            mkHeader (opsin_xsize opsin mod 2 ^ 32) (opsin_ysize opsin mod 2 ^ 32)
                     (if alpha_channel params then Z.lor 0 kAlpha else 0) in
          match StoreHeader header with
          | None => (ms, Some ReturnFalse)
          | Some header_bytes => (ms, Some (Ok (header_bytes ++ compressed_data)))
          end
      | other => other
      end.
End OpsinToPik.

Record DecompressParams := {
  max_num_pixels : Z;
  check_decompressed_size : bool
}.

Section PikToPixelsT.
(** [LoadHeader] with the offset [BitSource::Finalize] returns; [None]
      when it returns false. *)
Variable LoadHeader : list Byte.byte -> option (Header * Z).
(** [Header::kWebPLossless]. *)
Variable kWebPLossless : Z.
Variable CompressedImage : Type.
(** [CompressedImage::Decode] after the constructor: the image and
      [bytes_read]. *)
Variable Decode : Z -> Z -> list Byte.byte -> option (CompressedImage * Z).
Variable Image3T : Type.
Variable ToImage3 : CompressedImage -> Image3T.
Variable AlphaT : Type.
Variable PikToAlpha :
    DecompressParams -> Z -> list Byte.byte -> option (AlphaT * Z).

Record MetaImage := mkMeta {
    color : Image3T;
    alpha : option AlphaT
  }.

Definition kMaxWidth : Z := Z.shiftl 1 25 - 1.

(** Lines 659-665. *)
Definition finish (params : DecompressParams) (compressed : list Byte.byte)
      (image : MetaImage) (byte_pos : Z) : status (MetaImage * Z) :=
    if check_decompressed_size params
       && negb (byte_pos =? Z.of_nat (length compressed))
    then PIK_FAILURE "Pik compressed data size mismatch."
    else Ok (image, byte_pos).

(** [bool PikToPixelsT(params, compressed, MetaImage<T>* image, aux_out)]:
      on success the image and [decoded_size]. *)
Definition PikToPixelsT (params : DecompressParams)
      (compressed : list Byte.byte) : status (MetaImage * Z) :=
    let compressed_size := Z.of_nat (length compressed) in
    if compressed_size =? 0 then PIK_FAILURE "Empty input."
    else
      match LoadHeader compressed with
      | None => ReturnFalse
      | Some (header, header_end) =>
          if compressed_size <? header_end then PIK_FAILURE "Truncated header."
          else
            let byte_pos := header_end in
            if negb (Z.land (h_flags header) kWebPLossless =? 0) then
              PIK_FAILURE "Invalid format code"
            else if (h_xsize header =? 0) || (h_ysize header =? 0) then
              PIK_FAILURE "Empty image."
            else if kMaxWidth <? h_xsize header then
              PIK_FAILURE "Image too wide."
            else
              let num_pixels := (h_xsize header * h_ysize header) mod 2 ^ 64 in
              if max_num_pixels params <? num_pixels then
                PIK_FAILURE "Image too big."
              else
                match Decode (h_xsize header) (h_ysize header)
                             (drop (Z.to_nat byte_pos) compressed) with
                | None => PIK_FAILURE "Pik decoding failed."
                | Some (img, bytes_read) =>
                    let byte_pos := byte_pos + bytes_read in
                    let planes := ToImage3 img in
                    if negb (Z.land (h_flags header) kAlpha =? 0) then
                      match PikToAlpha params byte_pos compressed with
                      | None => ReturnFalse
                      | Some (a, bytes_read) =>
                          finish params compressed (mkMeta planes (Some a))
                                 (byte_pos + bytes_read)
                      end
                    else finish params compressed (mkMeta planes None) byte_pos
                end
      end.
End PikToPixelsT.

(* ================================================================== *)
(** * pik.cc: local Y-to-B evaluator                                   *)
(* ================================================================== *)

Section EvalLocalYToB.
(** Members of [CompressedImage] this stage does not touch directly
      (quantizer, opsin original, overlay). *)
Variable Rest : Type.

Record CompressedImage := mkCI {
    xsize_ : Z;
    ysize_ : Z;
    ytob_dc_ : Z;
    ytob_ac_ : Image Z;
    (** [Image3W]: one plane per channel; a row holds the 64 coefficients
        of each block of a block row, block after block. *)
    dct_coeffs_ : list (Image Z);
    rest_ : Rest
  }.

(** compressed_image.h: [ytob_ac_.Row(ty)[tx] = val]. *)
Definition SetYToBAC (tx ty val : Z) (img : CompressedImage) : CompressedImage :=
    mkCI (xsize_ img) (ysize_ img) (ytob_dc_ img)
         (Img.set (ytob_ac_ img) ty tx val) (dct_coeffs_ img) (rest_ img).

(** [&img->coeffs().Row(block_y)[c][offset]], read as the 64
      coefficients of the block. *)
Definition block_at (img : CompressedImage) (block_x block_y c : Z) : list Z :=
    let offset := block_x * kBlockSize in
    match dct_coeffs_ img !! Z.to_nat c with
    | Some plane =>
        match rows plane !! Z.to_nat block_y with
        | Some row => take (Z.to_nat kBlockSize) (drop (Z.to_nat offset) row)
        | None => []
        end
    | None => []
    end.

Variable QuantizeBlock : Z -> Z -> CompressedImage -> CompressedImage.

(** The symbols, with their contexts, that a processor hands to its
      visitor. *)
Variable Token : Type.
Context `{EqDecision Token}.

(** Modelled from the spec: [HistogramBuilder] (entropy coder, not
      part of these sources) counts the tokens it is shown, each with the
      current weight; [set_weight(-1)] therefore removes a contribution
      and [set_weight(1)] adds one. *)
Record HistogramBuilder := mkHisto {
    weight : Z;
    count : Token -> Z
  }.

Definition set_weight (w : Z) (h : HistogramBuilder) : HistogramBuilder :=
    mkHisto w (count h).

Definition visit (h : HistogramBuilder) (t : Token) : HistogramBuilder :=
    mkHisto (weight h)
            (fun t' => if decide (t' = t) then count h t' + weight h else count h t').

Definition visit_all (ts : list Token) (h : HistogramBuilder) : HistogramBuilder :=
    foldl visit h ts.

Definition new_histo : HistogramBuilder := mkHisto 1 (fun _ => 0).

(** [ACBlockProcessor]: its state, the state [Reset()] leaves, and
      [ProcessBlock] with the tokens it emits. *)
Variable ACBlockProcessor : Type.
Variable Reset : ACBlockProcessor -> ACBlockProcessor.
Variable ProcessBlock :
    list Z -> Z -> Z -> Z -> ACBlockProcessor -> ACBlockProcessor * list Token.

(** [for (int c = 0; c < 3; ++c) ac_processor.ProcessBlock(...)]. *)
Definition process_block3 (img : CompressedImage) (block_x block_y : Z)
      (acc : ACBlockProcessor * HistogramBuilder)
      : ACBlockProcessor * HistogramBuilder :=
    for_range 0 3 (fun c acc =>
      let '(p, toks) :=
        ProcessBlock (block_at img block_x block_y c) block_x block_y c (fst acc) in
      (p, visit_all toks (snd acc))) acc.

(** The DC terms, the only coefficients [PredictDC] looks at: entry
      [c], [block_y], [block_x]. *)
Definition dc_terms (img : CompressedImage) : list (list (list Z)) :=
    (fun plane : Image Z =>
       (fun row : list Z =>
          (fun block_x => default 0 (row !! Z.to_nat (block_x * kBlockSize)))
            <$> seqZ 0 (Z.of_nat (length row) ÷ kBlockSize))
         <$> rows plane)
      <$> dct_coeffs_ img.

(** [PredictDC] followed by [CoeffProcessor(1)]: the tokens of the DC
      residuals of the whole image. *)
Variable dc_tokens : list (list (list Z)) -> list Token.

Definition block_xsize_of (img : CompressedImage) : Z :=
    (xsize_ img + kBlockEdge - 1) ÷ kBlockEdge.
Definition block_ysize_of (img : CompressedImage) : Z :=
    (ysize_ img + kBlockEdge - 1) ÷ kBlockEdge.

(** Modelled from the spec: [ProcessImage3(img->coeffs(), &ac_processor,
      &ac_histo)] (not part of these sources) shows the histogram the
      contribution of every block of the image, each block processed from
      the state [Reset()] leaves, channel after channel. *)
Definition ProcessImage3_AC (img : CompressedImage)
      (acc : ACBlockProcessor * HistogramBuilder)
      : ACBlockProcessor * HistogramBuilder :=
    for_range 0 (block_ysize_of img) (fun block_y =>
      for_range 0 (block_xsize_of img) (fun block_x acc =>
        process_block3 img block_x block_y (Reset (fst acc), snd acc)))
      acc.

(** Modelled from the spec: [ProcessImage3(dc_residuals, &dc_processor,
      &dc_histo)] shows the histogram the tokens of the DC residuals. *)
Definition ProcessImage3_DC (img : CompressedImage) (h : HistogramBuilder)
      : HistogramBuilder :=
    visit_all (dc_tokens (dc_terms img)) h.

Record EvalLocalYToB := mkEval {
    el_img : CompressedImage;
    ac_processor : ACBlockProcessor;
    dc_histo : HistogramBuilder;
    ac_histo : HistogramBuilder;
    tilex : Z;
    tiley : Z
  }.

(** The constructor. *)
Definition EvalLocalYToB_new (image : CompressedImage)
      (ac_processor0 : ACBlockProcessor) : EvalLocalYToB :=
    let dc := ProcessImage3_DC image new_histo in
    let '(p, ac) := ProcessImage3_AC image (ac_processor0, new_histo) in
    mkEval image p dc ac 0 0.

Definition SetTile (tx ty : Z) (e : EvalLocalYToB) : EvalLocalYToB :=
    mkEval (el_img e) (ac_processor e) (dc_histo e) (ac_histo e) tx ty.

(** Body of the two loops of [SetVal], lines 319-337. *)
Definition requantize_block (tx ty iy ix : Z)
      (acc : CompressedImage * ACBlockProcessor * HistogramBuilder)
      : CompressedImage * ACBlockProcessor * HistogramBuilder :=
    let '(img, p, h) := acc in
    let factor := kTileToBlockRatio in
    let block_y := factor * ty + iy in
    let block_x := factor * tx + ix in
    let xmin := kBlockEdge * block_x in
    let ymin := kBlockEdge * block_y in
    if (xsize_ img <=? xmin) || (ysize_ img <=? ymin) then acc
    else
      let '(p1, h1) := process_block3 img block_x block_y (Reset p, set_weight (-1) h) in
      let img' := QuantizeBlock block_x block_y img in
      let '(p2, h2) := process_block3 img' block_x block_y (Reset p1, set_weight 1 h1) in
      (img', p2, h2).

Definition SetVal (ytob : Z) (e : EvalLocalYToB) : EvalLocalYToB :=
    let img := SetYToBAC (tilex e) (tiley e) ytob (el_img e) in
    let factor := kTileToBlockRatio in
    let '(img', p, h) :=
      for_range 0 factor (fun iy =>
        for_range 0 factor (fun ix acc =>
          requantize_block (tilex e) (tiley e) iy ix acc))
        (img, ac_processor e, ac_histo e) in
    mkEval img' p (dc_histo e) h (tilex e) (tiley e).

(** [HistogramBuilder::EncodedSize(1, 2)]. *)
Variable EncodedSize : HistogramBuilder -> Z.

(** [size_t operator()(int ytob)]. *)
Definition EvalLocalYToB_call (ytob : Z) (e : EvalLocalYToB)
      : Z * EvalLocalYToB :=
    let e' := SetVal ytob e in
    (EncodedSize (dc_histo e') + EncodedSize (ac_histo e'), e').
End EvalLocalYToB.

(* ================================================================== *)
(** * yuv_convert.cc                                                   *)
(* ================================================================== *)

Definition kWeightR : double := F64.lit 2126 10000.
Definition kWeightB : double := F64.lit 722 10000.
Definition kWeightG : double := F64.sub (F64.sub (F64.of_Z 1) kWeightR) kWeightB.
Definition kWeightBc : double := F64.sub (F64.of_Z 1) kWeightB.
Definition kWeightRc : double := F64.sub (F64.of_Z 1) kWeightR.
Definition kScaleY : double := F64.lit 219 255.
Definition kScaleUV : double := F64.lit 112 255.

Definition RGBtoYUVMatrix : list double :=
  [F64.mul kWeightR kScaleY;
   F64.mul kWeightG kScaleY;
   F64.mul kWeightB kScaleY;
   F64.mul (F64.div (SFopp kWeightR) kWeightBc) kScaleUV;
   F64.mul (F64.div (SFopp kWeightG) kWeightBc) kScaleUV;
   kScaleUV;
   kScaleUV;
   F64.mul (F64.div (SFopp kWeightG) kWeightRc) kScaleUV;
   F64.mul (F64.div (SFopp kWeightB) kWeightRc) kScaleUV].

Definition RGBtoYUVMatrixAdd : list double :=
  [F64.lit 625 10000; F64.lit 5 10; F64.lit 5 10].

Definition YUVtoRGBMatrix : list double :=
  [F64.div (F64.of_Z 1) kScaleY;
   S754_zero false;
   F64.div kWeightRc kScaleUV;
   F64.div (F64.of_Z 1) kScaleY;
   F64.div (F64.div (F64.mul (SFopp kWeightBc) kWeightB) kWeightG) kScaleUV;
   F64.div (F64.div (F64.mul (SFopp kWeightRc) kWeightR) kWeightG) kScaleUV;
   F64.div (F64.of_Z 1) kScaleY;
   F64.div kWeightBc kScaleUV;
   S754_zero false].

(** [m[i]] on one of the constant tables. *)
Definition coef (m : list double) (i : nat) : double := default S754_nan (m !! i).

(** [#define clamp(V, M) (uint16_t)((V) < 0 ? 0 : ((V) > (M) ? (M) : V))]
    on a [double] [V]; [None] where the conversion is undefined. *)
Definition clamp (V M : double) : option Z :=
  FP.to_unsigned 16
    (if FP.ltb V (S754_zero false) then S754_zero false
     else if FP.gtb V M then M else V).

(** [void YUVPixelToRGB(yv, uv, vv, bits, double* r, double* g, double* b)]. *)
Definition YUVPixelToRGB (yv uv vv bits : Z) : double * double * double :=
  let norm := F64.div (F64.of_Z 1) (F64.of_Z (Z.shiftl 1 bits - 1)) in
  let y := F64.sub (F64.mul (F64.of_Z yv) norm) (coef RGBtoYUVMatrixAdd 0) in
  let u := F64.sub (F64.mul (F64.of_Z uv) norm) (coef RGBtoYUVMatrixAdd 1) in
  let v := F64.sub (F64.mul (F64.of_Z vv) norm) (coef RGBtoYUVMatrixAdd 2) in
  let row i :=
    F64.add (F64.add (F64.mul (coef YUVtoRGBMatrix i) y)
                     (F64.mul (coef YUVtoRGBMatrix (i + 1)) u))
            (F64.mul (coef YUVtoRGBMatrix (i + 2)) v) in
  (row 0%nat, row 3%nat, row 6%nat).

(** The template [YUVPixelToRGB(yv, uv, vv, bits, T* r, T* g, T* b)];
    [sizeof_T] is [sizeof(T)], and the value stored through a [T*] is the
    [uint16_t] of [clamp] converted to [T]. *)
Definition YUVPixelToRGB_T (sizeof_T : Z) (yv uv vv bits : Z)
    : option (Z * Z * Z) :=
  let maxv_out := Z.shiftl 1 (8 * sizeof_T) - 1 in
  let '(rd, gd, bd) := YUVPixelToRGB yv uv vv bits in
  let store d :=
    (fun n => n mod 2 ^ (8 * sizeof_T)) <$>
      clamp (F64.add (F64.lit 5 10) (F64.mul (F64.of_Z maxv_out) d))
            (F64.of_Z maxv_out) in
  r ← store rd; g ← store gd; b ← store bd; Some (r, g, b).

(** [void RGBPixelToYUV(double r, double g, double b, int bits,
    uint16_t* y, uint16_t* u, uint16_t* v)]. *)
Definition RGBtoYUV_row (i : nat) (r g b : double) : double :=
  F64.add
    (F64.add
       (F64.add (coef RGBtoYUVMatrixAdd (i / 3))
                (F64.mul (coef RGBtoYUVMatrix i) r))
       (F64.mul (coef RGBtoYUVMatrix (i + 1)) g))
    (F64.mul (coef RGBtoYUVMatrix (i + 2)) b).

Definition RGBPixelToYUV (r g b : double) (bits : Z) : option (Z * Z * Z) :=
  let maxv := F64.of_Z (Z.shiftl 1 bits - 1) in
  let Y := RGBtoYUV_row 0 r g b in
  let U := RGBtoYUV_row 3 r g b in
  let V := RGBtoYUV_row 6 r g b in
  let store d := clamp (F64.add (F64.lit 5 10) (F64.mul maxv d)) maxv in
  y ← store Y; u ← store U; v ← store V; Some (y, u, v).

(* ================================================================== *)
(** * Vocabulary of the statements, and small instances                *)
(* ================================================================== *)

(** The threshold [0.999f * quant_max]. *)
Definition adjust_threshold (quant_max : float) : float :=
  F32.mul (F32.lit 999 1000) quant_max.

(** The value [AdjustQuantVal] leaves in [*q] when it adjusts; [recip]
    is the denominator [max(1 / quant_max, 1 / q - factor / (d + 1))]. *)
Definition adjusted_recip (q d factor quant_max : float) : float :=
  FP.max (F32.div (F32.of_Z 1) quant_max)
         (F32.sub (F32.div (F32.of_Z 1) q)
                  (F32.div factor (F32.add d (F32.of_Z 1)))).


(** A toy instance: an opsin image is its two sizes, every branch returns
    one byte naming itself, the header is two bytes. *)
Module ToyEncoder.
Definition Image3F : Type := Z * Z.
Definition run (opsin : Image3F) (params : CompressParams)
      : list mode * option (status (list Byte.byte)) :=
    OpsinToPik Image3F fst snd
      (fun _ _ => Some [Byte.x01]) (fun _ _ _ => Some [Byte.x02])
      (fun _ _ => Some [Byte.x03]) (fun _ _ => Some [Byte.x04])
      (fun _ => Some [Byte.x00; Byte.x00]) params opsin.
Definition quant_only : CompressParams :=
    {| butteraugli_distance := F32.of_Z (-1); target_bitrate := F32.of_Z 0;
       uniform_quant := F32.of_Z 2; fast_mode := true;
       max_butteraugli_iters := 7; alpha_channel := false |}.
End ToyEncoder.


(** A toy decoder: the header is three bytes (width, height, flags), the
    payload is empty and always decodes. *)
Module ToyDecoder.
Definition LoadHeader (b : list Byte.byte) : option (Header * Z) :=
    match b with
    | x :: y :: f :: _ =>
        Some (mkHeader (Z.of_N (Byte.to_N x)) (Z.of_N (Byte.to_N y))
                       (Z.of_N (Byte.to_N f)), 3)
    | _ => None
    end.
Definition run (params : DecompressParams) (b : list Byte.byte)
      : status (MetaImage unit unit * Z) :=
    PikToPixelsT LoadHeader 2 unit (fun _ _ _ => Some (tt, 0)) unit
                 (fun _ => tt) unit (fun _ _ _ => Some (tt, 0)) params b.
Definition params : DecompressParams :=
    {| max_num_pixels := 100; check_decompressed_size := true |}.
End ToyDecoder.

(** A call that did not succeed. *)
Definition failed {A : Type} (r : status A) : Prop :=
  match r with Ok _ => False | _ => True end.

(** A toy image for the target-size controller: the image is the DC
    quant it was last given; it encodes to 2 bytes below quant 1 and to 5
    bytes from 1 on. *)
Module ToySize.
Definition Encode (img : float) : list Byte.byte :=
    replicate (if FP.ltb img (F32.of_Z 1) then 2%nat else 5%nat) Byte.x00.
Definition run (target_size : Z) (img : float)
      : list Byte.byte * TS float :=
    CompressToTargetSize float (fun img => (img, mkImage 0 0 []))
      (fun dc _ img => (true, dc)) (fun img => img) Encode (fun _ qf => qf)
      target_size img.
End ToySize.

(** An objective is strictly unimodal on [[minval, maxval]] with bottom
    [m]: strictly decreasing up to [m], strictly increasing from [m]. *)
Definition strictly_unimodal (f : Z -> Z) (minval maxval m : Z) : Prop :=
  minval <= m <= maxval /\
  (forall a b, minval <= a -> a < b -> b <= m -> f b < f a) /\
  (forall a b, m <= a -> a < b -> b <= maxval -> f a < f b).

(** The search of [Optimize] on mathematical integers, where no
    addition overflows: what [Optimize] computes whenever it is defined
    ([Optimize_ideal]), and it is defined on the intervals of
    [int_search_range] ([Optimize_defined]). *)
Section IdealSearch.
Variable Eval : Type.
Variable eval_call : Z -> Eval -> Z * Eval.
Variable SetVal : Z -> Eval -> Eval.

Fixpoint ideal_sweep_from (fuel : nat) (resolution end_ val : Z)
    (s : search Eval) : search Eval :=
  match fuel with
  | O => s
  | S fuel' =>
      if val <=? end_
      then ideal_sweep_from fuel' resolution end_ (val + resolution)
                            (try_val Eval eval_call val s)
      else s
  end.

Definition ideal_sweep (resolution start end_ : Z) (s : search Eval)
    : search Eval :=
  ideal_sweep_from (Z.to_nat (end_ - start + 1)) resolution end_ start s.

Definition ideal_refine (minval maxval : Z) (acc : Z * Z * search Eval)
    (resolution : Z) : Z * Z * search Eval :=
  let '(start, end_, s) := acc in
  let s' := ideal_sweep resolution start end_ s in
  let best_val := fst (fst s') in
  (Z.max minval (best_val - resolution + 1),
   Z.min maxval (best_val + resolution - 1), s').

Definition ideal_Optimize (ev : Eval) (minval maxval best_val best_objval : Z)
    : search Eval :=
  let '(_, _, (best_val', best_objval', ev')) :=
    foldl (ideal_refine minval maxval)
          (minval, maxval, (best_val, best_objval, ev)) resolutions in
  (best_val', best_objval', SetVal best_val' ev').
End IdealSearch.

(** Bounds on the [int] arguments of [Optimize] under which none of
    its additions and subtractions overflows: every [val + resolution] is
    at most [maxval + 16], and [best_val -/+ resolution] stays within 16
    of the interval or of the incumbent. *)
Definition int_search_range (minval maxval best_val : Z) : Prop :=
  INT_MIN + 16 <= minval /\ maxval <= INT_MAX - 16 /\
  INT_MIN + 16 <= best_val <= INT_MAX - 16.

(** Evaluators without state, for objectives given as functions. *)
Module ToySearch.
Definition run (f : Z -> Z) (minval maxval best_val : Z)
      : option (Z * Z * unit) :=
    Optimize unit (fun v ev => (f v, ev)) (fun _ ev => ev) tt
             minval maxval best_val (f best_val).
Definition dip (v : Z) : Z := if v =? 37 then 0 else 5.
(** A strictly unimodal objective with its bottom at 37. *)
Definition vee (v : Z) : Z := Z.abs (v - 37).
End ToySearch.

(** What a sweep from [val] leaves in [best_val], [best_objval]: the
    incumbent or a grid point, no worse than the incumbent and than every
    grid point. *)
Definition swept {Eval : Type} (f : Z -> Z) (resolution end_ val : Z)
    (s s' : search Eval) : Prop :=
  let bv := fst (fst s) in
  let bv' := fst (fst s') in
  snd (fst s') = f bv' /\
  (bv' = bv \/ exists k, 0 <= k /\ bv' = val + k * resolution /\ bv' <= end_) /\
  f bv' <= f bv /\
  (forall k, 0 <= k -> val + k * resolution <= end_ ->
             f bv' <= f (val + k * resolution)).

(** Bitwise equality of floats and of float planes. *)
Definition float_eqb (a b : float) : bool :=
  match a, b with
  | S754_zero s, S754_zero t => Bool.eqb s t
  | S754_infinity s, S754_infinity t => Bool.eqb s t
  | S754_nan, S754_nan => true
  | S754_finite s m e, S754_finite t n f =>
      Bool.eqb s t && Pos.eqb m n && Z.eqb e f
  | _, _ => false
  end.

Fixpoint list_eqb {A : Type} (eqb : A -> A -> bool) (l1 l2 : list A) : bool :=
  match l1, l2 with
  | [], [] => true
  | a :: l1, b :: l2 => eqb a b && list_eqb eqb l1 l2
  | _, _ => false
  end.

(** Number of comparator calls in a trace. *)
Fixpoint compares (t : list event) : Z :=
  match t with
  | [] => 0
  | EvCompare :: t' => 1 + compares t'
  | EvScale _ :: t' => compares t'
  end.

(** The only scalings a trace may hold: by [kQuantScale[1]] or by
    [kQuantScale[2]]. *)
Definition scale_ok (ev : event) : Prop :=
  match ev with
  | EvScale o => 1 <= o <= 2 /\ array_get kQuantScale o <> S754_zero false
  | EvCompare => True
  end.

(** The values [quant_max] takes: [8 - k/2] for [k = 0 .. 8]. *)
Definition quant_max_value (k : nat) : float := F32.lit (16 - Z.of_nat k) 2.

Section FindBestQuantizationRuns.
Variable CompressedImageT : Type.
Variable block_xsize block_ysize : CompressedImageT -> Z.
Variable SetQuantField :
  float -> ImageF -> CompressedImageT -> bool * CompressedImageT.
Variable Quantize : CompressedImageT -> CompressedImageT.
Variable Image3B : Type.
Variable ToSRGB : CompressedImageT -> Image3B.
Variable ButteraugliComparator : Type.
Variable Compare : Image3B -> ButteraugliComparator -> ButteraugliComparator.
Variable distance : ButteraugliComparator -> float.
Variable distmap : ButteraugliComparator -> ImageF.
Variable butteraugli_target : float.
Variable max_butteraugli_iters : Z.
Variable img0 : CompressedImageT.
Variable comparator0 : ButteraugliComparator.

(** The states at the head of the [for (;;)] in some execution. *)
Inductive at_head : FBQ CompressedImageT ButteraugliComparator -> Prop :=
  | head_init :
      at_head (FBQ_init CompressedImageT block_xsize block_ysize
                        ButteraugliComparator butteraugli_target img0 comparator0)
  | head_next s s' fuel :
      at_head s ->
      loop_body CompressedImageT block_xsize block_ysize SetQuantField Quantize
                Image3B ToSRGB ButteraugliComparator Compare distance distmap
                butteraugli_target max_butteraugli_iters fuel s = Some (inl s') ->
      at_head s'.

(** The states in which some execution leaves the loop. *)
Definition returned (s' : FBQ CompressedImageT ButteraugliComparator) : Prop :=
  exists s fuel,
    at_head s /\
    loop_body CompressedImageT block_xsize block_ysize SetQuantField Quantize
              Image3B ToSRGB ButteraugliComparator Compare distance distmap
              butteraugli_target max_butteraugli_iters fuel s = Some (inr s').

(** One iteration in which the comparison says "too far" and the first
    pass of the adjustment reports a change: the state the next
    iteration starts from. *)
Definition iteration_with_change (s : FBQ CompressedImageT ButteraugliComparator)
    : option (FBQ CompressedImageT ButteraugliComparator) :=
  match quantize_and_compare CompressedImageT SetQuantField Quantize Image3B
          ToSRGB ButteraugliComparator Compare distmap butteraugli_target
          max_butteraugli_iters s with
  | inl s1 =>
      if FP.gtb (distance (comparator _ _ s1)) butteraugli_target then
        let '(qf, changed) :=
          adjust_radii CompressedImageT block_xsize block_ysize
            ButteraugliComparator butteraugli_target s1
            (quant_field _ _ s1, false) in
        if changed then Some (with_field _ _ s1 qf (quant_max _ _ s1)) else None
      else None
  | inr _ => None
  end.
End FindBestQuantizationRuns.

(** An instance of the rate-control loop on an image of 9 x 1 pixels,
    that is 2 x 1 blocks.  The compressed image is its quantizer, whose
    [SetQuantField] reports a change when a bit of the field differs.  The
    comparator always answers distance 2 with a distance map that is 20
    at the first pixel and 0 elsewhere. *)
Module StuckLoop.
Definition CompressedImageT : Type := float * ImageF.
Definition SetQuantField (dc : float) (qf : ImageF) (img : CompressedImageT)
      : bool * CompressedImageT :=
    (negb (float_eqb dc (fst img)
           && list_eqb (list_eqb float_eqb) (rows qf) (rows (snd img))),
     (dc, qf)).
Definition distmap : ImageF :=
    mkImage 9 1 [F32.of_Z 20 :: replicate 8 (F32.of_Z 0)].
(** The comparator is whether [Compare] has been called. *)
Definition distance_of (c : bool) : float :=
    if c then F32.of_Z 2 else F32.of_Z 0.
Definition distmap_of (c : bool) : ImageF :=
    if c then distmap else mkImage 0 0 [].
(** Quantizer as [SetQuant(1.0)] leaves it. *)
Definition img0 : CompressedImageT := (F32.of_Z 1, Img.fill 2 1 (F32.of_Z 1)).
Definition target : float := F32.of_Z 1.
Definition max_iters : Z := 5.
Definition run (fuel : nat) : option (FBQ CompressedImageT bool) :=
    FindBestQuantization CompressedImageT (fun _ => 2) (fun _ => 1)
      SetQuantField (fun img => img) unit (fun _ => tt)
      bool (fun _ _ => true) distance_of distmap_of
      target max_iters fuel img0 false.
Definition next (s : FBQ CompressedImageT bool)
      : option (FBQ CompressedImageT bool) :=
    iteration_with_change CompressedImageT (fun _ => 2) (fun _ => 1)
      SetQuantField (fun img => img) unit (fun _ => tt)
      bool (fun _ _ => true) distance_of distmap_of target max_iters s.
Definition s0 : FBQ CompressedImageT bool :=
    FBQ_init CompressedImageT (fun _ => 2) (fun _ => 1) bool target img0 false.
(** The states after one and after two iterations. *)
Definition s1 : FBQ CompressedImageT bool :=
    Eval vm_compute in default s0 (next s0).
Definition s2 : FBQ CompressedImageT bool :=
    Eval vm_compute in default s0 (next s1).
End StuckLoop.

(** Two states that differ at most in the quant field and [quant_max]. *)
Definition same_counters {I C : Type} (s s' : FBQ I C) : Prop :=
  outer_iter _ _ s' = outer_iter _ _ s /\
  butteraugli_iter _ _ s' = butteraugli_iter _ _ s /\
  trace _ _ s' = trace _ _ s.

(** What holds at the head of the loop, with [hi = 2], and on leaving
    it, with [hi = 3]; [N] is [max_butteraugli_iters]. *)
Definition loop_inv {I C : Type} (N hi : Z) (s : FBQ I C) : Prop :=
  0 <= outer_iter _ _ s <= hi /\
  Forall scale_ok (trace _ _ s) /\
  butteraugli_iter _ _ s = compares (trace _ _ s) /\
  0 <= butteraugli_iter _ _ s <= Z.max 0 N.

(** The same image with a comparator that always answers distance 0:
    the first iteration compares, adjusts nothing and scales the field. *)
Module CalmLoop.
Definition body (fuel : nat) (s : FBQ StuckLoop.CompressedImageT bool)
      : option (FBQ StuckLoop.CompressedImageT bool
                + FBQ StuckLoop.CompressedImageT bool) :=
    loop_body StuckLoop.CompressedImageT (fun _ => 2) (fun _ => 1)
      StuckLoop.SetQuantField (fun img => img) unit (fun _ => tt)
      bool (fun _ _ => true) (fun _ => F32.of_Z 0) StuckLoop.distmap_of
      StuckLoop.target StuckLoop.max_iters fuel s.
Definition s1 : FBQ StuckLoop.CompressedImageT bool :=
    Eval vm_compute in
      match body 1 StuckLoop.s0 with Some (inl s) => s | _ => StuckLoop.s0 end.
End CalmLoop.

(** The mantissa of a positive integer below [2^24], aligned to 24 bits. *)
Definition aligned (p : positive) : positive :=
  match (Zpos (digits2_pos p) - 24)%Z with
  | Zneg k => Pos.iter xO p k
  | _ => p
  end.

(** Chebyshev distance between the cells [(y, x)] and [(y0, x0)]. *)
Definition cheb (y x y0 x0 : Z) : Z := Z.max (Z.abs (y - y0)) (Z.abs (x - x0)).

Definition in_image {A : Type} (img : Image A) (y x : Z) : Prop :=
  0 <= y < ysize img /\ 0 <= x < xsize img.

(** [(y0, x0)] is a peak of the field whose neighbourhood of radius [r]
    holds the cell [(y, x)]. *)
Definition peak_near (field : ImageF) (peak_min : float) (r : Z)
    (peak_weight : float) (y x y0 x0 : Z) : Prop :=
  in_image field y0 x0 /\
  is_peak field peak_min r peak_weight y0 x0 = true /\
  cheb y x y0 x0 <= r.

(** [v] is the least Chebyshev distance from [(y, x)] to such a peak. *)
Definition nearest_peak_distance (field : ImageF) (peak_min : float) (r : Z)
    (peak_weight : float) (y x v : Z) : Prop :=
  (exists y0 x0, peak_near field peak_min r peak_weight y x y0 x0 /\
                 cheb y x y0 x0 = v) /\
  (forall y0 x0, peak_near field peak_min r peak_weight y x y0 x0 ->
                 v <= cheb y x y0 x0).

(** The value the stamping loop leaves in a cell that held [cur_dist]. *)
Definition stamp_value (dist cur_dist : float) : float :=
  if FP.ltb cur_dist (S754_zero false) || FP.gtb cur_dist dist
  then dist else cur_dist.

(** The peaks the raster scan has passed when it stands at [(Y, X)]. *)
Definition scanned (field : ImageF) (Y X y0 x0 : Z) : Prop :=
  in_image field y0 x0 /\ (y0 < Y \/ (y0 = Y /\ x0 < X)).

(** What a cell of the result holds when the scan stands at [(Y, X)]:
    [-1] when no scanned peak is near, else the least distance to one. *)
Definition cell_scanned (field : ImageF) (peak_min : float) (r : Z)
    (peak_weight : float) (Y X : Z) (c : float) (y x : Z) : Prop :=
  (c = F32.of_Z (-1) /\
   forall y0 x0, scanned field Y X y0 x0 ->
                 ~ peak_near field peak_min r peak_weight y x y0 x0) \/
  (exists v, 0 <= v <= r /\ c = F32.of_Z v /\
     (exists y0 x0, scanned field Y X y0 x0 /\
                    peak_near field peak_min r peak_weight y x y0 x0 /\
                    cheb y x y0 x0 = v) /\
     (forall y0 x0, scanned field Y X y0 x0 ->
                    peak_near field peak_min r peak_weight y x y0 x0 ->
                    v <= cheb y x y0 x0)).

(** A field of 3 x 1 cells with one peak, at the left end. *)
Module ToyField.
Definition field : ImageF :=
    mkImage 3 1 [[F32.of_Z 20; F32.of_Z 0; F32.of_Z 0]].
Definition map : ImageF :=
    DistToPeakMap field (F32.of_Z 1) 1 (F64.to_f32 (F64.lit 65 100)).
End ToyField.

(** [sum_{lo <= k < hi} f k]. *)
Definition sum_range (lo hi : Z) (f : Z -> Z) : Z :=
  for_range lo hi (fun k acc => acc + f k) 0.

Section EvalLocalYToBRuns.
Variable Rest : Type.
Variable QuantizeBlock :
  Z -> Z -> CompressedImage Rest -> CompressedImage Rest.
Variable Token : Type.
Context `{EqDecision Token}.
Variable ACBlockProcessor : Type.
Variable Reset : ACBlockProcessor -> ACBlockProcessor.
Variable ProcessBlock :
  list Z -> Z -> Z -> Z -> ACBlockProcessor -> ACBlockProcessor * list Token.
Variable dc_tokens : list (list (list Z)) -> list Token.

(** Number of occurrences of a token. *)
Fixpoint occ (t : Token) (ts : list Token) : Z :=
  match ts with
  | [] => 0
  | t' :: ts' => (if decide (t = t') then 1 else 0) + occ t ts'
  end.

(** The tokens of one block: its three channels, processed one after the
    other from the state [Reset()] leaves. *)
Definition block_tokens (p : ACBlockProcessor) (img : CompressedImage Rest)
    (block_x block_y : Z) : list Token :=
  let '(p0, t0) := ProcessBlock (block_at Rest img block_x block_y 0)
                                block_x block_y 0 (Reset p) in
  let '(p1, t1) := ProcessBlock (block_at Rest img block_x block_y 1)
                                block_x block_y 1 p0 in
  let '(p2, t2) := ProcessBlock (block_at Rest img block_x block_y 2)
                                block_x block_y 2 p1 in
  t0 ++ t1 ++ t2.

(** Occurrences of [t] among the tokens of all blocks of the image. *)
Definition total (p : ACBlockProcessor) (img : CompressedImage Rest)
    (t : Token) : Z :=
  sum_range 0 (block_ysize_of Rest img) (fun block_y =>
    sum_range 0 (block_xsize_of Rest img) (fun block_x =>
      occ t (block_tokens p img block_x block_y))).

(** The histograms a fresh evaluator would build for the image, its
    processor starting in state [p]. *)
Definition fresh_ac (p : ACBlockProcessor) (img : CompressedImage Rest)
    : HistogramBuilder Token :=
  snd (ProcessImage3_AC Rest Token ACBlockProcessor Reset ProcessBlock img
         (p, new_histo Token)).
Definition fresh_dc (img : CompressedImage Rest) : HistogramBuilder Token :=
  ProcessImage3_DC Rest Token dc_tokens img (new_histo Token).

Definition tile_xsize_of (img : CompressedImage Rest) : Z :=
  (block_xsize_of Rest img + kTileToBlockRatio - 1) ÷ kTileToBlockRatio.
Definition tile_ysize_of (img : CompressedImage Rest) : Z :=
  (block_ysize_of Rest img + kTileToBlockRatio - 1) ÷ kTileToBlockRatio.

Definition tile_of (e : EvalLocalYToB Rest Token ACBlockProcessor)
    (tx ty : Z) : Prop :=
  0 <= tx < tile_xsize_of (el_img _ _ _ e) /\
  0 <= ty < tile_ysize_of (el_img _ _ _ e).

(** The evaluators the local stage can hold: a new one with a tile of the
    image selected, and what [SetTile] and [SetVal] make of them. *)
Inductive evaluator : EvalLocalYToB Rest Token ACBlockProcessor -> Prop :=
  | eval_new image p tx ty :
      tile_of (EvalLocalYToB_new Rest Token ACBlockProcessor Reset ProcessBlock
                 dc_tokens image p) tx ty ->
      evaluator (SetTile _ _ _ tx ty
                   (EvalLocalYToB_new Rest Token ACBlockProcessor Reset
                      ProcessBlock dc_tokens image p))
  | eval_tile e tx ty :
      evaluator e -> tile_of e tx ty -> evaluator (SetTile _ _ _ tx ty e)
  | eval_val e ytob :
      evaluator e ->
      evaluator (SetVal Rest QuantizeBlock Token ACBlockProcessor Reset
                        ProcessBlock ytob e).

(** What the stage relies on from code outside these sources:
    [QuantizeBlock] keeps the image size, rewrites no other block, and
    leaves every DC term as it is; [Reset] forgets the state. *)
Definition quantizer_frame : Prop :=
  (forall bx by_ img,
     xsize_ Rest (QuantizeBlock bx by_ img) = xsize_ Rest img /\
     ysize_ Rest (QuantizeBlock bx by_ img) = ysize_ Rest img) /\
  (forall bx by_ img bx' by' c,
     0 <= bx -> 0 <= by_ -> 0 <= bx' -> 0 <= by' -> (bx', by') <> (bx, by_) ->
     block_at Rest (QuantizeBlock bx by_ img) bx' by' c = block_at Rest img bx' by' c) /\
  (forall bx by_ img,
     dc_terms Rest (QuantizeBlock bx by_ img) = dc_terms Rest img).

Definition reset_forgets : Prop := forall p p', Reset p = Reset p'.

(** What the loops of [SetVal] keep true of the image and the AC
    histogram; [img0] is the image the call started from. *)
Definition tile_inv (img0 : CompressedImage Rest)
    (s : CompressedImage Rest * ACBlockProcessor * HistogramBuilder Token)
    : Prop :=
  let '(img, p, h) := s in
  xsize_ Rest img = xsize_ Rest img0 /\ ysize_ Rest img = ysize_ Rest img0 /\
  dc_terms Rest img = dc_terms Rest img0 /\
  weight _ h = 1 /\
  forall p' t, count _ h t = total p' img t.

(** What holds of every evaluator of the local stage. *)
Definition evaluator_inv (e : EvalLocalYToB Rest Token ACBlockProcessor)
    : Prop :=
  0 <= tilex _ _ _ e /\ 0 <= tiley _ _ _ e /\
  weight _ (ac_histo _ _ _ e) = 1 /\
  (forall p t, count _ (ac_histo _ _ _ e) t = total p (el_img _ _ _ e) t) /\
  dc_histo _ _ _ e = fresh_dc (el_img _ _ _ e).
End EvalLocalYToBRuns.

(** A toy instance of the local stage: an image of 9 x 9 pixels (2 x 2
    blocks, one tile).  The tokens of a block are its coefficients, the
    DC tokens are the DC terms, and [QuantizeBlock] writes the tile's
    Y-to-B value into coefficient 1 of the block's blue channel. *)
Module ToyTile.
Definition CImage : Type := CompressedImage unit.
Definition QuantizeBlock (bx by_ : Z) (img : CImage) : CImage :=
    let v := Img.get 0 (ytob_ac_ unit img)
                     (by_ ÷ kTileToBlockRatio) (bx ÷ kTileToBlockRatio) in
    mkCI unit (xsize_ unit img) (ysize_ unit img) (ytob_dc_ unit img)
         (ytob_ac_ unit img)
         (alter (fun plane => Img.set plane by_ (bx * kBlockSize + 1) v) 2%nat
                (dct_coeffs_ unit img))
         (rest_ unit img).
Definition ProcessBlock (coeffs : list Z) (bx by_ c : Z) (p : unit)
      : unit * list Z := (p, coeffs).
Definition dc_tokens (terms : list (list (list Z))) : list Z :=
    concat (concat terms).
Definition EncodedSize (h : HistogramBuilder Z) : Z := count Z h 77.
Definition plane (c : Z) : Image Z :=
    mkImage 128 2 [replicate 128 c; replicate 128 (c + 10)].
Definition image : CImage :=
    mkCI unit 9 9 128 (Img.fill 1 1 128) [plane 0; plane 1; plane 2] tt.
Definition e0 : EvalLocalYToB unit Z unit :=
    SetTile unit Z unit 0 0
      (EvalLocalYToB_new unit Z unit (fun p => p) ProcessBlock dc_tokens image tt).
Definition e1 : EvalLocalYToB unit Z unit :=
    SetVal unit QuantizeBlock Z unit (fun p => p) ProcessBlock 77 e0.
End ToyTile.

(** A loop body that rewrites the cell it is run at, by [upd], and leaves
    every other cell and the sizes alone. *)
Definition rewrites_cell {A : Type} (d : A)
    (body : Z -> Z -> Image A -> Image A) (upd : Z -> Z -> A -> A) : Prop :=
  forall (img : Image A) (y x : Z),
    Img.wf img -> in_image img y x ->
    Img.wf (body y x img) /\
    xsize (body y x img) = xsize img /\ ysize (body y x img) = ysize img /\
    forall y' x',
      Img.get d (body y x img) y' x'
      = if (y' =? y) && (x' =? x) then upd y x (Img.get d img y x)
        else Img.get d img y' x'.

(** The mantissa of a finite number has at most [prec] digits. *)
Definition mantissa_bounded (prec : Z) (x : spec_float) : Prop :=
  match x with
  | S754_finite _ m _ => Zpos (digits2_pos m) <= prec
  | _ => True
  end.

(** The integer range of a sample of [bits] bits. *)
Definition sample_range (bits n : Z) : Prop := 0 <= n <= 2 ^ bits - 1.

(** A number that is zero, or finite with a mantissa of at most [prec]
    digits and an exponent of at most [k - prec]: its magnitude is below
    [2^k]. *)
Definition small (prec k : Z) (x : spec_float) : bool :=
  match x with
  | S754_zero _ => true
  | S754_finite _ m e => (Zpos (digits2_pos m) <=? prec) && (e <=? k - prec)
  | _ => false
  end.

(** On [double]: every finite IEEE double of magnitude below [2^k] has
    this form when [k >= -1021], and every finite one is [below 1024]. *)
Definition below (k : Z) (x : double) : bool := small F64.prec k x.

(** [(y, x)] lies in the clipped neighbourhood of [(y0, x0)], the window
    both inner loops of [DistToPeakMap] run over. *)
Definition in_window (field : ImageF) (r y0 x0 y x : Z) : Prop :=
  nb_y_min r y0 <= y < nb_y_max field r y0 /\
  nb_x_min r x0 <= x < nb_x_max field r x0.

(* ================================================================== *)
(** * pik.cc: byte order helpers                                       *)
(* ================================================================== *)

(** [void EncodeU32(const uint32_t val, uint8_t* dest)]: the four bytes
    stored at [dest[0..3]].  The source copies the object representation
    on a little-endian target and stores the bytes one by one elsewhere;
    both leave the same bytes, those of the second branch. *)
Definition EncodeU32 (val : Z) : list Z :=
  [Z.land (Z.shiftr val 0) 255;
   Z.land (Z.shiftr val 8) 255;
   Z.land (Z.shiftr val 16) 255;
   Z.land (Z.shiftr val 24) 255].

(** [uint32_t DecodeU32(const uint8_t* src)]; the accumulator is a
    [uint32_t], so every step is reduced modulo [2^32].  Reading fewer
    than four bytes is a read outside the buffer ([None]). *)
Definition DecodeU32 (src : list Z) : option Z :=
  match src with
  | b0 :: b1 :: b2 :: b3 :: _ =>
      let val := b3 in
      let val := Z.shiftl val 8 mod 2 ^ 32 in
      let val := (val + b2) mod 2 ^ 32 in
      let val := Z.shiftl val 8 mod 2 ^ 32 in
      let val := (val + b1) mod 2 ^ 32 in
      let val := Z.shiftl val 8 mod 2 ^ 32 in
      let val := (val + b0) mod 2 ^ 32 in
      Some val
  | _ => None
  end.

(** A [uint8_t]. *)
Definition is_byte (b : Z) : Prop := 0 <= b < 256.

(** The pixels of the distance map that tile [(tile_y, tile_x)] covers:
    those of its square that lie inside the image. *)
Definition in_tile (distmap : ImageF) (tile_size tile_y tile_x y x : Z) : Prop :=
  tile_size * tile_y <= y < Z.min (ysize distmap) (tile_size * (tile_y + 1)) /\
  tile_size * tile_x <= x < Z.min (xsize distmap) (tile_size * (tile_x + 1)).

(** [max_dist] of [TileDistMap] when the two inner loops are done. *)
Definition tile_max (distmap : ImageF) (tile_size tile_y tile_x : Z) : float :=
  for_range (tile_size * tile_y)
            (Z.min (ysize distmap) (tile_size * (tile_y + 1))) (fun y =>
    for_range (tile_size * tile_x)
              (Z.min (xsize distmap) (tile_size * (tile_x + 1)))
      (fun x max_dist => FP.max max_dist (RowF distmap y x)))
    (S754_zero false).

(** The instance of [StuckLoop] with a comparator that always answers
    distance 0. *)
Module CalmRun.
Definition run (fuel : nat) : option (FBQ StuckLoop.CompressedImageT bool) :=
    FindBestQuantization StuckLoop.CompressedImageT (fun _ => 2) (fun _ => 1)
      StuckLoop.SetQuantField (fun img => img) unit (fun _ => tt)
      bool (fun _ _ => true) (fun _ => F32.of_Z 0) StuckLoop.distmap_of
      StuckLoop.target StuckLoop.max_iters fuel StuckLoop.img0 false.
(** The state it returns. *)
Definition final : FBQ StuckLoop.CompressedImageT bool :=
    Eval vm_compute in default StuckLoop.s0 (run 3).
End CalmRun.

(** The instance of [StuckLoop] with a quantizer whose [SetQuantField]
    reports a change on every call. *)
Module EagerLoop.
Definition SetQuantField (dc : float) (qf : ImageF)
      (img : StuckLoop.CompressedImageT) : bool * StuckLoop.CompressedImageT :=
    (true, (dc, qf)).
Definition run (fuel : nat) : option (FBQ StuckLoop.CompressedImageT bool) :=
    FindBestQuantization StuckLoop.CompressedImageT (fun _ => 2) (fun _ => 1)
      SetQuantField (fun img => img) unit (fun _ => tt)
      bool (fun _ _ => true) StuckLoop.distance_of StuckLoop.distmap_of
      StuckLoop.target StuckLoop.max_iters fuel StuckLoop.img0 false.
End EagerLoop.

(** The orders [o] of the scalings recorded in a trace, oldest first. *)
Fixpoint scales (t : list event) : list Z :=
  match t with
  | [] => []
  | EvScale o :: t' => o :: scales t'
  | EvCompare :: t' => scales t'
  end.

(** A row of 7 blocks whose tile distance map has one peak, at the left
    end; the quantizer is left out. *)
Module FarBlock.
Definition tiles : ImageF :=
    mkImage 7 1 [F32.of_Z 20 :: replicate 6 (F32.of_Z 0)].
Definition field : ImageF := Img.fill 7 1 (F32.lit 5625 10000).
Definition state : FBQ unit unit :=
    mkFBQ unit unit tt tt field tiles 0 1 (F32.of_Z 4) [EvCompare].
Definition pass : ImageF * bool :=
    adjust_radii unit (fun _ => 7) (fun _ => 1) unit (F32.of_Z 1) state
                 (field, false).
End FarBlock.

(** An evaluator that also counts the calls of its [operator()]. *)
Definition counted_call {Eval : Type} (eval_call : Z -> Eval -> Z * Eval)
    (v : Z) (st : Eval * Z) : Z * (Eval * Z) :=
  let '(objval, ev') := eval_call v (fst st) in (objval, (ev', snd st + 1)).
Definition counted_SetVal {Eval : Type} (SetVal : Z -> Eval -> Eval)
    (v : Z) (st : Eval * Z) : Eval * Z :=
  (SetVal v (fst st), snd st).

(** A search state of the counting evaluator, and the one it stands for. *)
Definition uncounted {Eval : Type} (s : search (Eval * Z)) : search Eval :=
  (fst (fst s), snd (fst s), fst (snd s)).
Definition calls {Eval : Type} (s : search (Eval * Z)) : Z := snd (snd s).

(** The incumbent was kept, or replaced by a value of the interval with
    a strictly lower objective. *)
Definition kept_or_improved {Eval : Type} (minval maxval best_val best_objval : Z)
    (s : search Eval) : Prop :=
  (fst (fst s) = best_val /\ snd (fst s) = best_objval) \/
  (minval <= fst (fst s) <= maxval /\ snd (fst s) < best_objval).

(* ================================================================== *)
(** * pik.cc: the other entry points                                   *)
(* ================================================================== *)

Section PixelsToPik.
(** The input image type of the template, [Image3<T>] or [MetaImage<T>]. *)
Variable Image : Type.
Variable image_xsize image_ysize : Image -> Z.
Variable Image3F : Type.
Variable opsin_xsize opsin_ysize : Image3F -> Z.
Variable CompressToButteraugliDistance :
  Image3F -> CompressParams -> option (list Byte.byte).
Variable CompressToTargetSize_ :
  Image3F -> CompressParams -> Z -> option (list Byte.byte).
Variable CompressUniformQuant : Image3F -> float -> option (list Byte.byte).
Variable CompressFast : Image3F -> CompressParams -> option (list Byte.byte).
Variable StoreHeader : Header -> option (list Byte.byte).
(** [OpsinDynamicsImage(image)], of opsin_image.h. *)
Variable OpsinDynamicsImage : Image -> Image3F.
(** [image.HasAlpha()] and [image.GetAlpha()] of a [MetaImage]. *)
Variable AlphaPlane : Type.
Variable GetAlpha : Image -> option AlphaPlane.
(** [AlphaToPik(params, plane, &bytepos, compressed)] of pik_alpha.h:
    the bytes left in [compressed], [None] when it returns false. *)
Variable AlphaPlaneToPik :
  CompressParams -> AlphaPlane -> Z -> list Byte.byte -> option (list Byte.byte).

(** [AlphaToPik(params, const MetaImage<T>&, compressed, aux_out)]. *)
Definition AlphaToPik_MetaImage (params : CompressParams) (image : Image)
    (compressed : list Byte.byte) : status (list Byte.byte) :=
  match GetAlpha image with
  | None => PIK_FAILURE "Must have alpha if alpha_channel set"
  | Some plane =>
      let bytepos := Z.of_nat (length compressed) in
      match AlphaPlaneToPik params plane bytepos compressed with
      | None => ReturnFalse
      | Some compressed' => Ok compressed'
      end
  end.

(** [AlphaToPik(params, const Image3<T>&, compressed, aux_out)]. *)
Definition AlphaToPik_Image3 (params : CompressParams) (image : Image)
    (compressed : list Byte.byte) : status (list Byte.byte) :=
  PIK_FAILURE "Alpha not supported for Image3".

(** [bool PixelsToPikT(params, image, compressed, aux_out)];
    [AlphaToPik] is the overload the image type selects.  The outer
    [None] is a call that does not return. *)
Definition PixelsToPikT
    (AlphaToPik : CompressParams -> Image -> list Byte.byte
                  -> status (list Byte.byte))
    (params : CompressParams) (image : Image)
    : option (status (list Byte.byte)) :=
  if (image_xsize image =? 0) || (image_ysize image =? 0) then
    Some (PIK_FAILURE "Empty image")
  else
    match snd (OpsinToPik Image3F opsin_xsize opsin_ysize
                 CompressToButteraugliDistance CompressToTargetSize_
                 CompressUniformQuant CompressFast StoreHeader params
                 (OpsinDynamicsImage image)) with
    | None => None
    | Some (Ok compressed) =>
        if alpha_channel params then
          match AlphaToPik params image compressed with
          | Ok compressed' => Some (Ok compressed')
          | _ => Some ReturnFalse
          end
        else Some (Ok compressed)
    | Some _ => Some ReturnFalse
    end.
End PixelsToPik.

Section PikToPixelsImage3.
Variable LoadHeader : list Byte.byte -> option (Header * Z).
Variable kWebPLossless : Z.
Variable CompressedImage : Type.
Variable Decode : Z -> Z -> list Byte.byte -> option (CompressedImage * Z).
Variable Image3T : Type.
Variable ToImage3 : CompressedImage -> Image3T.
Variable AlphaT : Type.
Variable PikToAlpha :
  DecompressParams -> Z -> list Byte.byte -> option (AlphaT * Z).

(** [bool PikToPixelsT(params, compressed, Image3<T>* image, aux_out)],
    lines 683-695: on success the colour planes and the [decoded_size]
    the inner call left in [aux_out]. *)
Definition PikToPixelsT_Image3 (params : DecompressParams)
    (compressed : list Byte.byte) : status (Image3T * Z) :=
  match PikToPixelsT LoadHeader kWebPLossless CompressedImage Decode Image3T
          ToImage3 AlphaT PikToAlpha params compressed with
  | Ok (temp, decoded_size) =>
      match alpha _ _ temp with
      | Some _ => PIK_FAILURE "Unable to output alpha channel"
      | None => Ok (color _ _ temp, decoded_size)
      end
  | _ => ReturnFalse
  end.
End PikToPixelsImage3.

(** Toy images for [PixelsToPikT]: the two sizes and whether there is
    an alpha plane; the encoder is [ToyEncoder]'s and the alpha coder
    appends one byte. *)
Module ToyPixels.
Definition Image : Type := Z * Z * bool.
Definition run (Meta : bool) (params : CompressParams) (image : Image)
      : option (status (list Byte.byte)) :=
    PixelsToPikT Image (fun i => fst (fst i)) (fun i => snd (fst i))
      ToyEncoder.Image3F fst snd
      (fun _ _ => Some [Byte.x01]) (fun _ _ _ => Some [Byte.x02])
      (fun _ _ => Some [Byte.x03]) (fun _ _ => Some [Byte.x04])
      (fun _ => Some [Byte.x00; Byte.x00])
      (fun i => fst i)
      (if Meta
       then AlphaToPik_MetaImage Image unit
              (fun i => if snd i then Some tt else None)
              (fun _ _ _ c => Some (c ++ [Byte.xff]))
       else AlphaToPik_Image3 Image)
      params image.
Definition quant_alpha : CompressParams :=
    {| butteraugli_distance := F32.of_Z (-1); target_bitrate := F32.of_Z 0;
       uniform_quant := F32.of_Z 2; fast_mode := false;
       max_butteraugli_iters := 7; alpha_channel := true |}.
End ToyPixels.

(** [Ok] was not returned. *)
Definition not_ok {A : Type} (r : option (status A)) : Prop :=
  match r with Some (Ok _) => False | _ => True end.

(* ================================================================== *)
(** * yuv_convert.cc: the typed and image-level conversions            *)
(* ================================================================== *)

(** The template [RGBPixelToYUV(T r, T g, T b, int bits, uint16_t* y,
    uint16_t* u, uint16_t* v)], lines 114-122. *)
Definition RGBPixelToYUV_T (sizeof_T : Z) (r g b bits : Z)
    : option (Z * Z * Z) :=
  let norm := F64.div (F64.of_Z 1) (F64.of_Z (Z.shiftl 1 (8 * sizeof_T) - 1)) in
  let rd := F64.mul (F64.of_Z r) norm in
  let gd := F64.mul (F64.of_Z g) norm in
  let bd := F64.mul (F64.of_Z b) norm in
  RGBPixelToYUV rd gd bd bits.

(** Converting the 8-bit colour [(r, g, b)] to [bits]-bit YUV with the
    typed [RGBPixelToYUV] and back with the typed [YUVPixelToRGB] returns
    the colour. *)
Definition round_trips (bits r g b : Z) : bool :=
  match RGBPixelToYUV_T 1 r g b bits with
  | Some (y, u, v) =>
      match YUVPixelToRGB_T 1 y u v bits with
      | Some (r', g', b') => (r' =? r) && (g' =? g) && (b' =? b)
      | None => false
      end
  | None => false
  end.


(* ================================================================== *)
(** * compressed_image.h and pik.cc: the Y-to-B correlation search     *)
(* ================================================================== *)

Section YToBAccessors.
Variable Rest : Type.

(** compressed_image.h: [float YToBDC() const { return ytob_dc_ / 128.0f; }]. *)
Definition YToBDC (img : CompressedImage Rest) : float :=
  F32.div (F32.of_Z (ytob_dc_ Rest img)) (F32.of_Z 128).

(** [float YToBAC(int tx, int ty) const
    { return ytob_ac_.Row(ty)[tx] / 128.0f; }]. *)
Definition YToBAC (tx ty : Z) (img : CompressedImage Rest) : float :=
  F32.div (F32.of_Z (Img.get 0 (ytob_ac_ Rest img) ty tx)) (F32.of_Z 128).

(** [void SetYToBDC(int ytob) { ytob_dc_ = ytob; }]. *)
Definition SetYToBDC (ytob : Z) (img : CompressedImage Rest)
    : CompressedImage Rest :=
  mkCI Rest (xsize_ Rest img) (ysize_ Rest img) ytob (ytob_ac_ Rest img)
       (dct_coeffs_ Rest img) (rest_ Rest img).
End YToBAccessors.

Section FindBestYToBCorrelation.
Variable Rest : Type.
(** The [const] members [tile_xsize_] and [tile_ysize_] of the image,
    which [tile_xsize()] and [tile_ysize()] return. *)
Variable tile_xsize_ tile_ysize_ : Z.
(** [CompressedImage::Quantize] and [CompressedImage::QuantizeBlock]. *)
Variable Quantize : CompressedImage Rest -> CompressedImage Rest.
Variable QuantizeBlock : Z -> Z -> CompressedImage Rest -> CompressedImage Rest.
Variable Token : Type.
Context `{EqDecision Token}.
Variable ACBlockProcessor : Type.
(** A default-constructed [ACBlockProcessor]. *)
Variable ACBlockProcessor_new : ACBlockProcessor.
Variable Reset : ACBlockProcessor -> ACBlockProcessor.
Variable ProcessBlock :
  list Z -> Z -> Z -> Z -> ACBlockProcessor -> ACBlockProcessor * list Token.
Variable dc_tokens : list (list (list Z)) -> list Token.
Variable EncodedSize : HistogramBuilder Token -> Z.

(** [EvalGlobalYToB::SetVal], lines 279-287. *)
Definition EvalGlobalYToB_SetVal (ytob : Z) (img : CompressedImage Rest)
    : CompressedImage Rest :=
  let img1 := SetYToBDC Rest ytob img in
  let img2 :=
    for_range 0 tile_ysize_ (fun tiley =>
      for_range 0 tile_xsize_ (fun tilex img =>
        SetYToBAC Rest tilex tiley ytob img)) img1 in
  Quantize img2.

(** [EvalGlobalYToB::operator()], lines 288-297: the size and the image
    the evaluator points to; the sum is a [size_t]. *)
Definition EvalGlobalYToB_call (ytob : Z) (img : CompressedImage Rest)
    : Z * CompressedImage Rest :=
  let img' := EvalGlobalYToB_SetVal ytob img in
  let dc_histo := ProcessImage3_DC Rest Token dc_tokens img' (new_histo Token) in
  let ac_histo :=
    snd (ProcessImage3_AC Rest Token ACBlockProcessor Reset ProcessBlock img'
           (ACBlockProcessor_new, new_histo Token)) in
  ((EncodedSize dc_histo + EncodedSize ac_histo) mod 2 ^ 64, img').

Definition kStartYToB : Z := 120.

(** Body of the two loops of [FindBestYToBCorrelation], lines 382-383,
    on [best_size] and [eval_local]; [None] when [Optimize] is
    undefined. *)
Definition optimize_tile (global_ytob tiley tilex : Z)
    (acc : Z * EvalLocalYToB Rest Token ACBlockProcessor)
    : option (Z * EvalLocalYToB Rest Token ACBlockProcessor) :=
  let '(best_size, eval_local) := acc in
  let eval_local := SetTile Rest Token ACBlockProcessor tilex tiley eval_local in
  r ← Optimize (EvalLocalYToB Rest Token ACBlockProcessor)
        (EvalLocalYToB_call Rest QuantizeBlock Token ACBlockProcessor Reset
           ProcessBlock EncodedSize)
        (SetVal Rest QuantizeBlock Token ACBlockProcessor Reset ProcessBlock)
        eval_local 0 255 global_ytob best_size;
  let '(_, best_size, eval_local) := r in
  Some (best_size, eval_local).

(** [void FindBestYToBCorrelation(CompressedImage* img)]: the image it
    leaves, with [global_ytob] and the last [best_size]. *)
Definition FindBestYToBCorrelation (img : CompressedImage Rest)
    : option (Z * Z * CompressedImage Rest) :=
  let '(best_size, img) := EvalGlobalYToB_call kStartYToB img in
  r ← Optimize (CompressedImage Rest) EvalGlobalYToB_call EvalGlobalYToB_SetVal
               img 0 255 kStartYToB best_size;
  let '(global_ytob, best_size, img) := r in
  let eval_local :=
    EvalLocalYToB_new Rest Token ACBlockProcessor Reset ProcessBlock dc_tokens
                      img ACBlockProcessor_new in
  r ← for_range 0 tile_ysize_ (fun tiley =>
        for_range 0 tile_xsize_ (fun tilex acc =>
          a ← acc; optimize_tile global_ytob tiley tilex a))
        (Some (best_size, eval_local));
  let '(best_size, eval_local) := r in
  Some (global_ytob, best_size, el_img Rest Token ACBlockProcessor eval_local).
End FindBestYToBCorrelation.

(** Every Y-to-B value of the plane fits a byte. *)
Definition ytob_bytes (plane : Image Z) : Prop :=
  forall ty tx, in_image plane ty tx -> 0 <= Img.get 0 plane ty tx <= 255.



(** The plane of a well-formed image of the tile sizes. *)
Definition tile_plane (tile_xsize_ tile_ysize_ : Z) (plane : Image Z) : Prop :=
  Img.wf plane /\ xsize plane = tile_xsize_ /\ ysize plane = tile_ysize_.

(** The Y-to-B values of an image after the global stage chose [g]: the
    DC value is [g], and the plane of the tiles has the tile sizes and
    holds bytes. *)
Definition ytob_ok {Rest : Type} (tile_xsize_ tile_ysize_ g : Z)
    (img : CompressedImage Rest) : Prop :=
  ytob_dc_ Rest img = g /\
  tile_plane tile_xsize_ tile_ysize_ (ytob_ac_ Rest img) /\
  ytob_bytes (ytob_ac_ Rest img).

(** The search on the toy image of [ToyTile], whose single tile holds
    128; [Quantize] does nothing. *)
Module ToyCorrelation.
Definition run : option (Z * Z * ToyTile.CImage) :=
  FindBestYToBCorrelation unit 1 1 (fun img => img) ToyTile.QuantizeBlock Z unit
    tt (fun p => p) ToyTile.ProcessBlock ToyTile.dc_tokens ToyTile.EncodedSize
    ToyTile.image.
End ToyCorrelation.

(** A toy container for the round trip through [OpsinToPik] and
    [PikToPixelsT]: the header is three bytes (width, height, flags), so
    only headers whose fields are bytes can be stored; every compressor
    writes the single byte naming it, and [Decode] accepts any payload and
    reads all of it. *)
Module ToyCodec.
Definition byte_of (n : Z) : Byte.byte :=
    default Byte.x00 (Byte.of_N (Z.to_N n)).
Definition is_byteb (n : Z) : bool := (0 <=? n) && (n <? 256).
Definition StoreHeader (h : Header) : option (list Byte.byte) :=
    if is_byteb (h_xsize h) && is_byteb (h_ysize h) && is_byteb (h_flags h)
    then Some [byte_of (h_xsize h); byte_of (h_ysize h); byte_of (h_flags h)]
    else None.
Definition Decode (xs ys : Z) (data : list Byte.byte)
      : option (list Byte.byte * Z) :=
    Some (data, Z.of_nat (length data)).
Definition encode (params : CompressParams) (opsin : Z * Z)
      : list mode * option (status (list Byte.byte)) :=
    OpsinToPik (Z * Z) fst snd
      (fun _ _ => Some [Byte.x01]) (fun _ _ _ => Some [Byte.x02])
      (fun _ _ => Some [Byte.x03]) (fun _ _ => Some [Byte.x04])
      StoreHeader params opsin.
Definition decode (params : DecompressParams) (b : list Byte.byte)
      : status (MetaImage (list Byte.byte) unit * Z) :=
    PikToPixelsT ToyDecoder.LoadHeader 2 (list Byte.byte) Decode
                 (list Byte.byte) (fun img => img) unit
                 (fun _ _ _ => Some (tt, 0)) params b.
End ToyCodec.


(* ================================================================== *)
(** * yuv_convert.cc: the image-level conversions                      *)
(* ================================================================== *)

(** [Image3<T>]: three planes of the same size. *)
Definition Image3 (A : Type) : Type := Image A * Image A * Image A.
Definition xsize3 {A : Type} (img : Image3 A) : Z := xsize (fst (fst img)).
Definition ysize3 {A : Type} (img : Image3 A) : Z := ysize (fst (fst img)).

(** [row[0][x]], [row[1][x]] and [row[2][x]] for [row = img.Row(y)],
    read and written. *)
Definition Row3 (img : Image3 Z) (y x : Z) : Z * Z * Z :=
  let '(p0, p1, p2) := img in
  (Img.get 0 p0 y x, Img.get 0 p1 y x, Img.get 0 p2 y x).
Definition SetRow3 (img : Image3 Z) (y x : Z) (v : Z * Z * Z) : Image3 Z :=
  let '(p0, p1, p2) := img in
  let '(a, b, c) := v in
  (Img.set p0 y x a, Img.set p1 y x b, Img.set p2 y x c).

(** [void YUVRec709ImageToRGB(const Image3U& yuv, int bit_depth,
    Image3<T>* rgb)], lines 128-139; [None] when a pixel conversion is
    undefined. *)
Definition YUVRec709ImageToRGB (sizeof_T : Z) (yuv : Image3 Z) (bit_depth : Z)
    (rgb : Image3 Z) : option (Image3 Z) :=
  for_range 0 (ysize3 yuv) (fun y =>
    for_range 0 (xsize3 yuv) (fun x acc =>
      rgb ← acc;
      p ← (let '(yv, uv, vv) := Row3 yuv y x in
           YUVPixelToRGB_T sizeof_T yv uv vv bit_depth);
      Some (SetRow3 rgb y x p))) (Some rgb).

(** [Image3B RGB8ImageFromYUVRec709(yuv, bit_depth)] and
    [Image3U RGB16ImageFromYUVRec709(yuv, bit_depth)]; [fresh] is what
    the local [rgb(yuv.xsize(), yuv.ysize())] holds when it is
    constructed, which the constructor does not specify. *)
Definition RGB8ImageFromYUVRec709 (fresh : Image3 Z) (yuv : Image3 Z)
    (bit_depth : Z) : option (Image3 Z) :=
  YUVRec709ImageToRGB 1 yuv bit_depth fresh.
Definition RGB16ImageFromYUVRec709 (fresh : Image3 Z) (yuv : Image3 Z)
    (bit_depth : Z) : option (Image3 Z) :=
  YUVRec709ImageToRGB 2 yuv bit_depth fresh.

(** [void RGBImageToYUVRec709(const Image3<T>& rgb, int bit_depth,
    Image3U* yuv)], lines 170-181. *)
Definition RGBImageToYUVRec709 (sizeof_T : Z) (rgb : Image3 Z) (bit_depth : Z)
    (yuv : Image3 Z) : option (Image3 Z) :=
  for_range 0 (ysize3 rgb) (fun y =>
    for_range 0 (xsize3 rgb) (fun x acc =>
      yuv ← acc;
      p ← (let '(r, g, b) := Row3 rgb y x in
           RGBPixelToYUV_T sizeof_T r g b bit_depth);
      Some (SetRow3 yuv y x p))) (Some yuv).

(** [Image3U YUVRec709ImageFromRGB8(rgb, out_bit_depth)] and
    [Image3U YUVRec709ImageFromRGB16(rgb, out_bit_depth)]. *)
Definition YUVRec709ImageFromRGB8 (fresh : Image3 Z) (rgb : Image3 Z)
    (out_bit_depth : Z) : option (Image3 Z) :=
  RGBImageToYUVRec709 1 rgb out_bit_depth fresh.
Definition YUVRec709ImageFromRGB16 (fresh : Image3 Z) (rgb : Image3 Z)
    (out_bit_depth : Z) : option (Image3 Z) :=
  RGBImageToYUVRec709 2 rgb out_bit_depth fresh.

(** Three well-formed planes of the same size. *)
Definition wf3 (img : Image3 Z) : Prop :=
  let '(p0, p1, p2) := img in
  Img.wf p0 /\ Img.wf p1 /\ Img.wf p2 /\
  xsize p1 = xsize p0 /\ ysize p1 = ysize p0 /\
  xsize p2 = xsize p0 /\ ysize p2 = ysize p0.

Definition in_image3 (img : Image3 Z) (y x : Z) : Prop :=
  0 <= y < ysize3 img /\ 0 <= x < xsize3 img.

(** Every sample of the image is a [bits]-bit value. *)
Definition samples3 (bits : Z) (img : Image3 Z) : Prop :=
  forall y x, in_image3 img y x ->
    let '(a, b, c) := Row3 img y x in
    sample_range bits a /\ sample_range bits b /\ sample_range bits c.

(** [out] is a well-formed image of the sizes of [src] whose every pixel
    is the conversion of the pixel of [src] at the same place. *)
Definition pixelwise (conv : Z * Z * Z -> option (Z * Z * Z))
    (src out : Image3 Z) : Prop :=
  wf3 out /\ xsize3 out = xsize3 src /\ ysize3 out = ysize3 src /\
  forall y x, in_image3 src y x -> conv (Row3 src y x) = Some (Row3 out y x).

(** The pixels converted when the two loops stand at row [k], column
    [j]. *)
Definition converted_to (conv : Z * Z * Z -> option (Z * Z * Z))
    (src : Image3 Z) (k j : Z) (out : Image3 Z) : Prop :=
  wf3 out /\ xsize3 out = xsize3 src /\ ysize3 out = ysize3 src /\
  forall y x, in_image3 src y x -> y < k \/ (y = k /\ x < j) ->
              conv (Row3 src y x) = Some (Row3 out y x).

(** Three small images: a 2 x 1 colour image, a 2 x 1 image holding
    other values, and a 2 x 1 grey image. *)
Module ToyImage3.
Definition rgb : Image3 Z :=
  (mkImage 2 1 [[255; 0]], mkImage 2 1 [[255; 0]], mkImage 2 1 [[255; 200]]).
Definition junk : Image3 Z :=
  (mkImage 2 1 [[7; 7]], mkImage 2 1 [[8; 8]], mkImage 2 1 [[9; 9]]).
Definition grey : Image3 Z :=
  (mkImage 2 1 [[17; 200]], mkImage 2 1 [[17; 200]], mkImage 2 1 [[17; 200]]).
End ToyImage3.


(** Every pixel of the image is an 8-bit grey. *)
Definition grey8 (img : Image3 Z) : Prop :=
  forall y x, in_image3 img y x ->
    exists n, 0 <= n <= 255 /\ Row3 img y x = (n, n, n).


(** The square neighbourhood of radius [r] around [(y0, x0)], clipped
    to the field. *)
Definition neighbourhood (field : ImageF) (r y0 x0 y x : Z) : Prop :=
  in_image field y x /\ cheb y x y0 x0 <= r.

(** [m] is the maximum of [tau] and the cells of the neighbourhood: it
    is one of them, it is not below [tau], and no cell is above it. *)
Definition neighbourhood_max (field : ImageF) (tau : float) (r y0 x0 : Z)
    (m : float) : Prop :=
  (m = tau \/ exists y x, neighbourhood field r y0 x0 y x /\ m = RowF field y x) /\
  (FP.is_nan tau = false -> FP.leb tau m = true) /\
  (forall y x, neighbourhood field r y0 x0 y x -> FP.ltb m (RowF field y x) = false).

(** [t > (1 - w) * tau + w * m], every operation rounded to [float]. *)
Definition above_threshold (t tau w m : float) : bool :=
  FP.gtb t (F32.add (F32.mul (F32.sub (F32.of_Z 1) w) tau) (F32.mul w m)).

(** [(y0, x0)] is a peak: a cell of the field above the threshold taken
    at the maximum of [tau] and its neighbourhood. *)
Definition peak (field : ImageF) (tau : float) (r : Z) (w : float)
    (y0 x0 : Z) : Prop :=
  in_image field y0 x0 /\
  exists m, neighbourhood_max field tau r y0 x0 m /\
            above_threshold (RowF field y0 x0) tau w m = true.

(** [v] is the least Chebyshev distance from [(y, x)] to a peak whose
    neighbourhood holds [(y, x)]. *)
Definition least_peak_distance (field : ImageF) (tau : float) (r : Z)
    (w : float) (y x v : Z) : Prop :=
  (exists y0 x0, peak field tau r w y0 x0 /\ cheb y x y0 x0 <= r /\
                 cheb y x y0 x0 = v) /\
  (forall y0 x0, peak field tau r w y0 x0 -> cheb y x y0 x0 <= r ->
                 v <= cheb y x y0 x0).

(** Two floats that compare equal: the same float, or two zeros. *)
Definition same_value (a b : float) : Prop :=
  a = b \/ exists s s', a = S754_zero s /\ b = S754_zero s'.


(** A field of 2 x 1 cells whose left cell equals [0.65 * 380]. *)
Module RoundedField.
Definition field : ImageF := mkImage 2 1 [[F32.of_Z 247; F32.of_Z 380]].
Definition weight : float := F64.to_f32 (F64.lit 65 100).
Definition map : ImageF := DistToPeakMap field (F32.of_Z 0) 1 weight.
End RoundedField.



(** The initial quantization value [q] after the scalings of orders 1
    to [n]: [q], [q * kQuantScale[1]], [q * kQuantScale[1] * kQuantScale[2]]. *)
Definition scaled_quant (q : float) (n : Z) : float :=
  foldl (fun q o => F32.mul q (array_get kQuantScale o)) q (seqZ 1 n).

(** The field holds [v] in every block of a grid of [xs] by [ys]. *)
Definition uniform_field (qf : ImageF) (xs ys : Z) (v : float) : Prop :=
  Img.wf qf /\ xsize qf = xs /\ ysize qf = ys /\
  forall y x, 0 <= y < ys -> 0 <= x < xs -> RowF qf y x = v.

(* ================================================================== *)
(** * Properties                                                       *)
(* ================================================================== *)

(** ** Floating-point comparisons *)

Lemma SFcompare_antisym (x y : spec_float) (c : comparison) :
  SFcompare x y = Some c -> SFcompare y x = Some (CompOpp c).
Proof.
  destruct x as [sx|sx| |sx mx ex], y as [sy|sy| |sy my ey]; simpl;
    try discriminate;
    try (intros [= <-]; repeat match goal with b : bool |- _ => destruct b end;
         reflexivity).
  intros [= <-]. f_equal.
  assert (Hm : Pos.compare_cont Eq my mx = CompOpp (Pos.compare_cont Eq mx my))
    by (rewrite Pos.compare_cont_antisym; reflexivity).
  destruct sx, sy; try reflexivity;
    rewrite (Z.compare_antisym ex ey), Hm;
    destruct (ex ?= ey); simpl; try reflexivity;
    rewrite ?CompOpp_involutive; reflexivity.
Qed.

Lemma SFcompare_None (x y : spec_float) :
  SFcompare x y = None <-> FP.is_nan x = true \/ FP.is_nan y = true.
Proof.
  destruct x, y; simpl; split; try discriminate; try tauto;
    intros [H | H]; discriminate.
Qed.

Lemma ltb_asym (x y : spec_float) : FP.ltb x y = true -> FP.ltb y x = false.
Proof.
  unfold FP.ltb, SFltb. destruct (SFcompare x y) as [[]|] eqn:E; try discriminate.
  intros _. rewrite (SFcompare_antisym _ _ _ E). reflexivity.
Qed.

Lemma ltb_leb (x y : spec_float) : FP.ltb x y = true -> FP.leb x y = true.
Proof.
  unfold FP.ltb, FP.leb, SFltb, SFleb.
  destruct (SFcompare x y) as [[]|]; congruence.
Qed.

Lemma ltb_not_geb (x y : spec_float) : FP.ltb x y = true -> FP.geb x y = false.
Proof.
  unfold FP.ltb, FP.geb, SFltb, SFleb.
  destruct (SFcompare x y) as [[]|] eqn:E; try discriminate.
  intros _. rewrite (SFcompare_antisym _ _ _ E). reflexivity.
Qed.

Lemma ltb_irrefl (x : spec_float) : FP.ltb x x = false.
Proof.
  destruct (FP.ltb x x) eqn:E; [|reflexivity].
  pose proof (ltb_asym _ _ E). congruence.
Qed.

Lemma leb_refl (x : spec_float) : FP.is_nan x = false -> FP.leb x x = true.
Proof.
  intros Hx. unfold FP.leb, SFleb.
  destruct (SFcompare x x) as [c|] eqn:E.
  - pose proof (SFcompare_antisym _ _ _ E) as E'. rewrite E in E'.
    destruct c; try reflexivity; discriminate.
  - apply SFcompare_None in E. destruct E; congruence.
Qed.

(** A comparison of two numbers is decided one way or the other. *)
Lemma not_ltb_geb (x y : spec_float) :
  FP.is_nan x = false -> FP.is_nan y = false ->
  FP.ltb x y = false -> FP.geb x y = true.
Proof.
  intros Hx Hy. unfold FP.ltb, FP.geb, SFltb, SFleb.
  destruct (SFcompare x y) as [c|] eqn:E.
  - rewrite (SFcompare_antisym _ _ _ E). destruct c; simpl; congruence.
  - apply SFcompare_None in E. destruct E; congruence.
Qed.

Lemma max_not_below (a b : spec_float) : FP.ltb (FP.max a b) a = false.
Proof.
  unfold FP.max. destruct (FP.ltb a b) eqn:E.
  - apply ltb_asym, E.
  - apply ltb_irrefl.
Qed.

Lemma max_above (a b : spec_float) :
  FP.is_nan a = false -> FP.leb a (FP.max a b) = true.
Proof.
  intros Ha. unfold FP.max. destruct (FP.ltb a b) eqn:E.
  - apply ltb_leb, E.
  - apply leb_refl, Ha.
Qed.

(** ** Rounding never invents a NaN *)

Section Rounding.
Variables prec emax : Z.

Lemma iter_pos_inv {A : Type} (P : A -> Prop) (f : A -> A) :
    (forall x, P x -> P (f x)) ->
    forall (n : positive) (x : A), P x -> P (SpecFloat.iter_pos f n x).
Proof.
    intros Hf. induction n as [n IH|n IH|]; intros x Hx; simpl; auto.
Qed.

Lemma shr_1_nonneg (mrs : shr_record) :
    0 <= shr_m mrs -> 0 <= shr_m (shr_1 mrs).
Proof.
    destruct mrs as [m r s]. simpl.
    destruct m as [|[p|p|]|p]; simpl; lia.
Qed.

Lemma shr_nonneg (mrs : shr_record) (e n : Z) :
    0 <= shr_m mrs -> 0 <= shr_m (fst (shr mrs e n)).
Proof.
    intros H. destruct n as [|p|p]; simpl; auto.
    apply (iter_pos_inv (fun r => 0 <= shr_m r)); auto using shr_1_nonneg.
Qed.

Lemma shr_record_of_loc_m (m : Z) (l : location) :
    shr_m (shr_record_of_loc m l) = m.
Proof. destruct l as [|[]]; reflexivity. Qed.

Lemma shr_fexp_nonneg (m e : Z) (l : location) :
    0 <= m -> 0 <= shr_m (fst (shr_fexp prec emax m e l)).
Proof.
    intros H. unfold shr_fexp. apply shr_nonneg.
    rewrite shr_record_of_loc_m. exact H.
Qed.

Lemma round_nearest_even_nonneg (m : Z) (l : location) :
    0 <= m -> 0 <= round_nearest_even m l.
Proof.
    intros H. destruct l as [|[]]; simpl; try lia.
    destruct (Z.even m); lia.
Qed.

Lemma binary_round_aux_not_nan (s : bool) (m e : Z) (l : location) :
    0 <= m -> FP.is_nan (binary_round_aux prec emax s m e l) = false.
Proof.
    intros H. unfold binary_round_aux.
    pose proof (shr_fexp_nonneg m e l H) as H1.
    destruct (shr_fexp prec emax m e l) as [mrs' e']. simpl in H1.
    pose proof (shr_fexp_nonneg _ e' loc_Exact
                  (round_nearest_even_nonneg _ (loc_of_shr_record mrs') H1)) as H2.
    destruct (shr_fexp prec emax _ e' loc_Exact) as [mrs'' e''].
    simpl in H2. destruct (shr_m mrs''); try lia; try reflexivity.
    destruct (e'' <=? emax - prec); reflexivity.
Qed.

Lemma binary_round_not_nan (s : bool) (m : positive) (e : Z) :
    FP.is_nan (binary_round prec emax s m e) = false.
Proof.
    unfold binary_round. destruct (shl_align _ _ _) as [mz ez].
    apply binary_round_aux_not_nan. lia.
Qed.

Lemma binary_normalize_not_nan (m e : Z) (sz : bool) :
    FP.is_nan (binary_normalize prec emax m e sz) = false.
Proof.
    destruct m; simpl; auto using binary_round_not_nan.
Qed.

Lemma SFdiv_core_nonneg (m1 : positive) (e1 : Z) (m2 : positive) (e2 : Z) :
    0 <= fst (fst (SFdiv_core_binary prec emax (Zpos m1) e1 (Zpos m2) e2)).
Proof.
    unfold SFdiv_core_binary.
    set (s := _ - _ - _). set (m' := match s with Z0 => _ | Zpos _ => _ | Zneg _ => _ end).
    assert (Hm' : 0 <= m').
    { unfold m'. destruct s; try lia. apply Z.shiftl_nonneg. lia. }
    pose proof (Z_div_mod m' (Zpos m2) eq_refl) as Hdm.
    destruct (Z.div_eucl m' (Zpos m2)) as [q r]. simpl.
    destruct Hdm as [Hq Hr]. nia.
Qed.

(** A quotient is a NaN only for a NaN operand, [inf / inf] and [0 / 0]. *)
Lemma SFdiv_finite_not_nan (x y : spec_float) :
    FP.is_finite x = true -> FP.is_nan y = false ->
    (forall s, x = S754_zero s -> forall t, y <> S754_zero t) ->
    FP.is_nan (SFdiv prec emax x y) = false.
Proof.
    intros Hx Hy Hz.
    destruct x as [sx|sx| |sx mx ex], y as [sy|sy| |sy my ey];
      try discriminate; try reflexivity.
    - exfalso. exact (Hz sx eq_refl sy eq_refl).
    - simpl.
      pose proof (SFdiv_core_nonneg mx ex my ey) as H.
      destruct (SFdiv_core_binary prec emax (Zpos mx) ex (Zpos my) ey) as [[mz ez] lz].
      apply binary_round_aux_not_nan. exact H.
Qed.

(** Sums, differences and products of finite numbers are never NaN. *)
Lemma SFmul_finite_not_nan (x y : spec_float) :
    FP.is_finite x = true -> FP.is_finite y = true ->
    FP.is_nan (SFmul prec emax x y) = false.
Proof.
    destruct x, y; try discriminate; try reflexivity.
    intros _ _. simpl. apply binary_round_aux_not_nan. lia.
Qed.

Lemma SFadd_finite_not_nan (x y : spec_float) :
    FP.is_nan x = false -> FP.is_finite y = true ->
    FP.is_nan (SFadd prec emax x y) = false.
Proof.
    destruct x as [sx|sx| |sx mx ex], y as [sy|sy| |sy my ey];
      try discriminate; try reflexivity; intros _ _; simpl.
    - destruct sx, sy; reflexivity.
    - apply binary_normalize_not_nan.
Qed.

Lemma SFadd_finite_not_nan_l (x y : spec_float) :
    FP.is_finite x = true -> FP.is_nan y = false ->
    FP.is_nan (SFadd prec emax x y) = false.
Proof.
    destruct x as [sx|sx| |sx mx ex], y as [sy|sy| |sy my ey];
      try discriminate; try reflexivity; intros _ _; simpl.
    - destruct sx, sy; reflexivity.
    - apply binary_normalize_not_nan.
Qed.

Lemma SFsub_finite_not_nan (x y : spec_float) :
    FP.is_nan x = false -> FP.is_finite y = true ->
    FP.is_nan (SFsub prec emax x y) = false.
Proof.
    destruct x as [sx|sx| |sx mx ex], y as [sy|sy| |sy my ey];
      try discriminate; try reflexivity; intros _ _; simpl.
    - destruct sx, sy; reflexivity.
    - apply binary_normalize_not_nan.
Qed.

(** A product with a finite non-zero factor is a NaN only for a NaN. *)
Lemma SFmul_nonzero_not_nan (x y : spec_float) (s : bool) (m : positive) (e : Z) :
    x = S754_finite s m e -> FP.is_nan y = false ->
    FP.is_nan (SFmul prec emax x y) = false.
Proof.
    intros -> Hy. destruct y; try discriminate; try reflexivity.
    simpl. apply binary_round_aux_not_nan. lia.
Qed.
End Rounding.

Lemma ltb_zero_pos (x : spec_float) :
  FP.ltb (S754_zero false) x = true ->
  x = S754_infinity false \/ exists m e, x = S754_finite false m e.
Proof.
  destruct x as [s|[]| |[] m e]; try discriminate; eauto.
Qed.

(** ** AdjustQuantVal *)


(** C2, as stated, fails at [q = 1], [d = 0], [factor = 0], [qmax = 4]:
    the call returns true although it leaves [q = 1] as it was, and
    afterwards [1/q = 1] is not below [1/qmax = 0.25]. *)
Lemma AdjustQuantVal_true_without_change :
  let q := F32.of_Z 1 in
  let qmax := F32.of_Z 4 in
  let r := AdjustQuantVal q (F32.of_Z 0) (F32.of_Z 0) qmax in
  FP.ltb (S754_zero false) q = true /\
  FP.leb (S754_zero false) (F32.of_Z 0) = true /\
  FP.ltb (S754_zero false) qmax = true /\
  fst r = true /\ snd r = q /\
  FP.leb (F32.div (F32.of_Z 1) (snd r)) (F32.div (F32.of_Z 1) qmax) = false.
Proof. vm_compute. repeat split; reflexivity. Qed.

(** The bound on the denominator does not carry over to the new [q]: at
    [qmax = 3.9f], [q = 1], [d = 0], [factor = 100] the denominator is
    the rounded [1/qmax] and its rounded reciprocal is the binary32
    value next above [qmax]. *)
Lemma AdjustQuantVal_above_quant_max :
  let qmax := F32.lit 39 10 in
  let r := AdjustQuantVal (F32.of_Z 1) (F32.of_Z 0) (F32.of_Z 100) qmax in
  qmax = S754_finite false 16357786 (-22) /\
  r = (true, S754_finite false 16357787 (-22)) /\
  adjusted_recip (F32.of_Z 1) (F32.of_Z 0) (F32.of_Z 100) qmax
    = F32.div (F32.of_Z 1) qmax /\
  FP.gtb (snd r) qmax = true.
Proof. vm_compute. repeat split; reflexivity. Qed.

(** C2, amended: for [qmax > 0], [AdjustQuantVal] returns false exactly
    when [q >= 0.999 * qmax], and then leaves [q] alone; when
    [q < 0.999 * qmax] it returns true and sets
    [q := 1 / max(1/qmax, 1/q - factor/(d+1))]; after a call that returned
    true the denominator of the new [q] is at least [1/qmax]. *)
Theorem AdjustQuantVal_spec (q d factor quant_max : float) :
  FP.ltb (S754_zero false) quant_max = true ->
  let r := AdjustQuantVal q d factor quant_max in
  (fst r = false <-> FP.geb q (adjust_threshold quant_max) = true) /\
  (fst r = false -> snd r = q) /\
  (FP.ltb q (adjust_threshold quant_max) = true ->
   fst r = true /\
   snd r = F32.div (F32.of_Z 1) (adjusted_recip q d factor quant_max)) /\
  (fst r = true ->
   snd r = F32.div (F32.of_Z 1) (adjusted_recip q d factor quant_max) /\
   FP.leb (F32.div (F32.of_Z 1) quant_max)
          (adjusted_recip q d factor quant_max) = true).
Proof.
  intros Hqmax r. subst r. unfold AdjustQuantVal.
  fold (adjust_threshold quant_max). fold (adjusted_recip q d factor quant_max).
  assert (Hrecip : FP.is_nan (F32.div (F32.of_Z 1) quant_max) = false).
  { apply SFdiv_finite_not_nan.
    - reflexivity.
    - destruct quant_max; try reflexivity; discriminate.
    - intros s Hs. vm_compute in Hs. discriminate. }
  destruct (FP.geb q (adjust_threshold quant_max)) eqn:Hge; cbn [fst snd].
  - split; [tauto|]. split; [reflexivity|]. split; [|discriminate].
    intros Hlt. apply ltb_not_geb in Hlt. congruence.
  - split; [split; discriminate|]. split; [discriminate|].
    split; intros _; split; try reflexivity.
    apply max_above, Hrecip.
Qed.

Lemma AdjustQuantVal_spec_witness :
  let r := AdjustQuantVal (F32.of_Z 1) (F32.of_Z 0) (F32.of_Z 2) (F32.of_Z 4) in
  FP.ltb (S754_zero false) (F32.of_Z 4) = true /\
  fst r = true /\
  snd r = F32.of_Z 4.
Proof.
  split; [reflexivity|].
  pose proof (AdjustQuantVal_spec (F32.of_Z 1) (F32.of_Z 0) (F32.of_Z 2)
                (F32.of_Z 4) eq_refl) as (_ & _ & H & _).
  destruct (H eq_refl) as [H1 H2]. split; [exact H1|].
  rewrite H2. vm_compute. reflexivity.
Defined.

(** ** Mode selection of the encoder *)



Section OpsinToPikProps.
Variable Image3F : Type.
Variable opsin_xsize opsin_ysize : Image3F -> Z.
Variable CompressToButteraugliDistance :
    Image3F -> CompressParams -> option (list Byte.byte).
Variable CompressToTargetSize_ :
    Image3F -> CompressParams -> Z -> option (list Byte.byte).
Variable CompressUniformQuant : Image3F -> float -> option (list Byte.byte).
Variable CompressFast : Image3F -> CompressParams -> option (list Byte.byte).
Variable StoreHeader : Header -> option (list Byte.byte).

Let run := OpsinToPik Image3F opsin_xsize opsin_ysize
               CompressToButteraugliDistance CompressToTargetSize_
               CompressUniformQuant CompressFast StoreHeader.





End OpsinToPikProps.


(** ** Size limits of the decoder *)

Section PikToPixelsTProps.
Variable LoadHeader : list Byte.byte -> option (Header * Z).
Variable kWebPLossless : Z.
Variable CompressedImage : Type.
Variable Decode : Z -> Z -> list Byte.byte -> option (CompressedImage * Z).
Variable Image3T : Type.
Variable ToImage3 : CompressedImage -> Image3T.
Variable AlphaT : Type.
Variable PikToAlpha :
    DecompressParams -> Z -> list Byte.byte -> option (AlphaT * Z).

(** The header fields are [uint32_t]. *)
Hypothesis LoadHeader_u32 : forall b header header_end,
    LoadHeader b = Some (header, header_end) ->
    0 <= h_xsize header < 2 ^ 32 /\ 0 <= h_ysize header < 2 ^ 32.

Let run := PikToPixelsT LoadHeader kWebPLossless CompressedImage Decode
               Image3T ToImage3 AlphaT PikToAlpha.

Lemma finish_cases (params : DecompressParams) (compressed : list Byte.byte)
      (image : MetaImage Image3T AlphaT) (byte_pos : Z) :
    finish Image3T AlphaT params compressed image byte_pos
      = PIK_FAILURE "Pik compressed data size mismatch." \/
    finish Image3T AlphaT params compressed image byte_pos = Ok (image, byte_pos).
Proof. unfold finish. destruct (_ && _); auto. Qed.

(** The 64-bit product of the two header fields does not wrap. *)
Lemma num_pixels_exact (b : list Byte.byte) header header_end :
    LoadHeader b = Some (header, header_end) ->
    (h_xsize header * h_ysize header) mod 2 ^ 64 = h_xsize header * h_ysize header.
Proof.
    intros H. destruct (LoadHeader_u32 _ _ _ H) as [Hx Hy].
    apply Z.mod_small. split; [nia|].
    assert (h_xsize header * h_ysize header <= (2 ^ 32 - 1) * (2 ^ 32 - 1)) by nia.
    lia.
Qed.

(** C6: whenever the header read from the input has a width above
      [2^25 - 1], or more than [max_num_pixels] pixels, [PikToPixelsT]
      fails; it succeeds only on a header within both limits; and the two
      failures that name a dimension occur only beyond the limit they
      name. *)
Theorem PikToPixelsT_limits (params : DecompressParams)
      (compressed : list Byte.byte) :
    (forall header header_end,
       LoadHeader compressed = Some (header, header_end) ->
       2 ^ 25 - 1 < h_xsize header \/
       max_num_pixels params < h_xsize header * h_ysize header ->
       failed (run params compressed)) /\
    (forall r, run params compressed = Ok r ->
       exists header header_end,
         LoadHeader compressed = Some (header, header_end) /\
         h_xsize header <= 2 ^ 25 - 1 /\
         h_xsize header * h_ysize header <= max_num_pixels params) /\
    (forall header header_end,
       LoadHeader compressed = Some (header, header_end) ->
       (run params compressed = PIK_FAILURE "Image too wide." ->
        2 ^ 25 - 1 < h_xsize header) /\
       (run params compressed = PIK_FAILURE "Image too big." ->
        max_num_pixels params < h_xsize header * h_ysize header)).
Proof.
    assert (Hmain : forall header header_end,
      LoadHeader compressed = Some (header, header_end) ->
      (2 ^ 25 - 1 < h_xsize header ->
       run params compressed <> PIK_FAILURE "Image too big." /\
       failed (run params compressed)) /\
      (h_xsize header <= 2 ^ 25 - 1 ->
       run params compressed <> PIK_FAILURE "Image too wide.") /\
      (max_num_pixels params < h_xsize header * h_ysize header ->
       failed (run params compressed)) /\
      (h_xsize header * h_ysize header <= max_num_pixels params ->
       run params compressed <> PIK_FAILURE "Image too big.")).
    { intros header header_end HL.
      pose proof (num_pixels_exact _ _ _ HL) as Hnp.
      unfold run, PikToPixelsT. rewrite HL, Hnp.
      change kMaxWidth with (2 ^ 25 - 1).
      destruct (Z.of_nat (length compressed) =? 0);
        [repeat split; intros; simpl; try discriminate; exact I|].
      destruct (Z.of_nat (length compressed) <? header_end);
        [repeat split; intros; simpl; try discriminate; exact I|].
      destruct (negb _);
        [repeat split; intros; simpl; try discriminate; exact I|].
      destruct (_ || _);
        [repeat split; intros; simpl; try discriminate; exact I|].
      destruct (Z.ltb_spec (2 ^ 25 - 1) (h_xsize header));
        [repeat split; intros; simpl; try discriminate; try exact I; lia|].
      destruct (Z.ltb_spec (max_num_pixels params) (h_xsize header * h_ysize header));
        [repeat split; intros; simpl; try discriminate; try exact I; lia|].
      destruct (Decode _ _ _) as [[img bytes_read]|];
        [|repeat split; intros; simpl; try discriminate; try exact I; lia].
      destruct (negb _).
      - destruct (PikToAlpha _ _ _) as [[a bytes_read']|];
          [|repeat split; intros; simpl; try discriminate; try exact I; lia].
        destruct (finish_cases params compressed
                    (mkMeta Image3T AlphaT (ToImage3 img) (Some a))
                    (header_end + bytes_read + bytes_read')) as [-> | ->];
          repeat split; intros; simpl; try discriminate; try exact I; lia.
      - destruct (finish_cases params compressed
                    (mkMeta Image3T AlphaT (ToImage3 img) None)
                    (header_end + bytes_read)) as [-> | ->];
          repeat split; intros; simpl; try discriminate; try exact I; lia. }
    split; [|split].
    - intros header header_end HL [Hw | Hb];
        destruct (Hmain _ _ HL) as (H1 & _ & H3 & _); [apply H1, Hw | apply H3, Hb].
    - intros r Hr.
      destruct (LoadHeader compressed) as [[header header_end]|] eqn:HL.
      + exists header, header_end. split; [reflexivity|].
        destruct (Hmain _ _ eq_refl) as (H1 & _ & H3 & _).
        split.
        * destruct (Z.le_gt_cases (h_xsize header) (2 ^ 25 - 1)) as [|Hw]; [assumption|].
          destruct (H1 Hw) as [_ Hf]. rewrite Hr in Hf. destruct Hf.
        * destruct (Z.le_gt_cases (h_xsize header * h_ysize header)
                      (max_num_pixels params)) as [|Hb]; [assumption|].
          specialize (H3 Hb). rewrite Hr in H3. destruct H3.
      + exfalso. revert Hr. unfold run, PikToPixelsT. rewrite HL.
        destruct (_ =? 0); discriminate.
    - intros header header_end HL.
      destruct (Hmain _ _ HL) as (_ & H2 & _ & H4).
      split; intros Hr.
      + destruct (Z.le_gt_cases (h_xsize header) (2 ^ 25 - 1)) as [Hle|]; [|assumption].
        exfalso. exact (H2 Hle Hr).
      + destruct (Z.le_gt_cases (h_xsize header * h_ysize header)
                    (max_num_pixels params)) as [Hle|]; [|assumption].
        exfalso. exact (H4 Hle Hr).
Qed.
End PikToPixelsTProps.

Lemma ToyDecoder_u32 (b : list Byte.byte) header header_end :
  ToyDecoder.LoadHeader b = Some (header, header_end) ->
  0 <= h_xsize header < 2 ^ 32 /\ 0 <= h_ysize header < 2 ^ 32.
Proof.
  destruct b as [|x [|y [|f b]]]; try discriminate.
  intros [= <- _]. simpl.
  pose proof (Byte.to_N_bounded x). pose proof (Byte.to_N_bounded y). lia.
Qed.

Lemma PikToPixelsT_limits_witness :
  failed (ToyDecoder.run ToyDecoder.params [Byte.x0b; Byte.x0a; Byte.x00]) /\
  ToyDecoder.run ToyDecoder.params [Byte.x0a; Byte.x0a; Byte.x00]
    = Ok (mkMeta unit unit tt None, 3).
Proof.
  split.
  - refine (proj1 (PikToPixelsT_limits ToyDecoder.LoadHeader 2 unit
                     (fun _ _ _ => Some (tt, 0)) unit (fun _ => tt) unit
                     (fun _ _ _ => Some (tt, 0)) ToyDecoder_u32 ToyDecoder.params
                     [Byte.x0b; Byte.x0a; Byte.x00]) _ 3 eq_refl _).
    right. vm_compute. reflexivity.
  - vm_compute. reflexivity.
Defined.

(** ** Target-size controller *)

Section CompressToTargetSizeProps.
Variable CompressedImageT : Type.
Variable GetQuantField : CompressedImageT -> float * ImageF.
Variable SetQuantField :
    float -> ImageF -> CompressedImageT -> bool * CompressedImageT.
Variable Quantize : CompressedImageT -> CompressedImageT.
Variable Encode : CompressedImageT -> list Byte.byte.
Variable ScaleImage : float -> ImageF -> ImageF.
Variable target_size : Z.

Let halve := halving CompressedImageT SetQuantField Quantize Encode
                 ScaleImage target_size.
Let bisect := bisection CompressedImageT SetQuantField Quantize Encode
                  ScaleImage target_size.
Let fits (c : list Byte.byte) : Prop := size c <= target_size.

(** The halving loop either stops at the first candidate that fits, or
      makes all its [n] attempts without one. *)
Lemma halving_spec (n : nat) (dc : float) (ac : ImageF) (s : TS CompressedImageT) :
    let s' := halve n dc ac s in
    (exists pre c,
       attempts _ s' = attempts _ s ++ pre ++ [c] /\
       Forall (fun a => ~ fits a) pre /\ fits c /\
       compressed _ s' = c /\ candidate _ s' = c) \/
    (exists new,
       attempts _ s' = attempts _ s ++ new /\
       Forall (fun a => ~ fits a) new /\ length new = n /\
       compressed _ s' = compressed _ s /\
       candidate _ s' = default (candidate _ s) (last new)).
Proof.
    revert s. induction n as [|n IH]; intros s; cbn zeta.
    - right. exists []. simpl. rewrite app_nil_r. auto.
    - simpl. unfold halve in *. simpl.
      destruct (ScaleQuantizationMap _ _ _ _ _ _ _ _) as [changed img1].
      destruct (Z.leb_spec (size (Encode img1)) target_size) as [Hfit|Hnofit].
      + left. exists [], (Encode img1). simpl. auto.
      + match goal with |- context [halving _ _ _ _ _ _ n dc ac ?s1] =>
          specialize (IH s1); set (s' := halving _ _ _ _ _ _ n dc ac s1) in *
        end.
        cbn zeta in IH. simpl in IH.
        destruct IH as [(pre & c & Ha & Hpre & Hc & Hcomp & Hcand)
                       |(new & Ha & Hnew & Hlen & Hcomp & Hcand)].
        * left. exists (Encode img1 :: pre), c. rewrite Ha, <- app_assoc. simpl.
          repeat split; auto. constructor; [unfold fits; lia | exact Hpre].
        * right. exists (Encode img1 :: new). rewrite Ha, <- app_assoc. simpl.
          repeat split; auto.
          -- constructor; [unfold fits; lia | exact Hnew].
          -- rewrite Hcand. destruct new as [|a new]; [reflexivity|].
             rewrite !last_cons. destruct (last new); reflexivity.
Qed.

(** The bisection only ever stores a candidate that fits, and only
      adds attempts. *)
Lemma bisection_spec (n : nat) (dc : float) (ac : ImageF) (s : TS CompressedImageT) :
    fits (compressed _ s) ->
    fits (compressed _ (bisect n dc ac s)) /\
    exists new, attempts _ (bisect n dc ac s) = attempts _ s ++ new.
Proof.
    revert s. induction n as [|n IH]; intros s Hs.
    - split; [exact Hs|]. exists []. simpl. rewrite app_nil_r. reflexivity.
    - unfold bisect in *. simpl.
      destruct (ScaleQuantizationMap _ _ _ _ _ _ _ _) as [changed img1].
      destruct changed; simpl.
      + destruct (Z.leb_spec (size (Encode img1)) target_size) as [Hfit|Hnofit].
        * match goal with |- context [bisection _ _ _ _ _ _ n dc ac ?s1] =>
            destruct (IH s1) as [H1 [new H2]]; [exact Hfit|]
          end.
          split; [exact H1|]. rewrite H2. simpl. rewrite <- app_assoc. eauto.
        * match goal with |- context [bisection _ _ _ _ _ _ n dc ac ?s1] =>
            destruct (IH s1) as [H1 [new H2]]; [exact Hs|]
          end.
          split; [exact H1|]. rewrite H2. simpl. rewrite <- app_assoc. eauto.
      + split; [exact Hs|]. exists []. rewrite app_nil_r. reflexivity.
Qed.

(** C4: the string [CompressToTargetSize] returns has size at most
      [target_size] as soon as one of the candidates it encoded has; and
      when none of them fits, it made exactly the ten attempts of the
      halving loop and returns the last of them. *)
Theorem CompressToTargetSize_fits (img : CompressedImageT) :
    let r := CompressToTargetSize CompressedImageT GetQuantField SetQuantField
               Quantize Encode ScaleImage target_size img in
    (Exists (fun c => size c <= target_size) (attempts _ (snd r)) ->
     size (fst r) <= target_size) /\
    (Forall (fun c => target_size < size c) (attempts _ (snd r)) ->
     length (attempts _ (snd r)) = 10%nat /\
     last (attempts _ (snd r)) = Some (fst r)).
Proof.
    unfold CompressToTargetSize.
    destruct (GetQuantField img) as [quant_dc quant_ac].
    set (s0 := mkTS _ img (F32.of_Z 1) (F32.of_Z 1) [] [] []).
    pose proof (halving_spec 10 quant_dc quant_ac s0) as H. cbn zeta in H.
    fold halve. set (s1 := halve 10 quant_dc quant_ac s0) in *.
    simpl in H.
    destruct H as [(pre & c & Ha & Hpre & Hc & Hcomp & Hcand)
                  |(new & Ha & Hnew & Hlen & Hcomp & Hcand)].
    - (* the halving loop found a candidate that fits *)
      assert (Hnot : Forall (fun a => target_size < size a) (attempts _ s1) -> False).
      { rewrite Ha. intros HF. apply Forall_app in HF as [_ HF].
        apply Forall_inv in HF. unfold fits in Hc. lia. }
      destruct (empty (compressed _ s1)) eqn:He; cbn [fst snd].
      + split; [intros _; rewrite Hcand; exact Hc | intros HF; destruct (Hnot HF)].
      + destruct (FP.eqb _ _); cbn [fst snd].
        * split; [intros _; rewrite Hcomp; exact Hc | intros HF; destruct (Hnot HF)].
        * fold bisect.
          destruct (bisection_spec 16 quant_dc quant_ac s1) as [Hb [new Hb']];
            [rewrite Hcomp; exact Hc|].
          split; [intros _; exact Hb|].
          rewrite Hb'. intros HF. apply Forall_app in HF as [HF _].
          destruct (Hnot HF).
    - (* ten attempts, none fits *)
      rewrite Hcomp. cbn [compressed s0 empty fst snd].
      split.
      + intros HE. exfalso. rewrite Ha in HE. simpl in HE.
        apply Exists_exists in HE as (a & Hin & Hfit).
        rewrite Forall_forall in Hnew. apply (Hnew a Hin). exact Hfit.
      + intros _. rewrite Ha. simpl. split; [exact Hlen|].
        rewrite Hcand. destruct (last new) eqn:El; [reflexivity|].
        apply last_None in El. rewrite El in Hlen. discriminate.
Qed.
End CompressToTargetSizeProps.

Lemma CompressToTargetSize_fits_witness :
  size (fst (ToySize.run 3 (F32.of_Z 1))) <= 3 /\
  last (attempts _ (snd (ToySize.run 1 (F32.of_Z 1))))
    = Some (fst (ToySize.run 1 (F32.of_Z 1))).
Proof.
  split.
  - apply (CompressToTargetSize_fits float (fun img => (img, mkImage 0 0 []))
             (fun dc _ img => (true, dc)) (fun img => img) ToySize.Encode
             (fun _ qf => qf) 3 (F32.of_Z 1)).
    vm_compute. apply Exists_cons_tl, Exists_cons_hd. discriminate.
  - apply (CompressToTargetSize_fits float (fun img => (img, mkImage 0 0 []))
             (fun dc _ img => (true, dc)) (fun img => img) ToySize.Encode
             (fun _ qf => qf) 1 (F32.of_Z 1)).
    vm_compute. repeat constructor.
Defined.

(** ** Refined grid search *)

(** *** [int] arithmetic, and the search on mathematical integers *)

Lemma int_add_Some (a b c : Z) : int_add a b = Some c -> c = a + b.
Proof. unfold int_add. destruct (_ && _); congruence. Qed.

Lemma int_sub_Some (a b c : Z) : int_sub a b = Some c -> c = a - b.
Proof. unfold int_sub. destruct (_ && _); congruence. Qed.

Lemma int_add_defined (a b : Z) :
  INT_MIN <= a + b <= INT_MAX -> int_add a b = Some (a + b).
Proof.
  intros H. unfold int_add.
  destruct (Z.leb_spec INT_MIN (a + b)), (Z.leb_spec (a + b) INT_MAX);
    try lia; reflexivity.
Qed.

Lemma int_sub_defined (a b : Z) :
  INT_MIN <= a - b <= INT_MAX -> int_sub a b = Some (a - b).
Proof.
  intros H. unfold int_sub.
  destruct (Z.leb_spec INT_MIN (a - b)), (Z.leb_spec (a - b) INT_MAX);
    try lia; reflexivity.
Qed.

Section OptimizeInt.
Variable Eval : Type.
Variable eval_call : Z -> Eval -> Z * Eval.
Variable SetVal : Z -> Eval -> Eval.

Lemma try_val_kept (minval maxval b0 o0 val : Z) (s : search Eval) :
  minval <= val <= maxval ->
  kept_or_improved minval maxval b0 o0 s ->
  kept_or_improved minval maxval b0 o0 (try_val Eval eval_call val s).
Proof.
  intros Hval. destruct s as [[bv bo] ev]. unfold kept_or_improved, try_val.
  destruct (eval_call val ev) as [objval ev'].
  destruct (Z.ltb_spec objval bo); cbn [fst snd]; intros [[-> ->] | [Hr Hlt]];
    auto; right; split; lia.
Qed.

Lemma sweep_from_kept (minval maxval b0 o0 resolution end_ : Z) (fuel : nat) :
  1 <= resolution -> end_ <= maxval ->
  forall (val : Z) (s : search Eval),
    minval <= val ->
    kept_or_improved minval maxval b0 o0 s ->
    kept_or_improved minval maxval b0 o0
      (ideal_sweep_from Eval eval_call fuel resolution end_ val s).
Proof.
  intros Hres Hend. induction fuel as [|fuel IH]; intros val s Hval Hs;
    cbn [ideal_sweep_from]; [exact Hs|].
  destruct (Z.leb_spec val end_); [|exact Hs].
  apply IH; [lia|]. apply try_val_kept; [lia | exact Hs].
Qed.

Lemma refine_kept (minval maxval b0 o0 resolution : Z)
    (acc : Z * Z * search Eval) :
  1 <= resolution ->
  minval <= fst (fst acc) -> snd (fst acc) <= maxval ->
  kept_or_improved minval maxval b0 o0 (snd acc) ->
  let acc' := ideal_refine Eval eval_call minval maxval acc resolution in
  minval <= fst (fst acc') /\ snd (fst acc') <= maxval /\
  kept_or_improved minval maxval b0 o0 (snd acc').
Proof.
  destruct acc as [[start end_] s]. cbn [fst snd]. intros Hres Hs He Hk.
  unfold ideal_refine. cbn [fst snd].
  split; [lia|]. split; [lia|].
  unfold ideal_sweep. apply sweep_from_kept; assumption.
Qed.

(** The ideal search returns the incumbent or a strictly better value
    of the interval. *)
Lemma ideal_Optimize_kept (ev : Eval)
    (minval maxval best_val best_objval : Z) :
  let r := ideal_Optimize Eval eval_call SetVal ev minval maxval best_val best_objval in
  kept_or_improved minval maxval best_val best_objval r /\
  snd (fst r) <= best_objval /\
  exists ev', snd r = SetVal (fst (fst r)) ev'.
Proof.
  intros r.
  assert (H : kept_or_improved minval maxval best_val best_objval r /\
              exists ev', snd r = SetVal (fst (fst r)) ev').
  { subst r. unfold ideal_Optimize, resolutions. cbn [foldl].
    set (a0 := (minval, maxval, (best_val, best_objval, ev))).
    assert (H0 : minval <= fst (fst a0) /\ snd (fst a0) <= maxval /\
                 kept_or_improved minval maxval best_val best_objval (snd a0)).
    { unfold a0, kept_or_improved. cbn [fst snd]. split; [lia|]. split; [lia|].
      left. auto. }
    destruct H0 as (A1 & A2 & A3).
    pose proof (refine_kept minval maxval best_val best_objval 16 a0
                  ltac:(lia) A1 A2 A3) as H1.
    cbv zeta in H1. destruct H1 as (B1 & B2 & B3).
    set (a1 := ideal_refine Eval eval_call minval maxval a0 16) in *.
    pose proof (refine_kept minval maxval best_val best_objval 4 a1
                  ltac:(lia) B1 B2 B3) as H2.
    cbv zeta in H2. destruct H2 as (C1 & C2 & C3).
    set (a2 := ideal_refine Eval eval_call minval maxval a1 4) in *.
    pose proof (refine_kept minval maxval best_val best_objval 1 a2
                  ltac:(lia) C1 C2 C3) as H3.
    cbv zeta in H3. destruct H3 as (_ & _ & D3).
    destruct (ideal_refine Eval eval_call minval maxval a2 1) as [[st en] [[bv bo] ev3]].
    cbn [fst snd] in *. split; [exact D3|]. exists ev3. reflexivity. }
  destruct H as [Hk He]. split; [exact Hk|]. split; [|exact He].
  destruct Hk as [[_ ->] | [_ Hlt]]; lia.
Qed.

(** Whenever the [int] search is defined, it computes what the ideal
    search computes. *)
Lemma sweep_from_ideal (resolution end_ : Z) (fuel : nat) :
  forall (val : Z) (s s' : search Eval),
    sweep_from Eval eval_call fuel resolution end_ val s = Some s' ->
    s' = ideal_sweep_from Eval eval_call fuel resolution end_ val s.
Proof.
  induction fuel as [|fuel IH]; intros val s s';
    cbn [sweep_from ideal_sweep_from];
    (destruct (val <=? end_); [|congruence]); [discriminate|].
  destruct (int_add val resolution) as [val'|] eqn:E; [|discriminate].
  apply int_add_Some in E. subst val'. cbn [mbind option_bind]. apply IH.
Qed.

Lemma ideal_sweep_from_done (resolution end_ val : Z) (fuel : nat)
    (s : search Eval) :
  end_ < val -> ideal_sweep_from Eval eval_call fuel resolution end_ val s = s.
Proof.
  intros H. destruct fuel; cbn [ideal_sweep_from]; [reflexivity|].
  destruct (Z.leb_spec val end_); [lia | reflexivity].
Qed.

Lemma sweep_from_defined (resolution end_ : Z) (fuel : nat) :
  1 <= resolution -> end_ + resolution <= INT_MAX ->
  forall (val : Z) (s : search Eval),
    INT_MIN <= val -> end_ - val + 1 <= Z.of_nat fuel ->
    sweep_from Eval eval_call fuel resolution end_ val s
    = Some (ideal_sweep_from Eval eval_call fuel resolution end_ val s).
Proof.
  intros Hres Hend. induction fuel as [|fuel IH]; intros val s Hval Hfuel;
    cbn [sweep_from]; (destruct (Z.leb_spec val end_);
      [|rewrite ideal_sweep_from_done by lia; reflexivity]); [lia|].
  cbn [ideal_sweep_from]. destruct (Z.leb_spec val end_); [|lia].
  rewrite int_add_defined by lia. cbn [mbind option_bind]. apply IH; lia.
Qed.

Lemma refine_ideal (minval maxval resolution : Z)
    (acc acc' : Z * Z * search Eval) :
  refine Eval eval_call minval maxval acc resolution = Some acc' ->
  acc' = ideal_refine Eval eval_call minval maxval acc resolution.
Proof.
  destruct acc as [[start end_] s]. unfold refine, ideal_refine, sweep, ideal_sweep.
  destruct (sweep_from _ _ _ _ _ _ s) as [s1|] eqn:E; [|discriminate].
  apply sweep_from_ideal in E. rewrite <- E. cbn [mbind option_bind].
  destruct (int_sub (fst (fst s1)) resolution) as [d1|] eqn:E1; [|discriminate].
  apply int_sub_Some in E1. subst d1. cbn [mbind option_bind].
  destruct (int_add (fst (fst s1) - resolution) 1) as [lo|] eqn:E2; [|discriminate].
  apply int_add_Some in E2. subst lo. cbn [mbind option_bind].
  destruct (int_add (fst (fst s1)) resolution) as [d2|] eqn:E3; [|discriminate].
  apply int_add_Some in E3. subst d2. cbn [mbind option_bind].
  destruct (int_sub (fst (fst s1) + resolution) 1) as [hi|] eqn:E4; [|discriminate].
  apply int_sub_Some in E4. subst hi. cbn [mbind option_bind].
  intros [= <-]. reflexivity.
Qed.

Lemma refine_defined (minval maxval b0 o0 resolution : Z)
    (acc : Z * Z * search Eval) :
  1 <= resolution <= 16 -> int_search_range minval maxval b0 ->
  minval <= fst (fst acc) -> snd (fst acc) <= maxval ->
  kept_or_improved minval maxval b0 o0 (snd acc) ->
  refine Eval eval_call minval maxval acc resolution
  = Some (ideal_refine Eval eval_call minval maxval acc resolution).
Proof.
  intros Hres (Hmin & Hmax & Hb0) Hs He Hk.
  pose proof (refine_kept minval maxval b0 o0 resolution acc ltac:(lia) Hs He Hk)
    as Hkept.
  cbv zeta in Hkept. destruct Hkept as (_ & _ & Hk').
  destruct acc as [[start end_] s]. cbn [fst snd] in *.
  unfold refine, ideal_refine, sweep, ideal_sweep in *. cbn [snd] in Hk'.
  rewrite sweep_from_defined by (unfold INT_MIN, INT_MAX in *; lia).
  cbn [mbind option_bind].
  set (s1 := ideal_sweep_from Eval eval_call _ resolution end_ start s) in *.
  assert (Hbv : INT_MIN + 16 <= fst (fst s1) <= INT_MAX - 16).
  { destruct Hk' as [[-> _] | [Hr _]]; lia. }
  rewrite int_sub_defined by (unfold INT_MIN, INT_MAX in *; lia).
  cbn [mbind option_bind].
  rewrite int_add_defined by (unfold INT_MIN, INT_MAX in *; lia).
  cbn [mbind option_bind].
  rewrite int_add_defined by (unfold INT_MIN, INT_MAX in *; lia).
  cbn [mbind option_bind].
  rewrite int_sub_defined by (unfold INT_MIN, INT_MAX in *; lia).
  reflexivity.
Qed.

(** Whenever [Optimize] is defined, it returns what the ideal search
    returns. *)
Lemma Optimize_ideal (ev : Eval) (minval maxval best_val best_objval : Z)
    (r : search Eval) :
  Optimize Eval eval_call SetVal ev minval maxval best_val best_objval = Some r ->
  r = ideal_Optimize Eval eval_call SetVal ev minval maxval best_val best_objval.
Proof.
  unfold Optimize, ideal_Optimize, resolutions. cbn [foldl mbind option_bind].
  set (a0 := (minval, maxval, (best_val, best_objval, ev))).
  destruct (refine Eval eval_call minval maxval a0 16) as [a1|] eqn:E1;
    [|discriminate].
  apply refine_ideal in E1. rewrite <- E1. cbn [mbind option_bind].
  destruct (refine Eval eval_call minval maxval a1 4) as [a2|] eqn:E2;
    [|discriminate].
  apply refine_ideal in E2. rewrite <- E2. cbn [mbind option_bind].
  destruct (refine Eval eval_call minval maxval a2 1) as [a3|] eqn:E3;
    [|discriminate].
  apply refine_ideal in E3. rewrite <- E3. cbn [mbind option_bind].
  destruct a3 as [[st en] [[bv bo] ev3]]. intros [= <-]. reflexivity.
Qed.

(** On the intervals of [int_search_range] no [int] operation of
    [Optimize] overflows: it is defined. *)
Lemma Optimize_defined (ev : Eval) (minval maxval best_val best_objval : Z) :
  int_search_range minval maxval best_val ->
  Optimize Eval eval_call SetVal ev minval maxval best_val best_objval
  = Some (ideal_Optimize Eval eval_call SetVal ev minval maxval best_val
                         best_objval).
Proof.
  intros Hr. unfold Optimize, ideal_Optimize, resolutions.
  cbn [foldl mbind option_bind].
  set (a0 := (minval, maxval, (best_val, best_objval, ev))).
  assert (A1 : minval <= fst (fst a0)) by (unfold a0; cbn [fst snd]; lia).
  assert (A2 : snd (fst a0) <= maxval) by (unfold a0; cbn [fst snd]; lia).
  assert (A3 : kept_or_improved minval maxval best_val best_objval (snd a0)).
  { unfold a0, kept_or_improved. cbn [fst snd]. left. auto. }
  rewrite (refine_defined minval maxval best_val best_objval 16 a0
             ltac:(lia) Hr A1 A2 A3).
  cbn [mbind option_bind].
  pose proof (refine_kept minval maxval best_val best_objval 16 a0
                ltac:(lia) A1 A2 A3) as H1.
  cbv zeta in H1. destruct H1 as (B1 & B2 & B3).
  set (a1 := ideal_refine Eval eval_call minval maxval a0 16) in *.
  rewrite (refine_defined minval maxval best_val best_objval 4 a1
             ltac:(lia) Hr B1 B2 B3).
  cbn [mbind option_bind].
  pose proof (refine_kept minval maxval best_val best_objval 4 a1
                ltac:(lia) B1 B2 B3) as H2.
  cbv zeta in H2. destruct H2 as (C1 & C2 & C3).
  set (a2 := ideal_refine Eval eval_call minval maxval a1 4) in *.
  rewrite (refine_defined minval maxval best_val best_objval 1 a2
             ltac:(lia) Hr C1 C2 C3).
  cbn [mbind option_bind].
  destruct (ideal_refine Eval eval_call minval maxval a2 1)
    as [[st en] [[bv bo] ev3]].
  reflexivity.
Qed.
End OptimizeInt.



(** Near [INT_MAX] the search is not defined: on
    [[2147483637, 2147483647]] the first [val += 16] overflows [int]. *)
Example Optimize_overflows_near_INT_MAX :
  strictly_unimodal (fun v => Z.abs (v - 2147483640))
                    2147483637 2147483647 2147483640 /\
  ToySearch.run (fun v => Z.abs (v - 2147483640))
                2147483637 2147483647 2147483637 = None.
Proof.
  split; [|vm_compute; reflexivity].
  unfold strictly_unimodal. repeat split; intros; lia.
Qed.

Section OptimizeProps.
Variable Eval : Type.
Variable eval_call : Z -> Eval -> Z * Eval.
Variable SetVal : Z -> Eval -> Eval.
(** The objective the evaluator computes does not depend on its state. *)
Variable f : Z -> Z.
Hypothesis eval_objective : forall v ev, fst (eval_call v ev) = f v.


Lemma try_val_spec (val : Z) (s : search Eval) :
  snd (fst s) = f (fst (fst s)) ->
  let s' := try_val Eval eval_call val s in
  snd (fst s') = f (fst (fst s')) /\
  (fst (fst s') = fst (fst s) \/ fst (fst s') = val) /\
  f (fst (fst s')) <= f (fst (fst s)) /\
  f (fst (fst s')) <= f val.
Proof.
  destruct s as [[bv bo] ev]. simpl. intros ->.
  unfold try_val. pose proof (eval_objective val ev) as Hf.
  destruct (eval_call val ev) as [objval ev']. simpl in Hf. subst objval.
  destruct (Z.ltb_spec (f val) (f bv)); simpl; repeat split; auto; lia.
Qed.

Lemma sweep_from_spec (fuel : nat) (resolution end_ : Z) :
  1 <= resolution ->
  forall (val : Z) (s : search Eval),
    (Z.to_nat (end_ - val + 1) <= fuel)%nat ->
    snd (fst s) = f (fst (fst s)) ->
    swept f resolution end_ val s (ideal_sweep_from Eval eval_call fuel resolution end_ val s).
Proof.
  intros Hres.   induction fuel as [|fuel IH]; intros val s Hfuel Hs.
  - simpl. unfold swept. repeat split; auto; try lia;
      try (intros k Hk Hle; nia).
  - simpl. destruct (Z.leb_spec val end_) as [Hle|Hgt].
    + destruct (try_val_spec val s Hs) as (H1 & H2 & H3 & H4).
      specialize (IH (val + resolution) (try_val Eval eval_call val s)).
      destruct IH as (I1 & I2 & I3 & I4); [lia | exact H1 |].
      unfold swept. repeat split.
      * exact I1.
      * destruct I2 as [I2 | (k & Hk & I2 & I2')].
        -- rewrite I2. destruct H2 as [H2 | H2]; [left; exact H2|].
           right. exists 0. rewrite H2. repeat split; lia.
        -- right. exists (k + 1). repeat split; lia.
      * lia.
      * intros k Hk Hkle.
        destruct (Z.eq_dec k 0) as [-> | Hk0].
        -- replace (val + 0 * resolution) with val by lia. lia.
        -- specialize (I4 (k - 1)).
           replace (val + resolution + (k - 1) * resolution)
             with (val + k * resolution) in I4 by lia.
           apply I4; lia.
    + unfold swept. repeat split; auto; try lia;
        try (intros k Hk Hkle; nia).
Qed.

Lemma sweep_spec (resolution start end_ : Z) (s : search Eval) :
  1 <= resolution ->
  snd (fst s) = f (fst (fst s)) ->
  swept f resolution end_ start s (ideal_sweep Eval eval_call resolution start end_ s).
Proof.
  intros Hres Hs. unfold ideal_sweep.
  apply (sweep_from_spec _ resolution end_ Hres start s); auto.
Qed.



End OptimizeProps.



(** ** Rate-control loop *)

Section FindBestQuantizationProps.
Variable CompressedImageT : Type.
Variable block_xsize block_ysize : CompressedImageT -> Z.
Variable SetQuantField :
  float -> ImageF -> CompressedImageT -> bool * CompressedImageT.
Variable Quantize : CompressedImageT -> CompressedImageT.
Variable Image3B : Type.
Variable ToSRGB : CompressedImageT -> Image3B.
Variable ButteraugliComparator : Type.
Variable Compare : Image3B -> ButteraugliComparator -> ButteraugliComparator.
Variable distance : ButteraugliComparator -> float.
Variable distmap : ButteraugliComparator -> ImageF.
Variable butteraugli_target : float.
Variable max_butteraugli_iters : Z.

Local Abbreviation State := (FBQ CompressedImageT ButteraugliComparator).
Local Abbreviation q_and_c :=
  (quantize_and_compare CompressedImageT SetQuantField Quantize Image3B ToSRGB
     ButteraugliComparator Compare distmap butteraugli_target
     max_butteraugli_iters).
Local Abbreviation radii :=
  (adjust_radii CompressedImageT block_xsize block_ysize ButteraugliComparator
     butteraugli_target).
Local Abbreviation inner :=
  (adjust_loop CompressedImageT block_xsize block_ysize ButteraugliComparator
     distance butteraugli_target).
Local Abbreviation step :=
  (outer_step CompressedImageT block_xsize block_ysize ButteraugliComparator).
Local Abbreviation body :=
  (loop_body CompressedImageT block_xsize block_ysize SetQuantField Quantize
     Image3B ToSRGB ButteraugliComparator Compare distance distmap
     butteraugli_target max_butteraugli_iters).
Local Abbreviation loop :=
  (FBQ_loop CompressedImageT block_xsize block_ysize SetQuantField Quantize
     Image3B ToSRGB ButteraugliComparator Compare distance distmap
     butteraugli_target max_butteraugli_iters).

Lemma inner_counters (fuel : nat) : forall (s s' : State) (changed changed' : bool),
  inner fuel s changed = Some (s', changed') -> same_counters s s'.
Proof.
  induction fuel as [|fuel IH]; intros s s' changed changed'; simpl.
  - destruct (_ && _); [discriminate|]. intros [= <- _]. repeat split.
  - destruct (_ && _); [|intros [= <- _]; repeat split].
    destruct (radii s (quant_field _ _ s, changed)) as [qf ch].
    destruct (FP.geb _ _); [intros [= <- _]; repeat split|].
    destruct (negb ch); intros H; apply IH in H; exact H.
Qed.

Lemma inner_changed (fuel : nat) (s : State) :
  inner fuel s true = Some (s, true).
Proof. destruct fuel; reflexivity. Qed.

Lemma compares_app (t u : list event) : compares (t ++ u) = compares t + compares u.
Proof.
  induction t as [|[|o] t IH]; simpl; lia.
Qed.

Lemma q_and_c_inv (s : State) :
  loop_inv max_butteraugli_iters 2 s ->
  match q_and_c s with
  | inl s1 => loop_inv max_butteraugli_iters 2 s1
  | inr s1 => loop_inv max_butteraugli_iters 3 s1
  end.
Proof.
  intros (Ho & Ht & Hc & Hb). unfold quantize_and_compare.
  destruct (SetQuantField _ _ _) as [[] img1].
  - destruct (Z.leb_spec max_butteraugli_iters (butteraugli_iter _ _ s)).
    + unfold loop_inv. simpl. repeat split; auto; lia.
    + unfold loop_inv. simpl. repeat split; try lia.
      * apply Forall_app. split; [exact Ht|]. repeat constructor.
      * rewrite compares_app. simpl. lia.
  - unfold loop_inv. simpl. repeat split; auto; lia.
Qed.

Lemma step_inv (s : State) (changed : bool) :
  loop_inv max_butteraugli_iters 2 s ->
  match step s changed with
  | inl s' => loop_inv max_butteraugli_iters 2 s'
  | inr s' => loop_inv max_butteraugli_iters 3 s'
  end.
Proof.
  intros (Ho & Ht & Hc & Hb). unfold outer_step.
  destruct changed; simpl; [repeat split; auto; lia|].
  unfold kMaxOuterIters.
  destruct (Z.eqb_spec (outer_iter _ _ s + 1) 3) as [E|E].
  - unfold loop_inv. simpl. repeat split; auto; lia.
  - unfold loop_inv. simpl. repeat split; try lia.
    + apply Forall_app. split; [exact Ht|]. constructor; [|constructor].
      simpl. split; [lia|].
      assert (Hcases : outer_iter _ _ s + 1 = 1 \/ outer_iter _ _ s + 1 = 2) by lia.
      destruct Hcases as [-> | ->]; vm_compute; discriminate.
    + rewrite compares_app. simpl. lia.
Qed.

Lemma body_inv (fuel : nat) (s : State) :
  loop_inv max_butteraugli_iters 2 s ->
  match body fuel s with
  | Some (inl s') => loop_inv max_butteraugli_iters 2 s'
  | Some (inr s') => loop_inv max_butteraugli_iters 3 s'
  | None => True
  end.
Proof.
  intros Hs. unfold loop_body.
  pose proof (q_and_c_inv s Hs) as H1.
  destruct (q_and_c s) as [s1|s1]; [|exact H1].
  destruct (inner fuel s1 false) as [[s2 changed]|] eqn:E; [|exact I].
  apply inner_counters in E. destruct E as (E1 & E2 & E3).
  apply step_inv. destruct H1 as (Ho & Ht & Hc & Hb).
  unfold loop_inv. rewrite E1, E2, E3. auto.
Qed.

Lemma at_head_inv (img0 : CompressedImageT) (comparator0 : ButteraugliComparator)
    (s : State) :
  at_head CompressedImageT block_xsize block_ysize SetQuantField Quantize
          Image3B ToSRGB ButteraugliComparator Compare distance distmap
          butteraugli_target max_butteraugli_iters img0 comparator0 s ->
  loop_inv max_butteraugli_iters 2 s.
Proof.
  induction 1 as [|s s' fuel Hs IH Hb].
  - unfold loop_inv. simpl. repeat split; try lia. constructor.
  - pose proof (body_inv fuel s IH) as H. rewrite Hb in H. exact H.
Qed.

(** The function returns only states in which an execution leaves the
    loop. *)
Lemma loop_returned (img0 : CompressedImageT) (comparator0 : ButteraugliComparator)
    (fuel : nat) : forall s s' : State,
  at_head CompressedImageT block_xsize block_ysize SetQuantField Quantize
          Image3B ToSRGB ButteraugliComparator Compare distance distmap
          butteraugli_target max_butteraugli_iters img0 comparator0 s ->
  loop fuel s = Some s' ->
  returned CompressedImageT block_xsize block_ysize SetQuantField Quantize
           Image3B ToSRGB ButteraugliComparator Compare distance distmap
           butteraugli_target max_butteraugli_iters img0 comparator0 s'.
Proof.
  induction fuel as [|fuel IH]; intros s s' Hs; simpl; [discriminate|].
  destruct (body fuel s) as [[s1|s1]|] eqn:E; try discriminate.
  - apply IH. eapply head_next; eauto.
  - intros [= <-]. exists s, fuel. auto.
Qed.

(** C9: in every execution of the rate-control loop, at the head of the
    loop and on leaving it, each multiplication of the quant field by
    [kQuantScale[outer_iter]] recorded so far was made with
    [outer_iter] equal to 1 or 2, where the table is not zero; the entry
    [kQuantScale[0]] was never applied. *)
Theorem kQuantScale_zero_never_applied (img0 : CompressedImageT)
    (comparator0 : ButteraugliComparator) (s : State) :
  at_head CompressedImageT block_xsize block_ysize SetQuantField Quantize
          Image3B ToSRGB ButteraugliComparator Compare distance distmap
          butteraugli_target max_butteraugli_iters img0 comparator0 s \/
  returned CompressedImageT block_xsize block_ysize SetQuantField Quantize
           Image3B ToSRGB ButteraugliComparator Compare distance distmap
           butteraugli_target max_butteraugli_iters img0 comparator0 s ->
  forall o, In (EvScale o) (trace _ _ s) ->
            1 <= o <= 2 /\ array_get kQuantScale o <> S754_zero false.
Proof.
  intros Hs o Hin.
  assert (Ht : Forall scale_ok (trace _ _ s)).
  { destruct Hs as [Hs | (s0 & fuel & Hs & Hb)].
    - apply at_head_inv in Hs. apply Hs.
    - apply at_head_inv in Hs. pose proof (body_inv fuel s0 Hs) as H.
      rewrite Hb in H. apply H. }
  rewrite Forall_forall in Ht. apply list_elem_of_In in Hin.
  exact (Ht _ Hin).
Qed.

(** The comparator is called as often as [butteraugli_iter] counts, and
    never more than [max_butteraugli_iters] times. *)
Lemma comparator_calls_bounded (img0 : CompressedImageT)
    (comparator0 : ButteraugliComparator) (s : State) :
  at_head CompressedImageT block_xsize block_ysize SetQuantField Quantize
          Image3B ToSRGB ButteraugliComparator Compare distance distmap
          butteraugli_target max_butteraugli_iters img0 comparator0 s \/
  returned CompressedImageT block_xsize block_ysize SetQuantField Quantize
           Image3B ToSRGB ButteraugliComparator Compare distance distmap
           butteraugli_target max_butteraugli_iters img0 comparator0 s ->
  compares (trace _ _ s) = butteraugli_iter _ _ s /\
  compares (trace _ _ s) <= Z.max 0 max_butteraugli_iters.
Proof.
  intros Hs.
  assert (Hi : exists hi, loop_inv max_butteraugli_iters hi s).
  { destruct Hs as [Hs | (s0 & fuel & Hs & Hb)].
    - exists 2. apply at_head_inv in Hs. exact Hs.
    - exists 3. apply at_head_inv in Hs. pose proof (body_inv fuel s0 Hs) as H.
      rewrite Hb in H. exact H. }
  destruct Hi as (hi & _ & _ & Hc & Hb). lia.
Qed.
End FindBestQuantizationProps.

Lemma kQuantScale_zero_never_applied_witness :
  In (EvScale 1) (trace _ _ CalmLoop.s1) /\
  1 <= 1 <= 2 /\ array_get kQuantScale 1 <> S754_zero false.
Proof.
  assert (Hin : In (EvScale 1) (trace _ _ CalmLoop.s1))
    by (vm_compute; right; left; reflexivity).
  split; [exact Hin|].
  refine (kQuantScale_zero_never_applied StuckLoop.CompressedImageT
            (fun _ => 2) (fun _ => 1) StuckLoop.SetQuantField (fun img => img)
            unit (fun _ => tt) bool (fun _ _ => true) (fun _ => F32.of_Z 0)
            StuckLoop.distmap_of StuckLoop.target StuckLoop.max_iters
            StuckLoop.img0 false CalmLoop.s1 _ 1 Hin).
  left. refine (head_next _ _ _ _ _ _ _ _ _ _ _ _ _ _ _ _ _ 1%nat (head_init _ _ _ _ _ _ _ _ _ _ _ _ _ _ _) _).
  vm_compute. reflexivity.
Defined.

(** ** The loop need not end *)

Section Divergence.
Variable CompressedImageT : Type.
Variable block_xsize block_ysize : CompressedImageT -> Z.
Variable SetQuantField :
  float -> ImageF -> CompressedImageT -> bool * CompressedImageT.
Variable Quantize : CompressedImageT -> CompressedImageT.
Variable Image3B : Type.
Variable ToSRGB : CompressedImageT -> Image3B.
Variable ButteraugliComparator : Type.
Variable Compare : Image3B -> ButteraugliComparator -> ButteraugliComparator.
Variable distance : ButteraugliComparator -> float.
Variable distmap : ButteraugliComparator -> ImageF.
Variable butteraugli_target : float.
Variable max_butteraugli_iters : Z.

Local Abbreviation State := (FBQ CompressedImageT ButteraugliComparator).
Local Abbreviation body :=
  (loop_body CompressedImageT block_xsize block_ysize SetQuantField Quantize
     Image3B ToSRGB ButteraugliComparator Compare distance distmap
     butteraugli_target max_butteraugli_iters).
Local Abbreviation loop :=
  (FBQ_loop CompressedImageT block_xsize block_ysize SetQuantField Quantize
     Image3B ToSRGB ButteraugliComparator Compare distance distmap
     butteraugli_target max_butteraugli_iters).
Local Abbreviation with_change :=
  (iteration_with_change CompressedImageT block_xsize block_ysize SetQuantField
     Quantize Image3B ToSRGB ButteraugliComparator Compare distance distmap
     butteraugli_target max_butteraugli_iters).

(** An iteration whose adjustment reports a change goes on to the next
    iteration, whatever the fuel. *)
Lemma with_change_body (s s' : State) (fuel : nat) :
  with_change s = Some s' ->
  body fuel s = None \/ body fuel s = Some (inl s').
Proof.
  unfold iteration_with_change, loop_body.
  destruct (quantize_and_compare _ _ _ _ _ _ _ _ _ _ s) as [s1|s1]; [|discriminate].
  destruct (FP.gtb _ _) eqn:Hd; [|discriminate].
  destruct (adjust_radii _ _ _ _ _ s1 _) as [qf changed] eqn:Hr.
  destruct changed; [|discriminate]. intros [= <-].
  destruct fuel as [|fuel]; simpl; rewrite Hd; simpl; [left; reflexivity|].
  right. rewrite Hr.
  destruct (FP.geb _ _); [reflexivity|]. simpl.
  rewrite inner_changed. reflexivity.
Qed.

(** A state that such an iteration leaves as it is: the loop never
    returns from it. *)
Lemma fixed_state_diverges (s : State) :
  with_change s = Some s -> forall fuel, loop fuel s = None.
Proof.
  intros Hs. induction fuel as [|fuel IH]; [reflexivity|]. simpl.
  destruct (with_change_body s s fuel Hs) as [-> | ->]; [reflexivity | exact IH].
Qed.

Lemma diverges_step (s s' : State) :
  with_change s = Some s' ->
  (forall fuel, loop fuel s' = None) -> forall fuel, loop fuel s = None.
Proof.
  intros Hs Hd [|fuel]; [reflexivity|]. simpl.
  destruct (with_change_body s s' fuel Hs) as [-> | ->]; [reflexivity | apply Hd].
Qed.
End Divergence.

(** C1 does not hold of the code.  On the 2-block image of [StuckLoop],
    with target 1 and a budget of 5 comparisons, the first block is a
    peak above the target and reaches the cap [quant_max = 4] after one
    adjustment; its neighbour has distance 0, so [AdjustQuantVal] returns
    true for it in every pass without changing its value.  From the third
    iteration on the field is unchanged, [SetQuantField] reports no
    change, the budget test is skipped, [changed] is true again, and the
    state repeats: no amount of fuel makes the function return, with only
    2 of the 5 comparisons used. *)
Theorem FindBestQuantization_stuck :
  StuckLoop.next StuckLoop.s0 = Some StuckLoop.s1 /\
  StuckLoop.next StuckLoop.s1 = Some StuckLoop.s2 /\
  StuckLoop.next StuckLoop.s2 = Some StuckLoop.s2 /\
  butteraugli_iter _ _ StuckLoop.s2 = 2 /\
  forall fuel, StuckLoop.run fuel = None.
Proof.
  assert (H0 : StuckLoop.next StuckLoop.s0 = Some StuckLoop.s1)
    by (vm_compute; reflexivity).
  assert (H1 : StuckLoop.next StuckLoop.s1 = Some StuckLoop.s2)
    by (vm_compute; reflexivity).
  assert (H2 : StuckLoop.next StuckLoop.s2 = Some StuckLoop.s2)
    by (vm_compute; reflexivity).
  repeat split; try assumption.
  unfold StuckLoop.run, FindBestQuantization.
  apply (diverges_step _ _ _ _ _ _ _ _ _ _ _ _ _ _ _ H0).
  apply (diverges_step _ _ _ _ _ _ _ _ _ _ _ _ _ _ _ H1).
  apply (fixed_state_diverges _ _ _ _ _ _ _ _ _ _ _ _ _ _ H2).
Qed.

(** ** The inner loop is bounded *)

Lemma quant_max_value_top :
  FP.geb (quant_max_value 0) (F32.of_Z 8) = true.
Proof. reflexivity. Qed.

Lemma quant_max_value_step (k : nat) :
  (k < 8)%nat ->
  FP.geb (quant_max_value (S k)) (F32.of_Z 8) = false /\
  F32.add (quant_max_value (S k)) (F32.lit 5 10) = quant_max_value k.
Proof.
  intros Hk.
  do 8 (destruct k as [|k]; [vm_compute; split; reflexivity|]). lia.
Qed.

Section InnerLoopBounded.
Variable CompressedImageT : Type.
Variable block_xsize block_ysize : CompressedImageT -> Z.
Variable SetQuantField :
  float -> ImageF -> CompressedImageT -> bool * CompressedImageT.
Variable Quantize : CompressedImageT -> CompressedImageT.
Variable Image3B : Type.
Variable ToSRGB : CompressedImageT -> Image3B.
Variable ButteraugliComparator : Type.
Variable Compare : Image3B -> ButteraugliComparator -> ButteraugliComparator.
Variable distance : ButteraugliComparator -> float.
Variable distmap : ButteraugliComparator -> ImageF.
Variable butteraugli_target : float.
Variable max_butteraugli_iters : Z.

Local Abbreviation State := (FBQ CompressedImageT ButteraugliComparator).
Local Abbreviation inner :=
  (adjust_loop CompressedImageT block_xsize block_ysize ButteraugliComparator
     distance butteraugli_target).
Local Abbreviation body :=
  (loop_body CompressedImageT block_xsize block_ysize SetQuantField Quantize
     Image3B ToSRGB ButteraugliComparator Compare distance distmap
     butteraugli_target max_butteraugli_iters).

(** From [quant_max = 8 - k/2] the [while] loop makes at most [k + 1]
    passes. *)
Lemma inner_terminates (k : nat) : forall (fuel : nat) (s : State) (changed : bool),
  (k <= 8)%nat -> (k < fuel)%nat ->
  quant_max _ _ s = quant_max_value k ->
  exists s' changed' k',
    inner fuel s changed = Some (s', changed') /\
    (k' <= k)%nat /\ quant_max _ _ s' = quant_max_value k'.
Proof.
  induction k as [|k IH]; intros fuel s changed Hk Hfuel Hq;
    (destruct fuel as [|fuel]; [lia|]); cbn [adjust_loop].
  - destruct (_ && _); [|exists s, changed, 0%nat; auto].
    destruct (adjust_radii _ _ _ _ _ s _) as [qf ch].
    rewrite Hq, quant_max_value_top.
    eexists _, ch, 0%nat. split; [reflexivity|]. split; [lia | reflexivity].
  - destruct (_ && _); [|exists s, changed, (S k); auto].
    destruct (adjust_radii _ _ _ _ _ s _) as [qf ch].
    destruct (quant_max_value_step k ltac:(lia)) as [Hge Hadd].
    rewrite Hq, Hge. destruct ch; cbn [negb].
    + rewrite inner_changed. eexists _, true, (S k).
      split; [reflexivity|]. split; [lia | reflexivity].
    + rewrite Hadd.
      destruct (IH fuel (with_field _ _ s qf (quant_max_value k)) false)
        as (s' & ch' & k' & H1 & H2 & H3); [lia | lia | reflexivity |].
      exists s', ch', k'. split; [exact H1|]. split; [lia | exact H3].
Qed.

Lemma inner_quant_max (fuel : nat) : forall (s s' : State) (changed changed' : bool) (k : nat),
  (k <= 8)%nat -> quant_max _ _ s = quant_max_value k ->
  inner fuel s changed = Some (s', changed') ->
  exists k', (k' <= 8)%nat /\ quant_max _ _ s' = quant_max_value k'.
Proof.
  induction fuel as [|fuel IH]; intros s s' changed changed' k Hk Hq;
    cbn [adjust_loop].
  - destruct (_ && _); [discriminate|]. intros [= <- _]. eauto.
  - destruct (_ && _); [|intros [= <- _]; eauto].
    destruct (adjust_radii _ _ _ _ _ s _) as [qf ch].
    destruct (FP.geb _ _) eqn:Hge; [intros [= <- _]; exists k; auto|].
    destruct ch; cbn [negb].
    + rewrite inner_changed. intros [= <- _]. exists k; auto.
    + destruct k as [|k]; [rewrite Hq, quant_max_value_top in Hge; discriminate|].
      destruct (quant_max_value_step k ltac:(lia)) as [_ Hadd].
      rewrite Hq, Hadd. apply (IH _ _ _ _ k); [lia | reflexivity].
Qed.

(** At the head of the loop [quant_max] is one of 4, 4.5, ..., 8. *)
Lemma at_head_quant_max (img0 : CompressedImageT)
    (comparator0 : ButteraugliComparator) (s : State) :
  at_head CompressedImageT block_xsize block_ysize SetQuantField Quantize
          Image3B ToSRGB ButteraugliComparator Compare distance distmap
          butteraugli_target max_butteraugli_iters img0 comparator0 s ->
  exists k, (k <= 8)%nat /\ quant_max _ _ s = quant_max_value k.
Proof.
  induction 1 as [|s s' fuel Hs IH Hb].
  - exists 8%nat. split; [lia | reflexivity].
  - destruct IH as (k & Hk & Hq). revert Hb. unfold loop_body.
    unfold quantize_and_compare.
    destruct (SetQuantField _ _ _) as [[] img1].
    + destruct (_ <=? _); [discriminate|].
      match goal with |- context [adjust_loop _ _ _ _ _ _ fuel ?s1 false] =>
        destruct (adjust_loop _ _ _ _ _ _ fuel s1 false) as [[s2 ch]|] eqn:E;
        [|discriminate];
        apply (inner_quant_max fuel s1 s2 false ch k Hk Hq) in E
      end.
      destruct E as (k' & Hk' & Hq'). unfold outer_step.
      destruct (negb ch); [destruct (_ =? _)|]; intros [= <-]; simpl; eauto.
    + match goal with |- context [adjust_loop _ _ _ _ _ _ fuel ?s1 false] =>
        destruct (adjust_loop _ _ _ _ _ _ fuel s1 false) as [[s2 ch]|] eqn:E;
        [|discriminate];
        apply (inner_quant_max fuel s1 s2 false ch k Hk Hq) in E
      end.
      destruct E as (k' & Hk' & Hq'). unfold outer_step.
      destruct (negb ch); [destruct (_ =? _)|]; intros [= <-]; simpl; eauto.
Qed.

(** Every single iteration of the [for (;;)] ends: 9 units of fuel are
    enough for its [while] loop. *)
Lemma iteration_ends (img0 : CompressedImageT)
    (comparator0 : ButteraugliComparator) (s : State) (fuel : nat) :
  at_head CompressedImageT block_xsize block_ysize SetQuantField Quantize
          Image3B ToSRGB ButteraugliComparator Compare distance distmap
          butteraugli_target max_butteraugli_iters img0 comparator0 s ->
  (9 <= fuel)%nat ->
  exists r, body fuel s = Some r.
Proof.
  intros Hs Hfuel. destruct (at_head_quant_max _ _ _ Hs) as (k & Hk & Hq).
  unfold loop_body.
  destruct (quantize_and_compare _ _ _ _ _ _ _ _ _ _ s) as [s1|s1] eqn:E; [|eauto].
  assert (Hq1 : quant_max _ _ s1 = quant_max_value k).
  { revert E. unfold quantize_and_compare.
    destruct (SetQuantField _ _ _) as [[] img1];
      [destruct (_ <=? _); [discriminate|]|]; intros [= <-]; exact Hq. }
  destruct (inner_terminates k fuel s1 false Hk ltac:(lia) Hq1)
    as (s' & ch' & k' & H1 & _). rewrite H1. eauto.
Qed.
End InnerLoopBounded.

(** ** Small integers as floats *)

Lemma digits2_pos_size (p : positive) : digits2_pos p = Pos.size p.
Proof. induction p; simpl; congruence. Qed.

Lemma digits2_pos_bounds (p : positive) :
  2 ^ (Zpos (digits2_pos p) - 1) <= Zpos p < 2 ^ Zpos (digits2_pos p).
Proof.
  rewrite digits2_pos_size.
  pose proof (Pos.size_gt p) as Hgt. pose proof (Pos.size_le p) as Hle.
  apply Pos2Z.pos_lt_pos in Hgt. apply Pos2Z.pos_le_pos in Hle.
  rewrite Pos2Z.inj_pow in Hgt, Hle.
  change (Zpos 2) with 2 in Hgt, Hle. change (Zpos p~0) with (2 * Zpos p) in Hle.
  assert (Hpow : 2 ^ Zpos (Pos.size p) = 2 * 2 ^ (Zpos (Pos.size p) - 1)).
  { rewrite <- Z.pow_succ_r by lia. f_equal. lia. }
  lia.
Qed.

Lemma iter_xO_Z (p k : positive) : Zpos (Pos.iter xO p k) = Zpos p * 2 ^ Zpos k.
Proof.
  induction k as [|k IH] using Pos.peano_ind.
  - simpl. lia.
  - rewrite Pos.iter_succ, Pos2Z.inj_xO, IH, Pos2Z.inj_succ, Z.pow_succ_r by lia.
    lia.
Qed.

Lemma digits_iter_xO (p k : positive) :
  digits2_pos (Pos.iter xO p k) = (digits2_pos p + k)%positive.
Proof.
  induction k as [|k IH] using Pos.peano_ind.
  - simpl. lia.
  - rewrite Pos.iter_succ. simpl. rewrite IH. lia.
Qed.

Lemma aligned_digits (p : positive) :
  Zpos (digits2_pos p) <= 24 -> Zpos (digits2_pos (aligned p)) = 24.
Proof.
  intros Hd. unfold aligned.
  destruct (Zpos (digits2_pos p) - 24) as [|k|k] eqn:E; try lia.
  rewrite digits_iter_xO. lia.
Qed.

Lemma aligned_Z (p : positive) :
  Zpos (digits2_pos p) <= 24 ->
  Zpos (aligned p) = Zpos p * 2 ^ (24 - Zpos (digits2_pos p)).
Proof.
  intros Hd. unfold aligned.
  destruct (Zpos (digits2_pos p) - 24) as [|k|k] eqn:E; try lia.
  - replace (24 - Zpos (digits2_pos p)) with 0 by lia. lia.
  - rewrite iter_xO_Z. f_equal. f_equal. lia.
Qed.

Lemma F32_of_Z_pos (p : positive) :
  Zpos (digits2_pos p) <= 24 ->
  F32.of_Z (Zpos p) = S754_finite false (aligned p) (Zpos (digits2_pos p) - 24).
Proof.
  intros Hd. pose proof (aligned_digits p Hd) as Ha.
  unfold F32.of_Z, binary_normalize, binary_round.
  assert (Hfexp : fexp F32.prec F32.emax (Zpos (digits2_pos p) + 0)
                  = Zpos (digits2_pos p) - 24).
  { unfold fexp, emin, F32.prec, F32.emax. lia. }
  rewrite Hfexp.
  assert (Hal : shl_align p 0 (Zpos (digits2_pos p) - 24)
                = (aligned p, Zpos (digits2_pos p) - 24)).
  { unfold shl_align, aligned. rewrite Z.sub_0_r.
    destruct (Zpos (digits2_pos p) - 24) as [|k|k] eqn:E; try lia; reflexivity. }
  rewrite Hal. unfold binary_round_aux.
  assert (Hshr : forall l,
            shr_fexp F32.prec F32.emax (Zpos (aligned p))
                     (Zpos (digits2_pos p) - 24) l
            = (shr_record_of_loc (Zpos (aligned p)) l, Zpos (digits2_pos p) - 24)).
  { intros l. unfold shr_fexp. cbn [Zdigits2]. rewrite Ha.
    replace (fexp F32.prec F32.emax (24 + (Zpos (digits2_pos p) - 24))
             - (Zpos (digits2_pos p) - 24)) with 0
      by (unfold fexp, emin, F32.prec, F32.emax; lia).
    reflexivity. }
  rewrite Hshr. cbn [shr_record_of_loc shr_m loc_of_shr_record round_nearest_even].
  rewrite Hshr. cbn [shr_record_of_loc shr_m].
  replace (Zpos (digits2_pos p) - 24 <=? F32.emax - F32.prec) with true
    by (symmetry; apply Z.leb_le; unfold F32.emax, F32.prec; lia).
  reflexivity.
Qed.

Lemma digits_small (p : positive) : Zpos p < 2 ^ 24 -> Zpos (digits2_pos p) <= 24.
Proof.
  intros Hp. pose proof (digits2_pos_bounds p) as [Hlo _].
  destruct (Z.le_gt_cases (Zpos (digits2_pos p)) 24) as [|Hgt]; [assumption|].
  exfalso.
  assert (2 ^ 24 <= 2 ^ (Zpos (digits2_pos p) - 1))
    by (apply Z.pow_le_mono_r; lia).
  lia.
Qed.

(** On integers of [0 .. 2^24 - 1] the conversion to [float] keeps the
    order. *)
Lemma F32_of_Z_ltb (a b : Z) :
  0 <= a < 2 ^ 24 -> 0 <= b < 2 ^ 24 ->
  FP.ltb (F32.of_Z a) (F32.of_Z b) = (a <? b).
Proof.
  intros Ha Hb.
  destruct a as [|p|p], b as [|q|q]; try lia; try reflexivity.
  - rewrite (F32_of_Z_pos q) by (apply digits_small; lia). reflexivity.
  - rewrite (F32_of_Z_pos p) by (apply digits_small; lia). reflexivity.
  - pose proof (digits_small p ltac:(lia)) as Hdp.
    pose proof (digits_small q ltac:(lia)) as Hdq.
    rewrite (F32_of_Z_pos p Hdp), (F32_of_Z_pos q Hdq).
    unfold FP.ltb, SFltb, SFcompare.
    pose proof (digits2_pos_bounds p) as [Hp1 Hp2].
    pose proof (digits2_pos_bounds q) as [Hq1 Hq2].
    destruct (Z.compare_spec (Zpos (digits2_pos p) - 24) (Zpos (digits2_pos q) - 24))
      as [E|E|E].
    + rewrite Pos.compare_cont_spec. cbn [Pos.switch_Eq].
      assert (Hc : (aligned p ?= aligned q)%positive = (Zpos p ?= Zpos q)).
      { change ((aligned p ?= aligned q)%positive)
          with (Zpos (aligned p) ?= Zpos (aligned q)).
        rewrite !aligned_Z by assumption.
        replace (Zpos (digits2_pos q)) with (Zpos (digits2_pos p)) by lia.
        symmetry. apply Zmult_compare_compat_r.
        apply Z.lt_gt, Z.pow_pos_nonneg; lia. }
      rewrite Hc.
      destruct (Z.compare_spec (Zpos p) (Zpos q)) as [E'|E'|E'];
        symmetry; [apply Z.ltb_ge | apply Z.ltb_lt | apply Z.ltb_ge]; lia.
    + symmetry. apply Z.ltb_lt.
      assert (2 ^ Zpos (digits2_pos p) <= 2 ^ (Zpos (digits2_pos q) - 1))
        by (apply Z.pow_le_mono_r; lia).
      lia.
    + symmetry. apply Z.ltb_ge.
      assert (2 ^ Zpos (digits2_pos q) <= 2 ^ (Zpos (digits2_pos p) - 1))
        by (apply Z.pow_le_mono_r; lia).
      lia.
Qed.

Lemma F32_of_Z_nonneg (a : Z) :
  0 <= a < 2 ^ 24 -> FP.ltb (F32.of_Z a) (S754_zero false) = false.
Proof.
  intros Ha. change (S754_zero false) with (F32.of_Z 0).
  rewrite F32_of_Z_ltb by lia. apply Z.ltb_ge. lia.
Qed.

Lemma F32_of_Z_inj (a b : Z) :
  0 <= a < 2 ^ 24 -> 0 <= b < 2 ^ 24 -> F32.of_Z a = F32.of_Z b -> a = b.
Proof.
  intros Ha Hb E.
  pose proof (F32_of_Z_ltb a b Ha Hb) as H1.
  pose proof (F32_of_Z_ltb b a Hb Ha) as H2.
  rewrite E in H1. rewrite E in H2. rewrite ltb_irrefl in H1, H2.
  symmetry in H1, H2. apply Z.ltb_ge in H1, H2. lia.
Qed.

(** ** Loops and planes *)

Lemma for_range_empty {S : Type} (lo hi : Z) (body : Z -> S -> S) (s : S) :
  hi <= lo -> for_range lo hi body s = s.
Proof.
  intros H. unfold for_range.
  replace (seqZ lo (hi - lo)) with (@nil Z); [reflexivity|].
  symmetry. apply seqZ_nil. lia.
Qed.

Lemma for_range_first {S : Type} (lo hi : Z) (body : Z -> S -> S) (s : S) :
  lo < hi -> for_range lo hi body s = for_range (lo + 1) hi body (body lo s).
Proof.
  intros H. unfold for_range. rewrite (seqZ_cons lo (hi - lo)) by lia.
  simpl. f_equal. f_equal; lia.
Qed.

(** Induction over the iterations of a [for] loop. *)
Lemma for_range_ind {S : Type} (I : Z -> S -> Prop) (hi : Z) (body : Z -> S -> S) :
  forall (n : nat) (lo : Z) (s : S),
    Z.of_nat n = hi - lo ->
    I lo s ->
    (forall k s', lo <= k < hi -> I k s' -> I (k + 1) (body k s')) ->
    I hi (for_range lo hi body s).
Proof.
  induction n as [|n IH]; intros lo s Hn Hs Hstep.
  - rewrite for_range_empty by lia. replace hi with lo by lia. exact Hs.
  - rewrite for_range_first by lia. apply IH; [lia | apply Hstep; [lia | exact Hs] |].
    intros k s' Hk. apply Hstep. lia.
Qed.

Lemma for_range_inv {S : Type} (I : Z -> S -> Prop) (lo hi : Z)
    (body : Z -> S -> S) (s : S) :
  lo <= hi ->
  I lo s ->
  (forall k s', lo <= k < hi -> I k s' -> I (k + 1) (body k s')) ->
  I hi (for_range lo hi body s).
Proof.
  intros H. apply (for_range_ind I hi body (Z.to_nat (hi - lo))). lia.
Qed.

Section Planes.
Context {A : Type}.
Variable d : A.

Lemma wf_fill (xs ys : Z) (v : A) :
  0 <= xs -> 0 <= ys -> Img.wf (Img.fill xs ys v).
Proof.
  intros Hx Hy. unfold Img.wf, Img.fill. simpl.
  repeat split; try lia.
  - apply length_replicate.
  - apply Forall_replicate. apply length_replicate.
Qed.

Lemma get_fill (xs ys : Z) (v : A) (y x : Z) :
  0 <= y < ys -> 0 <= x < xs -> Img.get d (Img.fill xs ys v) y x = v.
Proof.
  intros Hy Hx. unfold Img.get, Img.fill. simpl.
  replace ((0 <=? y) && (0 <=? x)) with true
    by (symmetry; apply andb_true_iff; split; apply Z.leb_le; lia).
  rewrite lookup_replicate_2 by lia. rewrite lookup_replicate_2 by lia.
  reflexivity.
Qed.

Lemma set_sizes (img : Image A) (y x : Z) (v : A) :
  xsize (Img.set img y x v) = xsize img /\ ysize (Img.set img y x v) = ysize img.
Proof. unfold Img.set. destruct (_ && _); auto. Qed.

Lemma wf_set (img : Image A) (y x : Z) (v : A) :
  Img.wf img -> Img.wf (Img.set img y x v).
Proof.
  intros (Hx & Hy & Hl & Hr). unfold Img.set.
  destruct (_ && _); [|repeat split; auto].
  unfold Img.wf. simpl. repeat split; auto.
  - rewrite length_alter. exact Hl.
  - rewrite Forall_lookup in Hr |- *. intros i r Hi.
    destruct (decide (i = Z.to_nat y)) as [-> | Hne].
    + rewrite list_lookup_alter_eq in Hi.
      destruct (rows img !! Z.to_nat y) as [r0|] eqn:E; [|discriminate].
      simpl in Hi. injection Hi as <-. rewrite length_insert.
      exact (Hr _ _ E).
    + rewrite list_lookup_alter_ne in Hi by congruence. exact (Hr _ _ Hi).
Qed.

Lemma get_set (img : Image A) (y x : Z) (v : A) (y' x' : Z) :
  Img.wf img -> in_image img y x ->
  Img.get d (Img.set img y x v) y' x'
  = if (y' =? y) && (x' =? x) then v else Img.get d img y' x'.
Proof.
  intros (Hxs & Hys & Hl & Hr) [Hy Hx]. unfold Img.set.
  replace ((0 <=? y) && (0 <=? x)) with true
    by (symmetry; apply andb_true_iff; split; apply Z.leb_le; lia).
  unfold Img.get. simpl.
  destruct ((0 <=? y') && (0 <=? x')) eqn:Hpos.
  2:{ destruct (Z.eqb_spec y' y), (Z.eqb_spec x' x); simpl; try reflexivity.
      apply andb_false_iff in Hpos. destruct Hpos as [H | H];
        apply Z.leb_gt in H; lia. }
  apply andb_true_iff in Hpos. destruct Hpos as [Hy' Hx'].
  apply Z.leb_le in Hy', Hx'.
  destruct (Z.eqb_spec y' y) as [-> | Hny]; simpl.
  - rewrite list_lookup_alter_eq.
    assert (Hrow : is_Some (rows img !! Z.to_nat y))
      by (apply lookup_lt_is_Some; lia).
    destruct Hrow as [r Er]. rewrite Er. simpl.
    rewrite Forall_lookup in Hr. pose proof (Hr _ _ Er) as Hlen.
    destruct (Z.eqb_spec x' x) as [-> | Hnx].
    + rewrite list_lookup_insert_eq by lia. reflexivity.
    + rewrite list_lookup_insert_ne by lia. reflexivity.
  - rewrite list_lookup_alter_ne by lia. reflexivity.
Qed.
End Planes.

(** Two nested [for] loops whose body rewrites the cell it stands on, as
    a function of the cell's coordinates and of its value. *)
Section PointwiseLoops.
Context {A : Type}.
Variable d : A.
Variable body : Z -> Z -> Image A -> Image A.
Variable upd : Z -> Z -> A -> A.

Hypothesis body_spec : rewrites_cell d body upd.

Lemma pointwise_row (img : Image A) (y xlo xhi : Z) :
  Img.wf img -> 0 <= y < ysize img -> 0 <= xlo -> xlo <= xhi -> xhi <= xsize img ->
  let r := for_range xlo xhi (fun x => body y x) img in
  Img.wf r /\ xsize r = xsize img /\ ysize r = ysize img /\
  forall y' x',
    Img.get d r y' x'
    = if (y' =? y) && (xlo <=? x') && (x' <? xhi)
      then upd y x' (Img.get d img y' x') else Img.get d img y' x'.
Proof.
  intros Hwf Hy Hlo Hle Hhi.
  apply (for_range_inv
           (fun k r => Img.wf r /\ xsize r = xsize img /\ ysize r = ysize img /\
              forall y' x', Img.get d r y' x'
                = if (y' =? y) && (xlo <=? x') && (x' <? k)
                  then upd y x' (Img.get d img y' x') else Img.get d img y' x'));
    [exact Hle | |].
  - split; [|split; [|split]]; auto. intros y' x'.
    destruct (y' =? y), (Z.leb_spec xlo x'), (Z.ltb_spec x' xlo);
      simpl; try reflexivity; lia.
  - intros k r [Hk1 Hk2] (Hw & Hxs & Hys & Hget).
    destruct (body_spec r y k Hw) as (Hw' & Hxs' & Hys' & Hget').
    { unfold in_image. lia. }
    split; [|split; [|split]]; try congruence. intros y' x'.
    rewrite Hget', !Hget.
    destruct (Z.eqb_spec y' y) as [-> | Hny]; simpl.
    + rewrite Z.eqb_refl. simpl.
      destruct (Z.eqb_spec x' k) as [-> | Hnk].
      * replace (xlo <=? k) with true by (symmetry; apply Z.leb_le; lia).
        replace (k <? k) with false by (symmetry; apply Z.ltb_ge; lia).
        replace (k <? k + 1) with true by (symmetry; apply Z.ltb_lt; lia).
        reflexivity.
      * destruct (Z.leb_spec xlo x'); simpl; try reflexivity.
        destruct (Z.ltb_spec x' k), (Z.ltb_spec x' (k + 1)); try reflexivity; lia.
    + reflexivity.
Qed.

Lemma pointwise_grid (img : Image A) (ylo yhi xlo xhi : Z) :
  Img.wf img -> 0 <= ylo -> ylo <= yhi -> yhi <= ysize img ->
  0 <= xlo -> xlo <= xhi -> xhi <= xsize img ->
  let r := for_range ylo yhi (fun y => for_range xlo xhi (fun x => body y x)) img in
  Img.wf r /\ xsize r = xsize img /\ ysize r = ysize img /\
  forall y' x',
    Img.get d r y' x'
    = if (ylo <=? y') && (y' <? yhi) && (xlo <=? x') && (x' <? xhi)
      then upd y' x' (Img.get d img y' x') else Img.get d img y' x'.
Proof.
  intros Hwf Hylo Hyle Hyhi Hxlo Hxle Hxhi.
  apply (for_range_inv
           (fun k r => Img.wf r /\ xsize r = xsize img /\ ysize r = ysize img /\
              forall y' x', Img.get d r y' x'
                = if (ylo <=? y') && (y' <? k) && (xlo <=? x') && (x' <? xhi)
                  then upd y' x' (Img.get d img y' x') else Img.get d img y' x'));
    [exact Hyle | |].
  - split; [|split; [|split]]; auto. intros y' x'.
    destruct (Z.leb_spec ylo y'), (Z.ltb_spec y' ylo); simpl; try reflexivity; lia.
  - intros k r [Hk1 Hk2] (Hw & Hxs & Hys & Hget).
    destruct (pointwise_row r k xlo xhi Hw) as (Hw' & Hxs' & Hys' & Hget');
      try lia.
    split; [|split; [|split]]; try congruence. intros y' x'.
    rewrite Hget', !Hget.
    destruct (Z.eqb_spec y' k) as [-> | Hnk]; simpl.
    + replace (ylo <=? k) with true by (symmetry; apply Z.leb_le; lia).
      replace (k <? k) with false by (symmetry; apply Z.ltb_ge; lia).
      replace (k <? k + 1) with true by (symmetry; apply Z.ltb_lt; lia).
      reflexivity.
    + destruct (Z.leb_spec ylo y'); simpl; try reflexivity.
      destruct (Z.ltb_spec y' k), (Z.ltb_spec y' (k + 1)); try reflexivity; lia.
Qed.
End PointwiseLoops.

(** ** DistToPeakMap *)

Lemma stamp_value_cases (dv : Z) (c : float) :
  0 <= dv < 2 ^ 24 ->
  (c = F32.of_Z (-1) -> stamp_value (F32.of_Z dv) c = F32.of_Z dv) /\
  (forall v, 0 <= v < 2 ^ 24 -> c = F32.of_Z v ->
             stamp_value (F32.of_Z dv) c = F32.of_Z (Z.min v dv)).
Proof.
  intros Hdv. split.
  - intros ->. reflexivity.
  - intros v Hv ->. unfold stamp_value, FP.gtb.
    rewrite F32_of_Z_nonneg by lia. rewrite F32_of_Z_ltb by lia. simpl.
    destruct (Z.ltb_spec dv v); f_equal; lia.
Qed.

Lemma minus_one_not_nonneg (v : Z) :
  0 <= v < 2 ^ 24 -> F32.of_Z (-1) <> F32.of_Z v.
Proof.
  intros Hv E. pose proof (F32_of_Z_nonneg v Hv) as H.
  rewrite <- E in H. discriminate.
Qed.

Section DistToPeakMapProps.
Variable field : ImageF.
Variable peak_min : float.
Variable r : Z.
Variable peak_weight : float.
Hypothesis field_wf : Img.wf field.
Hypothesis r_range : 0 <= r < 2 ^ 24.

Local Abbreviation near := (peak_near field peak_min r peak_weight).
Local Abbreviation cell_at := (cell_scanned field peak_min r peak_weight).

Lemma stamp_body_rewrites (y0 x0 : Z) :
  rewrites_cell S754_nan
    (fun y x result =>
       let dist := F32.of_Z (Z.max (Z.abs (y - y0)) (Z.abs (x - x0))) in
       let cur_dist := RowF result y x in
       if FP.ltb cur_dist (S754_zero false) || FP.gtb cur_dist dist
       then Img.set result y x dist else result)
    (fun y x cur => stamp_value (F32.of_Z (cheb y x y0 x0)) cur).
Proof.
  intros img y x Hwf Hin. cbv zeta. unfold stamp_value, cheb, RowF.
  destruct (_ || _) eqn:E.
  - split; [apply wf_set, Hwf|]. split; [apply set_sizes|]. split; [apply set_sizes|].
    intros y' x'. apply get_set; assumption.
  - split; [exact Hwf|]. split; [reflexivity|]. split; [reflexivity|].
    intros y' x'.
    destruct (Z.eqb_spec y' y) as [-> | ]; [|reflexivity].
    destruct (Z.eqb_spec x' x) as [-> | ]; reflexivity.
Qed.

(** Stamping the peak [(y0, x0)] rewrites the cells within distance [r]
    of it, and no other. *)
Lemma stamp_peak_spec (y0 x0 : Z) (result : ImageF) :
  Img.wf result -> xsize result = xsize field -> ysize result = ysize field ->
  in_image field y0 x0 ->
  let result' := stamp_peak field r y0 x0 result in
  Img.wf result' /\ xsize result' = xsize field /\ ysize result' = ysize field /\
  forall y x, in_image field y x ->
    RowF result' y x
    = if cheb y x y0 x0 <=? r
      then stamp_value (F32.of_Z (cheb y x y0 x0)) (RowF result y x)
      else RowF result y x.
Proof.
  intros Hwf Hxs Hys [Hy0 Hx0] result'.
  assert (H : Img.wf result' /\ xsize result' = xsize result /\
              ysize result' = ysize result /\
              forall y' x',
                Img.get S754_nan result' y' x'
                = if (nb_y_min r y0 <=? y') && (y' <? nb_y_max field r y0)
                     && (nb_x_min r x0 <=? x') && (x' <? nb_x_max field r x0)
                  then stamp_value (F32.of_Z (cheb y' x' y0 x0))
                                   (Img.get S754_nan result y' x')
                  else Img.get S754_nan result y' x').
  { apply (pointwise_grid S754_nan _ _ (stamp_body_rewrites y0 x0) result
             (nb_y_min r y0) (nb_y_max field r y0)
             (nb_x_min r x0) (nb_x_max field r x0) Hwf);
      unfold nb_y_min, nb_y_max, nb_x_min, nb_x_max; lia. }
  destruct H as (Hw' & Hxs' & Hys' & Hget).
  split; [exact Hw'|]. split; [congruence|]. split; [congruence|].
  intros y x [Hy Hx]. unfold RowF at 1. rewrite Hget.
  unfold nb_y_min, nb_y_max, nb_x_min, nb_x_max, cheb.
  destruct (Z.leb_spec (Z.max (Z.abs (y - y0)) (Z.abs (x - x0))) r) as [Hle|Hgt].
  - replace (_ && _ && _ && _) with true; [reflexivity|].
    symmetry. rewrite !andb_true_iff, !Z.leb_le, !Z.ltb_lt. lia.
  - replace (_ && _ && _ && _) with false; [reflexivity|].
    symmetry. rewrite !andb_false_iff, !Z.leb_gt, !Z.ltb_ge. lia.
Qed.

Lemma cell_at_ext (Y X Y' X' : Z) (c : float) (y x : Z) :
  (forall y0 x0, scanned field Y X y0 x0 <-> scanned field Y' X' y0 x0) ->
  cell_at Y X c y x -> cell_at Y' X' c y x.
Proof.
  intros Hext [(Hc & Hnone) | (v & Hv & Hc & (y0 & x0 & Hs & Hn & Hd) & Hmin)].
  - left. split; [exact Hc|]. intros y0 x0 Hs. apply Hnone, Hext, Hs.
  - right. exists v. split; [exact Hv|]. split; [exact Hc|]. split.
    + exists y0, x0. split; [apply Hext, Hs | auto].
    + intros y1 x1 Hs1. apply Hmin, Hext, Hs1.
Qed.

(** One step of the raster scan, over the cell [(Y, X)]. *)
Lemma scan_step (Y X : Z) (result : ImageF) :
  in_image field Y X ->
  Img.wf result -> xsize result = xsize field -> ysize result = ysize field ->
  (forall y x, in_image field y x -> cell_at Y X (RowF result y x) y x) ->
  let result' :=
    if is_peak field peak_min r peak_weight Y X
    then stamp_peak field r Y X result else result in
  Img.wf result' /\ xsize result' = xsize field /\ ysize result' = ysize field /\
  forall y x, in_image field y x -> cell_at Y (X + 1) (RowF result' y x) y x.
Proof.
  intros HYX Hwf Hxs Hys Hcells result'.
  assert (Hnew : forall y0 x0, scanned field Y (X + 1) y0 x0 <->
                   scanned field Y X y0 x0 \/ (y0 = Y /\ x0 = X)).
  { intros y0 x0. unfold scanned. destruct HYX as [HY HX]. unfold in_image. split.
    - intros (Hin & [H | [H1 H2]]); [left; auto|].
      destruct (Z.eq_dec x0 X); [right; auto | left; split; [auto | right; lia]].
    - intros [(Hin & H) | [-> ->]]; [split; [auto | lia] | split; [auto | lia]]. }
  subst result'.
  destruct (is_peak field peak_min r peak_weight Y X) eqn:Hpeak.
  - destruct (stamp_peak_spec Y X result Hwf Hxs Hys HYX) as (Hw' & Hxs' & Hys' & Hget).
    split; [exact Hw'|]. split; [exact Hxs'|]. split; [exact Hys'|].
    intros y x Hin. rewrite (Hget y x Hin).
    specialize (Hcells y x Hin).
    destruct (Z.leb_spec (cheb y x Y X) r) as [Hle | Hgt].
    + (* the new peak is near *)
      assert (Hdv : 0 <= cheb y x Y X < 2 ^ 24) by (unfold cheb in *; lia).
      assert (Hnear : near y x Y X) by (repeat split; auto; apply HYX).
      destruct (stamp_value_cases (cheb y x Y X) (RowF result y x) Hdv) as [S1 S2].
      destruct Hcells as [(Hc & Hnone) | (v & Hv & Hc & (y0 & x0 & Hs & Hn & Hd) & Hmin)].
      * right. exists (cheb y x Y X). split; [lia|]. split; [apply S1, Hc|]. split.
        -- exists Y, X. split; [apply Hnew; right; auto | auto].
        -- intros y1 x1 Hs1 Hn1. apply Hnew in Hs1.
           destruct Hs1 as [Hs1 | [-> ->]]; [destruct (Hnone _ _ Hs1 Hn1) | lia].
      * right. exists (Z.min v (cheb y x Y X)). split; [lia|].
        split; [apply S2; [lia | exact Hc]|]. split.
        -- destruct (Z.le_gt_cases v (cheb y x Y X)).
           ++ exists y0, x0. split; [apply Hnew; left; exact Hs|]. split; [exact Hn | lia].
           ++ exists Y, X. split; [apply Hnew; right; auto|]. split; [exact Hnear | lia].
        -- intros y1 x1 Hs1 Hn1. apply Hnew in Hs1.
           destruct Hs1 as [Hs1 | [-> ->]]; [specialize (Hmin _ _ Hs1 Hn1)|]; lia.
    + (* the new peak is too far *)
      destruct Hcells as [(Hc & Hnone) | (v & Hv & Hc & (y0 & x0 & Hs & Hn & Hd) & Hmin)].
      * left. split; [exact Hc|]. intros y1 x1 Hs1 Hn1. apply Hnew in Hs1.
        destruct Hs1 as [Hs1 | [-> ->]]; [exact (Hnone _ _ Hs1 Hn1)|].
        destruct Hn1 as (_ & _ & Hd1). lia.
      * right. exists v. split; [exact Hv|]. split; [exact Hc|]. split.
        -- exists y0, x0. split; [apply Hnew; left; exact Hs | auto].
        -- intros y1 x1 Hs1 Hn1. apply Hnew in Hs1.
           destruct Hs1 as [Hs1 | [-> ->]]; [exact (Hmin _ _ Hs1 Hn1)|].
           destruct Hn1 as (_ & _ & Hd1). lia.
  - (* not a peak *)
    split; [exact Hwf|]. split; [exact Hxs|]. split; [exact Hys|].
    intros y x Hin. specialize (Hcells y x Hin).
    destruct Hcells as [(Hc & Hnone) | (v & Hv & Hc & (y0 & x0 & Hs & Hn & Hd) & Hmin)].
    + left. split; [exact Hc|]. intros y1 x1 Hs1 Hn1. apply Hnew in Hs1.
      destruct Hs1 as [Hs1 | [-> ->]]; [exact (Hnone _ _ Hs1 Hn1)|].
      destruct Hn1 as (_ & Hp & _). congruence.
    + right. exists v. split; [exact Hv|]. split; [exact Hc|]. split.
      * exists y0, x0. split; [apply Hnew; left; exact Hs | auto].
      * intros y1 x1 Hs1 Hn1. apply Hnew in Hs1.
        destruct Hs1 as [Hs1 | [-> ->]]; [exact (Hmin _ _ Hs1 Hn1)|].
        destruct Hn1 as (_ & Hp & _). congruence.
Qed.

(** The whole scan. *)
Lemma DistToPeakMap_scan :
  let result := DistToPeakMap field peak_min r peak_weight in
  Img.wf result /\ xsize result = xsize field /\ ysize result = ysize field /\
  forall y x, in_image field y x ->
    cell_at (ysize field) 0 (RowF result y x) y x.
Proof.
  destruct field_wf as (Hxs0 & Hys0 & _).
  cbv zeta. unfold DistToPeakMap.
  apply (for_range_inv
           (fun Y res => Img.wf res /\ xsize res = xsize field /\
              ysize res = ysize field /\
              forall y x, in_image field y x -> cell_at Y 0 (RowF res y x) y x));
    [exact Hys0 | |].
  - split; [apply wf_fill; assumption|]. split; [reflexivity|]. split; [reflexivity|].
    intros y x [Hy Hx]. left. split.
    + unfold RowF. apply get_fill; assumption.
    + intros y0 x0 (Hin & [H | [H1 H2]]); destruct Hin; lia.
  - intros Y res HY (Hw & Hxs & Hys & Hcells).
    assert (Hrow :
      let res' := for_range 0 (xsize field)
                    (fun x0 result =>
                       if is_peak field peak_min r peak_weight Y x0
                       then stamp_peak field r Y x0 result else result) res in
      Img.wf res' /\ xsize res' = xsize field /\ ysize res' = ysize field /\
      forall y x, in_image field y x ->
        cell_at Y (xsize field) (RowF res' y x) y x).
    { apply (for_range_inv
               (fun X res' => Img.wf res' /\ xsize res' = xsize field /\
                  ysize res' = ysize field /\
                  forall y x, in_image field y x -> cell_at Y X (RowF res' y x) y x));
        [exact Hxs0 | auto |].
      intros X res' HX (Hw' & Hxs' & Hys' & Hcells').
      apply (scan_step Y X res'); auto. split; lia. }
    cbv zeta in Hrow. destruct Hrow as (Hw' & Hxs' & Hys' & Hcells').
    split; [exact Hw'|]. split; [exact Hxs'|]. split; [exact Hys'|].
    intros y x Hin. apply (cell_at_ext Y (xsize field)); [|apply Hcells', Hin].
    intros y0 x0. unfold scanned, in_image. split; intros (Hi & H); (split; [exact Hi|]); lia.
Qed.

(* The cells of the map, in terms of the test [is_peak] of the source. *)
Lemma DistToPeakMap_cells (y x : Z) :
  in_image field y x ->
  let c := RowF (DistToPeakMap field peak_min r peak_weight) y x in
  (forall v, 0 <= v < 2 ^ 24 ->
     (c = F32.of_Z v <-> nearest_peak_distance field peak_min r peak_weight y x v)) /\
  (c = F32.of_Z (-1) <-> ~ exists y0 x0, near y x y0 x0) /\
  (c = F32.of_Z (-1) \/ exists v, 0 <= v <= r /\ c = F32.of_Z v).
Proof.
  intros Hin c.
  destruct DistToPeakMap_scan as (_ & _ & _ & Hcells).
  specialize (Hcells y x Hin). fold c in Hcells.
  assert (Hall : forall y0 x0, near y x y0 x0 -> scanned field (ysize field) 0 y0 x0).
  { intros y0 x0 (Hi & _). split; [exact Hi|]. destruct Hi. lia. }
  destruct Hcells as [(Hc & Hnone) | (v & Hv & Hc & (y0 & x0 & Hs & Hn & Hd) & Hmin)].
  - split; [|split].
    + intros v Hv. split.
      * intros E. rewrite Hc in E. destruct (minus_one_not_nonneg v Hv E).
      * intros ((y0 & x0 & Hn & _) & _). destruct (Hnone _ _ (Hall _ _ Hn) Hn).
    + split; [|intros _; exact Hc].
      intros _ (y0 & x0 & Hn). exact (Hnone _ _ (Hall _ _ Hn) Hn).
    + left. exact Hc.
  - split; [|split].
    + intros v' Hv'. split.
      * intros E. rewrite Hc in E. apply F32_of_Z_inj in E; [|lia|lia]. subst v'.
        split; [exists y0, x0; auto|].
        intros y1 x1 Hn1. apply Hmin; [apply Hall, Hn1 | exact Hn1].
      * intros ((y1 & x1 & Hn1 & Hd1) & Hmin').
        rewrite Hc. f_equal.
        specialize (Hmin _ _ (Hall _ _ Hn1) Hn1). specialize (Hmin' _ _ Hn). lia.
    + split.
      * intros E. rewrite Hc in E. symmetry in E.
        destruct (minus_one_not_nonneg v ltac:(lia) E).
      * intros Hno. exfalso. apply Hno. exists y0, x0. exact Hn.
    + right. exists v. auto.
Qed.
End DistToPeakMapProps.

Lemma ToyField_wf : Img.wf ToyField.field.
Proof.
  unfold Img.wf, ToyField.field. simpl.
  repeat split; try lia. repeat constructor.
Qed.


(** ** The neighbourhood maximum *)

Ltac compare_cases :=
  repeat match goal with
  | H : context [Z.compare ?a ?b] |- _ => destruct (Z.compare_spec a b)
  | |- context [Z.compare ?a ?b] => destruct (Z.compare_spec a b)
  | H : context [Pos.compare ?a ?b] |- _ => destruct (Pos.compare_spec a b)
  | |- context [Pos.compare ?a ?b] => destruct (Pos.compare_spec a b)
  end.

Lemma SFcompare_le_lt_trans (a b c : spec_float) :
  (SFcompare a b = Some Lt \/ SFcompare a b = Some Eq) ->
  SFcompare b c = Some Lt -> SFcompare a c = Some Lt.
Proof.
  destruct a as [[]|[]| |[] ma ea], b as [[]|[]| |[] mb eb],
           c as [[]|[]| |[] mc ec];
    cbn [SFcompare]; intros [H1 | H1] H2;
    try discriminate; try reflexivity;
    change (Pos.compare_cont Eq ?p ?q) with (Pos.compare p q) in *;
    compare_cases; cbn [CompOpp] in *; try discriminate; try reflexivity;
    try lia.
Qed.

Lemma leb_ltb_trans (a b c : spec_float) :
  FP.leb a b = true -> FP.ltb b c = true -> FP.ltb a c = true.
Proof.
  unfold FP.leb, FP.ltb, SFleb, SFltb. intros H1 H2.
  rewrite (SFcompare_le_lt_trans a b c); [reflexivity | |].
  - destruct (SFcompare a b) as [[]|]; try discriminate; auto.
  - destruct (SFcompare b c) as [[]|]; try discriminate; auto.
Qed.

Lemma ltb_trans (a b c : spec_float) :
  FP.ltb a b = true -> FP.ltb b c = true -> FP.ltb a c = true.
Proof. intros H. apply leb_ltb_trans, ltb_leb, H. Qed.

Section LocalMax.
Variable field : ImageF.
Variable peak_min : float.
Variable r : Z.
Variable y0 x0 : Z.

Local Abbreviation window := (in_window field r y0 x0).

(** What the running maximum satisfies once the cells of [seen] have
    been looked at. *)
Local Abbreviation running seen m :=
  ((m = peak_min \/ exists y x, window y x /\ seen y x /\ m = RowF field y x) /\
   (FP.is_nan peak_min = false -> FP.leb peak_min m = true) /\
   (forall y x, window y x -> seen y x -> FP.ltb m (RowF field y x) = false)).

Lemma running_step (seen : Z -> Z -> Prop) (m : float) (y x : Z) :
  window y x -> running seen m ->
  running (fun y' x' => seen y' x' \/ (y' = y /\ x' = x))
          (FP.max m (RowF field y x)).
Proof.
  intros Hw (Hat & Hlo & Hup). unfold FP.max.
  destruct (FP.ltb m (RowF field y x)) eqn:Elt.
  - split; [|split].
    + right. exists y, x. auto.
    + intros Hn. apply ltb_leb. apply (leb_ltb_trans _ m); auto.
    + intros y' x' Hw' [Hs | [-> ->]]; [|apply ltb_irrefl].
      destruct (FP.ltb (RowF field y x) (RowF field y' x')) eqn:E; [|reflexivity].
      rewrite <- (Hup y' x' Hw' Hs). symmetry. apply (ltb_trans _ _ _ Elt E).
  - split; [|split].
    + destruct Hat as [-> | (y' & x' & Hw' & Hs & ->)]; [left; reflexivity|].
      right. exists y', x'. auto.
    + exact Hlo.
    + intros y' x' Hw' [Hs | [-> ->]]; [apply Hup; assumption | exact Elt].
Qed.

Lemma running_ext (seen seen' : Z -> Z -> Prop) (m : float) :
  (forall y x, window y x -> (seen y x <-> seen' y x)) ->
  running seen m -> running seen' m.
Proof.
  intros Hext (Hat & Hlo & Hup). split; [|split].
  - destruct Hat as [-> | (y & x & Hw & Hs & ->)]; [left; reflexivity|].
    right. exists y, x. split; [exact Hw|]. split; [apply Hext; assumption | reflexivity].
  - exact Hlo.
  - intros y x Hw Hs. apply Hup; [exact Hw | apply Hext; assumption].
Qed.

(** [local_max] is the maximum of [peak_min] and the cells of the
    window: it is one of them, it is not below [peak_min], and no cell
    of the window is above it. *)
Lemma local_max_spec :
  let m := local_max field peak_min r y0 x0 in
  (m = peak_min \/ exists y x, window y x /\ m = RowF field y x) /\
  (FP.is_nan peak_min = false -> FP.leb peak_min m = true) /\
  (forall y x, window y x -> FP.ltb m (RowF field y x) = false).
Proof.
  intros m.
  assert (Hbase : forall Y, Y <= nb_y_min r y0 ->
            running (fun y (_ : Z) => y < Y) peak_min).
  { intros Y HY. split; [|split];
      [left; reflexivity | apply leb_refl | unfold in_window; intros; lia]. }
  assert (Hrun : running (fun (_ _ : Z) => True) m).
  { unfold m, local_max.
    destruct (Z.le_gt_cases (nb_y_min r y0) (nb_y_max field r y0)) as [Hy | Hy].
    2:{ rewrite for_range_empty by lia.
        apply (running_ext (fun y (_ : Z) => y < nb_y_min r y0) (fun _ _ => True));
          [unfold in_window; intros; lia | apply Hbase; lia]. }
    apply (running_ext (fun y (_ : Z) => y < nb_y_max field r y0) (fun _ _ => True));
      [unfold in_window; intros; split; [tauto | lia]|].
    apply (for_range_inv (fun Y m' => running (fun y (_ : Z) => y < Y) m'));
      [exact Hy | apply Hbase; lia |].
    intros Y m' HY Hm'.
    destruct (Z.le_gt_cases (nb_x_min r x0) (nb_x_max field r x0)) as [Hx | Hx].
    2:{ rewrite for_range_empty by lia.
        apply (running_ext (fun y (_ : Z) => y < Y) (fun y (_ : Z) => y < Y + 1));
          [unfold in_window; intros; lia | exact Hm']. }
    apply (running_ext
             (fun y x => y < Y \/ (y = Y /\ x < nb_x_max field r x0))
             (fun y (_ : Z) => y < Y + 1));
      [unfold in_window; intros; lia|].
    apply (for_range_inv
             (fun X m'' => running (fun y x => y < Y \/ (y = Y /\ x < X)) m''));
      [exact Hx | |].
    - apply (running_ext (fun y (_ : Z) => y < Y)
               (fun y x => y < Y \/ (y = Y /\ x < nb_x_min r x0)));
        [unfold in_window; intros; lia | exact Hm'].
    - intros X m'' HX Hm''.
      apply (running_ext
               (fun y x => (y < Y \/ (y = Y /\ x < X)) \/ (y = Y /\ x = X))
               (fun y x => y < Y \/ (y = Y /\ x < X + 1)));
        [intros; lia|].
      apply running_step; [unfold in_window; lia | exact Hm'']. }
  destruct Hrun as (Hat & Hlo & Hup). split; [|split].
  - destruct Hat as [-> | (y & x & Hw & _ & ->)]; [left; reflexivity|].
    right. exists y, x. auto.
  - exact Hlo.
  - intros y x Hw. apply Hup; [exact Hw | exact I].
Qed.
End LocalMax.

(** ** Peaks, declaratively *)

Lemma compare_Eq_same (a b : float) : SFcompare a b = Some Eq -> same_value a b.
Proof.
  destruct a as [[]|[]| |[] ma ea], b as [[]|[]| |[] mb eb]; cbn [SFcompare];
    intros H; try discriminate; try (left; reflexivity);
    try (right; eauto; fail);
    change (Pos.compare_cont Eq ?p ?q) with (Pos.compare p q) in *;
    destruct (Z.compare_spec ea eb); try discriminate;
    destruct (Pos.compare_spec ma mb); try discriminate; cbn in H; try discriminate;
    subst; left; reflexivity.
Qed.

Lemma same_value_mul (w a b : float) :
  same_value a b -> same_value (F32.mul w a) (F32.mul w b).
Proof.
  intros [-> | (s & s' & -> & ->)]; [left; reflexivity|].
  destruct w as [sw|sw| |sw mw ew]; cbn; try (left; reflexivity); right; eauto.
Qed.

Lemma same_value_add (x a b : float) :
  same_value a b -> same_value (F32.add x a) (F32.add x b).
Proof.
  intros [-> | (s & s' & -> & ->)]; [left; reflexivity|].
  destruct x as [sx|sx| |sx mx ex]; cbn; try (left; reflexivity).
  all: try (right; destruct (Bool.eqb sx s), (Bool.eqb sx s'); eauto; fail).
  all: try (destruct sx, s, s'; cbn; (left; reflexivity) || (right; eauto); fail).
Qed.

Lemma same_value_ltb (t a b : float) :
  same_value a b -> FP.ltb a t = FP.ltb b t.
Proof.
  intros [-> | (s & s' & -> & ->)]; [reflexivity|].
  destruct t as [[]|[]| |[] m e]; reflexivity.
Qed.

Lemma above_threshold_same (t tau w m1 m2 : float) :
  same_value m1 m2 -> above_threshold t tau w m1 = above_threshold t tau w m2.
Proof.
  intros H. unfold above_threshold, FP.gtb.
  apply (same_value_ltb t), same_value_add, same_value_mul, H.
Qed.

Lemma above_threshold_nan (t w m : float) : above_threshold t S754_nan w m = false.
Proof.
  unfold above_threshold, FP.gtb, F32.add, F32.mul.
  destruct (F32.sub (F32.of_Z 1) w) as [?|?| |? ? ?]; cbn [SFmul SFadd];
    destruct t as [[]|[]| |[] ? ?]; reflexivity.
Qed.

Lemma leb_ltb_same (a b : float) :
  FP.leb a b = true -> FP.ltb a b = false -> same_value a b.
Proof.
  unfold FP.leb, FP.ltb, SFleb, SFltb. intros H1 H2. apply compare_Eq_same.
  destruct (SFcompare a b) as [[]|]; try discriminate; reflexivity.
Qed.

Lemma same_value_sym (a b : float) : same_value a b -> same_value b a.
Proof. intros [-> | (s & s' & -> & ->)]; [left; reflexivity | right; eauto]. Qed.

Lemma leb_not_nan (a b : float) : FP.leb a b = true -> FP.is_nan b = false.
Proof. destruct a as [[]|[]| |[] ? ?], b as [[]|[]| |[] ? ?]; cbn; congruence. Qed.

Lemma SFcompare_opp (a b : float) :
  SFcompare b a = match SFcompare a b with Some c => Some (CompOpp c) | None => None end.
Proof.
  destruct a as [[]|[]| |[] ma ea], b as [[]|[]| |[] mb eb]; cbn [SFcompare CompOpp];
    try reflexivity;
    change (Pos.compare_cont Eq ?p ?q) with (Pos.compare p q) in *;
    rewrite (Z.compare_antisym ea eb), (Pos.compare_antisym ma mb);
    destruct (ea ?= eb), (ma ?= mb)%positive; reflexivity.
Qed.

Lemma not_ltb_same (a b : float) :
  FP.is_nan a = false -> FP.is_nan b = false ->
  FP.ltb a b = false -> FP.ltb b a = false -> same_value a b.
Proof.
  intros Ha Hb H1 H2. apply compare_Eq_same.
  unfold FP.ltb, SFltb in *. rewrite (SFcompare_opp a b) in H2.
  destruct (SFcompare a b) as [[]|] eqn:E; cbn in *; try discriminate; try reflexivity.
  destruct a as [[]|[]| |[] ma ea], b as [[]|[]| |[] mb eb]; cbn in *; congruence.
Qed.

Section Peaks.
Variable field : ImageF.
Variable tau : float.
Variable r : Z.
Variable w : float.

Lemma in_window_neighbourhood (y0 x0 y x : Z) :
  in_window field r y0 x0 y x <-> neighbourhood field r y0 x0 y x.
Proof.
  unfold in_window, neighbourhood, in_image, cheb,
         nb_y_min, nb_y_max, nb_x_min, nb_x_max. lia.
Qed.

Lemma local_max_neighbourhood_max (y0 x0 : Z) :
  neighbourhood_max field tau r y0 x0 (local_max field tau r y0 x0).
Proof.
  destruct (local_max_spec field tau r y0 x0) as (Hat & Hlo & Hup).
  split; [|split].
  - destruct Hat as [E | (y & x & Hw & E)]; [left; exact E|].
    right. exists y, x. split; [apply in_window_neighbourhood, Hw | exact E].
  - exact Hlo.
  - intros y x Hn. apply Hup, in_window_neighbourhood, Hn.
Qed.

Lemma neighbourhood_max_unique (y0 x0 : Z) (m1 m2 : float) :
  FP.is_nan tau = false ->
  neighbourhood_max field tau r y0 x0 m1 ->
  neighbourhood_max field tau r y0 x0 m2 -> same_value m1 m2.
Proof.
  intros Ht (Hat1 & Hlo1 & Hup1) (Hat2 & Hlo2 & Hup2).
  specialize (Hlo1 Ht). specialize (Hlo2 Ht).
  pose proof (leb_not_nan _ _ Hlo1) as Hn1.
  pose proof (leb_not_nan _ _ Hlo2) as Hn2.
  destruct Hat1 as [E1 | (y1 & x1 & Hw1 & E1)],
           Hat2 as [E2 | (y2 & x2 & Hw2 & E2)].
  - left. congruence.
  - subst m1. apply leb_ltb_same; [exact Hlo2|].
    rewrite E2. apply Hup1, Hw2.
  - subst m2. apply same_value_sym, leb_ltb_same; [exact Hlo1|].
    rewrite E1. apply Hup2, Hw1.
  - apply not_ltb_same; [exact Hn1 | exact Hn2 | |].
    + rewrite E2. apply Hup1, Hw2.
    + rewrite E1. apply Hup2, Hw1.
Qed.

Lemma is_peak_peak (y0 x0 : Z) :
  in_image field y0 x0 ->
  (is_peak field tau r w y0 x0 = true <-> peak field tau r w y0 x0).
Proof.
  intros Hin. unfold peak.
  change (is_peak field tau r w y0 x0)
    with (above_threshold (RowF field y0 x0) tau w (local_max field tau r y0 x0)).
  split.
  - intros H. split; [exact Hin|]. exists (local_max field tau r y0 x0).
    split; [apply local_max_neighbourhood_max | exact H].
  - intros (_ & m & Hm & H).
    destruct (FP.is_nan tau) eqn:Et.
    + destruct tau; try discriminate. rewrite above_threshold_nan in H. discriminate.
    + rewrite <- H. apply above_threshold_same.
      apply (neighbourhood_max_unique y0 x0); [exact Et | | exact Hm].
      apply local_max_neighbourhood_max.
Qed.

Lemma peak_near_peak (y x y0 x0 : Z) :
  peak_near field tau r w y x y0 x0 <->
  peak field tau r w y0 x0 /\ cheb y x y0 x0 <= r.
Proof.
  unfold peak_near. split.
  - intros (Hin & Hp & Hd). split; [apply is_peak_peak; assumption | exact Hd].
  - intros (Hp & Hd). pose proof Hp as (Hin & _).
    split; [exact Hin|]. split; [apply is_peak_peak; assumption | exact Hd].
Qed.
End Peaks.

(** C7, as stated, fails on the field [[247; 380]] with [tau = 0],
    [r = 1] and weight 0.65: the left cell is not above
    [0.35 * 0 + 0.65 * max(0, 380) = 247], so the only peak of the claim
    is the right cell and the claim puts 1 in the left cell; the code
    rounds [0.65f * 380] to the float next below 247, makes the left
    cell a peak too, and leaves 0 there. *)
Lemma DistToPeakMap_rounded_threshold :
  RowF RoundedField.map 0 0 = F32.of_Z 0 /\
  RowF RoundedField.map 0 1 = F32.of_Z 0 /\
  F32.mul RoundedField.weight (F32.of_Z 380) = S754_finite false 16187391 (-16) /\
  FP.ltb (F32.mul RoundedField.weight (F32.of_Z 380)) (F32.of_Z 247) = true /\
  ~ (100 * 247 > 35 * 0 + 65 * Z.max 0 (Z.max 247 380)).
Proof. vm_compute. repeat split; try reflexivity. intros H; discriminate H. Qed.

Section NearestPeak.
Variable field : ImageF.
Variable peak_min : float.
Variable r : Z.
Variable peak_weight : float.
Hypothesis field_wf : Img.wf field.
Hypothesis r_range : 0 <= r < 2 ^ 24.

(** C7, amended: for a well-formed field and [0 <= r < 2^24], with
    [xsize + r] and [ysize + r] at most [INT_MAX] so that the [int]
    bounds of the neighbourhoods do not overflow, a cell of the map
    [DistToPeakMap] returns holds [v >= 0] if and only if [v] is the
    least Chebyshev distance from the cell to a peak whose square
    neighbourhood of radius [r] holds the cell; it holds [-1] if and only
    if there is no such peak; and it holds nothing else.  A peak is a
    cell [T] of the field with [T > (1 - w) * tau + w * m] evaluated in
    [float], where [m] is the maximum of [tau] and the cells of the
    neighbourhood of [T]. *)
Theorem DistToPeakMap_nearest_peak (y x : Z) :
  xsize field + r <= INT_MAX -> ysize field + r <= INT_MAX ->
  in_image field y x ->
  let c := RowF (DistToPeakMap field peak_min r peak_weight) y x in
  (forall v, 0 <= v < 2 ^ 24 ->
     (c = F32.of_Z v <->
      least_peak_distance field peak_min r peak_weight y x v)) /\
  (c = F32.of_Z (-1) <->
   ~ exists y0 x0, peak field peak_min r peak_weight y0 x0 /\
                   cheb y x y0 x0 <= r) /\
  (c = F32.of_Z (-1) \/ exists v, 0 <= v <= r /\ c = F32.of_Z v).
Proof.
  intros _ _ Hin c.
  destruct (DistToPeakMap_cells field peak_min r peak_weight
              field_wf r_range y x Hin) as (Hv & Hnone & Hall).
  fold c in Hv, Hnone, Hall.
  assert (Hd : forall v,
             nearest_peak_distance field peak_min r peak_weight y x v <->
             least_peak_distance field peak_min r peak_weight y x v).
  { intros v. unfold nearest_peak_distance, least_peak_distance. split.
    - intros ((y0 & x0 & Hn & E) & Hmin). split.
      + exists y0, x0. apply peak_near_peak in Hn. tauto.
      + intros y1 x1 Hp Hc. apply Hmin, peak_near_peak. auto.
    - intros ((y0 & x0 & Hp & Hc & E) & Hmin). split.
      + exists y0, x0. split; [apply peak_near_peak; auto | exact E].
      + intros y1 x1 Hn. apply peak_near_peak in Hn. apply Hmin; tauto. }
  split; [|split].
  - intros v Hrange. rewrite (Hv v Hrange). apply Hd.
  - rewrite Hnone. split; intros Hno (y0 & x0 & H); apply Hno; exists y0, x0;
      apply peak_near_peak; exact H.
  - exact Hall.
Qed.
End NearestPeak.

Lemma DistToPeakMap_nearest_peak_witness :
  in_image ToyField.field 0 1 /\
  least_peak_distance ToyField.field (F32.of_Z 1) 1
    (F64.to_f32 (F64.lit 65 100)) 0 1 1 /\
  RowF ToyField.map 0 2 = F32.of_Z (-1).
Proof.
  assert (Hin1 : in_image ToyField.field 0 1) by (vm_compute; intuition discriminate).
  split; [exact Hin1|]. split.
  - apply (proj1 (DistToPeakMap_nearest_peak ToyField.field (F32.of_Z 1) 1
                    (F64.to_f32 (F64.lit 65 100)) ToyField_wf ltac:(lia)
                    0 1 ltac:(vm_compute; discriminate)
                    ltac:(vm_compute; discriminate) Hin1) 1 ltac:(lia)).
    vm_compute. reflexivity.
  - vm_compute. reflexivity.
Defined.


(** ** Sums over ranges *)

Lemma for_range_last {S : Type} (body : Z -> S -> S) (hi : Z) :
  forall (n : nat) (lo : Z) (s : S),
    Z.of_nat n = hi - lo ->
    for_range lo (hi + 1) body s = body hi (for_range lo hi body s).
Proof.
  induction n as [|n IH]; intros lo s Hn.
  - replace lo with hi by lia.
    rewrite for_range_first by lia. rewrite !for_range_empty by lia. reflexivity.
  - rewrite for_range_first by lia. rewrite (for_range_first lo hi) by lia.
    apply IH. lia.
Qed.

Lemma sum_range_empty (lo hi : Z) (f : Z -> Z) : hi <= lo -> sum_range lo hi f = 0.
Proof. intros H. unfold sum_range. apply for_range_empty, H. Qed.

Lemma sum_range_last (lo hi : Z) (f : Z -> Z) :
  lo <= hi -> sum_range lo (hi + 1) f = sum_range lo hi f + f hi.
Proof.
  intros H. unfold sum_range.
  apply (for_range_last (fun k acc => acc + f k) hi (Z.to_nat (hi - lo))). lia.
Qed.

Lemma sum_range_ext (f g : Z -> Z) (lo : Z) : forall (n : nat) (hi : Z),
  Z.of_nat n = hi - lo ->
  (forall k, lo <= k < hi -> f k = g k) ->
  sum_range lo hi f = sum_range lo hi g.
Proof.
  induction n as [|n IH]; intros hi Hn Hfg.
  - rewrite !sum_range_empty by lia. reflexivity.
  - replace hi with (hi - 1 + 1) by lia. rewrite !sum_range_last by lia.
    rewrite (IH (hi - 1)); [|lia|intros k Hk; apply Hfg; lia].
    rewrite (Hfg (hi - 1)) by lia. reflexivity.
Qed.

(** Changing one term of a sum. *)
Lemma sum_range_update (f g : Z -> Z) (lo k0 : Z) : forall (n : nat) (hi : Z),
  Z.of_nat n = hi - lo ->
  lo <= k0 < hi ->
  (forall k, lo <= k < hi -> k <> k0 -> g k = f k) ->
  sum_range lo hi g = sum_range lo hi f - f k0 + g k0.
Proof.
  induction n as [|n IH]; intros hi Hn Hk0 Hfg; [lia|].
  replace hi with (hi - 1 + 1) by lia. rewrite !sum_range_last by lia.
  destruct (Z.eq_dec k0 (hi - 1)) as [-> | Hne].
  - rewrite (sum_range_ext g f lo n (hi - 1)); [lia | lia |].
    intros k Hk. apply Hfg; lia.
  - rewrite (IH (hi - 1)); [|lia|lia|intros k Hk; apply Hfg; lia].
    rewrite (Hfg (hi - 1)) by lia. lia.
Qed.

Lemma sum_range_eq (f g : Z -> Z) (lo hi : Z) :
  (forall k, lo <= k < hi -> f k = g k) ->
  sum_range lo hi f = sum_range lo hi g.
Proof.
  intros Hfg. destruct (Z.le_gt_cases lo hi).
  - apply (sum_range_ext f g lo (Z.to_nat (hi - lo))); [lia | exact Hfg].
  - rewrite !sum_range_empty by lia. reflexivity.
Qed.

Lemma sum_range_change (f g : Z -> Z) (lo hi k0 : Z) :
  lo <= k0 < hi ->
  (forall k, lo <= k < hi -> k <> k0 -> g k = f k) ->
  sum_range lo hi g = sum_range lo hi f - f k0 + g k0.
Proof.
  intros Hk0 Hfg.
  apply (sum_range_update f g lo k0 (Z.to_nat (hi - lo))); [lia | exact Hk0 | exact Hfg].
Qed.

Lemma ceil_div_bound (size b : Z) :
  0 <= b -> 8 * b < size -> b < (size + kBlockEdge - 1) ÷ kBlockEdge.
Proof.
  intros Hb Hs. unfold kBlockEdge. rewrite Z.quot_div_nonneg by lia.
  apply Z.lt_le_trans with (b + 1); [lia|].
  apply Z.div_le_lower_bound; lia.
Qed.

(** ** Local Y-to-B evaluator *)

Section EvalLocalYToBProps.
Variable Rest : Type.
Variable QuantizeBlock :
  Z -> Z -> CompressedImage Rest -> CompressedImage Rest.
Variable Token : Type.
Context `{EqDecision Token}.
Variable ACBlockProcessor : Type.
Variable Reset : ACBlockProcessor -> ACBlockProcessor.
Variable ProcessBlock :
  list Z -> Z -> Z -> Z -> ACBlockProcessor -> ACBlockProcessor * list Token.
Variable dc_tokens : list (list (list Z)) -> list Token.
Variable EncodedSize : HistogramBuilder Token -> Z.

Hypothesis frame : quantizer_frame Rest QuantizeBlock.
Hypothesis forgets : reset_forgets ACBlockProcessor Reset.
(** The estimate depends on the counts only. *)
Hypothesis EncodedSize_counts : forall h h',
  (forall t, count _ h t = count _ h' t) -> EncodedSize h = EncodedSize h'.

Local Abbreviation Image := (CompressedImage Rest).
Local Abbreviation Histo := (HistogramBuilder Token).
Local Abbreviation tokens := (block_tokens Rest Token ACBlockProcessor Reset ProcessBlock).
Local Abbreviation tot := (total Rest Token ACBlockProcessor Reset ProcessBlock).
Local Abbreviation block3 := (process_block3 Rest Token ACBlockProcessor ProcessBlock).

Lemma visit_all_weight (ts : list Token) : forall h : Histo,
  weight _ (visit_all _ ts h) = weight _ h.
Proof.
  induction ts as [|t' ts IH]; intros h; [reflexivity|].
  unfold visit_all in *. simpl. rewrite IH. reflexivity.
Qed.

Lemma visit_all_count (ts : list Token) : forall (h : Histo) (t : Token),
  count _ (visit_all _ ts h) t = count _ h t + weight _ h * occ Token t ts.
Proof.
  induction ts as [|t' ts IH]; intros h t; simpl; [lia|].
  unfold visit_all in *. rewrite IH. simpl.
  destruct (decide (t = t')); lia.
Qed.

Lemma visit_all_app (ts us : list Token) (h : Histo) :
  visit_all _ (ts ++ us) h = visit_all _ us (visit_all _ ts h).
Proof. unfold visit_all. apply foldl_app. Qed.

Lemma block3_tokens (img : Image) (bx by_ : Z) (p : ACBlockProcessor) (h : Histo) :
  snd (block3 img bx by_ (Reset p, h)) = visit_all _ (tokens p img bx by_) h.
Proof.
  unfold process_block3, block_tokens, for_range.
  change (seqZ 0 (3 - 0)) with [0; 1; 2]. cbn [foldl fst snd].
  destruct (ProcessBlock _ bx by_ 0 (Reset p)) as [p0 t0]. cbn [fst snd].
  destruct (ProcessBlock _ bx by_ 1 p0) as [p1 t1]. cbn [fst snd].
  destruct (ProcessBlock _ bx by_ 2 p1) as [p2 t2]. cbn [fst snd].
  rewrite !visit_all_app. reflexivity.
Qed.

Lemma tokens_forget (p p' : ACBlockProcessor) (img : Image) (bx by_ : Z) :
  tokens p img bx by_ = tokens p' img bx by_.
Proof. unfold block_tokens. rewrite (forgets p p'). reflexivity. Qed.

Lemma tokens_ext (p : ACBlockProcessor) (img img' : Image) (bx by_ : Z) :
  (forall c, block_at Rest img' bx by_ c = block_at Rest img bx by_ c) ->
  tokens p img' bx by_ = tokens p img bx by_.
Proof. intros E. unfold block_tokens. rewrite !E. reflexivity. Qed.

Lemma tot_forget (p p' : ACBlockProcessor) (img : Image) (t : Token) :
  tot p img t = tot p' img t.
Proof.
  unfold total. apply sum_range_eq. intros by_ _.
  apply sum_range_eq. intros bx _. rewrite (tokens_forget p p'). reflexivity.
Qed.

(** Requantizing one block of the image changes the total by the
    difference of the block's tokens. *)
Lemma tot_requantize (p : ACBlockProcessor) (img : Image) (bx by_ : Z) (t : Token) :
  0 <= bx < block_xsize_of Rest img -> 0 <= by_ < block_ysize_of Rest img ->
  tot p (QuantizeBlock bx by_ img) t
  = tot p img t - occ Token t (tokens p img bx by_)
    + occ Token t (tokens p (QuantizeBlock bx by_ img) bx by_).
Proof.
  intros Hbx Hby. destruct frame as (Hsize & Hblocks & _).
  destruct (Hsize bx by_ img) as [Hxs Hys].
  unfold total, block_xsize_of, block_ysize_of in *. rewrite Hxs, Hys.
  set (bxs := (xsize_ Rest img + kBlockEdge - 1) ÷ kBlockEdge) in *.
  set (bys := (ysize_ Rest img + kBlockEdge - 1) ÷ kBlockEdge) in *.
  rewrite (sum_range_change
             (fun y => sum_range 0 bxs (fun x => occ Token t (tokens p img x y)))
             (fun y => sum_range 0 bxs (fun x =>
                occ Token t (tokens p (QuantizeBlock bx by_ img) x y)))
             0 bys by_ Hby).
  - rewrite (sum_range_change
               (fun x => occ Token t (tokens p img x by_))
               (fun x => occ Token t (tokens p (QuantizeBlock bx by_ img) x by_))
               0 bxs bx Hbx).
    + lia.
    + intros x Hx Hne. cbv beta. f_equal. apply tokens_ext. intros c.
      apply Hblocks; try lia. congruence.
  - intros y Hy Hne. cbv beta. apply sum_range_eq. intros x Hx.
    f_equal. apply tokens_ext. intros c. apply Hblocks; try lia. congruence.
Qed.

Local Abbreviation inv := (tile_inv Rest Token ACBlockProcessor Reset ProcessBlock).

Lemma requantize_block_inv (img0 : Image) (tx ty iy ix : Z)
    (s : Image * ACBlockProcessor * Histo) :
  0 <= tx -> 0 <= ty -> 0 <= iy -> 0 <= ix ->
  inv img0 s ->
  inv img0 (requantize_block Rest QuantizeBlock Token ACBlockProcessor
              Reset ProcessBlock tx ty iy ix s).
Proof.
  intros Htx Hty Hiy Hix. destruct s as [[img p] h].
  intros (Hxs & Hys & Hdc & Hw & Hc). unfold requantize_block.
  unfold kTileToBlockRatio, kBlockEdge.
  set (by_ := 8 * ty + iy). set (bx := 8 * tx + ix).
  destruct (Z.leb_spec (xsize_ Rest img) (8 * bx)) as [|Hxin];
    [simpl; repeat split; auto|].
  destruct (Z.leb_spec (ysize_ Rest img) (8 * by_)) as [|Hyin];
    [simpl; repeat split; auto|].
  cbn [orb].
  pose proof (block3_tokens img bx by_ p (set_weight _ (-1) h)) as H1.
  destruct (block3 img bx by_ (Reset p, set_weight _ (-1) h)) as [p1 h1].
  cbn [snd] in H1. subst h1.
  pose proof (block3_tokens (QuantizeBlock bx by_ img) bx by_ p1
                (set_weight _ 1 (visit_all _ (tokens p img bx by_)
                                   (set_weight _ (-1) h)))) as H2.
  destruct (block3 (QuantizeBlock bx by_ img) bx by_ _) as [p2 h2].
  cbn [snd] in H2. subst h2.
  pose proof frame as (Hsize & _ & Hdcs).
  destruct (Hsize bx by_ img) as [Hxs' Hys'].
  split; [congruence|]. split; [congruence|].
  split; [rewrite Hdcs; exact Hdc|].
  split; [rewrite visit_all_weight; reflexivity|].
  intros p' t. rewrite visit_all_count. cbn [set_weight weight count].
  rewrite visit_all_count. cbn [set_weight weight count].
  rewrite (Hc p' t), (tot_requantize p' img bx by_ t).
  - rewrite (tokens_forget p p'), (tokens_forget p1 p'). lia.
  - split; [lia|]. apply ceil_div_bound; lia.
  - split; [lia|]. apply ceil_div_bound; lia.
Qed.

(** The two loops of [SetVal] over the blocks of the tile. *)
Lemma SetVal_loops_inv (img0 : Image) (tx ty : Z)
    (s : Image * ACBlockProcessor * Histo) :
  0 <= tx -> 0 <= ty -> inv img0 s ->
  inv img0
    (for_range 0 kTileToBlockRatio (fun iy =>
       for_range 0 kTileToBlockRatio (fun ix acc =>
         requantize_block Rest QuantizeBlock Token ACBlockProcessor Reset
           ProcessBlock tx ty iy ix acc)) s).
Proof.
  intros Htx Hty Hs.
  apply (for_range_inv (fun _ s' => inv img0 s')); [unfold kTileToBlockRatio; lia | exact Hs |].
  intros iy s' Hiy Hs'.
  apply (for_range_inv (fun _ s'' => inv img0 s'')); [unfold kTileToBlockRatio; lia | exact Hs' |].
  intros ix s'' Hix Hs''. apply requantize_block_inv; auto; lia.
Qed.

(** [ProcessImage3] adds the tokens of every block, with the weight the
    histogram has. *)
Lemma ProcessImage3_AC_count (img : Image) (p : ACBlockProcessor) (h : Histo) :
  let r := ProcessImage3_AC Rest Token ACBlockProcessor Reset ProcessBlock img (p, h) in
  weight _ (snd r) = weight _ h /\
  forall p' t, count _ (snd r) t = count _ h t + weight _ h * tot p' img t.
Proof.
  cbv zeta. unfold ProcessImage3_AC, total.
  destruct (Z.le_gt_cases 0 (block_ysize_of Rest img)) as [Hys|Hys].
  2:{ rewrite for_range_empty by lia. split; [reflexivity|].
      intros p' t. rewrite sum_range_empty by lia. simpl. lia. }
  destruct (Z.le_gt_cases 0 (block_xsize_of Rest img)) as [Hxs|Hxs].
  2:{ apply (for_range_inv
               (fun _ (r : ACBlockProcessor * Histo) =>
                  weight _ (snd r) = weight _ h /\
                  forall p' t, count _ (snd r) t = count _ h t + weight _ h *
                    sum_range 0 (block_ysize_of Rest img) (fun by_ =>
                      sum_range 0 (block_xsize_of Rest img) (fun bx =>
                        occ Token t (tokens p' img bx by_)))));
        [exact Hys | |].
      - split; [reflexivity|]. intros p' t.
        rewrite (sum_range_eq _ (fun _ => 0)).
        + assert (Hz : forall n hi, Z.of_nat n = hi - 0 -> sum_range 0 hi (fun _ => 0) = 0).
          { induction n as [|n IH]; intros hi Hn;
              [apply sum_range_empty; lia|].
            replace hi with (hi - 1 + 1) by lia. rewrite sum_range_last by lia.
            rewrite IH by lia. lia. }
          rewrite (Hz (Z.to_nat (block_ysize_of Rest img))) by lia. simpl. lia.
        + intros k _. apply sum_range_empty. lia.
      - intros k r _ Hr. rewrite for_range_empty by lia. exact Hr. }
  apply (for_range_inv
           (fun Y (r : ACBlockProcessor * Histo) =>
              weight _ (snd r) = weight _ h /\
              forall p' t, count _ (snd r) t = count _ h t + weight _ h *
                sum_range 0 Y (fun by_ =>
                  sum_range 0 (block_xsize_of Rest img) (fun bx =>
                    occ Token t (tokens p' img bx by_)))));
    [exact Hys | |].
  - split; [reflexivity|]. intros p' t. rewrite sum_range_empty by lia. simpl. lia.
  - intros Y r HY [Hw Hc].
    assert (Hrow :
      let r' := for_range 0 (block_xsize_of Rest img) (fun block_x acc =>
                  block3 img block_x Y (Reset (fst acc), snd acc)) r in
      weight _ (snd r') = weight _ h /\
      forall p' t, count _ (snd r') t = count _ (snd r) t + weight _ h *
        sum_range 0 (block_xsize_of Rest img) (fun bx =>
          occ Token t (tokens p' img bx Y))).
    { apply (for_range_inv
               (fun X (r' : ACBlockProcessor * Histo) =>
                  weight _ (snd r') = weight _ h /\
                  forall p' t, count _ (snd r') t = count _ (snd r) t + weight _ h *
                    sum_range 0 X (fun bx => occ Token t (tokens p' img bx Y))));
        [exact Hxs | |].
      - split; [exact Hw|]. intros p' t. rewrite sum_range_empty by lia. lia.
      - intros X r' HX [Hw' Hc']. rewrite block3_tokens.
        split; [rewrite visit_all_weight; exact Hw'|].
        intros p' t. rewrite visit_all_count, (Hc' p' t), Hw', sum_range_last by lia.
        rewrite (tokens_forget (fst r') p'). lia. }
    cbv zeta in Hrow. destruct Hrow as [Hw' Hc'].
    split; [exact Hw'|]. intros p' t.
    rewrite (Hc' p' t), (Hc p' t), sum_range_last by lia. lia.
Qed.

Lemma SetYToBAC_frame (tx ty val : Z) (img : Image) (s : ACBlockProcessor) (h : Histo) :
  inv img (img, s, h) -> inv img (SetYToBAC Rest tx ty val img, s, h).
Proof.
  intros (Hxs & Hys & Hdc & Hw & Hc).
  split; [reflexivity|]. split; [reflexivity|]. split; [reflexivity|].
  split; [exact Hw|]. intros p' t. rewrite (Hc p' t). reflexivity.
Qed.

Local Abbreviation good :=
  (evaluator_inv Rest Token ACBlockProcessor Reset ProcessBlock dc_tokens).

Lemma new_good (image : Image) (p : ACBlockProcessor) (tx ty : Z) :
  0 <= tx -> 0 <= ty ->
  good (SetTile _ _ _ tx ty
          (EvalLocalYToB_new Rest Token ACBlockProcessor Reset ProcessBlock
             dc_tokens image p)).
Proof.
  intros Htx Hty. unfold EvalLocalYToB_new.
  destruct (ProcessImage3_AC_count image p (new_histo Token)) as [Hw Hc].
  destruct (ProcessImage3_AC _ _ _ _ _ image _) as [p' ac]. cbn [snd] in Hw, Hc.
  unfold evaluator_inv, SetTile. cbn.
  split; [exact Htx|]. split; [exact Hty|]. split; [exact Hw|].
  split; [|reflexivity]. intros q t. rewrite (Hc q t). simpl. lia.
Qed.

Lemma SetVal_good (ytob : Z) (e : EvalLocalYToB Rest Token ACBlockProcessor) :
  good e ->
  good (SetVal Rest QuantizeBlock Token ACBlockProcessor Reset ProcessBlock ytob e).
Proof.
  intros (Htx & Hty & Hw & Hc & Hdc). unfold SetVal.
  pose proof (SetVal_loops_inv (el_img _ _ _ e) (tilex _ _ _ e) (tiley _ _ _ e)
                (SetYToBAC Rest (tilex _ _ _ e) (tiley _ _ _ e) ytob (el_img _ _ _ e),
                 ac_processor _ _ _ e, ac_histo _ _ _ e) Htx Hty) as H.
  destruct (for_range 0 kTileToBlockRatio _ _) as [[img' p'] h'].
  destruct H as (Hxs & Hys & Hdcs & Hw' & Hc').
  { apply SetYToBAC_frame. repeat split; auto. }
  unfold evaluator_inv. cbn.
  split; [exact Htx|]. split; [exact Hty|]. split; [exact Hw'|].
  split; [exact Hc'|].
  rewrite Hdc. unfold fresh_dc, ProcessImage3_DC. rewrite Hdcs. reflexivity.
Qed.

Lemma evaluator_good (e : EvalLocalYToB Rest Token ACBlockProcessor) :
  evaluator Rest QuantizeBlock Token ACBlockProcessor Reset ProcessBlock
            dc_tokens e ->
  good e.
Proof.
  induction 1 as [image p tx ty [Htx Hty] | e tx ty He IH [Htx Hty] | e ytob He IH].
  - apply new_good; lia.
  - destruct IH as (_ & _ & Hw & Hc & Hdc). unfold evaluator_inv, SetTile. cbn.
    split; [lia|]. split; [lia|]. auto.
  - apply SetVal_good, IH.
Qed.

(** C8: in every evaluator of the local stage, that is after the
    constructor and after every [SetTile] and [SetVal], the AC and the DC
    histogram count every token exactly as histograms freshly built over
    the whole coefficient image in its present state do; so the size
    [operator()] returns for a candidate is the size of the freshly built
    histograms of the image requantized with it. *)
Theorem local_histograms_are_fresh (e : EvalLocalYToB Rest Token ACBlockProcessor) :
  evaluator Rest QuantizeBlock Token ACBlockProcessor Reset ProcessBlock
            dc_tokens e ->
  (forall p t,
     count _ (ac_histo _ _ _ e) t
     = count _ (fresh_ac Rest Token ACBlockProcessor Reset ProcessBlock p
                  (el_img _ _ _ e)) t /\
     count _ (dc_histo _ _ _ e) t
     = count _ (fresh_dc Rest Token dc_tokens (el_img _ _ _ e)) t) /\
  (forall ytob p,
     let r := EvalLocalYToB_call Rest QuantizeBlock Token ACBlockProcessor Reset
                ProcessBlock EncodedSize ytob e in
     fst r = EncodedSize (fresh_dc Rest Token dc_tokens (el_img _ _ _ (snd r)))
             + EncodedSize (fresh_ac Rest Token ACBlockProcessor Reset
                              ProcessBlock p (el_img _ _ _ (snd r)))).
Proof.
  intros He.
  assert (Hfresh : forall e', good e' -> forall p t,
            count _ (ac_histo _ _ _ e') t
            = count _ (fresh_ac Rest Token ACBlockProcessor Reset ProcessBlock p
                         (el_img _ _ _ e')) t).
  { intros e' (_ & _ & _ & Hc & _) p t. unfold fresh_ac.
    destruct (ProcessImage3_AC_count (el_img _ _ _ e') p (new_histo Token)) as [_ Hc'].
    cbv zeta in Hc'. rewrite (Hc' p t), (Hc p t). simpl. lia. }
  split.
  - intros p t. pose proof (evaluator_good e He) as Hg.
    split; [apply Hfresh, Hg|].
    destruct Hg as (_ & _ & _ & _ & Hdc). rewrite Hdc. reflexivity.
  - intros ytob p. cbv zeta. unfold EvalLocalYToB_call. cbn [fst snd].
    pose proof (SetVal_good ytob e (evaluator_good e He)) as Hg.
    f_equal.
    + destruct Hg as (_ & _ & _ & _ & Hdc). rewrite Hdc. reflexivity.
    + apply EncodedSize_counts. intros t. apply Hfresh, Hg.
Qed.
End EvalLocalYToBProps.

Example ToyTile_counts :
  count Z (ac_histo _ _ _ ToyTile.e0) 77 = 0 /\
  count Z (ac_histo _ _ _ ToyTile.e1) 77 = 4 /\
  count Z (ac_histo _ _ _ ToyTile.e1) 2 = 63 * 2 /\
  fst (EvalLocalYToB_call unit ToyTile.QuantizeBlock Z unit (fun p => p)
         ToyTile.ProcessBlock ToyTile.EncodedSize 77 ToyTile.e0) = 4.
Proof. vm_compute. repeat split; reflexivity. Qed.

Lemma block_window_insert {A : Type} (row : list A) (i m n : nat) (v : A) :
  (i < m \/ m + n <= i)%nat ->
  take n (drop m (<[i := v]> row)) = take n (drop m row).
Proof.
  intros [Hlt | Hge].
  - rewrite drop_insert_lt by lia. reflexivity.
  - rewrite drop_insert_ge by lia. rewrite take_insert_ge by lia. reflexivity.
Qed.

Lemma ToyTile_frame : quantizer_frame unit ToyTile.QuantizeBlock.
Proof.
  unfold quantizer_frame, ToyTile.QuantizeBlock. split; [|split].
  - intros bx by_ img. simpl. auto.
  - intros bx by_ img bx' by' c Hbx Hby Hbx' Hby' Hne.
    unfold block_at. cbn [dct_coeffs_].
    destruct (decide (Z.to_nat c = 2%nat)) as [-> | Hc];
      [|rewrite list_lookup_alter_ne by congruence; reflexivity].
    rewrite list_lookup_alter_eq.
    destruct (dct_coeffs_ unit img !! 2%nat) as [plane|]; [|reflexivity].
    cbn [fmap option_fmap option_map]. unfold Img.set.
    replace ((0 <=? by_) && (0 <=? bx * kBlockSize + 1)) with true
      by (symmetry; apply andb_true_iff; split; apply Z.leb_le;
          unfold kBlockSize, kBlockEdge; lia).
    cbn [rows].
    destruct (decide (Z.to_nat by' = Z.to_nat by_)) as [E | E];
      [|rewrite list_lookup_alter_ne by congruence; reflexivity].
    rewrite E, list_lookup_alter_eq.
    destruct (rows plane !! Z.to_nat by_) as [row|]; [|reflexivity].
    cbn [fmap option_fmap option_map].
    apply block_window_insert.
    assert (bx' <> bx) by (intros ->; apply Hne; f_equal; lia).
    unfold kBlockSize, kBlockEdge. lia.
  - intros bx by_ img. unfold dc_terms. cbn [dct_coeffs_].
    apply list_eq. intros j. rewrite !list_lookup_fmap.
    destruct (decide (j = 2%nat)) as [-> | Hj];
      [|rewrite list_lookup_alter_ne by congruence; reflexivity].
    rewrite list_lookup_alter_eq.
    destruct (dct_coeffs_ unit img !! 2%nat) as [plane|]; [|reflexivity].
    cbn [fmap option_fmap option_map]. f_equal. unfold Img.set.
    destruct ((0 <=? by_) && (0 <=? bx * kBlockSize + 1)) eqn:Hpos; [|reflexivity].
    cbn [rows].
    apply list_eq. intros k. rewrite !list_lookup_fmap.
    destruct (decide (k = Z.to_nat by_)) as [-> | Hk];
      [|rewrite list_lookup_alter_ne by congruence; reflexivity].
    rewrite list_lookup_alter_eq.
    destruct (rows plane !! Z.to_nat by_) as [row|]; [|reflexivity].
    cbn [fmap option_fmap option_map]. f_equal.
    rewrite length_insert.
    apply list_fmap_ext. intros i block_x Hi.
    apply lookup_seqZ in Hi. destruct Hi as [-> Hi].
    apply andb_true_iff in Hpos. destruct Hpos as [_ Hpos]. apply Z.leb_le in Hpos.
    rewrite list_lookup_insert_ne; [reflexivity|].
    unfold kBlockSize, kBlockEdge in *. lia.
Qed.

Lemma ToyTile_e1 :
  evaluator unit ToyTile.QuantizeBlock Z unit (fun p => p) ToyTile.ProcessBlock
            ToyTile.dc_tokens ToyTile.e1.
Proof.
  apply eval_val. apply eval_new. vm_compute. intuition discriminate.
Qed.

Lemma local_histograms_are_fresh_witness :
  count Z (ac_histo _ _ _ ToyTile.e1) 77
  = count Z (fresh_ac unit Z unit (fun p => p) ToyTile.ProcessBlock tt
               (el_img _ _ _ ToyTile.e1)) 77.
Proof.
  apply (proj1 (local_histograms_are_fresh unit ToyTile.QuantizeBlock Z unit
                  (fun p => p) ToyTile.ProcessBlock ToyTile.dc_tokens
                  ToyTile.EncodedSize ToyTile_frame
                  (fun p p' => match p, p' with tt, tt => eq_refl end)
                  (fun h h' H => H 77) ToyTile.e1 ToyTile_e1) tt 77).
Defined.

(** ** Mantissas after rounding *)

Lemma Zdigits2_bounds (m : Z) :
  0 < m -> 2 ^ (Zdigits2 m - 1) <= m < 2 ^ Zdigits2 m.
Proof.
  destruct m as [|p|p]; try lia. intros _. apply digits2_pos_bounds.
Qed.

Lemma Zdigits2_nonneg (m : Z) : 0 <= Zdigits2 m.
Proof. destruct m; simpl; lia. Qed.

(** A number below [2^k] has at most [k] digits. *)
Lemma Zdigits2_le (m k : Z) : 0 <= m -> 0 <= k -> m < 2 ^ k -> Zdigits2 m <= k.
Proof.
  intros Hm Hk Hlt. destruct (Z.eq_dec m 0) as [-> | Hne]; [simpl; lia|].
  pose proof (Zdigits2_bounds m ltac:(lia)) as [Hlo _].
  destruct (Z.le_gt_cases (Zdigits2 m) k) as [|Hgt]; [assumption|].
  exfalso.
  assert (2 ^ k <= 2 ^ (Zdigits2 m - 1)) by (apply Z.pow_le_mono_r; lia).
  lia.
Qed.

Lemma shr_1_m (mrs : shr_record) :
  0 <= shr_m mrs -> shr_m (shr_1 mrs) = shr_m mrs / 2.
Proof.
  destruct mrs as [m r s]. cbn [shr_m]. intros Hm. rewrite <- Z.div2_div.
  destruct m as [|[p|p|]|p]; try lia; reflexivity.
Qed.

Lemma shr_iter_m (n : positive) : forall mrs : shr_record,
  0 <= shr_m mrs ->
  shr_m (SpecFloat.iter_pos shr_1 n mrs) = shr_m mrs / 2 ^ Zpos n.
Proof.
  assert (Hnn : forall k mrs, 0 <= shr_m mrs ->
                  0 <= shr_m (SpecFloat.iter_pos shr_1 k mrs)).
  { intros k mrs H. apply (iter_pos_inv (fun r => 0 <= shr_m r)); auto using shr_1_nonneg. }
  induction n as [n IH|n IH|]; intros mrs Hm; simpl SpecFloat.iter_pos.
  - rewrite IH by (apply Hnn, shr_1_nonneg, Hm).
    rewrite IH by (apply shr_1_nonneg, Hm). rewrite shr_1_m by exact Hm.
    rewrite !Z.div_div by (try apply Z.pow_pos_nonneg; lia).
    f_equal. replace (Zpos n~1) with (1 + Zpos n + Zpos n) by lia.
    rewrite !Z.pow_add_r by lia. change (2 ^ 1) with 2. lia.
  - rewrite IH by (apply Hnn, Hm). rewrite IH by exact Hm.
    rewrite !Z.div_div by (try apply Z.pow_pos_nonneg; lia).
    f_equal. replace (Zpos n~0) with (Zpos n + Zpos n) by lia.
    rewrite Z.pow_add_r by lia. reflexivity.
  - rewrite shr_1_m by exact Hm. reflexivity.
Qed.

Section RoundedMantissa.
Variables prec emax : Z.
Hypothesis prec_pos : 0 < prec.

(** Whatever goes in, [shr_fexp] leaves at most [prec] digits. *)
Lemma shr_fexp_digits (m e : Z) (l : location) :
  0 <= m -> Zdigits2 (shr_m (fst (shr_fexp prec emax m e l))) <= prec.
Proof.
  intros Hm. unfold shr_fexp, shr.
  set (d := Zdigits2 m).
  assert (Hfexp : d + e - prec <= fexp prec emax (d + e)) by (unfold fexp, SpecFloat.emin; lia).
  destruct (fexp prec emax (d + e) - e) as [|n|n] eqn:En; cbn [fst].
  - rewrite shr_record_of_loc_m. fold d. lia.
  - rewrite shr_iter_m by (rewrite shr_record_of_loc_m; exact Hm).
    rewrite shr_record_of_loc_m.
    destruct (Z.eq_dec m 0) as [-> | Hne]; [rewrite Z.div_0_l by lia; simpl; lia|].
    pose proof (Zdigits2_bounds m ltac:(lia)) as [_ Hhi]. fold d in Hhi.
    destruct (Z.le_gt_cases d (Zpos n)) as [Hsmall | Hbig].
    + rewrite Z.div_small; [simpl; lia|]. split; [lia|].
      apply Z.lt_le_trans with (2 ^ d); [exact Hhi|].
      apply Z.pow_le_mono_r; lia.
    + apply Zdigits2_le; [apply Z.div_pos; [lia | apply Z.pow_pos_nonneg; lia] | lia |].
      apply Z.div_lt_upper_bound; [apply Z.pow_pos_nonneg; lia|].
      rewrite <- Z.pow_add_r by lia.
      apply Z.lt_le_trans with (2 ^ d); [exact Hhi|].
      apply Z.pow_le_mono_r; lia.
  - rewrite shr_record_of_loc_m. fold d. lia.
Qed.

Lemma binary_round_aux_digits (s : bool) (m e : Z) (l : location)
    (s' : bool) (m' : positive) (e' : Z) :
  0 <= m ->
  binary_round_aux prec emax s m e l = S754_finite s' m' e' ->
  Zpos (digits2_pos m') <= prec.
Proof.
  intros Hm. unfold binary_round_aux.
  pose proof (shr_fexp_nonneg prec emax m e l Hm) as H1.
  destruct (shr_fexp prec emax m e l) as [mrs1 e1]. cbn [fst] in H1.
  pose proof (shr_fexp_digits (round_nearest_even (shr_m mrs1) (loc_of_shr_record mrs1))
                e1 loc_Exact (round_nearest_even_nonneg _ _ H1)) as H2.
  destruct (shr_fexp prec emax _ e1 loc_Exact) as [mrs2 e2]. cbn [fst] in H2.
  destruct (shr_m mrs2) as [|p|p]; try discriminate.
  destruct (e2 <=? emax - prec); [|discriminate].
  intros [= _ <- _]. exact H2.
Qed.

Lemma binary_normalize_bounded (m e : Z) (sz : bool) :
  mantissa_bounded prec (binary_normalize prec emax m e sz).
Proof.
  unfold binary_normalize, binary_round.
  destruct m as [|p|p]; [exact I| |];
    destruct (shl_align _ _ _) as [mz ez];
    match goal with |- mantissa_bounded _ ?x => destruct x eqn:E; try exact I end;
    simpl; exact (binary_round_aux_digits _ _ _ _ _ _ _ (Pos2Z.is_nonneg _) E).
Qed.

Lemma SFmul_bounded (x y : spec_float) : mantissa_bounded prec (SFmul prec emax x y).
Proof.
  destruct x as [sx|sx| |sx mx ex], y as [sy|sy| |sy my ey]; try exact I.
  simpl SFmul.
  match goal with |- mantissa_bounded _ ?x => destruct x eqn:E; try exact I end.
  simpl. exact (binary_round_aux_digits _ _ _ _ _ _ _ (Pos2Z.is_nonneg _) E).
Qed.

Lemma SFadd_bounded (x y : spec_float) :
  mantissa_bounded prec x -> mantissa_bounded prec y ->
  mantissa_bounded prec (SFadd prec emax x y).
Proof.
  destruct x as [sx|sx| |sx mx ex], y as [sy|sy| |sy my ey]; intros Hx Hy;
    try exact I; try exact Hx; try exact Hy.
  - simpl. destruct sx, sy; exact I.
  - simpl. destruct sx, sy; exact I.
  - simpl SFadd. apply binary_normalize_bounded.
Qed.
End RoundedMantissa.

(** ** The clamp of yuv_convert.cc *)

(** [(1 << bits) - 1] as a [double], for the depths a [uint16_t] holds. *)
Lemma maxv_repr (bits : Z) :
  1 <= bits <= 16 ->
  F64.of_Z (Z.shiftl 1 bits - 1)
  = S754_finite false (Z.to_pos ((2 ^ bits - 1) * 2 ^ (53 - bits))) (bits - 53).
Proof.
  intros H.
  assert (Hc : bits = 1 \/ bits = 2 \/ bits = 3 \/ bits = 4 \/ bits = 5 \/
               bits = 6 \/ bits = 7 \/ bits = 8 \/ bits = 9 \/ bits = 10 \/
               bits = 11 \/ bits = 12 \/ bits = 13 \/ bits = 14 \/ bits = 15 \/
               bits = 16) by lia.
  repeat (destruct Hc as [-> | Hc]; [vm_compute; reflexivity|]).
  subst bits. vm_compute. reflexivity.
Qed.

Lemma maxv_to_unsigned (bits : Z) :
  0 <= bits <= 16 ->
  FP.to_unsigned 16 (F64.of_Z (Z.shiftl 1 bits - 1)) = Some (2 ^ bits - 1).
Proof.
  intros H.
  assert (Hc : bits = 0 \/ bits = 1 \/ bits = 2 \/ bits = 3 \/ bits = 4 \/
               bits = 5 \/ bits = 6 \/ bits = 7 \/ bits = 8 \/ bits = 9 \/
               bits = 10 \/ bits = 11 \/ bits = 12 \/ bits = 13 \/ bits = 14 \/
               bits = 15 \/ bits = 16) by lia.
  repeat (destruct Hc as [-> | Hc]; [vm_compute; reflexivity|]).
  subst bits. vm_compute. reflexivity.
Qed.

Lemma mantissa_lt (m : positive) :
  Zpos (digits2_pos m) <= 53 -> Zpos m < 2 ^ 53.
Proof.
  intros H. pose proof (digits2_pos_bounds m) as [_ Hhi].
  apply Z.lt_le_trans with (2 ^ Zpos (digits2_pos m)); [exact Hhi|].
  apply Z.pow_le_mono_r; lia.
Qed.

(** A positive double that is not above [(1 << bits) - 1] truncates to
    an integer of [bits] bits. *)
Lemma trunc_below_maxv (bits : Z) (m : positive) (e : Z) :
  1 <= bits <= 16 ->
  Zpos (digits2_pos m) <= 53 ->
  FP.gtb (S754_finite false m e) (F64.of_Z (Z.shiftl 1 bits - 1)) = false ->
  0 <= Z.shiftl (Zpos m) e <= 2 ^ bits - 1.
Proof.
  intros Hb Hd Hgt. rewrite maxv_repr in Hgt by exact Hb.
  unfold FP.gtb, SFltb in Hgt. cbn [SFcompare] in Hgt.
  change (Pos.compare_cont Eq ?a ?b) with (a ?= b)%positive in Hgt.
  pose proof (mantissa_lt m Hd) as Hm.
  assert (Hp : 0 < 2 ^ (53 - bits)) by (apply Z.pow_pos_nonneg; lia).
  assert (Hq : 2 <= 2 ^ bits).
  { change 2 with (2 ^ 1) at 1. apply Z.pow_le_mono_r; lia. }
  assert (Hpos : 0 < (2 ^ bits - 1) * 2 ^ (53 - bits)) by nia.
  assert (Hlow : e <= bits - 53).
  { destruct (Z.compare_spec (bits - 53) e); try lia; discriminate. }
  rewrite Z.shiftl_div_pow2 by lia.
  assert (Hpe : 0 < 2 ^ (- e)) by (apply Z.pow_pos_nonneg; lia).
  split; [apply Z.div_pos; lia|].
  destruct (Z.eq_dec e (bits - 53)) as [-> | Hne].
  - rewrite Z.compare_refl in Hgt.
    assert (Hle : Zpos m <= (2 ^ bits - 1) * 2 ^ (53 - bits)).
    { destruct (Pos.compare_spec (Z.to_pos ((2 ^ bits - 1) * 2 ^ (53 - bits))) m)
        as [E | E | E]; try discriminate; lia. }
    replace (- (bits - 53)) with (53 - bits) by lia.
    apply Z.lt_succ_r. apply Z.div_lt_upper_bound; [exact Hp|]. nia.
  - apply Z.lt_succ_r. apply Z.div_lt_upper_bound; [exact Hpe|].
    assert (H54 : 2 ^ (54 - bits) <= 2 ^ (- e)) by (apply Z.pow_le_mono_r; lia).
    assert (E53 : 2 ^ 53 = 2 ^ (54 - bits) * 2 ^ (bits - 1))
      by (rewrite <- Z.pow_add_r by lia; f_equal; lia).
    assert (Eb : 2 ^ bits = 2 * 2 ^ (bits - 1)).
    { replace bits with (1 + (bits - 1)) at 1 by lia.
      rewrite Z.pow_add_r by lia. reflexivity. }
    assert (0 < 2 ^ (bits - 1)) by (apply Z.pow_pos_nonneg; lia).
    assert (0 < 2 ^ (54 - bits)) by (apply Z.pow_pos_nonneg; lia).
    nia.
Qed.

(** The clamp is defined on every double but NaN, and its value is a
    sample of [bits] bits. *)
Lemma clamp_in_range (bits : Z) (V : double) :
  0 <= bits <= 16 ->
  mantissa_bounded 53 V -> FP.is_nan V = false ->
  exists n, clamp V (F64.of_Z (Z.shiftl 1 bits - 1)) = Some n /\
            sample_range bits n.
Proof.
  intros Hb Hd Hnan. unfold clamp, sample_range.
  assert (H1 : 1 <= 2 ^ bits).
  { change 1 with (2 ^ 0) at 1. apply Z.pow_le_mono_r; lia. }
  destruct (FP.ltb V (S754_zero false)) eqn:Hneg.
  { exists 0. split; [reflexivity | lia]. }
  destruct (FP.gtb V (F64.of_Z (Z.shiftl 1 bits - 1))) eqn:Hgt.
  { exists (2 ^ bits - 1). split; [apply maxv_to_unsigned; exact Hb | lia]. }
  destruct V as [s | s | | s m e]; try discriminate.
  - exists 0. split; [reflexivity | lia].
  - destruct s; [discriminate Hneg|].
    exfalso. revert Hgt. unfold FP.gtb, SFltb.
    destruct (Z.eq_dec bits 0) as [-> | Hne]; [discriminate|].
    rewrite maxv_repr by lia. discriminate.
  - destruct s; [discriminate Hneg|].
    destruct (Z.eq_dec bits 0) as [-> | Hne]; [discriminate Hgt|].
    pose proof (trunc_below_maxv bits m e ltac:(lia) Hd Hgt) as [Hlo Hhi].
    exists (Z.shiftl (Zpos m) e). split; [|lia].
    unfold FP.to_unsigned, FP.trunc.
    assert (Hw : 2 ^ bits <= 2 ^ 16) by (apply Z.pow_le_mono_r; lia).
    destruct (Z.leb_spec 0 (Z.shiftl (Zpos m) e)); [|lia].
    destruct (Z.ltb_spec (Z.shiftl (Zpos m) e) (2 ^ 16)); [reflexivity | lia].
Qed.


(** ** Magnitudes after rounding *)

Lemma Zdigits2_mono (a b : Z) : 0 <= a <= b -> Zdigits2 a <= Zdigits2 b.
Proof.
  intros [Ha Hab]. destruct (Z.eq_dec b 0) as [-> | Hb].
  - replace a with 0 by lia. lia.
  - apply Zdigits2_le; [exact Ha | apply Zdigits2_nonneg|].
    pose proof (Zdigits2_bounds b ltac:(lia)). lia.
Qed.

Lemma Zdigits2_succ (m : Z) : 0 <= m -> Zdigits2 (m + 1) <= Zdigits2 m + 1.
Proof.
  intros Hm. pose proof (Zdigits2_nonneg m) as Hd.
  apply Zdigits2_le; [lia | lia|].
  rewrite Z.pow_add_r by lia. change (2 ^ 1) with 2.
  destruct (Z.eq_dec m 0) as [-> | Hne]; [simpl; lia|].
  pose proof (Zdigits2_bounds m ltac:(lia)). lia.
Qed.

Lemma round_nearest_even_le (m : Z) (l : location) :
  m <= round_nearest_even m l <= m + 1.
Proof.
  destruct l as [|[]]; simpl; try lia. destruct (Z.even m); lia.
Qed.

Lemma small_mono (prec k k' : Z) (x : spec_float) :
  k <= k' -> small prec k x = true -> small prec k' x = true.
Proof.
  intros Hk. destruct x as [s|s| |s m e]; simpl; try tauto.
  rewrite !andb_true_iff, !Z.leb_le. lia.
Qed.

Lemma small_finite (prec k : Z) (x : spec_float) :
  small prec k x = true -> FP.is_finite x = true.
Proof. destruct x; simpl; congruence. Qed.

Lemma small_bounded (prec k : Z) (x : spec_float) :
  small prec k x = true -> mantissa_bounded prec x.
Proof.
  destruct x as [s|s| |s m e]; simpl; try tauto.
  rewrite andb_true_iff, !Z.leb_le. tauto.
Qed.

Lemma finite_not_nan (x : spec_float) :
  FP.is_finite x = true -> FP.is_nan x = false.
Proof. destruct x; simpl; congruence. Qed.

Section RoundedMagnitude.
Variables prec emax : Z.
Hypothesis prec_pos : 0 < prec.
Local Abbreviation emin := (3 - emax - prec).

Lemma shr_fexp_exp (m e : Z) (l : location) :
  snd (shr_fexp prec emax m e l) = Z.max e (fexp prec emax (Zdigits2 m + e)).
Proof.
  unfold shr_fexp, shr.
  destruct (fexp prec emax (Zdigits2 m + e) - e) eqn:En; cbn [snd]; lia.
Qed.

(** Rounding a magnitude below [2^k] gives one below [2^(k+1)], and a
    finite number as long as that stays within the format. *)
Lemma binary_round_aux_small (s : bool) (m e : Z) (l : location) (k : Z) :
  0 <= m -> e <= k - prec -> Zdigits2 m + e <= k ->
  emin + prec <= k -> k + 1 <= emax ->
  small prec (k + 1) (binary_round_aux prec emax s m e l) = true.
Proof.
  intros Hm He Hd Hlo Hhi. unfold binary_round_aux.
  pose proof (shr_fexp_nonneg prec emax m e l Hm) as H1.
  pose proof (shr_fexp_digits prec emax prec_pos m e l Hm) as D1.
  pose proof (shr_fexp_exp m e l) as E1.
  destruct (shr_fexp prec emax m e l) as [mrs1 e1]. cbn [fst snd] in H1, D1, E1.
  set (m1 := round_nearest_even (shr_m mrs1) (loc_of_shr_record mrs1)).
  assert (Hm1 : 0 <= m1) by (apply round_nearest_even_nonneg, H1).
  assert (Dm1 : Zdigits2 m1 <= prec + 1).
  { pose proof (round_nearest_even_le (shr_m mrs1) (loc_of_shr_record mrs1)) as [_ Hle].
    fold m1 in Hle.
    pose proof (Zdigits2_mono m1 (shr_m mrs1 + 1) ltac:(lia)).
    pose proof (Zdigits2_succ (shr_m mrs1) H1). lia. }
  pose proof (shr_fexp_nonneg prec emax m1 e1 loc_Exact Hm1) as H2.
  pose proof (shr_fexp_digits prec emax prec_pos m1 e1 loc_Exact Hm1) as D2.
  pose proof (shr_fexp_exp m1 e1 loc_Exact) as E2.
  destruct (shr_fexp prec emax m1 e1 loc_Exact) as [mrs2 e2].
  cbn [fst snd] in H2, D2, E2.
  assert (He2 : e2 <= k + 1 - prec).
  { unfold fexp, SpecFloat.emin in E1, E2. lia. }
  destruct (shr_m mrs2) as [|p|p]; [reflexivity| |lia].
  destruct (Z.leb_spec e2 (emax - prec)); [|lia].
  simpl in D2 |- *. apply andb_true_iff. rewrite !Z.leb_le. lia.
Qed.

Lemma shl_align_value (m : positive) (e e' : Z) :
  e' <= e ->
  Zpos (fst (shl_align m e e')) = Zpos m * 2 ^ (e - e') /\
  snd (shl_align m e e') = e'.
Proof.
  intros He. unfold shl_align.
  destruct (e' - e) as [|d|d] eqn:Ed; cbn [fst snd]; try lia.
  - replace (e - e') with 0 by lia. split; lia.
  - rewrite iter_xO_Z. replace (e - e') with (Zpos d) by lia. split; lia.
Qed.

Lemma binary_round_small (s : bool) (m : positive) (e k : Z) :
  Zpos (digits2_pos m) + e <= k ->
  emin + prec <= k -> k + 1 <= emax ->
  small prec (k + 1) (binary_round prec emax s m e) = true.
Proof.
  intros Hd Hlo Hhi. unfold binary_round.
  set (fe := fexp prec emax (Zpos (digits2_pos m) + e)).
  assert (Hfe : fe <= k - prec) by (unfold fe, fexp, SpecFloat.emin; lia).
  unfold shl_align.
  destruct (fe - e) as [|d|d] eqn:Ed.
  - apply binary_round_aux_small; simpl; lia.
  - apply binary_round_aux_small; simpl; lia.
  - apply binary_round_aux_small; try lia.
    simpl. rewrite digits_iter_xO. lia.
Qed.

Lemma binary_normalize_small (m e : Z) (sz : bool) (j k : Z) :
  0 <= j -> Z.abs m < 2 ^ j -> j + e <= k ->
  emin + prec <= k -> k + 1 <= emax ->
  small prec (k + 1) (binary_normalize prec emax m e sz) = true.
Proof.
  intros Hj Hm Hd Hlo Hhi. unfold binary_normalize.
  destruct m as [|p|p]; [reflexivity| |];
    apply binary_round_small; try lia;
    pose proof (Zdigits2_le (Zpos p) j ltac:(lia) Hj ltac:(lia)) as Hp;
    simpl in Hp; lia.
Qed.

Lemma SFmul_small (x y : spec_float) (kx ky k : Z) :
  small prec kx x = true -> small prec ky y = true ->
  kx + ky <= k -> emin + prec <= k -> k + 1 <= emax ->
  small prec (k + 1) (SFmul prec emax x y) = true.
Proof.
  destruct x as [sx|sx| |sx mx ex], y as [sy|sy| |sy my ey];
    try discriminate; try reflexivity.
  simpl small at 1 2. rewrite !andb_true_iff, !Z.leb_le.
  intros [Dx Ex] [Dy Ey] Hk Hlo Hhi. simpl SFmul.
  apply binary_round_aux_small; try lia.
  pose proof (digits2_pos_bounds mx) as [_ Bx].
  pose proof (digits2_pos_bounds my) as [_ By].
  assert (Zdigits2 (Zpos (mx * my))
          <= Zpos (digits2_pos mx) + Zpos (digits2_pos my)).
  { apply Zdigits2_le; [lia | lia|].
    rewrite Z.pow_add_r, Pos2Z.inj_mul by lia. nia. }
  lia.
Qed.

(** Both operands of an addition or subtraction, aligned. *)
Lemma aligned_sum_bound (mx my : positive) (ex ey k : Z) :
  Zpos (digits2_pos mx) + ex <= k -> Zpos (digits2_pos my) + ey <= k ->
  let ez := Z.min ex ey in
  0 <= k + 1 - ez /\
  Zpos (fst (shl_align mx ex ez)) + Zpos (fst (shl_align my ey ez))
  < 2 ^ (k + 1 - ez).
Proof.
  intros Dx Dy ez.
  destruct (shl_align_value mx ex ez ltac:(lia)) as [-> _].
  destruct (shl_align_value my ey ez ltac:(lia)) as [-> _].
  pose proof (digits2_pos_bounds mx) as [_ Bx].
  pose proof (digits2_pos_bounds my) as [_ By].
  split; [lia|].
  assert (Hx : Zpos mx * 2 ^ (ex - ez) < 2 ^ (k - ez)).
  { apply Z.lt_le_trans with (2 ^ Zpos (digits2_pos mx) * 2 ^ (ex - ez)).
    - apply Z.mul_lt_mono_pos_r; [apply Z.pow_pos_nonneg; lia | exact Bx].
    - rewrite <- Z.pow_add_r by lia. apply Z.pow_le_mono_r; lia. }
  assert (Hy : Zpos my * 2 ^ (ey - ez) < 2 ^ (k - ez)).
  { apply Z.lt_le_trans with (2 ^ Zpos (digits2_pos my) * 2 ^ (ey - ez)).
    - apply Z.mul_lt_mono_pos_r; [apply Z.pow_pos_nonneg; lia | exact By].
    - rewrite <- Z.pow_add_r by lia. apply Z.pow_le_mono_r; lia. }
  replace (k + 1 - ez) with (1 + (k - ez)) by lia.
  rewrite Z.pow_add_r by lia. change (2 ^ 1) with 2. lia.
Qed.

Lemma SFadd_small (x y : spec_float) (kx ky k : Z) :
  small prec kx x = true -> small prec ky y = true ->
  kx <= k -> ky <= k -> emin + prec <= k + 1 -> k + 2 <= emax ->
  small prec (k + 2) (SFadd prec emax x y) = true.
Proof.
  intros Hx Hy Hkx Hky Hlo Hhi.
  destruct x as [sx|sx| |sx mx ex], y as [sy|sy| |sy my ey];
    try discriminate.
  - simpl. destruct sx, sy; reflexivity.
  - apply (small_mono prec ky); [lia | exact Hy].
  - apply (small_mono prec kx); [lia | exact Hx].
  - simpl in Hx, Hy. rewrite andb_true_iff, !Z.leb_le in Hx, Hy.
    destruct Hx as [Dx Ex], Hy as [Dy Ey]. simpl SFadd.
    destruct (aligned_sum_bound mx my ex ey k ltac:(lia) ltac:(lia)) as [Hj Hs].
    replace (k + 2) with (k + 1 + 1) by lia.
    apply (binary_normalize_small _ _ _ (k + 1 - Z.min ex ey)); try lia.
    revert Hs. generalize (2 ^ (k + 1 - Z.min ex ey)).
    generalize (fst (shl_align mx ex (Z.min ex ey))).
    generalize (fst (shl_align my ey (Z.min ex ey))).
    intros a b P HP. destruct sx, sy; simpl cond_Zopp; lia.
Qed.

Lemma SFsub_small (x y : spec_float) (kx ky k : Z) :
  small prec kx x = true -> small prec ky y = true ->
  kx <= k -> ky <= k -> emin + prec <= k + 1 -> k + 2 <= emax ->
  small prec (k + 2) (SFsub prec emax x y) = true.
Proof.
  intros Hx Hy Hkx Hky Hlo Hhi.
  destruct x as [sx|sx| |sx mx ex], y as [sy|sy| |sy my ey];
    try discriminate.
  - simpl. destruct sx, sy; reflexivity.
  - simpl SFsub. apply (small_mono prec ky); [lia | exact Hy].
  - apply (small_mono prec kx); [lia | exact Hx].
  - simpl in Hx, Hy. rewrite andb_true_iff, !Z.leb_le in Hx, Hy.
    destruct Hx as [Dx Ex], Hy as [Dy Ey]. simpl SFsub.
    destruct (aligned_sum_bound mx my ex ey k ltac:(lia) ltac:(lia)) as [Hj Hs].
    replace (k + 2) with (k + 1 + 1) by lia.
    apply (binary_normalize_small _ _ _ (k + 1 - Z.min ex ey)); try lia.
    revert Hs. generalize (2 ^ (k + 1 - Z.min ex ey)).
    generalize (fst (shl_align mx ex (Z.min ex ey))).
    generalize (fst (shl_align my ey (Z.min ex ey))).
    intros a b P HP. destruct sx, sy; simpl cond_Zopp; lia.
Qed.
End RoundedMagnitude.

(** ** The conversions of yuv_convert.cc *)

Lemma F64_emin : 3 - F64.emax - F64.prec + F64.prec = -1021.
Proof. reflexivity. Qed.

Lemma F64_mul_below (x y : double) (kx ky k : Z) :
  below kx x = true -> below ky y = true ->
  kx + ky + 1 <= k -> -1020 <= k <= 1024 ->
  below k (F64.mul x y) = true.
Proof.
  intros Hx Hy Hk Hr. unfold below, F64.mul.
  replace k with (k - 1 + 1) by lia.
  apply (SFmul_small F64.prec F64.emax ltac:(reflexivity) x y kx ky);
    try assumption; rewrite ?F64_emin; unfold F64.emax; lia.
Qed.

Lemma F64_add_below (x y : double) (kx ky k : Z) :
  below kx x = true -> below ky y = true ->
  kx + 2 <= k -> ky + 2 <= k -> -1019 <= k <= 1024 ->
  below k (F64.add x y) = true.
Proof.
  intros Hx Hy Hkx Hky Hr. unfold below, F64.add.
  replace k with (k - 2 + 2) by lia.
  apply (SFadd_small F64.prec F64.emax ltac:(reflexivity) x y kx ky);
    try assumption; rewrite ?F64_emin; unfold F64.emax; lia.
Qed.

Lemma F64_sub_below (x y : double) (kx ky k : Z) :
  below kx x = true -> below ky y = true ->
  kx + 2 <= k -> ky + 2 <= k -> -1019 <= k <= 1024 ->
  below k (F64.sub x y) = true.
Proof.
  intros Hx Hy Hkx Hky Hr. unfold below, F64.sub.
  replace k with (k - 2 + 2) by lia.
  apply (SFsub_small F64.prec F64.emax ltac:(reflexivity) x y kx ky);
    try assumption; rewrite ?F64_emin; unfold F64.emax; lia.
Qed.

Lemma F64_of_Z_below (n j : Z) :
  0 <= j <= 1023 -> Z.abs n < 2 ^ j -> below (j + 1) (F64.of_Z n) = true.
Proof.
  intros Hj Hn. unfold below, F64.of_Z.
  apply (binary_normalize_small F64.prec F64.emax ltac:(reflexivity) n 0 false j);
    try assumption; rewrite ?F64_emin; unfold F64.emax; lia.
Qed.

(** The rows of both matrices and the offsets are below 1, 4 and 1. *)
Lemma RGBtoYUVMatrix_below (i : nat) :
  (i < 9)%nat -> below 0 (coef RGBtoYUVMatrix i) = true.
Proof.
  intros H. do 9 (destruct i as [|i]; [vm_compute; reflexivity|]). lia.
Qed.

Lemma YUVtoRGBMatrix_below (i : nat) :
  (i < 9)%nat -> below 2 (coef YUVtoRGBMatrix i) = true.
Proof.
  intros H. do 9 (destruct i as [|i]; [vm_compute; reflexivity|]). lia.
Qed.

Lemma RGBtoYUVMatrixAdd_below (i : nat) :
  (i < 3)%nat -> below 0 (coef RGBtoYUVMatrixAdd i) = true.
Proof.
  intros H. do 3 (destruct i as [|i]; [vm_compute; reflexivity|]). lia.
Qed.

(** [Y], [U] and [V] are finite for channel values below [2^1017]. *)
Lemma RGBtoYUV_row_below (i : nat) (r g b : double) :
  (i < 7)%nat ->
  below 1017 r = true -> below 1017 g = true -> below 1017 b = true ->
  below 1024 (RGBtoYUV_row i r g b) = true.
Proof.
  intros Hi Hr Hg Hb. unfold RGBtoYUV_row.
  assert (Hdiv : (i / 3 < 3)%nat) by (apply Nat.Div0.div_lt_upper_bound; lia).
  apply (F64_add_below _ _ 1022 1018); try lia.
  - apply (F64_add_below _ _ 1020 1018); try lia.
    + apply (F64_add_below _ _ 0 1018); try lia.
      * apply RGBtoYUVMatrixAdd_below, Hdiv.
      * apply (F64_mul_below _ _ 0 1017); try lia; [|exact Hr].
        apply RGBtoYUVMatrix_below. lia.
    + apply (F64_mul_below _ _ 0 1017); try lia; [|exact Hg].
      apply RGBtoYUVMatrix_below. lia.
  - apply (F64_mul_below _ _ 0 1017); try lia; [|exact Hb].
    apply RGBtoYUVMatrix_below. lia.
Qed.

(** What is handed to the clamp is a rounded sum. *)
Lemma stored_value_bounded (M d : double) :
  mantissa_bounded 53 (F64.add (F64.lit 5 10) (F64.mul M d)).
Proof.
  apply SFadd_bounded; [reflexivity | vm_compute; discriminate|].
  apply SFmul_bounded. reflexivity.
Qed.

Lemma stored_value_not_nan (M d : double) :
  FP.is_finite M = true -> FP.is_finite d = true ->
  FP.is_nan (F64.add (F64.lit 5 10) (F64.mul M d)) = false.
Proof.
  intros HM Hd. apply SFadd_finite_not_nan_l; [reflexivity|].
  apply SFmul_finite_not_nan; assumption.
Qed.

Lemma maxv_finite (bits : Z) :
  0 <= bits <= 16 -> FP.is_finite (F64.of_Z (Z.shiftl 1 bits - 1)) = true.
Proof.
  intros H. destruct (Z.eq_dec bits 0) as [-> | Hne]; [reflexivity|].
  rewrite maxv_repr by lia. reflexivity.
Qed.

(** One stored channel of [RGBPixelToYUV]. *)
Lemma RGB_store_defined (bits : Z) (d : double) :
  0 <= bits <= 16 -> below 1024 d = true ->
  exists n,
    clamp (F64.add (F64.lit 5 10) (F64.mul (F64.of_Z (Z.shiftl 1 bits - 1)) d))
          (F64.of_Z (Z.shiftl 1 bits - 1)) = Some n /\
    sample_range bits n.
Proof.
  intros Hb Hd. apply clamp_in_range; [exact Hb | apply stored_value_bounded|].
  apply stored_value_not_nan; [apply maxv_finite, Hb|].
  apply (small_finite _ _ _ Hd).
Qed.

Lemma RGBPixelToYUV_defined (r g b : double) (bits : Z) :
  0 <= bits <= 16 ->
  below 1017 r = true -> below 1017 g = true -> below 1017 b = true ->
  exists y u v, RGBPixelToYUV r g b bits = Some (y, u, v) /\
    sample_range bits y /\ sample_range bits u /\ sample_range bits v.
Proof.
  intros Hb Hr Hg Hbl. unfold RGBPixelToYUV.
  destruct (RGB_store_defined bits (RGBtoYUV_row 0 r g b) Hb) as (y & Ey & Ry);
    [apply RGBtoYUV_row_below; try assumption; lia|].
  destruct (RGB_store_defined bits (RGBtoYUV_row 3 r g b) Hb) as (u & Eu & Ru);
    [apply RGBtoYUV_row_below; try assumption; lia|].
  destruct (RGB_store_defined bits (RGBtoYUV_row 6 r g b) Hb) as (v & Ev & Rv);
    [apply RGBtoYUV_row_below; try assumption; lia|].
  exists y, u, v. cbv zeta. rewrite Ey, Eu, Ev. auto.
Qed.


(** [norm = 1. / ((1 << bits) - 1)] is at most 1. *)
Lemma norm_below (bits : Z) :
  1 <= bits <= 30 ->
  below 1 (F64.div (F64.of_Z 1) (F64.of_Z (Z.shiftl 1 bits - 1))) = true.
Proof.
  intros H.
  assert (Hall : forallb (fun k => below 1 (F64.div (F64.of_Z 1)
                                    (F64.of_Z (Z.shiftl 1 k - 1))))
                   (seqZ 1 30) = true) by (vm_compute; reflexivity).
  rewrite forallb_forall in Hall. apply Hall.
  apply list_elem_of_In, elem_of_seqZ. lia.
Qed.

Lemma u16_below (n : Z) : 0 <= n < 2 ^ 16 -> below 17 (F64.of_Z n) = true.
Proof. intros H. apply (F64_of_Z_below n 16); lia. Qed.

(** The [double] results of [YUVPixelToRGB] are below [2^28]. *)
Lemma YUVPixelToRGB_below (yv uv vv bits : Z) :
  1 <= bits <= 30 ->
  0 <= yv < 2 ^ 16 -> 0 <= uv < 2 ^ 16 -> 0 <= vv < 2 ^ 16 ->
  let '(rd, gd, bd) := YUVPixelToRGB yv uv vv bits in
  below 28 rd = true /\ below 28 gd = true /\ below 28 bd = true.
Proof.
  intros Hb Hy Hu Hv. unfold YUVPixelToRGB. cbv zeta.
  set (norm := F64.div (F64.of_Z 1) (F64.of_Z (Z.shiftl 1 bits - 1))).
  assert (Hn : below 1 norm = true) by (apply norm_below, Hb).
  assert (Hc : forall n i, 0 <= n < 2 ^ 16 -> (i < 3)%nat ->
            below 21 (F64.sub (F64.mul (F64.of_Z n) norm)
                              (coef RGBtoYUVMatrixAdd i)) = true).
  { intros n i Hn' Hi. apply (F64_sub_below _ _ 19 0); try lia.
    - apply (F64_mul_below _ _ 17 1); try lia; [apply u16_below, Hn' | exact Hn].
    - apply RGBtoYUVMatrixAdd_below, Hi. }
  pose proof (Hc yv 0%nat Hy ltac:(lia)) as By.
  pose proof (Hc uv 1%nat Hu ltac:(lia)) as Bu.
  pose proof (Hc vv 2%nat Hv ltac:(lia)) as Bv.
  assert (Hrow : forall i, (i < 7)%nat ->
            below 28
              (F64.add
                 (F64.add
                    (F64.mul (coef YUVtoRGBMatrix i)
                       (F64.sub (F64.mul (F64.of_Z yv) norm)
                                (coef RGBtoYUVMatrixAdd 0)))
                    (F64.mul (coef YUVtoRGBMatrix (i + 1))
                       (F64.sub (F64.mul (F64.of_Z uv) norm)
                                (coef RGBtoYUVMatrixAdd 1))))
                 (F64.mul (coef YUVtoRGBMatrix (i + 2))
                    (F64.sub (F64.mul (F64.of_Z vv) norm)
                             (coef RGBtoYUVMatrixAdd 2)))) = true).
  { intros i Hi.
    apply (F64_add_below _ _ 26 24); try lia.
    - apply (F64_add_below _ _ 24 24); try lia.
      + apply (F64_mul_below _ _ 2 21); try lia; [|exact By].
        apply YUVtoRGBMatrix_below. lia.
      + apply (F64_mul_below _ _ 2 21); try lia; [|exact Bu].
        apply YUVtoRGBMatrix_below. lia.
    - apply (F64_mul_below _ _ 2 21); try lia; [|exact Bv].
      apply YUVtoRGBMatrix_below. lia. }
  split; [|split]; apply Hrow; lia.
Qed.

(** One stored channel of the typed [YUVPixelToRGB]: the clamp is
    defined, in range, and the conversion to [T] does not wrap. *)
Lemma YUV_store_defined (sizeof_T : Z) (d : double) :
  sizeof_T = 1 \/ sizeof_T = 2 -> below 28 d = true ->
  exists n,
    (fun n => n mod 2 ^ (8 * sizeof_T)) <$>
      clamp (F64.add (F64.lit 5 10)
               (F64.mul (F64.of_Z (Z.shiftl 1 (8 * sizeof_T) - 1)) d))
            (F64.of_Z (Z.shiftl 1 (8 * sizeof_T) - 1)) = Some n /\
    sample_range (8 * sizeof_T) n.
Proof.
  intros Hs Hd.
  destruct (clamp_in_range (8 * sizeof_T)
              (F64.add (F64.lit 5 10)
                 (F64.mul (F64.of_Z (Z.shiftl 1 (8 * sizeof_T) - 1)) d)))
    as (n & En & Rn); [lia | apply stored_value_bounded | |].
  - apply stored_value_not_nan; [apply maxv_finite; lia|].
    apply (small_finite _ _ _ Hd).
  - exists n. rewrite En. cbn [fmap option_fmap option_map].
    unfold sample_range in Rn.
    rewrite Z.mod_small by lia. split; [reflexivity | exact Rn].
Qed.

Lemma YUVPixelToRGB_T_defined (sizeof_T yv uv vv bits : Z) :
  sizeof_T = 1 \/ sizeof_T = 2 -> 1 <= bits <= 30 ->
  0 <= yv < 2 ^ 16 -> 0 <= uv < 2 ^ 16 -> 0 <= vv < 2 ^ 16 ->
  exists r g b, YUVPixelToRGB_T sizeof_T yv uv vv bits = Some (r, g, b) /\
    sample_range (8 * sizeof_T) r /\ sample_range (8 * sizeof_T) g /\
    sample_range (8 * sizeof_T) b.
Proof.
  intros Hs Hb Hy Hu Hv. unfold YUVPixelToRGB_T. cbv zeta.
  pose proof (YUVPixelToRGB_below yv uv vv bits Hb Hy Hu Hv) as Hbelow.
  destruct (YUVPixelToRGB yv uv vv bits) as [[rd gd] bd].
  destruct Hbelow as (Br & Bg & Bb).
  destruct (YUV_store_defined sizeof_T rd Hs Br) as (r & Er & Rr).
  destruct (YUV_store_defined sizeof_T gd Hs Bg) as (g & Eg & Rg).
  destruct (YUV_store_defined sizeof_T bd Hs Bb) as (b & Eb & Rb).
  exists r, g, b. rewrite Er, Eg, Eb. auto.
Qed.

Lemma clamp_nan (M : double) : clamp S754_nan M = None.
Proof. unfold clamp. destruct M; reflexivity. Qed.

Lemma stored_value_nan (M d : double) :
  FP.is_nan d = true -> F64.add (F64.lit 5 10) (F64.mul M d) = S754_nan.
Proof.
  destruct d; try discriminate. intros _.
  unfold F64.mul. destruct M; reflexivity.
Qed.

(** From 1 to 16 bits, [RGBPixelToYUV] is defined exactly when none of
    [Y], [U], [V] is NaN. *)
Lemma RGBPixelToYUV_defined_iff (r g b : double) (bits : Z) :
  1 <= bits <= 16 ->
  is_Some (RGBPixelToYUV r g b bits) <->
  FP.is_nan (RGBtoYUV_row 0 r g b) = false /\
  FP.is_nan (RGBtoYUV_row 3 r g b) = false /\
  FP.is_nan (RGBtoYUV_row 6 r g b) = false.
Proof.
  intros Hb.
  assert (Hstore : forall d, FP.is_nan d = false ->
            exists n, clamp (F64.add (F64.lit 5 10)
                               (F64.mul (F64.of_Z (Z.shiftl 1 bits - 1)) d))
                            (F64.of_Z (Z.shiftl 1 bits - 1)) = Some n).
  { intros d Hd.
    destruct (clamp_in_range bits
                (F64.add (F64.lit 5 10)
                   (F64.mul (F64.of_Z (Z.shiftl 1 bits - 1)) d)))
      as (n & En & _); [lia | apply stored_value_bounded | | exists n; exact En].
    apply SFadd_finite_not_nan_l; [reflexivity|].
    rewrite maxv_repr by exact Hb.
    apply (SFmul_nonzero_not_nan _ _ _ _ _ _ _ eq_refl Hd). }
  unfold RGBPixelToYUV. cbv zeta. split.
  - intros [yuv Hsome].
    destruct (FP.is_nan (RGBtoYUV_row 0 r g b)) eqn:EY.
    { rewrite (stored_value_nan _ _ EY), clamp_nan in Hsome. discriminate Hsome. }
    destruct (Hstore _ EY) as (y & Ey). rewrite Ey in Hsome.
    cbn [mbind option_bind] in Hsome.
    destruct (FP.is_nan (RGBtoYUV_row 3 r g b)) eqn:EU.
    { rewrite (stored_value_nan _ _ EU), clamp_nan in Hsome. discriminate Hsome. }
    destruct (Hstore _ EU) as (u & Eu). rewrite Eu in Hsome.
    cbn [mbind option_bind] in Hsome.
    destruct (FP.is_nan (RGBtoYUV_row 6 r g b)) eqn:EV.
    { rewrite (stored_value_nan _ _ EV), clamp_nan in Hsome. discriminate Hsome. }
    auto.
  - intros (EY & EU & EV).
    destruct (Hstore _ EY) as (y & ->). destruct (Hstore _ EU) as (u & ->).
    destruct (Hstore _ EV) as (v & ->). eexists. reflexivity.
Qed.

(** Rec. 709 white at 8 bits, both ways; a NaN channel has no defined
    conversion to [uint16_t]. *)
Example RGBPixelToYUV_white :
  RGBPixelToYUV (F64.of_Z 1) (F64.of_Z 1) (F64.of_Z 1) 8 = Some (235, 128, 128).
Proof. vm_compute. reflexivity. Qed.

Example YUVPixelToRGB_white :
  YUVPixelToRGB_T 1 235 128 128 8 = Some (255, 255, 255).
Proof. vm_compute. reflexivity. Qed.

Example RGBPixelToYUV_overshoot :
  RGBPixelToYUV (F64.of_Z 1000) (F64.of_Z (-1000)) (F64.of_Z 3) 10
  = Some (0, 1023, 1023).
Proof. vm_compute. reflexivity. Qed.

Example RGBPixelToYUV_nan :
  RGBPixelToYUV S754_nan (F64.of_Z 1) (F64.of_Z 1) 8 = None.
Proof. vm_compute. reflexivity. Qed.









(* ================================================================== *)
(** * Further properties of the code                                   *)
(* ================================================================== *)

(** ** Byte order helpers *)

Lemma EncodeU32_bytes (val : Z) : Forall is_byte (EncodeU32 val).
Proof.
  unfold EncodeU32, is_byte.
  repeat constructor;
    change 255 with (Z.ones 8); rewrite Z.land_ones by lia;
    apply Z.mod_pos_bound; reflexivity.
Qed.

(** X1: [DecodeU32] reads back what [EncodeU32] stored, whatever follows
    the four bytes, and [EncodeU32] stores the four bytes [DecodeU32] was
    given: the two are inverse to each other between [uint32_t] values
    and sequences of four bytes, least significant byte first. *)
Theorem DecodeU32_EncodeU32 :
  (forall (val : Z) (rest : list Z),
     0 <= val < 2 ^ 32 ->
     Forall is_byte (EncodeU32 val) /\
     DecodeU32 (EncodeU32 val ++ rest) = Some val) /\
  (forall (b0 b1 b2 b3 : Z) (rest : list Z),
     is_byte b0 -> is_byte b1 -> is_byte b2 -> is_byte b3 ->
     exists val, DecodeU32 (b0 :: b1 :: b2 :: b3 :: rest) = Some val /\
                 0 <= val < 2 ^ 32 /\
                 val = b0 + 256 * b1 + 65536 * b2 + 16777216 * b3 /\
                 EncodeU32 val = [b0; b1; b2; b3]).
Proof.
  split.
  - intros val rest Hval. split; [apply EncodeU32_bytes|].
    unfold EncodeU32, DecodeU32. cbn [app]. f_equal.
    change 255 with (Z.ones 8). rewrite !Z.land_ones by lia.
    rewrite !Z.shiftr_div_pow2, !Z.shiftl_mul_pow2 by lia.
    change (2 ^ 0) with 1. change (2 ^ 8) with 256. change (2 ^ 16) with 65536.
    change (2 ^ 24) with 16777216. change (2 ^ 32) with 4294967296 in *.
    Z.div_mod_to_equations. lia.
  - intros b0 b1 b2 b3 rest H0 H1 H2 H3. unfold is_byte in *.
    exists (b0 + 256 * b1 + 65536 * b2 + 16777216 * b3).
    assert (Hd : DecodeU32 (b0 :: b1 :: b2 :: b3 :: rest)
                 = Some (b0 + 256 * b1 + 65536 * b2 + 16777216 * b3)).
    { unfold DecodeU32. f_equal. rewrite !Z.shiftl_mul_pow2 by lia.
      change (2 ^ 8) with 256. change (2 ^ 32) with 4294967296.
      Z.div_mod_to_equations. lia. }
    split; [exact Hd|]. split; [change (2 ^ 32) with 4294967296; lia|].
    split; [reflexivity|].
    unfold EncodeU32. change 255 with (Z.ones 8). rewrite !Z.land_ones by lia.
    rewrite !Z.shiftr_div_pow2 by lia.
    change (2 ^ 0) with 1. change (2 ^ 8) with 256. change (2 ^ 16) with 65536.
    change (2 ^ 24) with 16777216.
    repeat f_equal; Z.div_mod_to_equations; lia.
Qed.

Lemma DecodeU32_EncodeU32_witness :
  DecodeU32 (EncodeU32 305419896 ++ [7]) = Some 305419896 /\
  EncodeU32 305419896 = [120; 86; 52; 18].
Proof.
  split.
  - apply (proj1 DecodeU32_EncodeU32 305419896 [7]). lia.
  - reflexivity.
Defined.

(** ** Maxima over rectangles, and [TileDistMap] *)

Section RectMax.
Variable get : Z -> Z -> float.
Variable init : float.
Variables ylo yhi xlo xhi : Z.

Local Abbreviation rect y x := (ylo <= y < yhi /\ xlo <= x < xhi).

Local Abbreviation max_so_far seen m :=
  ((m = init \/ exists y x, rect y x /\ seen y x /\ m = get y x) /\
   (FP.is_nan init = false -> FP.leb init m = true) /\
   (forall y x, rect y x -> seen y x -> FP.ltb m (get y x) = false)).

Lemma max_so_far_step (seen : Z -> Z -> Prop) (m : float) (y x : Z) :
  rect y x -> max_so_far seen m ->
  max_so_far (fun y' x' => seen y' x' \/ (y' = y /\ x' = x))
             (FP.max m (get y x)).
Proof.
  intros Hw (Hat & Hlo & Hup). unfold FP.max.
  destruct (FP.ltb m (get y x)) eqn:Elt.
  - split; [|split].
    + right. exists y, x. auto.
    + intros Hn. apply ltb_leb. apply (leb_ltb_trans _ m); auto.
    + intros y' x' Hw' [Hs | [-> ->]]; [|apply ltb_irrefl].
      destruct (FP.ltb (get y x) (get y' x')) eqn:E; [|reflexivity].
      rewrite <- (Hup y' x' Hw' Hs). symmetry. apply (ltb_trans _ _ _ Elt E).
  - split; [|split].
    + destruct Hat as [-> | (y' & x' & Hw' & Hs & ->)]; [left; reflexivity|].
      right. exists y', x'. auto.
    + exact Hlo.
    + intros y' x' Hw' [Hs | [-> ->]]; [apply Hup; assumption | exact Elt].
Qed.

Lemma max_so_far_ext (seen seen' : Z -> Z -> Prop) (m : float) :
  (forall y x, rect y x -> (seen y x <-> seen' y x)) ->
  max_so_far seen m -> max_so_far seen' m.
Proof.
  intros Hext (Hat & Hlo & Hup). split; [|split].
  - destruct Hat as [-> | (y & x & Hw & Hs & ->)]; [left; reflexivity|].
    right. exists y, x. split; [exact Hw|].
    split; [apply Hext; assumption | reflexivity].
  - exact Hlo.
  - intros y x Hw Hs. apply Hup; [exact Hw | apply Hext; assumption].
Qed.

(** The two nested loops that keep a running [std::max] over a
    rectangle end with the maximum of the start value and the cells of
    the rectangle. *)
Lemma rect_max_spec :
  let m := for_range ylo yhi (fun y =>
             for_range xlo xhi (fun x acc => FP.max acc (get y x))) init in
  (m = init \/ exists y x, rect y x /\ m = get y x) /\
  (FP.is_nan init = false -> FP.leb init m = true) /\
  (forall y x, rect y x -> FP.ltb m (get y x) = false).
Proof.
  intros m.
  assert (Hbase : forall Y, Y <= ylo -> max_so_far (fun y (_ : Z) => y < Y) init).
  { intros Y HY. split; [|split];
      [left; reflexivity | apply leb_refl | intros; lia]. }
  assert (Hrun : max_so_far (fun (_ _ : Z) => True) m).
  { unfold m.
    destruct (Z.le_gt_cases ylo yhi) as [Hy | Hy].
    2:{ rewrite for_range_empty by lia.
        apply (max_so_far_ext (fun y (_ : Z) => y < ylo) (fun _ _ => True));
          [intros; lia | apply Hbase; lia]. }
    apply (max_so_far_ext (fun y (_ : Z) => y < yhi) (fun _ _ => True));
      [intros; split; [tauto | lia]|].
    apply (for_range_inv (fun Y m' => max_so_far (fun y (_ : Z) => y < Y) m'));
      [exact Hy | apply Hbase; lia |].
    intros Y m' HY Hm'.
    destruct (Z.le_gt_cases xlo xhi) as [Hx | Hx].
    2:{ rewrite for_range_empty by lia.
        apply (max_so_far_ext (fun y (_ : Z) => y < Y) (fun y (_ : Z) => y < Y + 1));
          [intros; lia | exact Hm']. }
    apply (max_so_far_ext
             (fun y x => y < Y \/ (y = Y /\ x < xhi))
             (fun y (_ : Z) => y < Y + 1));
      [intros; lia|].
    apply (for_range_inv
             (fun X m'' => max_so_far (fun y x => y < Y \/ (y = Y /\ x < X)) m''));
      [exact Hx | |].
    - apply (max_so_far_ext (fun y (_ : Z) => y < Y)
               (fun y x => y < Y \/ (y = Y /\ x < xlo)));
        [intros; lia | exact Hm'].
    - intros X m'' HX Hm''.
      apply (max_so_far_ext
               (fun y x => (y < Y \/ (y = Y /\ x < X)) \/ (y = Y /\ x = X))
               (fun y x => y < Y \/ (y = Y /\ x < X + 1)));
        [intros; lia|].
      apply max_so_far_step; [lia | exact Hm'']. }
  destruct Hrun as (Hat & Hlo & Hup). split; [|split].
  - destruct Hat as [-> | (y & x & Hw & _ & ->)]; [left; reflexivity|].
    right. exists y, x. auto.
  - exact Hlo.
  - intros y x Hw. apply Hup; [exact Hw | exact I].
Qed.
End RectMax.

Lemma ceil_quot_nonneg (n d : Z) : 0 <= n -> 1 <= d -> 0 <= (n + d - 1) ÷ d.
Proof. intros Hn Hd. apply Z.quot_pos; lia. Qed.

Lemma tile_cell_rewrites (distmap : ImageF) (tile_size : Z) :
  rewrites_cell S754_nan
    (fun tile_y tile_x tile_distmap =>
       Img.set tile_distmap tile_y tile_x
               (tile_max distmap tile_size tile_y tile_x))
    (fun tile_y tile_x _ => tile_max distmap tile_size tile_y tile_x).
Proof.
  intros img y x Hwf Hin. split; [apply wf_set, Hwf|].
  split; [apply set_sizes|]. split; [apply set_sizes|].
  intros y' x'. apply get_set; assumption.
Qed.

(** X2: [TileDistMap] returns a well-formed map of
    [ceil(xsize / tile_size)] by [ceil(ysize / tile_size)] cells, and each
    cell is the maximum of 0 and the pixels its tile covers inside the
    image: it is 0 or one of those pixels, it is not below 0, and none of
    those pixels is above it.  Pixels beyond the image edge and NaN
    pixels never enter a cell. *)
Theorem TileDistMap_is_tile_maximum (distmap : ImageF) (tile_size : Z) :
  Img.wf distmap -> 1 <= tile_size ->
  let t := TileDistMap distmap tile_size in
  Img.wf t /\
  xsize t = (xsize distmap + tile_size - 1) ÷ tile_size /\
  ysize t = (ysize distmap + tile_size - 1) ÷ tile_size /\
  forall tile_y tile_x, in_image t tile_y tile_x ->
    let c := RowF t tile_y tile_x in
    (c = S754_zero false \/
     exists y x, in_tile distmap tile_size tile_y tile_x y x /\
                 c = RowF distmap y x) /\
    FP.geb c (S754_zero false) = true /\
    (forall y x, in_tile distmap tile_size tile_y tile_x y x ->
                 FP.gtb (RowF distmap y x) c = false).
Proof.
  intros Hwf Hts t.
  destruct Hwf as (Hxs & Hys & Hwf).
  pose proof (ceil_quot_nonneg (xsize distmap) tile_size Hxs Hts) as Htx.
  pose proof (ceil_quot_nonneg (ysize distmap) tile_size Hys Hts) as Hty.
  set (txs := (xsize distmap + tile_size - 1) ÷ tile_size) in *.
  set (tys := (ysize distmap + tile_size - 1) ÷ tile_size) in *.
  assert (H : Img.wf t /\ xsize t = txs /\ ysize t = tys /\
              forall y' x',
                Img.get S754_nan t y' x'
                = if (0 <=? y') && (y' <? tys) && (0 <=? x') && (x' <? txs)
                  then tile_max distmap tile_size y' x'
                  else Img.get S754_nan (Img.fill txs tys (S754_zero false)) y' x').
  { apply (pointwise_grid S754_nan _ _ (tile_cell_rewrites distmap tile_size)
             (Img.fill txs tys (S754_zero false)) 0 tys 0 txs);
      try (apply wf_fill; assumption); simpl; lia. }
  destruct H as (Hw' & Hxs' & Hys' & Hget).
  split; [exact Hw'|]. split; [exact Hxs'|]. split; [exact Hys'|].
  intros tile_y tile_x [Hy Hx] c. rewrite Hxs' in Hx. rewrite Hys' in Hy.
  assert (Ec : c = tile_max distmap tile_size tile_y tile_x).
  { unfold c, RowF. rewrite Hget.
    replace (_ && _ && _ && _) with true; [reflexivity|].
    symmetry. rewrite !andb_true_iff, !Z.leb_le, !Z.ltb_lt. lia. }
  rewrite Ec. unfold tile_max, in_tile.
  pose proof (rect_max_spec (RowF distmap) (S754_zero false)
                (tile_size * tile_y)
                (Z.min (ysize distmap) (tile_size * (tile_y + 1)))
                (tile_size * tile_x)
                (Z.min (xsize distmap) (tile_size * (tile_x + 1))))
    as (Hat & Hlo & Hup).
  cbv zeta in Hat, Hlo, Hup.
  split; [exact Hat|]. split; [apply Hlo; reflexivity|]. exact Hup.
Qed.

Lemma StuckLoop_distmap_wf : Img.wf StuckLoop.distmap.
Proof.
  unfold Img.wf, StuckLoop.distmap. simpl.
  repeat split; try lia. repeat constructor.
Qed.

Lemma TileDistMap_is_tile_maximum_witness :
  xsize (TileDistMap StuckLoop.distmap 8) = 2 /\
  ysize (TileDistMap StuckLoop.distmap 8) = 1 /\
  FP.gtb (RowF StuckLoop.distmap 0 0) (RowF (TileDistMap StuckLoop.distmap 8) 0 0)
  = false.
Proof.
  destruct (TileDistMap_is_tile_maximum StuckLoop.distmap 8
              StuckLoop_distmap_wf ltac:(lia)) as (_ & Hx & Hy & Hc).
  change ((xsize StuckLoop.distmap + 8 - 1) ÷ 8) with 2 in Hx.
  change ((ysize StuckLoop.distmap + 8 - 1) ÷ 8) with 1 in Hy.
  split; [exact Hx|]. split; [exact Hy|].
  assert (Hin : in_image (TileDistMap StuckLoop.distmap 8) 0 0).
  { unfold in_image. rewrite Hx, Hy. lia. }
  destruct (Hc 0 0 Hin) as (_ & _ & Hup).
  apply Hup. unfold in_tile.
  change (ysize StuckLoop.distmap) with 1. change (xsize StuckLoop.distmap) with 9.
  lia.
Defined.

(** ** Loops that keep a property *)

Lemma for_range_keeps {S : Type} (P : S -> Prop) (lo hi : Z)
    (body : Z -> S -> S) (s : S) :
  (forall k s', lo <= k < hi -> P s' -> P (body k s')) ->
  P s -> P (for_range lo hi body s).
Proof.
  intros Hstep Hs. destruct (Z.le_gt_cases lo hi) as [Hle | Hgt].
  - apply (for_range_inv (fun _ => P)); auto.
  - rewrite for_range_empty by lia. exact Hs.
Qed.

(** ** The rate-control loop: what every return has in common *)

Lemma scale_rewrites_cell (k : float) :
  rewrites_cell S754_nan
    (fun y x quant_field => Img.set quant_field y x (F32.mul (RowF quant_field y x) k))
    (fun _ _ c => F32.mul c k).
Proof.
  intros qf y x Hwf Hin.
  destruct (set_sizes qf y x (F32.mul (RowF qf y x) k)) as [Hx Hy].
  split; [apply wf_set, Hwf|]. split; [exact Hx|]. split; [exact Hy|].
  intros y' x'. apply get_set; assumption.
Qed.

Lemma scaled_quant_next (q : float) (i : Z) :
  0 <= i ->
  scaled_quant q (i + 1) = F32.mul (scaled_quant q i) (array_get kQuantScale (i + 1)).
Proof.
  intros Hi. unfold scaled_quant.
  rewrite seqZ_app by lia. rewrite foldl_app.
  replace (seqZ (1 + i) 1) with [i + 1]; [reflexivity|].
  unfold seqZ. simpl. f_equal. lia.
Qed.

Section RateControlRuns.
Variable CompressedImageT : Type.
Variable block_xsize block_ysize : CompressedImageT -> Z.
Variable SetQuantField :
  float -> ImageF -> CompressedImageT -> bool * CompressedImageT.
Variable Quantize : CompressedImageT -> CompressedImageT.
Variable Image3B : Type.
Variable ToSRGB : CompressedImageT -> Image3B.
Variable ButteraugliComparator : Type.
Variable Compare : Image3B -> ButteraugliComparator -> ButteraugliComparator.
Variable distance : ButteraugliComparator -> float.
Variable distmap : ButteraugliComparator -> ImageF.
Variable butteraugli_target : float.
Variable max_butteraugli_iters : Z.

Local Abbreviation State := (FBQ CompressedImageT ButteraugliComparator).
Local Abbreviation q_and_c :=
  (quantize_and_compare CompressedImageT SetQuantField Quantize Image3B ToSRGB
     ButteraugliComparator Compare distmap butteraugli_target
     max_butteraugli_iters).
Local Abbreviation radius_pass :=
  (adjust_radius CompressedImageT block_xsize block_ysize ButteraugliComparator
     butteraugli_target).
Local Abbreviation radii :=
  (adjust_radii CompressedImageT block_xsize block_ysize ButteraugliComparator
     butteraugli_target).
Local Abbreviation inner :=
  (adjust_loop CompressedImageT block_xsize block_ysize ButteraugliComparator
     distance butteraugli_target).
Local Abbreviation step :=
  (outer_step CompressedImageT block_xsize block_ysize ButteraugliComparator).
Local Abbreviation body :=
  (loop_body CompressedImageT block_xsize block_ysize SetQuantField Quantize
     Image3B ToSRGB ButteraugliComparator Compare distance distmap
     butteraugli_target max_butteraugli_iters).
Local Abbreviation loop :=
  (FBQ_loop CompressedImageT block_xsize block_ysize SetQuantField Quantize
     Image3B ToSRGB ButteraugliComparator Compare distance distmap
     butteraugli_target max_butteraugli_iters).
Local Abbreviation run :=
  (FindBestQuantization CompressedImageT block_xsize block_ysize SetQuantField
     Quantize Image3B ToSRGB ButteraugliComparator Compare distance distmap
     butteraugli_target max_butteraugli_iters).
Local Abbreviation head img0 comparator0 :=
  (at_head CompressedImageT block_xsize block_ysize SetQuantField Quantize
     Image3B ToSRGB ButteraugliComparator Compare distance distmap
     butteraugli_target max_butteraugli_iters img0 comparator0).

(** The state in which an iteration leaves the loop. *)
Lemma body_exit (fuel : nat) (s s' : State) :
  body fuel s = Some (inr s') ->
  (max_butteraugli_iters <= butteraugli_iter _ _ s' /\
   fst (SetQuantField (kInitialQuantDC butteraugli_target) (quant_field _ _ s)
                      (img _ _ s)) = true) \/
  outer_iter _ _ s' = kMaxOuterIters.
Proof.
  unfold loop_body, quantize_and_compare.
  destruct (SetQuantField _ _ _) as [[] img1]; cbn [fst].
  - destruct (Z.leb_spec max_butteraugli_iters (butteraugli_iter _ _ s)).
    + intros [= <-]. left. simpl. auto.
    + destruct (inner fuel _ false) as [[s2 ch]|]; [|discriminate].
      unfold outer_step. destruct (negb ch); [|discriminate].
      destruct (Z.eqb_spec (outer_iter _ _ s2 + 1) kMaxOuterIters);
        [|discriminate].
      intros [= <-]. right. simpl. assumption.
  - destruct (inner fuel _ false) as [[s2 ch]|]; [|discriminate].
    unfold outer_step. destruct (negb ch); [|discriminate].
    destruct (Z.eqb_spec (outer_iter _ _ s2 + 1) kMaxOuterIters);
      [|discriminate].
    intros [= <-]. right. simpl. assumption.
Qed.

Lemma body_quant_max (fuel : nat) (s : State) (k : nat) :
  (k <= 8)%nat -> quant_max _ _ s = quant_max_value k ->
  match body fuel s with
  | Some (inl s') | Some (inr s') =>
      exists k', (k' <= 8)%nat /\ quant_max _ _ s' = quant_max_value k'
  | None => True
  end.
Proof.
  intros Hk Hq. unfold loop_body, quantize_and_compare.
  destruct (SetQuantField _ _ _) as [[] img1].
  - destruct (_ <=? _); [simpl; eauto|].
    match goal with |- context [adjust_loop _ _ _ _ _ _ fuel ?s1 false] =>
      destruct (adjust_loop _ _ _ _ _ _ fuel s1 false) as [[s2 ch]|] eqn:E;
      [|exact I];
      eapply inner_quant_max with (k := k) in E; [|exact Hk | exact Hq]
    end.
    destruct E as (k' & Hk' & Hq'). unfold outer_step.
    destruct (negb ch); [destruct (_ =? _)|]; simpl; eauto.
  - match goal with |- context [adjust_loop _ _ _ _ _ _ fuel ?s1 false] =>
      destruct (adjust_loop _ _ _ _ _ _ fuel s1 false) as [[s2 ch]|] eqn:E;
      [|exact I];
      eapply inner_quant_max with (k := k) in E; [|exact Hk | exact Hq]
    end.
    destruct E as (k' & Hk' & Hq'). unfold outer_step.
    destruct (negb ch); [destruct (_ =? _)|]; simpl; eauto.
Qed.

(** X3: whenever [FindBestQuantization] returns, the comparator was
    called exactly [butteraugli_iter] times, at most
    [max(0, max_butteraugli_iters)] times; the loop was left either
    because [outer_iter] reached [kMaxOuterIters = 3] or because the
    budget was used up right after a [SetQuantField] that reported a
    change; and [quant_max] is one of 4, 4.5, ..., 8. *)
Theorem FindBestQuantization_on_return (fuel : nat) (img0 : CompressedImageT)
    (comparator0 : ButteraugliComparator) (s' : State) :
  run fuel img0 comparator0 = Some s' ->
  compares (trace _ _ s') = butteraugli_iter _ _ s' /\
  0 <= butteraugli_iter _ _ s' <= Z.max 0 max_butteraugli_iters /\
  (outer_iter _ _ s' = kMaxOuterIters \/
   max_butteraugli_iters <= butteraugli_iter _ _ s') /\
  exists k, (k <= 8)%nat /\ quant_max _ _ s' = quant_max_value k.
Proof.
  intros Hrun. unfold FindBestQuantization in Hrun.
  apply loop_returned with (img0 := img0) (comparator0 := comparator0) in Hrun;
    [|apply head_init].
  destruct Hrun as (s & fuel' & Hs & Hb).
  pose proof Hs as Hinv. apply at_head_inv in Hinv.
  pose proof Hinv as Hinv'.
  apply body_inv with (SetQuantField := SetQuantField) (Quantize := Quantize)
    (ToSRGB := ToSRGB) (Compare := Compare) (distance := distance)
    (distmap := distmap) (butteraugli_target := butteraugli_target)
    (block_xsize := block_xsize) (block_ysize := block_ysize)
    (fuel := fuel') in Hinv'.
  rewrite Hb in Hinv'. destruct Hinv' as (_ & _ & Hc & Hbud).
  split; [congruence|]. split; [lia|]. split.
  - destruct (body_exit _ _ _ Hb) as [[H _] | H]; auto.
  - apply at_head_quant_max in Hs. destruct Hs as (k & Hk & Hq).
    pose proof (body_quant_max fuel' s k Hk Hq) as H. rewrite Hb in H. exact H.
Qed.
(** A pass that reports no change has changed no cell. *)
Lemma radius_pass_unchanged (s : State) (radius : Z) (qf0 : ImageF)
    (acc : ImageF * bool) :
  (snd acc = false -> fst acc = qf0) ->
  snd (radius_pass s radius acc) = false -> fst (radius_pass s radius acc) = qf0.
Proof.
  intros Hacc. unfold adjust_radius.
  apply (for_range_keeps (fun a : ImageF * bool => snd a = false -> fst a = qf0));
    [|exact Hacc].
  intros y a _ Ha.
  apply (for_range_keeps (fun a : ImageF * bool => snd a = false -> fst a = qf0));
    [|exact Ha].
  intros x [qf ch] _ Hq.
  destruct (FP.geb _ _); [|exact Hq].
  destruct (AdjustQuantVal _ _ _ _) as [[] q]; [discriminate | exact Hq].
Qed.

Lemma radii_unchanged (s : State) (qf0 : ImageF) :
  snd (radii s (qf0, false)) = false -> fst (radii s (qf0, false)) = qf0.
Proof.
  unfold adjust_radii.
  apply (for_range_keeps (fun a : ImageF * bool => snd a = false -> fst a = qf0));
    [|reflexivity].
  intros radius a _ Ha. destruct (snd a) eqn:E; [congruence|].
  apply radius_pass_unchanged. intros _. apply Ha. reflexivity.
Qed.

Lemma inner_keeps (fuel : nat) : forall (s s' : State) (changed changed' : bool),
  inner fuel s changed = Some (s', changed') ->
  img _ _ s' = img _ _ s /\
  comparator _ _ s' = comparator _ _ s /\
  tile_distmap _ _ s' = tile_distmap _ _ s /\
  (changed = false -> changed' = false ->
   quant_field _ _ s' = quant_field _ _ s).
Proof.
  induction fuel as [|fuel IH]; intros s s' changed changed'; cbn [adjust_loop].
  - destruct (_ && _); [discriminate|]. intros [= <- <-]. auto.
  - destruct (negb changed && _) eqn:Ec; [|intros [= <- <-]; auto].
    apply andb_true_iff in Ec. destruct Ec as [Ec _].
    destruct changed; [discriminate|].
    pose proof (radii_unchanged s (quant_field _ _ s)) as Hun.
    destruct (radii s (quant_field _ _ s, false)) as [qf ch]. cbn [fst snd] in Hun.
    destruct (FP.geb _ _).
    + intros [= <- <-]. simpl. auto.
    + destruct ch; cbn [negb].
      * rewrite inner_changed. intros [= <- <-]. simpl.
        split; [reflexivity|]. split; [reflexivity|]. split; [reflexivity|].
        intros _ Hc'. discriminate Hc'.
      * intros H. apply IH in H. simpl in H.
        destruct H as (H1 & H2 & H3 & H4).
        split; [exact H1|]. split; [exact H2|]. split; [exact H3|].
        intros _ Hc'. rewrite H4 by auto. apply Hun. reflexivity.
Qed.

(** X4: when [FindBestQuantization] returns, the quant field it leaves
    is the field of the last [SetQuantField] call, and the image is the
    one that call left, quantized if the call reported a change: no
    adjustment and no scaling is left unapplied. *)
Theorem FindBestQuantization_field_applied (fuel : nat)
    (img0 : CompressedImageT) (comparator0 : ButteraugliComparator)
    (s' : State) :
  run fuel img0 comparator0 = Some s' ->
  exists s,
    head img0 comparator0 s /\
    quant_field _ _ s' = quant_field _ _ s /\
    img _ _ s'
    = (let '(field_changed, img1) :=
         SetQuantField (kInitialQuantDC butteraugli_target)
                       (quant_field _ _ s) (img _ _ s) in
       if field_changed then Quantize img1 else img1).
Proof.
  intros Hrun. unfold FindBestQuantization in Hrun.
  apply loop_returned with (img0 := img0) (comparator0 := comparator0) in Hrun;
    [|apply head_init].
  destruct Hrun as (s & fuel' & Hs & Hb).
  exists s. split; [exact Hs|]. revert Hb.
  unfold loop_body, quantize_and_compare.
  destruct (SetQuantField _ _ _) as [[] img1].
  - destruct (_ <=? _); [intros [= <-]; simpl; auto|].
    destruct (inner fuel' _ false) as [[s2 ch]|] eqn:E; [|discriminate].
    apply inner_keeps in E. simpl in E. destruct E as (E1 & _ & _ & E4).
    unfold outer_step. destruct ch; cbn [negb]; [discriminate|].
    destruct (_ =? _); [|discriminate]. intros [= <-]. simpl. auto.
  - destruct (inner fuel' _ false) as [[s2 ch]|] eqn:E; [|discriminate].
    apply inner_keeps in E. simpl in E. destruct E as (E1 & _ & _ & E4).
    unfold outer_step. destruct ch; cbn [negb]; [discriminate|].
    destruct (_ =? _); [|discriminate]. intros [= <-]. simpl. auto.
Qed.

(** With a quantizer that reports a change on every call, an iteration
    that does not leave the loop has used one comparison of the budget. *)
Lemma body_progress (fuel : nat) (s s1 : State) :
  (forall dc qf im, fst (SetQuantField dc qf im) = true) ->
  body fuel s = Some (inl s1) ->
  butteraugli_iter _ _ s1 = butteraugli_iter _ _ s + 1 /\
  butteraugli_iter _ _ s < max_butteraugli_iters.
Proof.
  intros Hch. unfold loop_body, quantize_and_compare.
  specialize (Hch (kInitialQuantDC butteraugli_target) (quant_field _ _ s)
                  (img _ _ s)).
  destruct (SetQuantField _ _ _) as [ch img1]. cbn [fst] in Hch. subst ch.
  destruct (Z.leb_spec max_butteraugli_iters (butteraugli_iter _ _ s));
    [discriminate|].
  destruct (inner fuel _ false) as [[s2 ch]|] eqn:E; [|discriminate].
  apply inner_counters in E. destruct E as (_ & E & _). simpl in E.
  unfold outer_step. destruct (negb ch); [destruct (_ =? _)|];
    intros [= <-]; simpl; lia.
Qed.

(** X5: with a quantizer whose [SetQuantField] reports a change on
    every call, [FindBestQuantization] returns: every iteration then
    either leaves the loop or uses up one of the
    [max_butteraugli_iters] comparisons. *)
Theorem FindBestQuantization_returns_when_field_changes
    (img0 : CompressedImageT) (comparator0 : ButteraugliComparator)
    (fuel : nat) :
  (forall dc qf im, fst (SetQuantField dc qf im) = true) ->
  (Z.to_nat max_butteraugli_iters + 10 <= fuel)%nat ->
  exists s', run fuel img0 comparator0 = Some s'.
Proof.
  intros Hch Hfuel. unfold FindBestQuantization.
  assert (Hgen : forall (n fuel : nat) (s : State),
            head img0 comparator0 s ->
            (Z.to_nat (max_butteraugli_iters - butteraugli_iter _ _ s) <= n)%nat ->
            (n + 10 <= fuel)%nat ->
            exists s', loop fuel s = Some s').
  { clear fuel Hfuel.
    induction n as [|n IH]; intros fuel s Hs Hn Hfuel;
      (destruct fuel as [|fuel]; [lia|]); cbn [FBQ_loop];
      (assert (Hfuel9 : (9 <= fuel)%nat) by lia);
      (assert (Hends : exists r, body fuel s = Some r)
         by (eapply iteration_ends; [exact Hs | exact Hfuel9]));
      (destruct Hends as ([s1|s1] & Hb); rewrite Hb; [|eauto]);
      pose proof (body_progress _ _ _ Hch Hb) as [Hi Hlt].
    - lia.
    - apply IH; [eapply head_next; eauto | lia | lia]. }
  apply (Hgen (Z.to_nat max_butteraugli_iters)); [apply head_init | | exact Hfuel].
  simpl. lia.
Qed.
Lemma scales_app (t u : list event) : scales (t ++ u) = scales t ++ scales u.
Proof.
  induction t as [|[|o] t IH]; simpl; [reflexivity | exact IH | f_equal; exact IH].
Qed.

(** With a comparator that never answers a distance above the target,
    the [while] loop is not entered. *)
Lemma calm_body (fuel : nat) (s : State) :
  (forall c, FP.gtb (distance c) butteraugli_target = false) ->
  body fuel s = match q_and_c s with
                | inr s1 => Some (inr s1)
                | inl s1 => Some (step s1 false)
                end.
Proof.
  intros Hcalm. unfold loop_body. destruct (q_and_c s) as [s1|s1]; [|reflexivity].
  destruct fuel; cbn [adjust_loop]; rewrite Hcalm; reflexivity.
Qed.

(** Lines 269-273 on a field that holds one value. *)
Lemma scale_field_uniform (s : State) (o : Z) (v : float) :
  uniform_field (quant_field _ _ s) (block_xsize (img _ _ s))
                (block_ysize (img _ _ s)) v ->
  uniform_field (scale_field _ block_xsize block_ysize _ s o)
          (block_xsize (img _ _ s)) (block_ysize (img _ _ s))
          (F32.mul v (array_get kQuantScale o)).
Proof.
  intros (Hwf & Hxs & Hys & Hv). unfold scale_field.
  destruct Hwf as (Hx0 & Hy0 & Hrest).
  assert (Hwf : Img.wf (quant_field _ _ s)) by (split; [|split]; assumption).
  destruct (pointwise_grid S754_nan _ _
              (scale_rewrites_cell (array_get kQuantScale o))
              (quant_field _ _ s) 0 (block_ysize (img _ _ s))
              0 (block_xsize (img _ _ s)) Hwf)
    as (Hw' & Hxs' & Hys' & Hget); try lia.
  split; [exact Hw'|]. split; [congruence|]. split; [congruence|].
  intros y x Hy Hx. unfold RowF. rewrite Hget.
  destruct (Z.leb_spec 0 y); [|lia].
  destruct (Z.ltb_spec y (block_ysize (img _ _ s))); [|lia].
  destruct (Z.leb_spec 0 x); [|lia].
  destruct (Z.ltb_spec x (block_xsize (img _ _ s))); [|lia].
  cbn [andb]. f_equal. apply Hv; assumption.
Qed.

(** X6: with a comparator that never answers a distance above the
    target, and a quantizer that leaves the block counts alone,
    [FindBestQuantization] returns within three iterations: no block is
    adjusted and [quant_max] stays 4; every block of the field holds
    the initial value multiplied by [kQuantScale[1]] and then by
    [kQuantScale[2]], as far as the budget let the loop run; and at most
    three comparisons are made. *)
Theorem FindBestQuantization_within_target (img0 : CompressedImageT)
    (comparator0 : ButteraugliComparator) (fuel : nat) :
  (forall c, FP.gtb (distance c) butteraugli_target = false) ->
  (forall dc qf im,
     block_xsize (snd (SetQuantField dc qf im)) = block_xsize im /\
     block_ysize (snd (SetQuantField dc qf im)) = block_ysize im) ->
  (forall im, block_xsize (Quantize im) = block_xsize im /\
              block_ysize (Quantize im) = block_ysize im) ->
  0 <= block_xsize img0 -> 0 <= block_ysize img0 ->
  (3 <= fuel)%nat ->
  exists s',
    run fuel img0 comparator0 = Some s' /\
    quant_max _ _ s' = F32.of_Z 4 /\
    scales (trace _ _ s') = seqZ 1 (Z.min 2 (outer_iter _ _ s')) /\
    compares (trace _ _ s') <= 3 /\
    xsize (quant_field _ _ s') = block_xsize img0 /\
    ysize (quant_field _ _ s') = block_ysize img0 /\
    forall y x, 0 <= y < block_ysize img0 -> 0 <= x < block_xsize img0 ->
      RowF (quant_field _ _ s') y x
      = scaled_quant (kInitialQuantAC butteraugli_target)
                     (Z.min 2 (outer_iter _ _ s')).
Proof.
  intros Hcalm Hset Hquant Hbx Hby Hfuel. unfold FindBestQuantization.
  set (q0 := kInitialQuantAC butteraugli_target).
  assert (Hgen : forall (fuel : nat) (i : Z) (s : State),
            0 <= i <= 2 -> (Z.to_nat (3 - i) <= fuel)%nat ->
            outer_iter _ _ s = i -> quant_max _ _ s = F32.of_Z 4 ->
            scales (trace _ _ s) = seqZ 1 i -> compares (trace _ _ s) <= i ->
            block_xsize (img _ _ s) = block_xsize img0 ->
            block_ysize (img _ _ s) = block_ysize img0 ->
            uniform_field (quant_field _ _ s) (block_xsize img0) (block_ysize img0)
                    (scaled_quant q0 i) ->
            exists s',
              loop fuel s = Some s' /\
              quant_max _ _ s' = F32.of_Z 4 /\
              scales (trace _ _ s') = seqZ 1 (Z.min 2 (outer_iter _ _ s')) /\
              compares (trace _ _ s') <= 3 /\
              xsize (quant_field _ _ s') = block_xsize img0 /\
              ysize (quant_field _ _ s') = block_ysize img0 /\
              forall y x, 0 <= y < block_ysize img0 -> 0 <= x < block_xsize img0 ->
                RowF (quant_field _ _ s') y x
                = scaled_quant q0 (Z.min 2 (outer_iter _ _ s'))).
  { clear fuel Hfuel.
    induction fuel as [|fuel IH]; intros i s Hi Hf Ho Hq Hsc Hcmp Hix Hiy Hu; [lia|].
    cbn [FBQ_loop]. rewrite (calm_body fuel s Hcalm).
    unfold quantize_and_compare.
    pose proof (Hset (kInitialQuantDC butteraugli_target) (quant_field _ _ s)
                  (img _ _ s)) as [Hsx Hsy].
    destruct (SetQuantField _ _ _) as [ch img1]. cbn [snd] in Hsx, Hsy.
    pose proof (Hquant img1) as [Hqx Hqy].
    assert (Hdone : forall s1 : State,
              outer_iter _ _ s1 = i -> quant_max _ _ s1 = F32.of_Z 4 ->
              quant_field _ _ s1 = quant_field _ _ s ->
              scales (trace _ _ s1) = seqZ 1 i -> compares (trace _ _ s1) <= i + 1 ->
              block_xsize (img _ _ s1) = block_xsize img0 ->
              block_ysize (img _ _ s1) = block_ysize img0 ->
              exists s',
                match step s1 false with
                | inl s' => loop fuel s'
                | inr s' => Some s'
                end = Some s' /\
                quant_max _ _ s' = F32.of_Z 4 /\
                scales (trace _ _ s') = seqZ 1 (Z.min 2 (outer_iter _ _ s')) /\
                compares (trace _ _ s') <= 3 /\
                xsize (quant_field _ _ s') = block_xsize img0 /\
                ysize (quant_field _ _ s') = block_ysize img0 /\
                forall y x, 0 <= y < block_ysize img0 -> 0 <= x < block_xsize img0 ->
                  RowF (quant_field _ _ s') y x
                  = scaled_quant q0 (Z.min 2 (outer_iter _ _ s'))).
    { intros s1 Ho1 Hq1 Hf1 Hsc1 Hcmp1 Hx1 Hy1.
      unfold outer_step. cbn [negb]. rewrite Ho1.
      destruct (Z.eqb_spec (i + 1) kMaxOuterIters) as [E | E];
        unfold kMaxOuterIters in E.
      - eexists. split; [reflexivity|]. cbn [quant_max trace outer_iter quant_field].
        replace (Z.min 2 (i + 1)) with i by lia. rewrite Hf1.
        destruct Hu as (_ & Hux & Huy & Hcells).
        split; [exact Hq1|]. split; [exact Hsc1|]. split; [lia|].
        split; [exact Hux|]. split; [exact Huy | exact Hcells].
      - apply (IH (i + 1)); cbn [quant_max trace outer_iter quant_field img];
          try lia; try assumption.
        + rewrite scales_app, Hsc1. cbn [scales].
          rewrite (seqZ_app 1 i 1) by lia. f_equal.
          unfold seqZ. simpl. f_equal. lia.
        + rewrite compares_app. cbn [compares]. lia.
        + rewrite scaled_quant_next by lia. rewrite <- Hx1, <- Hy1.
          apply scale_field_uniform. rewrite Hx1, Hy1, Hf1. exact Hu. }
    destruct ch.
    - destruct (_ <=? _).
      + eexists. split; [reflexivity|].
        cbn [quant_max trace outer_iter quant_field]. rewrite Ho.
        replace (Z.min 2 i) with i by lia.
        destruct Hu as (_ & Hux & Huy & Hcells).
        split; [exact Hq|]. split; [exact Hsc|]. split; [lia|].
        split; [exact Hux|]. split; [exact Huy | exact Hcells].
      + apply Hdone; cbn [quant_max trace outer_iter quant_field img];
          try assumption; try reflexivity; try congruence.
        * rewrite scales_app, Hsc. cbn [scales]. apply app_nil_r.
        * rewrite compares_app. cbn [compares]. lia.
    - apply Hdone; cbn [quant_max trace outer_iter quant_field img];
        try assumption; try reflexivity; try congruence. lia. }
  apply (Hgen fuel 0); cbn [FBQ_init quant_max trace outer_iter quant_field img];
    try lia; try reflexivity.
  split; [apply wf_fill; assumption|]. split; [reflexivity|]. split; [reflexivity|].
  intros y x Hy Hx. unfold RowF. apply get_fill; assumption.
Qed.

(** X7: one pass of the adjustment over the radii 1 to 4 leaves alone
    every block that has, for none of these radii, a peak of the tile
    distance map within that radius: the adjustment is local to peaks. *)
Theorem adjustment_is_local (s : State) (qf : ImageF) (y x : Z) :
  Img.wf (tile_distmap _ _ s) -> in_image (tile_distmap _ _ s) y x ->
  Img.wf qf ->
  xsize qf = block_xsize (img _ _ s) -> ysize qf = block_ysize (img _ _ s) ->
  (forall r, 1 <= r <= 4 ->
     ~ exists y0 x0,
         peak_near (tile_distmap _ _ s) butteraugli_target r
                   (F64.to_f32 (F64.lit 65 100)) y x y0 x0) ->
  RowF (fst (radii s (qf, false))) y x = RowF qf y x.
Proof.
  intros Htd Hin Hwf Hxs Hys Hfar.
  set (K := fun acc : ImageF * bool =>
              Img.wf (fst acc) /\ xsize (fst acc) = xsize qf /\
              ysize (fst acc) = ysize qf /\
              RowF (fst acc) y x = RowF qf y x).
  assert (HK : K (radii s (qf, false))); [|apply HK].
  unfold adjust_radii.
  apply (for_range_keeps K); [|unfold K; simpl; auto].
  intros r acc Hr Hacc. destruct (snd acc); [exact Hacc|].
  assert (Hcell : RowF (DistToPeakMap (tile_distmap _ _ s) butteraugli_target r
                          (F64.to_f32 (F64.lit 65 100))) y x = F32.of_Z (-1)).
  { destruct (DistToPeakMap_scan (tile_distmap _ _ s) butteraugli_target r
                (F64.to_f32 (F64.lit 65 100)) Htd
                ltac:(change (2 ^ 24) with 16777216; lia))
      as (_ & _ & _ & Hcells).
    destruct (Hcells y x Hin) as [(Hc & _) | (v & _ & _ & (y0 & x0 & _ & Hn & _) & _)];
      [exact Hc|].
    exfalso. apply (Hfar r ltac:(lia)). exists y0, x0. exact Hn. }
  unfold adjust_radius.
  apply (for_range_keeps K); [|exact Hacc].
  intros y' acc1 Hy' Hacc1.
  apply (for_range_keeps K); [|exact Hacc1].
  intros x' [qf' ch] Hx' (Hw' & Hxs' & Hys' & Hget).
  cbn [fst] in Hw', Hxs', Hys', Hget.
  destruct (FP.geb _ _) eqn:Hge; [|unfold K; simpl; auto].
  destruct (AdjustQuantVal _ _ _ _) as [[] q]; [|unfold K; simpl; auto].
  unfold K. cbn [fst].
  split; [apply wf_set, Hw'|].
  destruct (set_sizes qf' y' x' q) as [E1 E2].
  split; [congruence|]. split; [congruence|].
  unfold RowF. rewrite get_set;
    [|exact Hw' | unfold in_image; rewrite Hxs', Hys', Hxs, Hys; lia].
  destruct (Z.eqb_spec y y') as [-> | Hne]; [|exact Hget].
  destruct (Z.eqb_spec x x') as [-> | Hne]; [|exact Hget].
  rewrite Hcell in Hge. discriminate Hge.
Qed.
End RateControlRuns.

Lemma CalmRun_returns : CalmRun.run 3 = Some CalmRun.final.
Proof. vm_compute. reflexivity. Qed.

Lemma FindBestQuantization_on_return_witness :
  compares (trace _ _ CalmRun.final) = butteraugli_iter _ _ CalmRun.final /\
  0 <= butteraugli_iter _ _ CalmRun.final <= Z.max 0 StuckLoop.max_iters /\
  (outer_iter _ _ CalmRun.final = kMaxOuterIters \/
   StuckLoop.max_iters <= butteraugli_iter _ _ CalmRun.final) /\
  exists k, (k <= 8)%nat /\ quant_max _ _ CalmRun.final = quant_max_value k.
Proof.
  pose proof CalmRun_returns as H. unfold CalmRun.run in H.
  apply FindBestQuantization_on_return in H. exact H.
Defined.

Lemma FindBestQuantization_field_applied_witness :
  exists s : FBQ StuckLoop.CompressedImageT bool,
    quant_field _ _ CalmRun.final = quant_field _ _ s /\
    img _ _ CalmRun.final
    = (let '(field_changed, img1) :=
         StuckLoop.SetQuantField (kInitialQuantDC StuckLoop.target)
                                 (quant_field _ _ s) (img _ _ s) in
       if field_changed then img1 else img1).
Proof.
  pose proof CalmRun_returns as H. unfold CalmRun.run in H.
  apply FindBestQuantization_field_applied in H.
  destruct H as (s & _ & Hq & Hi).
  exists s. split; [exact Hq | exact Hi].
Defined.

Lemma FindBestQuantization_returns_when_field_changes_witness :
  exists s', EagerLoop.run 15 = Some s'.
Proof.
  apply FindBestQuantization_returns_when_field_changes.
  - intros dc qf im. reflexivity.
  - unfold StuckLoop.max_iters. simpl. lia.
Defined.

Lemma FindBestQuantization_within_target_witness :
  exists s',
    CalmRun.run 3 = Some s' /\
    quant_max _ _ s' = F32.of_Z 4 /\
    scales (trace _ _ s') = seqZ 1 (Z.min 2 (outer_iter _ _ s')) /\
    compares (trace _ _ s') <= 3 /\
    RowF (quant_field _ _ s') 0 1
    = scaled_quant (kInitialQuantAC StuckLoop.target) (Z.min 2 (outer_iter _ _ s')).
Proof.
  destruct (FindBestQuantization_within_target StuckLoop.CompressedImageT
              (fun _ => 2) (fun _ => 1) StuckLoop.SetQuantField (fun img => img)
              unit (fun _ => tt) bool (fun _ _ => true) (fun _ => F32.of_Z 0)
              StuckLoop.distmap_of StuckLoop.target StuckLoop.max_iters
              StuckLoop.img0 false 3)
    as (s' & E & H1 & H2 & H3 & _ & _ & H4);
    [intros c; reflexivity | intros; split; reflexivity
     | intros; split; reflexivity | lia | lia | lia |].
  exists s'. split; [exact E|]. split; [exact H1|]. split; [exact H2|].
  split; [exact H3|]. apply H4; lia.
Defined.

Lemma FarBlock_tiles_wf : Img.wf FarBlock.tiles.
Proof.
  unfold Img.wf, FarBlock.tiles. simpl.
  repeat split; try lia. repeat constructor.
Qed.

Lemma FarBlock_far (r : Z) :
  1 <= r <= 4 ->
  ~ exists y0 x0,
      peak_near FarBlock.tiles (F32.of_Z 1) r (F64.to_f32 (F64.lit 65 100))
                0 6 y0 x0.
Proof.
  intros Hr (y0 & x0 & ((Hy0 & Hx0) & Hp & Hc)).
  change (ysize FarBlock.tiles) with 1 in Hy0.
  change (xsize FarBlock.tiles) with 7 in Hx0.
  unfold cheb in Hc.
  assert (y0 = 0) by lia. subst y0.
  assert (Hx : x0 = 2 \/ x0 = 3 \/ x0 = 4 \/ x0 = 5 \/ x0 = 6) by lia.
  assert (Hrr : r = 1 \/ r = 2 \/ r = 3 \/ r = 4) by lia.
  destruct Hrr as [-> | [-> | [-> | ->]]];
    destruct Hx as [-> | [-> | [-> | [-> | ->]]]];
    vm_compute in Hp; discriminate Hp.
Qed.

Lemma adjustment_is_local_witness :
  RowF (fst FarBlock.pass) 0 6 = RowF FarBlock.field 0 6 /\
  RowF (fst FarBlock.pass) 0 0 <> RowF FarBlock.field 0 0.
Proof.
  split.
  - apply (adjustment_is_local unit (fun _ => 7) (fun _ => 1) unit
             (F32.of_Z 1) FarBlock.state FarBlock.field 0 6).
    + exact FarBlock_tiles_wf.
    + unfold in_image. simpl. lia.
    + apply wf_fill; lia.
    + reflexivity.
    + reflexivity.
    + exact FarBlock_far.
  - vm_compute. discriminate.
Defined.

(** ** The grid search on arbitrary evaluators *)

Section OptimizeRuns.
Variable Eval : Type.
Variable eval_call : Z -> Eval -> Z * Eval.
Variable SetVal : Z -> Eval -> Eval.

(** X8: whatever the evaluator does, whenever [Optimize] returns it
    returns the incumbent with its objective untouched or a value of
    [[minval, maxval]] whose recorded objective is strictly below the
    incumbent's; [*best_objval] never goes up, and the value returned is
    the one applied by the last [SetVal].  It does return when no [int]
    operation can overflow: for [INT_MIN + 16 <= minval],
    [maxval <= INT_MAX - 16] and an incumbent within these bounds. *)
Theorem Optimize_keeps_or_improves (ev : Eval)
    (minval maxval best_val best_objval : Z) :
  (int_search_range minval maxval best_val ->
   exists r,
     Optimize Eval eval_call SetVal ev minval maxval best_val best_objval
     = Some r) /\
  (forall r,
     Optimize Eval eval_call SetVal ev minval maxval best_val best_objval
     = Some r ->
     kept_or_improved minval maxval best_val best_objval r /\
     snd (fst r) <= best_objval /\
     exists ev', snd r = SetVal (fst (fst r)) ev').
Proof.
  split.
  - intros Hr. eexists. apply Optimize_defined, Hr.
  - intros r Hsome. apply Optimize_ideal in Hsome. subst r.
    apply ideal_Optimize_kept.
Qed.

Local Abbreviation ccall := (counted_call eval_call).
Local Abbreviation cset := (counted_SetVal SetVal).

Lemma try_val_counted (val : Z) (s : search (Eval * Z)) :
  uncounted (try_val (Eval * Z) ccall val s) = try_val Eval eval_call val (uncounted s) /\
  calls (try_val (Eval * Z) ccall val s) = calls s + 1.
Proof.
  destruct s as [[bv bo] [ev n]]. unfold try_val, counted_call, uncounted, calls.
  cbn [fst snd]. destruct (eval_call val ev) as [objval ev'].
  destruct (objval <? bo); cbn [fst snd]; auto.
Qed.

Lemma sweep_from_counted (resolution end_ : Z) (fuel : nat) :
  1 <= resolution ->
  forall (val : Z) (s : search (Eval * Z)),
    (Z.to_nat (end_ - val + 1) <= fuel)%nat ->
    uncounted (ideal_sweep_from (Eval * Z) ccall fuel resolution end_ val s)
    = ideal_sweep_from Eval eval_call fuel resolution end_ val (uncounted s) /\
    calls (ideal_sweep_from (Eval * Z) ccall fuel resolution end_ val s)
    = calls s + Z.max 0 ((end_ - val) / resolution + 1).
Proof.
  intros Hres. induction fuel as [|fuel IH]; intros val s Hfuel; cbn [ideal_sweep_from].
  - split; [reflexivity|].
    assert ((end_ - val) / resolution < 0)
      by (apply Z.div_lt_upper_bound; lia). lia.
  - destruct (Z.leb_spec val end_) as [Hle | Hgt].
    + destruct (try_val_counted val s) as [Hu Hc].
      destruct (IH (val + resolution) (try_val (Eval * Z) ccall val s) ltac:(lia))
        as [Hu' Hc'].
      rewrite Hu', Hu, Hc', Hc. split; [reflexivity|].
      replace (end_ - (val + resolution))
        with (end_ - val + (-1) * resolution) by lia.
      rewrite Z.div_add by lia.
      assert (0 <= (end_ - val) / resolution) by (apply Z.div_pos; lia).
      lia.
    + split; [reflexivity|].
      assert ((end_ - val) / resolution < 0)
        by (apply Z.div_lt_upper_bound; lia). lia.
Qed.

Lemma refine_counted (minval maxval resolution : Z)
    (acc : Z * Z * search (Eval * Z)) :
  1 <= resolution ->
  let acc' := ideal_refine (Eval * Z) ccall minval maxval acc resolution in
  (fst (fst acc'), snd (fst acc'), uncounted (snd acc'))
  = ideal_refine Eval eval_call minval maxval
           (fst (fst acc), snd (fst acc), uncounted (snd acc)) resolution /\
  calls (snd acc')
  = calls (snd acc)
    + Z.max 0 ((snd (fst acc) - fst (fst acc)) / resolution + 1) /\
  snd (fst acc') - fst (fst acc') <= 2 * resolution - 2.
Proof.
  destruct acc as [[start end_] s]. cbn [fst snd]. intros Hres. unfold ideal_refine.
  unfold ideal_sweep.
  destruct (sweep_from_counted resolution end_ (Z.to_nat (end_ - start + 1))
              Hres start s ltac:(lia)) as [Hu Hc].
  cbn [fst snd]. rewrite <- Hu. split; [|split; [exact Hc | lia]].
  unfold uncounted. cbn [fst snd]. reflexivity.
Qed.

(** The number of evaluations of the ideal search. *)
Lemma ideal_Optimize_evaluations (ev : Eval)
    (minval maxval best_val best_objval : Z) :
  minval <= maxval ->
  let r := ideal_Optimize (Eval * Z) ccall cset (ev, 0) minval maxval best_val
                    best_objval in
  uncounted r
  = ideal_Optimize Eval eval_call SetVal ev minval maxval best_val best_objval /\
  (maxval - minval) / 16 + 1 <= calls r <= (maxval - minval) / 16 + 16.
Proof.
  intros Hle r. subst r. unfold ideal_Optimize, resolutions. cbn [foldl].
  set (a0 := (minval, maxval, (best_val, best_objval, (ev, 0)))).
  destruct (refine_counted minval maxval 16 a0 ltac:(lia)) as (U1 & N1 & W1).
  set (a1 := ideal_refine (Eval * Z) ccall minval maxval a0 16) in *.
  destruct (refine_counted minval maxval 4 a1 ltac:(lia)) as (U2 & N2 & W2).
  set (a2 := ideal_refine (Eval * Z) ccall minval maxval a1 4) in *.
  destruct (refine_counted minval maxval 1 a2 ltac:(lia)) as (U3 & N3 & W3).
  set (a3 := ideal_refine (Eval * Z) ccall minval maxval a2 1) in *.
  unfold a0 in U1, N1. cbn [fst snd] in U1, N1.
  unfold uncounted at 2 in U1. unfold calls at 2 in N1. cbn [fst snd] in U1, N1.
  set (b1 := ideal_refine Eval eval_call minval maxval _ 16).
  assert (E1 : b1 = (fst (fst a1), snd (fst a1), uncounted (snd a1)))
    by (symmetry; exact U1).
  clearbody b1. subst b1.
  set (b2 := ideal_refine Eval eval_call minval maxval _ 4).
  assert (E2 : b2 = (fst (fst a2), snd (fst a2), uncounted (snd a2)))
    by (symmetry; exact U2).
  clearbody b2. subst b2.
  set (b3 := ideal_refine Eval eval_call minval maxval _ 1).
  assert (E3 : b3 = (fst (fst a3), snd (fst a3), uncounted (snd a3)))
    by (symmetry; exact U3).
  clearbody b3. subst b3.
  assert (H0 : 0 <= (maxval - minval) / 16) by (apply Z.div_pos; lia).
  assert (H4 : (snd (fst a1) - fst (fst a1)) / 4 <= 7).
  { change 7 with (30 / 4). apply Z.div_le_mono; lia. }
  assert (H1 : (snd (fst a2) - fst (fst a2)) / 1 <= 6).
  { rewrite Z.div_1_r. lia. }
  destruct a3 as [[st en] [[bv bo] [ev3 n3]]].
  unfold uncounted, calls, counted_SetVal in *. cbn [fst snd] in *.
  split; [reflexivity | lia].
Qed.

(** X9: on an interval with [minval <= maxval] on which no [int]
    operation can overflow ([INT_MIN + 16 <= minval],
    [maxval <= INT_MAX - 16], incumbent within these bounds), [Optimize]
    returns after calling the evaluator's [operator()] at least
    [(maxval - minval) / 16 + 1] and at most [(maxval - minval) / 16 + 16]
    times (the whole first sweep, at most 8 values at resolution 4 and at
    most 7 at resolution 1), whatever the objective; counting the calls
    does not change what it returns. *)
Theorem Optimize_evaluations (ev : Eval)
    (minval maxval best_val best_objval : Z) :
  minval <= maxval -> int_search_range minval maxval best_val ->
  exists r,
    Optimize (Eval * Z) ccall cset (ev, 0) minval maxval best_val best_objval
    = Some r /\
    Optimize Eval eval_call SetVal ev minval maxval best_val best_objval
    = Some (uncounted r) /\
    (maxval - minval) / 16 + 1 <= calls r <= (maxval - minval) / 16 + 16.
Proof.
  intros Hle Hr.
  pose proof (ideal_Optimize_evaluations ev minval maxval best_val best_objval
                Hle) as H.
  cbv zeta in H. destruct H as [Hu Hc].
  eexists. split; [apply Optimize_defined, Hr|].
  split; [|exact Hc]. rewrite Hu. apply Optimize_defined, Hr.
Qed.
End OptimizeRuns.

Lemma Optimize_keeps_or_improves_witness :
  exists r,
    ToySearch.run ToySearch.dip 0 255 120 = Some r /\
    snd (fst r) <= ToySearch.dip 120.
Proof.
  destruct (Optimize_keeps_or_improves unit
              (fun v ev => (ToySearch.dip v, ev)) (fun _ ev => ev) tt
              0 255 120 (ToySearch.dip 120)) as [Hdef Hres].
  destruct Hdef as (r & Hr);
    [unfold int_search_range, INT_MIN, INT_MAX; lia|].
  exists r. split; [exact Hr|]. apply (Hres r Hr).
Defined.

Lemma Optimize_evaluations_witness :
  exists r,
    Optimize (unit * Z)
      (counted_call (fun v (ev : unit) => (ToySearch.vee v, ev)))
      (counted_SetVal (fun _ (ev : unit) => ev)) (tt, 0)
      0 255 120 (ToySearch.vee 120) = Some r /\
    16 <= calls r <= 31.
Proof.
  destruct (Optimize_evaluations unit
              (fun v (ev : unit) => (ToySearch.vee v, ev))
              (fun _ (ev : unit) => ev) tt 0 255 120 (ToySearch.vee 120))
    as (r & Hr & _ & Hc);
    [lia | unfold int_search_range, INT_MIN, INT_MAX; lia |].
  exists r. split; [exact Hr | exact Hc].
Defined.

Section OptimizeGrid.
Variable Eval : Type.
Variable eval_call : Z -> Eval -> Z * Eval.
Variable SetVal : Z -> Eval -> Eval.
Variable f : Z -> Z.
Hypothesis eval_objective : forall v ev, fst (eval_call v ev) = f v.

(** The ideal search is no worse than the first grid. *)
Lemma ideal_Optimize_beats_coarse_grid (ev : Eval)
    (minval maxval best_val : Z) :
  let r := ideal_Optimize Eval eval_call SetVal ev minval maxval best_val (f best_val) in
  snd (fst r) = f (fst (fst r)) /\
  f (fst (fst r)) <= f best_val /\
  forall k, 0 <= k -> minval + k * 16 <= maxval ->
            f (fst (fst r)) <= f (minval + k * 16).
Proof.
  intros r. subst r. unfold ideal_Optimize, resolutions. cbn [foldl ideal_refine].
  pose proof (sweep_spec Eval eval_call f eval_objective 16 minval maxval
                (best_val, f best_val, ev) ltac:(lia) eq_refl) as H16.
  set (s1 := ideal_sweep Eval eval_call 16 minval maxval (best_val, f best_val, ev)) in *.
  destruct H16 as (A1 & _ & A3 & A4). cbn [fst snd] in A3.
  match goal with |- context [ideal_sweep Eval eval_call 4 ?a ?b s1] =>
    pose proof (sweep_spec Eval eval_call f eval_objective 4 a b s1
                  ltac:(lia) A1) as H4;
    set (s2 := ideal_sweep Eval eval_call 4 a b s1) in *
  end.
  destruct H4 as (B1 & _ & B3 & _).
  match goal with |- context [ideal_sweep Eval eval_call 1 ?a ?b s2] =>
    pose proof (sweep_spec Eval eval_call f eval_objective 1 a b s2
                  ltac:(lia) B1) as H1;
    set (s3 := ideal_sweep Eval eval_call 1 a b s2) in *
  end.
  destruct H1 as (C1 & _ & C3 & _).
  destruct s3 as [[bv3 bo3] ev3]. cbn [fst snd] in *.
  split; [exact C1|]. split; [lia|].
  intros k Hk Hin. specialize (A4 k Hk Hin). lia.
Qed.

(** X10: for an evaluator whose objective [f] does not depend on its
    state, an incumbent recorded with its own objective, and an interval
    on which no [int] operation can overflow ([INT_MIN + 16 <= minval],
    [maxval <= INT_MAX - 16], incumbent within these bounds), [Optimize]
    returns a value whose objective is the one left in [*best_objval], is
    not above the incumbent's, and is not above the objective of any
    point [minval + 16 k] of the first grid within [[minval, maxval]],
    whatever the shape of [f]. *)
Theorem Optimize_beats_coarse_grid (ev : Eval) (minval maxval best_val : Z) :
  int_search_range minval maxval best_val ->
  exists r,
    Optimize Eval eval_call SetVal ev minval maxval best_val (f best_val)
    = Some r /\
    snd (fst r) = f (fst (fst r)) /\
    f (fst (fst r)) <= f best_val /\
    forall k, 0 <= k -> minval + k * 16 <= maxval ->
              f (fst (fst r)) <= f (minval + k * 16).
Proof.
  intros Hr. eexists. split; [apply Optimize_defined, Hr|].
  exact (ideal_Optimize_beats_coarse_grid ev minval maxval best_val).
Qed.
End OptimizeGrid.

Lemma Optimize_beats_coarse_grid_witness :
  exists r,
    ToySearch.run ToySearch.dip 0 255 120 = Some r /\
    ToySearch.dip (fst (fst r)) <= ToySearch.dip 32.
Proof.
  destruct (Optimize_beats_coarse_grid unit
              (fun v ev => (ToySearch.dip v, ev)) (fun _ ev => ev)
              ToySearch.dip (fun _ _ => eq_refl) tt 0 255 120)
    as (r & Hr & _ & _ & Hgrid);
    [unfold int_search_range, INT_MIN, INT_MAX; lia|].
  exists r. split; [exact Hr|]. apply (Hgrid 2); lia.
Defined.

(** ** The target-size controller: attempts *)

Section TargetSizeRuns.
Variable CompressedImageT : Type.
Variable GetQuantField : CompressedImageT -> float * ImageF.
Variable SetQuantField :
  float -> ImageF -> CompressedImageT -> bool * CompressedImageT.
Variable Quantize : CompressedImageT -> CompressedImageT.
Variable Encode : CompressedImageT -> list Byte.byte.
Variable ScaleImage : float -> ImageF -> ImageF.
Variable target_size : Z.

Local Abbreviation halve :=
  (halving CompressedImageT SetQuantField Quantize Encode ScaleImage target_size).
Local Abbreviation bisect :=
  (bisection CompressedImageT SetQuantField Quantize Encode ScaleImage
     target_size).
Local Abbreviation scale_map :=
  (ScaleQuantizationMap CompressedImageT SetQuantField Quantize ScaleImage).

Lemma halving_attempts (n : nat) (dc : float) (ac : ImageF) :
  forall s : TS CompressedImageT,
    exists new,
      attempts _ (halve n dc ac s) = attempts _ s ++ new /\
      (length new <= n)%nat /\
      (n <> 0%nat -> last new = Some (candidate _ (halve n dc ac s))) /\
      (compressed _ (halve n dc ac s) = compressed _ s \/
       last new = Some (compressed _ (halve n dc ac s))).
Proof.
  induction n as [|n IH]; intros s.
  - exists []. simpl. rewrite app_nil_r.
    split; [reflexivity|]. split; [lia|]. split; [congruence | left; reflexivity].
  - cbn [halving].
    destruct (scale_map dc ac (scale_good _ s) (ts_img _ s)) as [changed img1].
    destruct (Z.leb_spec (size (Encode img1)) target_size) as [Hfit | Hno].
    + exists [Encode img1]. cbn [attempts candidate compressed].
      split; [reflexivity|]. split; [simpl; lia|].
      split; [intros _; reflexivity | right; reflexivity].
    + match goal with |- context [halving _ _ _ _ _ _ n dc ac ?s1] =>
        destruct (IH s1) as (new & Ha & Hlen & Hlast & Hcomp);
        set (s' := halving _ _ _ _ _ _ n dc ac s1) in *
      end.
      cbn [attempts candidate compressed] in Ha, Hcomp.
      exists (Encode img1 :: new). rewrite Ha, <- app_assoc.
      split; [reflexivity|]. split; [simpl; lia|].
      destruct n as [|n].
      * simpl in s'. subst s'. destruct new; [|simpl in Hlen; lia].
        simpl. split; [reflexivity | left; reflexivity].
      * specialize (Hlast ltac:(lia)).
        assert (Hl : last (Encode img1 :: new) = last new).
        { destruct new as [|a new]; [discriminate | reflexivity]. }
        rewrite Hl. split; [intros _; exact Hlast|].
        destruct Hcomp as [Hc | Hc]; [left; exact Hc | right; exact Hc].
Qed.

Lemma bisection_attempts (n : nat) (dc : float) (ac : ImageF) :
  forall s : TS CompressedImageT,
    exists new,
      attempts _ (bisect n dc ac s) = attempts _ s ++ new /\
      (length new <= n)%nat /\
      (compressed _ (bisect n dc ac s) = compressed _ s \/
       compressed _ (bisect n dc ac s) ∈ new).
Proof.
  induction n as [|n IH]; intros s.
  - exists []. simpl. rewrite app_nil_r.
    split; [reflexivity|]. split; [lia | left; reflexivity].
  - cbn [bisection].
    destruct (scale_map dc ac _ (ts_img _ s)) as [[] img1]; cbn [negb].
    + destruct (Z.leb_spec (size (Encode img1)) target_size) as [Hfit | Hno].
      * match goal with |- context [bisection _ _ _ _ _ _ n dc ac ?s1] =>
          destruct (IH s1) as (new & Ha & Hlen & Hcomp);
          set (s' := bisection _ _ _ _ _ _ n dc ac s1) in *
        end.
        cbn [attempts compressed] in Ha, Hcomp.
        exists (Encode img1 :: new). rewrite Ha, <- app_assoc.
        split; [reflexivity|]. split; [simpl; lia|]. right.
        destruct Hcomp as [-> | Hin]; [left | right; exact Hin].
      * match goal with |- context [bisection _ _ _ _ _ _ n dc ac ?s1] =>
          destruct (IH s1) as (new & Ha & Hlen & Hcomp);
          set (s' := bisection _ _ _ _ _ _ n dc ac s1) in *
        end.
        cbn [attempts compressed] in Ha, Hcomp.
        exists (Encode img1 :: new). rewrite Ha, <- app_assoc.
        split; [reflexivity|]. split; [simpl; lia|].
        destruct Hcomp as [Hc | Hin]; [left; exact Hc | right; right; exact Hin].
    + exists []. cbn [attempts compressed]. rewrite app_nil_r.
      split; [reflexivity|]. split; [simpl; lia | left; reflexivity].
Qed.

Lemma last_elem_of {A : Type} (l : list A) (a : A) : last l = Some a -> a ∈ l.
Proof.
  intros H. apply last_Some in H as [l' ->]. apply elem_of_app. right. left.
Qed.

(** X11: the string [CompressToTargetSize] returns is always one of
    the candidates it encoded, never anything else, and it encodes at
    least 1 and at most 26 candidates: up to 10 while halving and up to 16
    while bisecting. *)
Theorem CompressToTargetSize_returns_an_attempt (img : CompressedImageT) :
  let r := CompressToTargetSize CompressedImageT GetQuantField SetQuantField
             Quantize Encode ScaleImage target_size img in
  fst r ∈ attempts _ (snd r) /\
  (1 <= length (attempts _ (snd r)) <= 26)%nat.
Proof.
  unfold CompressToTargetSize.
  destruct (GetQuantField img) as [quant_dc quant_ac].
  set (s0 := mkTS _ img (F32.of_Z 1) (F32.of_Z 1) [] [] []).
  destruct (halving_attempts 10 quant_dc quant_ac s0)
    as (new & Ha & Hlen & Hlast & Hcomp).
  set (s1 := halve 10 quant_dc quant_ac s0) in *.
  specialize (Hlast ltac:(lia)). cbn [attempts compressed s0 app] in Ha, Hcomp.
  assert (Hne : (1 <= length new)%nat).
  { destruct new; [discriminate | simpl; lia]. }
  destruct (empty (compressed _ s1)) eqn:He; cbn [fst snd].
  { rewrite Ha. split; [apply last_elem_of, Hlast | lia]. }
  assert (Hc1 : compressed _ s1 ∈ new).
  { destruct Hcomp as [Hc | Hc]; [rewrite Hc in He; discriminate|].
    apply last_elem_of, Hc. }
  destruct (FP.eqb _ _); cbn [fst snd].
  { rewrite Ha. split; [exact Hc1 | lia]. }
  destruct (bisection_attempts 16 quant_dc quant_ac s1)
    as (new2 & Ha2 & Hlen2 & Hcomp2).
  rewrite Ha2, Ha, length_app. split; [|lia].
  apply elem_of_app. destruct Hcomp2 as [-> | Hin]; [left; exact Hc1 | right; exact Hin].
Qed.

(** X12: when the first candidate, the encoding at scale 1, already
    fits the target, [CompressToTargetSize] returns it after this single
    attempt: it does not search for a finer quantization. *)
Theorem CompressToTargetSize_first_fit (img : CompressedImageT) :
  let img1 := snd (scale_map (fst (GetQuantField img)) (snd (GetQuantField img))
                             (F32.of_Z 1) img) in
  size (Encode img1) <= target_size ->
  let r := CompressToTargetSize CompressedImageT GetQuantField SetQuantField
             Quantize Encode ScaleImage target_size img in
  fst r = Encode img1 /\ attempts _ (snd r) = [Encode img1] /\
  ts_img _ (snd r) = img1.
Proof.
  intros img1 Hfit. unfold CompressToTargetSize. subst img1. revert Hfit.
  destruct (GetQuantField img) as [quant_dc quant_ac]. cbn [fst snd].
  change 10%nat with (S 9). generalize 9%nat. intros n.
  cbn [halving scale_good ts_img].
  destruct (scale_map quant_dc quant_ac (F32.of_Z 1) img) as [changed img1].
  cbn [snd]. intros Hfit.
  destruct (Z.leb_spec (size (Encode img1)) target_size); [|lia].
  cbn [compressed candidate scale_good attempts ts_img app].
  destruct (empty (Encode img1)); cbn [fst snd attempts ts_img]; [auto|].
  change (FP.eqb (f32_to_f64 (F32.of_Z 1)) (F64.of_Z 1)) with true.
  cbn [fst snd attempts ts_img compressed]. auto.
Qed.
End TargetSizeRuns.

Lemma CompressToTargetSize_first_fit_witness :
  fst (ToySize.run 5 (F32.of_Z 1)) = replicate 5 Byte.x00 /\
  length (attempts _ (snd (ToySize.run 5 (F32.of_Z 1)))) = 1%nat.
Proof.
  destruct (CompressToTargetSize_first_fit float (fun img => (img, mkImage 0 0 []))
              (fun dc _ img => (true, dc)) (fun img => img) ToySize.Encode
              (fun _ qf => qf) 5 (F32.of_Z 1)) as (H1 & H2 & _).
  - vm_compute. discriminate.
  - unfold ToySize.run. rewrite H1, H2. split; vm_compute; reflexivity.
Defined.

(** ** The encoder entry point and the alpha channel *)

Section PixelsToPikProps.
Variable Image : Type.
Variable image_xsize image_ysize : Image -> Z.
Variable Image3F : Type.
Variable opsin_xsize opsin_ysize : Image3F -> Z.
Variable CompressToButteraugliDistance :
  Image3F -> CompressParams -> option (list Byte.byte).
Variable CompressToTargetSize_ :
  Image3F -> CompressParams -> Z -> option (list Byte.byte).
Variable CompressUniformQuant : Image3F -> float -> option (list Byte.byte).
Variable CompressFast : Image3F -> CompressParams -> option (list Byte.byte).
Variable StoreHeader : Header -> option (list Byte.byte).
Variable OpsinDynamicsImage : Image -> Image3F.
Variable AlphaPlane : Type.
Variable GetAlpha : Image -> option AlphaPlane.
Variable AlphaPlaneToPik :
  CompressParams -> AlphaPlane -> Z -> list Byte.byte -> option (list Byte.byte).

Local Abbreviation pixels_to_pik :=
  (PixelsToPikT Image image_xsize image_ysize Image3F opsin_xsize opsin_ysize
     CompressToButteraugliDistance CompressToTargetSize_ CompressUniformQuant
     CompressFast StoreHeader OpsinDynamicsImage).
Local Abbreviation opsin_to_pik :=
  (OpsinToPik Image3F opsin_xsize opsin_ysize CompressToButteraugliDistance
     CompressToTargetSize_ CompressUniformQuant CompressFast StoreHeader).
Local Abbreviation alpha_meta :=
  (AlphaToPik_MetaImage Image AlphaPlane GetAlpha AlphaPlaneToPik).
Local Abbreviation alpha_image3 := (AlphaToPik_Image3 Image).

(** X13: [PixelsToPikT] succeeds exactly when the image has pixels,
    [OpsinToPik] succeeds on its opsin image and, if
    [params.alpha_channel] is set, [AlphaToPik] succeeds on what was
    compressed so far; without the flag the bytes are those of
    [OpsinToPik].  So with [alpha_channel] set no plain [Image3] is ever
    encoded, and no [MetaImage] without an alpha plane. *)
Theorem PixelsToPikT_success
    (AlphaToPik : CompressParams -> Image -> list Byte.byte
                  -> status (list Byte.byte))
    (params : CompressParams) (image : Image) :
  (forall c,
     pixels_to_pik AlphaToPik params image = Some (Ok c) <->
     image_xsize image <> 0 /\ image_ysize image <> 0 /\
     exists c0,
       snd (opsin_to_pik params (OpsinDynamicsImage image)) = Some (Ok c0) /\
       if alpha_channel params then AlphaToPik params image c0 = Ok c
       else c = c0) /\
  (alpha_channel params = true ->
   not_ok (pixels_to_pik alpha_image3 params image) /\
   (GetAlpha image = None -> not_ok (pixels_to_pik alpha_meta params image))).
Proof.
  assert (Hiff : forall A c,
     pixels_to_pik A params image = Some (Ok c) <->
     image_xsize image <> 0 /\ image_ysize image <> 0 /\
     exists c0,
       snd (opsin_to_pik params (OpsinDynamicsImage image)) = Some (Ok c0) /\
       if alpha_channel params then A params image c0 = Ok c else c = c0).
  { intros A c. unfold PixelsToPikT.
    destruct (Z.eqb_spec (image_xsize image) 0) as [Ex | Ex]; cbn [orb].
    { split; [discriminate | intros (H & _); contradiction]. }
    destruct (Z.eqb_spec (image_ysize image) 0) as [Ey | Ey].
    { split; [discriminate | intros (_ & H & _); contradiction]. }
    destruct (snd (opsin_to_pik params (OpsinDynamicsImage image)))
      as [[c0 | msg |]|].
    - destruct (alpha_channel params).
      + destruct (A params image c0) as [c' | msg |] eqn:EA.
        * split.
          -- intros [= <-]. split; [exact Ex|]. split; [exact Ey|].
             exists c0. auto.
          -- intros (_ & _ & c1 & [= <-] & H). rewrite EA in H.
             injection H as <-. reflexivity.
        * split; [discriminate|].
          intros (_ & _ & c1 & [= <-] & H). rewrite EA in H. discriminate H.
        * split; [discriminate|].
          intros (_ & _ & c1 & [= <-] & H). rewrite EA in H. discriminate H.
      + split.
        * intros [= <-]. split; [exact Ex|]. split; [exact Ey|]. exists c0. auto.
        * intros (_ & _ & c1 & [= <-] & ->). reflexivity.
    - split; [discriminate | intros (_ & _ & c1 & H & _); discriminate H].
    - split; [discriminate | intros (_ & _ & c1 & H & _); discriminate H].
    - split; [discriminate | intros (_ & _ & c1 & H & _); discriminate H]. }
  split; [apply Hiff|]. intros Halpha. split.
  - destruct (pixels_to_pik alpha_image3 params image) as [[c | msg |]|] eqn:E;
      try exact I.
    apply Hiff in E. destruct E as (_ & _ & c0 & _ & H).
    rewrite Halpha in H. discriminate H.
  - intros Hnone.
    destruct (pixels_to_pik alpha_meta params image) as [[c | msg |]|] eqn:E;
      try exact I.
    apply Hiff in E. destruct E as (_ & _ & c0 & _ & H).
    rewrite Halpha in H. unfold AlphaToPik_MetaImage in H. rewrite Hnone in H.
    discriminate H.
Qed.
End PixelsToPikProps.

Lemma PixelsToPikT_success_witness :
  not_ok (ToyPixels.run false ToyPixels.quant_alpha (3, 5, true)) /\
  not_ok (ToyPixels.run true ToyPixels.quant_alpha (3, 5, false)) /\
  ToyPixels.run true ToyPixels.quant_alpha (3, 5, true)
  = Some (Ok [Byte.x00; Byte.x00; Byte.x03; Byte.xff]).
Proof.
  split; [|split].
  - apply (proj2 (PixelsToPikT_success _ _ _ _ _ _ _ _ _ _ _ _ unit
                    (fun i : ToyPixels.Image => if snd i then Some tt else None)
                    (fun _ _ _ c => Some (c ++ [Byte.xff]))
                    (AlphaToPik_Image3 ToyPixels.Image)
                    ToyPixels.quant_alpha (3, 5, true)) eq_refl).
  - apply (proj2 (PixelsToPikT_success _ _ _ _ _ _ _ _ _ _ _ _ unit
                    (fun i : ToyPixels.Image => if snd i then Some tt else None)
                    (fun _ _ _ c => Some (c ++ [Byte.xff]))
                    (AlphaToPik_Image3 ToyPixels.Image)
                    ToyPixels.quant_alpha (3, 5, false)) eq_refl).
    reflexivity.
  - vm_compute. reflexivity.
Defined.

(** ** The decoder entry points *)

Section PikToPixelsProps.
Variable LoadHeader : list Byte.byte -> option (Header * Z).
Variable kWebPLossless : Z.
Variable CompressedImage : Type.
Variable Decode : Z -> Z -> list Byte.byte -> option (CompressedImage * Z).
Variable Image3T : Type.
Variable ToImage3 : CompressedImage -> Image3T.
Variable AlphaT : Type.
Variable PikToAlpha :
  DecompressParams -> Z -> list Byte.byte -> option (AlphaT * Z).

Local Abbreviation decode_meta :=
  (PikToPixelsT LoadHeader kWebPLossless CompressedImage Decode Image3T
     ToImage3 AlphaT PikToAlpha).
Local Abbreviation decode_image3 :=
  (PikToPixelsT_Image3 LoadHeader kWebPLossless CompressedImage Decode Image3T
     ToImage3 AlphaT PikToAlpha).

(** What a successful call went through. *)
Lemma PikToPixelsT_ok_inv (params : DecompressParams)
    (compressed : list Byte.byte) (image : MetaImage Image3T AlphaT) (n : Z) :
  decode_meta params compressed = Ok (image, n) ->
  compressed <> [] /\
  exists header header_end img bytes_read,
    LoadHeader compressed = Some (header, header_end) /\
    header_end <= Z.of_nat (length compressed) /\
    Z.land (h_flags header) kWebPLossless = 0 /\
    h_xsize header <> 0 /\ h_ysize header <> 0 /\
    Decode (h_xsize header) (h_ysize header)
           (drop (Z.to_nat header_end) compressed) = Some (img, bytes_read) /\
    color _ _ image = ToImage3 img /\
    (alpha _ _ image = None <-> Z.land (h_flags header) kAlpha = 0) /\
    (alpha _ _ image = None -> n = header_end + bytes_read) /\
    (check_decompressed_size params = true -> n = Z.of_nat (length compressed)).
Proof.
  unfold PikToPixelsT.
  destruct (Z.eqb_spec (Z.of_nat (length compressed)) 0) as [E0 | E0];
    [discriminate|].
  destruct (LoadHeader compressed) as [[header header_end]|]; [|discriminate].
  destruct (Z.ltb_spec (Z.of_nat (length compressed)) header_end);
    [discriminate|].
  destruct (Z.eqb_spec (Z.land (h_flags header) kWebPLossless) 0) as [Ew | Ew];
    cbn [negb]; [|discriminate].
  destruct (Z.eqb_spec (h_xsize header) 0) as [Ex | Ex]; cbn [orb];
    [discriminate|].
  destruct (Z.eqb_spec (h_ysize header) 0) as [Ey | Ey]; [discriminate|].
  destruct (kMaxWidth <? h_xsize header); [discriminate|].
  destruct (max_num_pixels params <? _); [discriminate|].
  destruct (Decode _ _ _) as [[img bytes_read]|] eqn:ED; [|discriminate].
  assert (Hfin : forall m p,
            finish Image3T AlphaT params compressed m p = Ok (image, n) ->
            m = image /\ p = n /\
            (check_decompressed_size params = true ->
             n = Z.of_nat (length compressed))).
  { intros m p. unfold finish.
    destruct (check_decompressed_size params); cbn [andb].
    - destruct (Z.eqb_spec p (Z.of_nat (length compressed))); cbn [negb];
        [|discriminate].
      intros [= <- <-]. auto.
    - intros [= <- <-]. split; [reflexivity|]. split; [reflexivity | discriminate]. }
  intros Hok.
  split; [destruct compressed; [simpl in E0; lia | discriminate]|].
  exists header, header_end, img, bytes_read.
  split; [reflexivity|]. split; [lia|]. split; [exact Ew|].
  split; [exact Ex|]. split; [exact Ey|]. split; [exact ED|].
  destruct (Z.eqb_spec (Z.land (h_flags header) kAlpha) 0) as [Ea | Ea];
    cbn [negb] in Hok.
  - apply Hfin in Hok. destruct Hok as (<- & <- & Hc). cbn [color alpha].
    split; [reflexivity|]. split; [tauto|]. split; [reflexivity | exact Hc].
  - destruct (PikToAlpha _ _ _) as [[a br]|]; [|discriminate].
    apply Hfin in Hok. destruct Hok as (<- & <- & Hc). cbn [color alpha].
    split; [reflexivity|]. split; [split; [discriminate | contradiction]|].
    split; [discriminate | exact Hc].
Qed.

(** X14: when [PikToPixelsT] succeeds, the input was not empty, its
    header was read and ends inside the input, carries no
    [kWebPLossless] flag and no zero dimension, [Decode] was given the
    bytes after the header, the image has an alpha plane exactly when the
    header carries [kAlpha], and with [check_decompressed_size] set the
    [decoded_size] it reports is the length of the whole input. *)
Theorem PikToPixelsT_on_success (params : DecompressParams)
    (compressed : list Byte.byte) (image : MetaImage Image3T AlphaT) (n : Z) :
  decode_meta params compressed = Ok (image, n) ->
  compressed <> [] /\
  exists header header_end img bytes_read,
    LoadHeader compressed = Some (header, header_end) /\
    header_end <= Z.of_nat (length compressed) /\
    Z.land (h_flags header) kWebPLossless = 0 /\
    h_xsize header <> 0 /\ h_ysize header <> 0 /\
    Decode (h_xsize header) (h_ysize header)
           (drop (Z.to_nat header_end) compressed) = Some (img, bytes_read) /\
    color _ _ image = ToImage3 img /\
    (alpha _ _ image = None <-> Z.land (h_flags header) kAlpha = 0) /\
    (alpha _ _ image = None -> n = header_end + bytes_read) /\
    (check_decompressed_size params = true -> n = Z.of_nat (length compressed)).
Proof. apply PikToPixelsT_ok_inv. Qed.

(** X15: decoding into a plain [Image3] succeeds only on a stream
    whose header carries no [kAlpha] flag, and then returns the colour
    planes and the [decoded_size] of the [MetaImage] decoder; a stream
    whose header carries [kAlpha] is always refused, even when it decodes
    correctly as a [MetaImage]. *)
Theorem PikToPixelsT_Image3_refuses_alpha (params : DecompressParams)
    (compressed : list Byte.byte) :
  (forall planes n,
     decode_image3 params compressed = Ok (planes, n) ->
     exists header header_end image,
       LoadHeader compressed = Some (header, header_end) /\
       Z.land (h_flags header) kAlpha = 0 /\
       decode_meta params compressed = Ok (image, n) /\
       planes = color _ _ image) /\
  (forall header header_end,
     LoadHeader compressed = Some (header, header_end) ->
     Z.land (h_flags header) kAlpha <> 0 ->
     failed (decode_image3 params compressed)) /\
  (forall image n,
     decode_meta params compressed = Ok (image, n) ->
     alpha _ _ image <> None ->
     decode_image3 params compressed
     = PIK_FAILURE "Unable to output alpha channel").
Proof.
  unfold PikToPixelsT_Image3. split; [|split].
  - intros planes n.
    destruct (decode_meta params compressed) as [[image n'] | msg |] eqn:E;
      try discriminate.
    destruct (alpha _ _ image) eqn:Ea; [discriminate|]. intros [= <- <-].
    destruct (PikToPixelsT_ok_inv _ _ _ _ E)
      as (_ & header & header_end & img & br & HL & _ & _ & _ & _ & _ & _ & Hal & _).
    exists header, header_end, image. split; [exact HL|].
    split; [apply Hal, Ea|]. split; reflexivity.
  - intros header header_end HL Hflag.
    destruct (decode_meta params compressed) as [[image n'] | msg |] eqn:E;
      try exact I.
    destruct (PikToPixelsT_ok_inv _ _ _ _ E)
      as (_ & header' & header_end' & img & br & HL' & _ & _ & _ & _ & _ & _ & Hal & _).
    rewrite HL in HL'. injection HL' as <- <-.
    destruct (alpha _ _ image) eqn:Ea; [exact I|].
    exfalso. apply Hflag, Hal. reflexivity.
  - intros image n -> Ha. destruct (alpha _ _ image); [reflexivity | contradiction].
Qed.
End PikToPixelsProps.

Lemma PikToPixelsT_on_success_witness :
  [Byte.x0a; Byte.x0a; Byte.x00] <> [] /\
  (check_decompressed_size ToyDecoder.params = true ->
   3 = Z.of_nat (length [Byte.x0a; Byte.x0a; Byte.x00])).
Proof.
  destruct (PikToPixelsT_on_success ToyDecoder.LoadHeader 2 unit
              (fun _ _ _ => Some (tt, 0)) unit (fun _ => tt) unit
              (fun _ _ _ => Some (tt, 0)) ToyDecoder.params
              [Byte.x0a; Byte.x0a; Byte.x00] (mkMeta unit unit tt None) 3
              eq_refl)
    as (Hne & header & header_end & img & br & _ & _ & _ & _ & _ & _ & _ & _ & _ & Hc).
  split; [exact Hne | exact Hc].
Defined.

Lemma PikToPixelsT_Image3_refuses_alpha_witness :
  PikToPixelsT_Image3 ToyDecoder.LoadHeader 2 unit (fun _ _ _ => Some (tt, 0))
    unit (fun _ => tt) unit (fun _ _ _ => Some (tt, 0)) ToyDecoder.params
    [Byte.x0a; Byte.x0a; Byte.x01]
  = PIK_FAILURE "Unable to output alpha channel".
Proof.
  apply (proj2 (proj2 (PikToPixelsT_Image3_refuses_alpha ToyDecoder.LoadHeader 2
                         unit (fun _ _ _ => Some (tt, 0)) unit (fun _ => tt) unit
                         (fun _ _ _ => Some (tt, 0)) ToyDecoder.params
                         [Byte.x0a; Byte.x0a; Byte.x01]))
           (mkMeta unit unit tt (Some tt)) 3).
  - reflexivity.
  - discriminate.
Defined.

(** ** The typed pixel conversions *)

Lemma RGBPixelToYUV_T_defined (sizeof_T r g b bits : Z) :
  sizeof_T = 1 \/ sizeof_T = 2 -> 0 <= bits <= 16 ->
  0 <= r < 2 ^ (8 * sizeof_T) -> 0 <= g < 2 ^ (8 * sizeof_T) ->
  0 <= b < 2 ^ (8 * sizeof_T) ->
  exists y u v, RGBPixelToYUV_T sizeof_T r g b bits = Some (y, u, v) /\
    sample_range bits y /\ sample_range bits u /\ sample_range bits v.
Proof.
  intros Hs Hb Hr Hg Hbl. unfold RGBPixelToYUV_T. cbv zeta.
  assert (Hp : 2 ^ (8 * sizeof_T) <= 2 ^ 16).
  { apply Z.pow_le_mono_r; lia. }
  assert (Hn : below 1 (F64.div (F64.of_Z 1)
                          (F64.of_Z (Z.shiftl 1 (8 * sizeof_T) - 1))) = true).
  { apply norm_below. lia. }
  assert (Hc : forall n, 0 <= n < 2 ^ (8 * sizeof_T) ->
            below 1017 (F64.mul (F64.of_Z n)
                          (F64.div (F64.of_Z 1)
                             (F64.of_Z (Z.shiftl 1 (8 * sizeof_T) - 1)))) = true).
  { intros n Hn'. apply (small_mono _ 19); [lia|].
    apply (F64_mul_below _ _ 17 1); try lia; [|exact Hn].
    apply u16_below. lia. }
  apply RGBPixelToYUV_defined; [exact Hb | apply Hc; assumption..].
Qed.

(** X16: the typed [RGBPixelToYUV], given 8-bit or 16-bit samples and
    a depth of at most 16 bits, is always defined and stores three
    samples of [[0, 2^bits - 1]]. *)
Theorem RGBPixelToYUV_T_in_range (sizeof_T r g b bits : Z) :
  sizeof_T = 1 \/ sizeof_T = 2 -> 0 <= bits <= 16 ->
  0 <= r < 2 ^ (8 * sizeof_T) -> 0 <= g < 2 ^ (8 * sizeof_T) ->
  0 <= b < 2 ^ (8 * sizeof_T) ->
  exists y u v, RGBPixelToYUV_T sizeof_T r g b bits = Some (y, u, v) /\
    sample_range bits y /\ sample_range bits u /\ sample_range bits v.
Proof. exact (RGBPixelToYUV_T_defined sizeof_T r g b bits). Qed.

Lemma RGBPixelToYUV_T_in_range_witness :
  exists y u v, RGBPixelToYUV_T 1 255 255 255 10 = Some (y, u, v) /\
    sample_range 10 y /\ sample_range 10 u /\ sample_range 10 v.
Proof.
  apply RGBPixelToYUV_T_in_range; [left; reflexivity | lia..].
Defined.

Lemma grey_round_trip (n bits : Z) :
  0 <= n <= 255 -> 10 <= bits <= 16 ->
  exists y u v,
    RGBPixelToYUV_T 1 n n n bits = Some (y, u, v) /\
    YUVPixelToRGB_T 1 y u v bits = Some (n, n, n).
Proof.
  intros Hn Hb.
  assert (Hall : forallb (fun bits =>
                    forallb (fun n => round_trips bits n n n) (seqZ 0 256))
                   (seqZ 10 7) = true) by (vm_compute; reflexivity).
  rewrite forallb_forall in Hall.
  specialize (Hall bits). rewrite forallb_forall in Hall.
  assert (Hrt : round_trips bits n n n = true).
  { apply Hall; apply list_elem_of_In, elem_of_seqZ; lia. }
  unfold round_trips in Hrt.
  destruct (RGBPixelToYUV_T 1 n n n bits) as [[[y u] v]|]; [|discriminate].
  exists y, u, v. split; [reflexivity|].
  destruct (YUVPixelToRGB_T 1 y u v bits) as [[[r g] b]|]; [|discriminate].
  rewrite !andb_true_iff, !Z.eqb_eq in Hrt. destruct Hrt as ((-> & ->) & ->).
  reflexivity.
Qed.

(** X17: every 8-bit grey [(n, n, n)] converted to YUV of 10 to 16
    bits and back comes out unchanged.  At 8 bits it does not: black is
    stored as [(16, 128, 128)], which converts back to [(1, 0, 1)]. *)
Theorem grey_survives_ten_bits :
  (forall n bits : Z,
     0 <= n <= 255 -> 10 <= bits <= 16 ->
     exists y u v,
       RGBPixelToYUV_T 1 n n n bits = Some (y, u, v) /\
       YUVPixelToRGB_T 1 y u v bits = Some (n, n, n)) /\
  RGBPixelToYUV_T 1 0 0 0 8 = Some (16, 128, 128) /\
  YUVPixelToRGB_T 1 16 128 128 8 = Some (1, 0, 1).
Proof.
  split; [exact grey_round_trip | split; vm_compute; reflexivity].
Qed.

Lemma grey_survives_ten_bits_witness :
  exists y u v,
    RGBPixelToYUV_T 1 200 200 200 10 = Some (y, u, v) /\
    YUVPixelToRGB_T 1 y u v 10 = Some (200, 200, 200).
Proof. apply (proj1 grey_survives_ten_bits); lia. Defined.

(** ** The Y-to-B correlation search *)

Lemma for_range_proj {S T : Type} (g : S -> T) (body : Z -> S -> S)
    (body' : Z -> T -> T) (lo hi : Z) (s : S) :
  (forall k s', g (body k s') = body' k (g s')) ->
  g (for_range lo hi body s) = for_range lo hi body' (g s).
Proof.
  intros Hstep. unfold for_range. generalize (seqZ lo (hi - lo)) as l.
  intros l. revert s. induction l as [|k l IH]; intros s; simpl; [reflexivity|].
  rewrite IH, Hstep. reflexivity.
Qed.

Section OptimizeKeeps.
Variable Eval : Type.
Variable eval_call : Z -> Eval -> Z * Eval.
Variable SetVal : Z -> Eval -> Eval.
Variable P : Eval -> Prop.
Variable minval maxval : Z.
Hypothesis call_keeps :
  forall val e, minval <= val <= maxval -> P e -> P (snd (eval_call val e)).

Lemma try_val_keeps (val : Z) (s : search Eval) :
  minval <= val <= maxval -> P (snd s) ->
  P (snd (try_val Eval eval_call val s)).
Proof.
  intros Hv. destruct s as [[bv bo] ev]. unfold try_val. cbn [snd]. intros HP.
  pose proof (call_keeps val ev Hv HP) as H.
  destruct (eval_call val ev) as [o ev']. destruct (o <? bo); exact H.
Qed.

Lemma sweep_from_keeps (resolution end_ : Z) (fuel : nat) :
  1 <= resolution -> end_ <= maxval ->
  forall (val : Z) (s : search Eval),
    minval <= val -> P (snd s) ->
    P (snd (ideal_sweep_from Eval eval_call fuel resolution end_ val s)).
Proof.
  intros Hres Hend. induction fuel as [|fuel IH]; intros val s Hval Hs;
    cbn [ideal_sweep_from]; [exact Hs|].
  destruct (Z.leb_spec val end_); [|exact Hs].
  apply IH; [lia|]. apply try_val_keeps; [lia | exact Hs].
Qed.

Lemma refine_keeps (resolution : Z) (acc : Z * Z * search Eval) :
  1 <= resolution ->
  minval <= fst (fst acc) -> snd (fst acc) <= maxval ->
  P (snd (snd acc)) ->
  P (snd (snd (ideal_refine Eval eval_call minval maxval acc resolution))).
Proof.
  destruct acc as [[start end_] s]. cbn [fst snd]. intros Hres Hs He HP.
  unfold ideal_refine, ideal_sweep. cbn [fst snd]. apply sweep_from_keeps; assumption.
Qed.

(** The ideal search keeps what every call of the evaluator on a value
    of [[minval, maxval]] keeps, up to its final [SetVal]. *)
Lemma ideal_Optimize_keeps (ev : Eval) (best_val best_objval : Z) :
  P ev ->
  let r := ideal_Optimize Eval eval_call SetVal ev minval maxval best_val best_objval in
  kept_or_improved minval maxval best_val best_objval r /\
  exists ev', P ev' /\ snd r = SetVal (fst (fst r)) ev'.
Proof.
  intros HP r. subst r. unfold ideal_Optimize, resolutions. cbn [foldl].
  set (a0 := (minval, maxval, (best_val, best_objval, ev))).
  assert (A1 : minval <= fst (fst a0)) by (unfold a0; cbn [fst snd]; lia).
  assert (A2 : snd (fst a0) <= maxval) by (unfold a0; cbn [fst snd]; lia).
  assert (A3 : kept_or_improved minval maxval best_val best_objval (snd a0)).
  { unfold a0, kept_or_improved. cbn [fst snd]. left. auto. }
  assert (A4 : P (snd (snd a0))) by exact HP.
  pose proof (refine_kept Eval eval_call minval maxval best_val best_objval 16 a0
                ltac:(lia) A1 A2 A3) as H1.
  pose proof (refine_keeps 16 a0 ltac:(lia) A1 A2 A4) as B4.
  cbv zeta in H1. destruct H1 as (B1 & B2 & B3).
  set (a1 := ideal_refine Eval eval_call minval maxval a0 16) in *.
  pose proof (refine_kept Eval eval_call minval maxval best_val best_objval 4 a1
                ltac:(lia) B1 B2 B3) as H2.
  pose proof (refine_keeps 4 a1 ltac:(lia) B1 B2 B4) as C4.
  cbv zeta in H2. destruct H2 as (C1 & C2 & C3).
  set (a2 := ideal_refine Eval eval_call minval maxval a1 4) in *.
  pose proof (refine_kept Eval eval_call minval maxval best_val best_objval 1 a2
                ltac:(lia) C1 C2 C3) as H3.
  pose proof (refine_keeps 1 a2 ltac:(lia) C1 C2 C4) as D4.
  cbv zeta in H3. destruct H3 as (_ & _ & D3).
  destruct (ideal_refine Eval eval_call minval maxval a2 1) as [[st en] [[bv bo] ev3]].
  cbn [fst snd] in *. split; [exact D3|]. exists ev3. split; [exact D4 | reflexivity].
Qed.
End OptimizeKeeps.

Lemma ToyTile_plane : tile_plane 1 1 (ytob_ac_ unit ToyTile.image).
Proof.
  split; [|split; reflexivity].
  split; [simpl; lia|]. split; [simpl; lia|]. split; [reflexivity|].
  repeat constructor.
Qed.

Section YToBSearch.
Variable Rest : Type.
Variable tile_xsize_ tile_ysize_ : Z.
Variable Quantize : CompressedImage Rest -> CompressedImage Rest.
Variable QuantizeBlock : Z -> Z -> CompressedImage Rest -> CompressedImage Rest.
Variable Token : Type.
Context `{EqDecision Token}.
Variable ACBlockProcessor : Type.
Variable ACBlockProcessor_new : ACBlockProcessor.
Variable Reset : ACBlockProcessor -> ACBlockProcessor.
Variable ProcessBlock :
  list Z -> Z -> Z -> Z -> ACBlockProcessor -> ACBlockProcessor * list Token.
Variable dc_tokens : list (list (list Z)) -> list Token.
Variable EncodedSize : HistogramBuilder Token -> Z.

(** What the search relies on from the quantizer, which is not part of
    these sources: quantizing leaves the Y-to-B values alone. *)
Hypothesis Quantize_frame :
  forall img,
    ytob_dc_ Rest (Quantize img) = ytob_dc_ Rest img /\
    ytob_ac_ Rest (Quantize img) = ytob_ac_ Rest img.
Hypothesis QuantizeBlock_frame :
  forall bx by_ img,
    ytob_dc_ Rest (QuantizeBlock bx by_ img) = ytob_dc_ Rest img /\
    ytob_ac_ Rest (QuantizeBlock bx by_ img) = ytob_ac_ Rest img.

Local Abbreviation global_SetVal :=
  (EvalGlobalYToB_SetVal Rest tile_xsize_ tile_ysize_ Quantize).
Local Abbreviation global_call :=
  (EvalGlobalYToB_call Rest tile_xsize_ tile_ysize_ Quantize Token
     ACBlockProcessor ACBlockProcessor_new Reset ProcessBlock dc_tokens
     EncodedSize).
Local Abbreviation local_SetVal :=
  (SetVal Rest QuantizeBlock Token ACBlockProcessor Reset ProcessBlock).
Local Abbreviation local_call :=
  (EvalLocalYToB_call Rest QuantizeBlock Token ACBlockProcessor Reset
     ProcessBlock EncodedSize).
Local Abbreviation Evaluator := (EvalLocalYToB Rest Token ACBlockProcessor).
Local Abbreviation image_of := (el_img Rest Token ACBlockProcessor).
Local Abbreviation find_best :=
  (FindBestYToBCorrelation Rest tile_xsize_ tile_ysize_ Quantize QuantizeBlock
     Token ACBlockProcessor ACBlockProcessor_new Reset ProcessBlock dc_tokens
     EncodedSize).

Local Abbreviation tile_plane := (tile_plane tile_xsize_ tile_ysize_).
Local Abbreviation ytob_ok := (ytob_ok tile_xsize_ tile_ysize_).

Lemma set_rewrites_cell (v : Z) :
  rewrites_cell 0 (fun y x plane => Img.set plane y x v) (fun _ _ _ => v).
Proof.
  intros plane y x Hwf Hin.
  destruct (set_sizes plane y x v) as [Hx Hy].
  split; [apply wf_set, Hwf|]. split; [exact Hx|]. split; [exact Hy|].
  intros y' x'. apply get_set; assumption.
Qed.

(** [EvalGlobalYToB::SetVal] stores its argument in the DC value and in
    every tile. *)
Lemma EvalGlobalYToB_SetVal_fields (ytob : Z) (img : CompressedImage Rest) :
  tile_plane (ytob_ac_ Rest img) ->
  ytob_dc_ Rest (global_SetVal ytob img) = ytob /\
  tile_plane (ytob_ac_ Rest (global_SetVal ytob img)) /\
  forall ty tx, in_image (ytob_ac_ Rest img) ty tx ->
    Img.get 0 (ytob_ac_ Rest (global_SetVal ytob img)) ty tx = ytob.
Proof.
  intros (Hwf & Hxs & Hys). unfold EvalGlobalYToB_SetVal. cbv zeta.
  destruct (Quantize_frame
              (for_range 0 tile_ysize_ (fun tiley =>
                 for_range 0 tile_xsize_ (fun tilex img0 =>
                   SetYToBAC Rest tilex tiley ytob img0))
                 (SetYToBDC Rest ytob img))) as [-> ->].
  split.
  - rewrite (for_range_proj (ytob_dc_ Rest) _ (fun _ d => d)).
    + unfold for_range. generalize (seqZ 0 (tile_ysize_ - 0)). intros l.
      induction l as [|k l IH]; simpl; [reflexivity | exact IH].
    + intros k s'.
      rewrite (for_range_proj (ytob_dc_ Rest) _ (fun _ d => d)).
      * unfold for_range. generalize (seqZ 0 (tile_xsize_ - 0)). intros l.
        induction l as [|j l IH]; simpl; [reflexivity | exact IH].
      * intros j s''. reflexivity.
  - rewrite (for_range_proj (ytob_ac_ Rest) _
               (fun tiley => for_range 0 tile_xsize_ (fun tilex plane =>
                  Img.set plane tiley tilex ytob))).
    2:{ intros k s'.
        apply (for_range_proj (ytob_ac_ Rest) _
                 (fun tilex plane => Img.set plane k tilex ytob)).
        intros j s''. reflexivity. }
    change (ytob_ac_ Rest (SetYToBDC Rest ytob img)) with (ytob_ac_ Rest img).
    destruct Hwf as (Hx0 & Hy0 & Hrows).
    destruct (pointwise_grid 0 _ _ (set_rewrites_cell ytob) (ytob_ac_ Rest img)
                0 tile_ysize_ 0 tile_xsize_) as (Hw & Hx & Hy & Hget);
      try lia; [split; [exact Hx0 | split; [exact Hy0 | exact Hrows]]|].
    split; [split; [exact Hw | split; lia]|].
    intros ty tx [Hty Htx]. rewrite Hget.
    replace ((0 <=? ty) && (ty <? tile_ysize_) && (0 <=? tx) && (tx <? tile_xsize_))
      with true; [reflexivity|].
    symmetry. rewrite !andb_true_iff, !Z.leb_le, !Z.ltb_lt. lia.
Qed.

Lemma requantize_block_fields (tx ty iy ix : Z)
    (acc : CompressedImage Rest * ACBlockProcessor * HistogramBuilder Token) :
  let acc' := requantize_block Rest QuantizeBlock Token ACBlockProcessor Reset
                ProcessBlock tx ty iy ix acc in
  ytob_dc_ Rest (fst (fst acc')) = ytob_dc_ Rest (fst (fst acc)) /\
  ytob_ac_ Rest (fst (fst acc')) = ytob_ac_ Rest (fst (fst acc)).
Proof.
  destruct acc as [[img p] h]. unfold requantize_block. cbv zeta.
  destruct (_ || _); [auto|].
  destruct (process_block3 _ _ _ _ img _ _ _) as [p1 h1].
  destruct (process_block3 _ _ _ _ _ _ _ _) as [p2 h2]. cbn [fst].
  apply QuantizeBlock_frame.
Qed.

(** [EvalLocalYToB::SetVal] stores its argument in the selected tile and
    leaves the other Y-to-B values and the selection alone. *)
Lemma EvalLocalYToB_SetVal_fields (ytob : Z) (e : Evaluator) :
  ytob_dc_ Rest (image_of (local_SetVal ytob e)) = ytob_dc_ Rest (image_of e) /\
  ytob_ac_ Rest (image_of (local_SetVal ytob e))
  = Img.set (ytob_ac_ Rest (image_of e)) (tiley _ _ _ e) (tilex _ _ _ e) ytob /\
  tilex _ _ _ (local_SetVal ytob e) = tilex _ _ _ e /\
  tiley _ _ _ (local_SetVal ytob e) = tiley _ _ _ e.
Proof.
  unfold SetVal. cbv zeta.
  set (img := SetYToBAC Rest (tilex _ _ _ e) (tiley _ _ _ e) ytob (image_of e)).
  set (P := fun s : CompressedImage Rest * ACBlockProcessor * HistogramBuilder Token =>
              ytob_dc_ Rest (fst (fst s)) = ytob_dc_ Rest img /\
              ytob_ac_ Rest (fst (fst s)) = ytob_ac_ Rest img).
  match goal with |- context [for_range 0 ?f ?b ?s0] =>
    assert (H : P (for_range 0 f b s0));
    [|destruct (for_range 0 f b s0) as [[img' p] h]]
  end.
  { apply for_range_keeps; [|split; reflexivity].
    intros iy s' _ Hs'. apply for_range_keeps; [|exact Hs'].
    intros ix s'' _ [H1 H2].
    destruct (requantize_block_fields (tilex _ _ _ e) (tiley _ _ _ e) iy ix s'')
      as [E1 E2].
    split; congruence. }
  destruct H as [H1 H2]. cbn [fst] in H1, H2. cbn [el_img tilex tiley].
  rewrite H1, H2. auto.
Qed.

Lemma set_keeps_bytes (plane : Image Z) (ty tx v : Z) :
  Img.wf plane -> in_image plane ty tx -> 0 <= v <= 255 ->
  ytob_bytes plane -> ytob_bytes (Img.set plane ty tx v).
Proof.
  intros Hwf Hin Hv Hb ty' tx' Hin'.
  rewrite (get_set 0 plane ty tx v ty' tx' Hwf Hin).
  destruct (_ && _); [exact Hv|]. apply Hb.
  destruct (set_sizes plane ty tx v) as [Hx Hy].
  unfold in_image in *. rewrite Hx, Hy in Hin'. exact Hin'.
Qed.

(** Setting the selected tile to a byte keeps [ytob_ok]. *)
Lemma local_SetVal_ok (g tx ty val : Z) (e : Evaluator) :
  0 <= tx < tile_xsize_ -> 0 <= ty < tile_ysize_ -> 0 <= val <= 255 ->
  ytob_ok g (image_of e) /\ tilex _ _ _ e = tx /\ tiley _ _ _ e = ty ->
  ytob_ok g (image_of (local_SetVal val e)) /\
  tilex _ _ _ (local_SetVal val e) = tx /\ tiley _ _ _ (local_SetVal val e) = ty.
Proof.
  intros Htx Hty Hval ((Hdc & (Hwf & Hxs & Hys) & Hb) & Ex & Ey).
  destruct (EvalLocalYToB_SetVal_fields val e) as (E1 & E2 & E3 & E4).
  rewrite E3, E4. split; [|auto].
  unfold ytob_ok. rewrite E1, E2, Ex, Ey.
  destruct (set_sizes (ytob_ac_ Rest (image_of e)) ty tx val) as [Sx Sy].
  split; [exact Hdc|]. split.
  - split; [apply wf_set, Hwf | split; congruence].
  - apply set_keeps_bytes; try assumption. unfold in_image. lia.
Qed.

Lemma byte_search_range (g : Z) : 0 <= g <= 255 -> int_search_range 0 255 g.
Proof. intros H. unfold int_search_range, INT_MIN, INT_MAX. lia. Qed.

Lemma optimize_tile_ok (g tiley0 tilex0 : Z) (acc : Z * Evaluator) :
  0 <= g <= 255 -> 0 <= tilex0 < tile_xsize_ -> 0 <= tiley0 < tile_ysize_ ->
  ytob_ok g (image_of (snd acc)) ->
  exists acc',
    optimize_tile Rest QuantizeBlock Token ACBlockProcessor Reset
                  ProcessBlock EncodedSize g tiley0 tilex0 acc = Some acc' /\
    fst acc' <= fst acc /\ ytob_ok g (image_of (snd acc')).
Proof.
  intros Hg Htx Hty Hok. destruct acc as [best_size e]. unfold optimize_tile.
  cbn [fst snd] in *.
  set (e0 := SetTile Rest Token ACBlockProcessor tilex0 tiley0 e).
  rewrite (Optimize_defined Evaluator local_call local_SetVal e0 0 255 g
             best_size (byte_search_range g Hg)).
  cbn [mbind option_bind].
  destruct (ideal_Optimize_keeps Evaluator local_call local_SetVal
              (fun e' => ytob_ok g (image_of e') /\
                         tilex _ _ _ e' = tilex0 /\ tiley _ _ _ e' = tiley0)
              0 255) with (ev := e0) (best_val := g) (best_objval := best_size)
    as (Hk & ev' & HP & Hev).
  { intros val e' Hval He'. unfold EvalLocalYToB_call. cbn [snd].
    apply local_SetVal_ok; assumption. }
  { subst e0. cbn [el_img tilex tiley SetTile]. auto. }
  destruct (ideal_Optimize _ _ _ e0 0 255 g best_size) as [[bv bo] ev3].
  unfold kept_or_improved in Hk. cbn [fst snd] in *. subst ev3.
  assert (Hbv : 0 <= bv <= 255).
  { destruct Hk as [[-> _] | [Hr _]]; cbn [fst snd] in *; lia. }
  eexists. split; [reflexivity|]. cbn [fst snd]. split.
  - destruct Hk as [[_ ->] | [_ Hlt]]; cbn [fst snd] in *; lia.
  - apply (local_SetVal_ok g tilex0 tiley0 bv ev'); assumption.
Qed.

(** X18: if quantizing leaves the Y-to-B values alone, then
    [FindBestYToBCorrelation] returns, and after it the global value
    chosen lies in [[0, 255]] and is the DC value of the image, every
    tile holds a value of [[0, 255]], and the size recorded last is not
    above the size measured first, at the start value 120. *)
Theorem FindBestYToBCorrelation_bytes (img : CompressedImage Rest) :
  tile_plane (ytob_ac_ Rest img) ->
  exists global_ytob best_size img',
    find_best img = Some (global_ytob, best_size, img') /\
    0 <= global_ytob <= 255 /\
    ytob_dc_ Rest img' = global_ytob /\
    tile_plane (ytob_ac_ Rest img') /\
    ytob_bytes (ytob_ac_ Rest img') /\
    best_size <= fst (global_call kStartYToB img).
Proof.
  intros Hpl. unfold FindBestYToBCorrelation.
  destruct (global_call kStartYToB img) as [size0 img1] eqn:E0. cbn [fst].
  assert (Hpl1 : tile_plane (ytob_ac_ Rest img1)).
  { unfold EvalGlobalYToB_call in E0. cbv zeta in E0. injection E0 as _ <-.
    apply EvalGlobalYToB_SetVal_fields, Hpl. }
  rewrite (Optimize_defined (CompressedImage Rest) global_call global_SetVal
             img1 0 255 kStartYToB size0
             (byte_search_range kStartYToB ltac:(unfold kStartYToB; lia))).
  cbn [mbind option_bind].
  destruct (ideal_Optimize_keeps (CompressedImage Rest) global_call global_SetVal
              (fun im => tile_plane (ytob_ac_ Rest im)) 0 255)
    with (ev := img1) (best_val := kStartYToB) (best_objval := size0)
    as (Hk & ev' & HP & Hev).
  { intros val im _ Him. unfold EvalGlobalYToB_call. cbn [snd].
    apply EvalGlobalYToB_SetVal_fields, Him. }
  { exact Hpl1. }
  destruct (ideal_Optimize _ _ _ img1 0 255 kStartYToB size0)
    as [[g size1] img2].
  unfold kept_or_improved in Hk. cbn [fst snd] in *. subst img2.
  assert (Hg : 0 <= g <= 255).
  { destruct Hk as [[-> _] | [Hr _]]; unfold kStartYToB; lia. }
  assert (Hs1 : size1 <= size0) by (destruct Hk as [[_ ->] | [_ Hlt]]; lia).
  destruct (EvalGlobalYToB_SetVal_fields g ev' HP) as (Gdc & Gpl & Gget).
  set (img2 := global_SetVal g ev') in *.
  assert (Hok2 : ytob_ok g img2).
  { split; [exact Gdc|]. split; [exact Gpl|].
    intros ty tx Hin. rewrite Gget; [lia|].
    destruct HP as (_ & Hx & Hy). destruct Gpl as (_ & Hx2 & Hy2).
    unfold in_image in *. rewrite Hx, Hy. rewrite Hx2, Hy2 in Hin. exact Hin. }
  set (e0 := EvalLocalYToB_new _ _ _ _ _ _ img2 _).
  assert (He0 : ytob_ok g (image_of e0)).
  { subst e0. unfold EvalLocalYToB_new. cbv zeta.
    destruct (ProcessImage3_AC _ _ _ _ _ img2 _) as [p ac]. exact Hok2. }
  clearbody e0.
  match goal with |- context [for_range 0 tile_ysize_ ?b (Some (size1, e0))] =>
    assert (H : (fun acc : option (Z * Evaluator) =>
                   exists a, acc = Some a /\
                     fst a <= size1 /\ ytob_ok g (image_of (snd a)))
                (for_range 0 tile_ysize_ b (Some (size1, e0))));
    [|destruct H as ([best_size e] & -> & H)]
  end.
  { apply for_range_keeps;
      [|exists (size1, e0); cbn [fst snd]; split; [reflexivity|];
        split; [lia | exact He0]].
    intros ty acc Hty Hacc. apply for_range_keeps; [|exact Hacc].
    intros tx acc' Htx (a & -> & Hle & Hok'). cbn [mbind option_bind].
    destruct (optimize_tile_ok g ty tx a Hg Htx Hty Hok')
      as (a' & -> & Hle' & Hok'').
    exists a'. split; [reflexivity|]. split; [lia | exact Hok'']. }
  cbn [mbind option_bind fst snd] in *. destruct H as (Hle & Hdc & Hpl' & Hb).
  exists g, best_size, (image_of e). split; [reflexivity|].
  split; [exact Hg|]. split; [exact Hdc|]. split; [exact Hpl'|].
  split; [exact Hb | lia].
Qed.

(** X19: if [Quantize] leaves the Y-to-B values alone, then after
    [EvalGlobalYToB::SetVal(ytob)] the DC correlation and the correlation
    of every tile read the same [ytob / 128], whatever the tiles held
    before. *)
Theorem EvalGlobalYToB_SetVal_uniform (ytob : Z) (img : CompressedImage Rest) :
  tile_plane (ytob_ac_ Rest img) ->
  let img' := global_SetVal ytob img in
  YToBDC Rest img' = F32.div (F32.of_Z ytob) (F32.of_Z 128) /\
  forall tx ty, 0 <= tx < tile_xsize_ -> 0 <= ty < tile_ysize_ ->
    YToBAC Rest tx ty img' = YToBDC Rest img'.
Proof.
  intros Hpl img'. subst img'.
  destruct (EvalGlobalYToB_SetVal_fields ytob img Hpl) as (Gdc & _ & Gget).
  unfold YToBDC, YToBAC. rewrite Gdc. split; [reflexivity|].
  intros tx ty Htx Hty. rewrite Gget; [reflexivity|].
  destruct Hpl as (_ & Hx & Hy). unfold in_image. lia.
Qed.

(** X20: if [QuantizeBlock] leaves the Y-to-B values alone, then
    [EvalLocalYToB::SetVal(ytob)] on a selected tile of the plane changes
    the correlation of that tile to [ytob / 128] and no other: every
    other tile and the DC correlation read as before, and the selection
    stays. *)
Theorem EvalLocalYToB_SetVal_local (ytob : Z) (e : Evaluator) :
  Img.wf (ytob_ac_ Rest (image_of e)) ->
  in_image (ytob_ac_ Rest (image_of e)) (tiley _ _ _ e) (tilex _ _ _ e) ->
  let e' := local_SetVal ytob e in
  (forall tx ty,
     YToBAC Rest tx ty (image_of e')
     = if (ty =? tiley _ _ _ e) && (tx =? tilex _ _ _ e)
       then F32.div (F32.of_Z ytob) (F32.of_Z 128)
       else YToBAC Rest tx ty (image_of e)) /\
  YToBDC Rest (image_of e') = YToBDC Rest (image_of e) /\
  tilex _ _ _ e' = tilex _ _ _ e /\ tiley _ _ _ e' = tiley _ _ _ e.
Proof.
  intros Hwf Hin e'. subst e'.
  destruct (EvalLocalYToB_SetVal_fields ytob e) as (E1 & E2 & E3 & E4).
  split; [|split; [|split]]; try assumption.
  - intros tx ty. unfold YToBAC. rewrite E2.
    rewrite (get_set 0 _ _ _ ytob ty tx Hwf Hin).
    destruct (_ && _); reflexivity.
  - unfold YToBDC. rewrite E1. reflexivity.
Qed.
End YToBSearch.

Lemma EvalGlobalYToB_SetVal_uniform_witness :
  YToBAC unit 0 0 (EvalGlobalYToB_SetVal unit 1 1 (fun img => img) 77 ToyTile.image)
  = YToBDC unit (EvalGlobalYToB_SetVal unit 1 1 (fun img => img) 77 ToyTile.image).
Proof.
  apply (EvalGlobalYToB_SetVal_uniform unit 1 1 (fun img => img)
           (fun img => conj eq_refl eq_refl) 77 ToyTile.image ToyTile_plane);
    lia.
Defined.

Lemma EvalLocalYToB_SetVal_local_witness :
  YToBAC unit 0 0 (el_img _ _ _ ToyTile.e1) = F32.div (F32.of_Z 77) (F32.of_Z 128) /\
  YToBDC unit (el_img _ _ _ ToyTile.e1) = YToBDC unit (el_img _ _ _ ToyTile.e0).
Proof.
  destruct (EvalLocalYToB_SetVal_local unit ToyTile.QuantizeBlock Z unit
              (fun p => p) ToyTile.ProcessBlock
              (fun bx by_ img => conj eq_refl eq_refl) 77 ToyTile.e0)
    as (H1 & H2 & _).
  - apply ToyTile_plane.
  - unfold in_image. simpl. lia.
  - split; [exact (H1 0 0) | exact H2].
Defined.

(** ** The accessors of the Y-to-B values *)

Lemma float_eqb_eq (a b : float) : float_eqb a b = true -> a = b.
Proof.
  destruct a as [s|s| |s m e], b as [t|t| |t n f]; simpl; try discriminate;
    try reflexivity.
  - intros H. apply Bool.eqb_prop in H. congruence.
  - intros H. apply Bool.eqb_prop in H. congruence.
  - rewrite !andb_true_iff. intros [[H1 H2] H3].
    apply Bool.eqb_prop in H1. apply Pos.eqb_eq in H2. apply Z.eqb_eq in H3.
    congruence.
Qed.

(** X21: [SetYToBAC] with a value of [[0, 255]] followed by [YToBAC]
    on the same tile reads that value scaled by [1 / 128] without rounding
    (multiplied by 128 it is the value again), and leaves the other tiles
    and the DC correlation as they were; [SetYToBDC] and [YToBDC] do the
    same for the DC correlation and leave every tile as it was. *)
Theorem YToB_set_then_get (Rest : Type) (img : CompressedImage Rest)
    (tx ty val : Z) :
  Img.wf (ytob_ac_ Rest img) -> in_image (ytob_ac_ Rest img) ty tx ->
  0 <= val <= 255 ->
  F32.mul (YToBAC Rest tx ty (SetYToBAC Rest tx ty val img)) (F32.of_Z 128)
  = F32.of_Z val /\
  (forall tx' ty', (ty', tx') <> (ty, tx) ->
     YToBAC Rest tx' ty' (SetYToBAC Rest tx ty val img) = YToBAC Rest tx' ty' img) /\
  YToBDC Rest (SetYToBAC Rest tx ty val img) = YToBDC Rest img /\
  F32.mul (YToBDC Rest (SetYToBDC Rest val img)) (F32.of_Z 128) = F32.of_Z val /\
  (forall tx' ty',
     YToBAC Rest tx' ty' (SetYToBDC Rest val img) = YToBAC Rest tx' ty' img).
Proof.
  intros Hwf Hin Hval.
  assert (Hexact : F32.mul (F32.div (F32.of_Z val) (F32.of_Z 128)) (F32.of_Z 128)
                   = F32.of_Z val).
  { assert (Hall : forallb (fun v =>
                      float_eqb (F32.mul (F32.div (F32.of_Z v) (F32.of_Z 128))
                                         (F32.of_Z 128)) (F32.of_Z v))
                     (seqZ 0 256) = true) by (vm_compute; reflexivity).
    rewrite forallb_forall in Hall.
    apply float_eqb_eq, Hall, list_elem_of_In, elem_of_seqZ. lia. }
  split; [|split; [|split; [|split]]].
  - unfold YToBAC, SetYToBAC. cbn [ytob_ac_].
    rewrite (get_set 0 _ _ _ val ty tx Hwf Hin), !Z.eqb_refl. exact Hexact.
  - intros tx' ty' Hne. unfold YToBAC, SetYToBAC. cbn [ytob_ac_].
    rewrite (get_set 0 _ _ _ val ty' tx' Hwf Hin).
    destruct (Z.eqb_spec ty' ty) as [-> | ?]; [|reflexivity].
    destruct (Z.eqb_spec tx' tx) as [-> | ?]; [congruence | reflexivity].
  - reflexivity.
  - unfold YToBDC, SetYToBDC. cbn [ytob_dc_]. exact Hexact.
  - reflexivity.
Qed.

Lemma YToB_set_then_get_witness :
  F32.mul (YToBAC unit 0 0 (SetYToBAC unit 0 0 77 ToyTile.image)) (F32.of_Z 128)
  = F32.of_Z 77.
Proof.
  apply (YToB_set_then_get unit ToyTile.image 0 0 77).
  - apply ToyTile_plane.
  - unfold in_image. simpl. lia.
  - lia.
Defined.
Lemma FindBestYToBCorrelation_bytes_witness :
  exists global_ytob best_size img',
    ToyCorrelation.run = Some (global_ytob, best_size, img') /\
    0 <= global_ytob <= 255 /\
    ytob_dc_ unit img' = global_ytob /\
    ytob_bytes (ytob_ac_ unit img').
Proof.
  destruct (FindBestYToBCorrelation_bytes unit 1 1 (fun img => img)
              ToyTile.QuantizeBlock Z unit tt (fun p => p)
              ToyTile.ProcessBlock ToyTile.dc_tokens ToyTile.EncodedSize
              (fun img => conj eq_refl eq_refl)
              (fun bx by_ img => conj eq_refl eq_refl)
              ToyTile.image ToyTile_plane)
    as (g & best_size & img' & E & H1 & H2 & _ & H3 & _).
  exists g, best_size, img'. auto.
Defined.

(** ** From the encoder to the decoder *)

Section Container.
Variable Image3F : Type.
Variable opsin_xsize opsin_ysize : Image3F -> Z.
Variable CompressToButteraugliDistance :
  Image3F -> CompressParams -> option (list Byte.byte).
Variable CompressToTargetSize_ :
  Image3F -> CompressParams -> Z -> option (list Byte.byte).
Variable CompressUniformQuant : Image3F -> float -> option (list Byte.byte).
Variable CompressFast : Image3F -> CompressParams -> option (list Byte.byte).
Variable StoreHeader : Header -> option (list Byte.byte).
Variable LoadHeader : list Byte.byte -> option (Header * Z).
Variable kWebPLossless : Z.
Variable CompressedImage : Type.
Variable Decode : Z -> Z -> list Byte.byte -> option (CompressedImage * Z).
Variable Image3T : Type.
Variable ToImage3 : CompressedImage -> Image3T.
Variable AlphaT : Type.
Variable PikToAlpha :
  DecompressParams -> Z -> list Byte.byte -> option (AlphaT * Z).

(** What the two entry points rely on from the header codec, which is
    not part of these sources: a stored header is not empty and is loaded
    back, with its length, whatever follows it; and the flag [kAlpha] is
    not the flag [kWebPLossless]. *)
Hypothesis header_round_trip :
  forall h header_bytes rest,
    StoreHeader h = Some header_bytes ->
    header_bytes <> [] /\
    LoadHeader (header_bytes ++ rest)
    = Some (h, Z.of_nat (length header_bytes)).
Hypothesis kAlpha_is_not_kWebPLossless : Z.land kAlpha kWebPLossless = 0.

Local Abbreviation encode :=
  (OpsinToPik Image3F opsin_xsize opsin_ysize CompressToButteraugliDistance
     CompressToTargetSize_ CompressUniformQuant CompressFast StoreHeader).
Local Abbreviation decode :=
  (PikToPixelsT LoadHeader kWebPLossless CompressedImage Decode Image3T
     ToImage3 AlphaT PikToAlpha).

(** X22: a stream [OpsinToPik] produced for an image with sizes below
    [2^32] is a header followed by the compressed data, and [PikToPixelsT]
    reads from it the sizes and the alpha flag the encoder was given: it
    refuses the stream when the image is wider than [kMaxWidth] or has
    more than [max_num_pixels] pixels, limits the encoder does not check,
    and otherwise hands [Decode] the image sizes and exactly the
    compressed data, and looks for an alpha plane exactly when
    [params.alpha_channel] was set. *)
Theorem OpsinToPik_stream_is_decoded (params : CompressParams)
    (dparams : DecompressParams) (opsin : Image3F) (ms : list mode)
    (stream : list Byte.byte) :
  encode params opsin = (ms, Some (Ok stream)) ->
  0 <= opsin_xsize opsin < 2 ^ 32 -> 0 <= opsin_ysize opsin < 2 ^ 32 ->
  exists header_bytes compressed_data,
    stream = header_bytes ++ compressed_data /\
    StoreHeader (mkHeader (opsin_xsize opsin) (opsin_ysize opsin)
                          (if alpha_channel params then kAlpha else 0))
    = Some header_bytes /\
    decode dparams stream
    = if kMaxWidth <? opsin_xsize opsin then PIK_FAILURE "Image too wide."
      else if max_num_pixels dparams <? opsin_xsize opsin * opsin_ysize opsin
      then PIK_FAILURE "Image too big."
      else
        match Decode (opsin_xsize opsin) (opsin_ysize opsin) compressed_data with
        | None => PIK_FAILURE "Pik decoding failed."
        | Some (img, bytes_read) =>
            let byte_pos := Z.of_nat (length header_bytes) + bytes_read in
            if alpha_channel params then
              match PikToAlpha dparams byte_pos stream with
              | None => ReturnFalse
              | Some (a, alpha_bytes) =>
                  finish Image3T AlphaT dparams stream
                         (mkMeta Image3T AlphaT (ToImage3 img) (Some a))
                         (byte_pos + alpha_bytes)
              end
            else finish Image3T AlphaT dparams stream
                        (mkMeta Image3T AlphaT (ToImage3 img) None) byte_pos
        end.
Proof.
  intros Henc Hxs Hys. unfold OpsinToPik in Henc.
  destruct (Z.eqb_spec (opsin_xsize opsin) 0) as [Ex | Ex]; cbn [orb] in Henc;
    [discriminate|].
  destruct (Z.eqb_spec (opsin_ysize opsin) 0) as [Ey | Ey]; [discriminate|].
  destruct (select_and_compress _ _ _ _ _ _ _ _ _) as [ms' [[data | msg |]|]];
    try discriminate.
  rewrite !Z.mod_small in Henc by lia.
  assert (Hflags : (if alpha_channel params then Z.lor 0 kAlpha else 0)
                   = (if alpha_channel params then kAlpha else 0))
    by (destruct (alpha_channel params); reflexivity).
  rewrite Hflags in Henc.
  destruct (StoreHeader _) as [header_bytes|] eqn:EH; [|discriminate].
  injection Henc as _ <-.
  exists header_bytes, data. split; [reflexivity|]. split; [reflexivity|].
  destruct (header_round_trip _ _ data EH) as [Hne HL].
  unfold PikToPixelsT. cbv zeta. rewrite HL. cbn [h_xsize h_ysize h_flags].
  rewrite length_app, Nat2Z.inj_add.
  destruct (Z.eqb_spec (Z.of_nat (length header_bytes) + Z.of_nat (length data)) 0)
    as [E0 | E0].
  { destruct header_bytes; [congruence | simpl in E0; lia]. }
  destruct (Z.ltb_spec (Z.of_nat (length header_bytes) + Z.of_nat (length data))
              (Z.of_nat (length header_bytes))); [lia|].
  assert (Hweb : Z.land (if alpha_channel params then kAlpha else 0)
                        kWebPLossless = 0).
  { destruct (alpha_channel params); [exact kAlpha_is_not_kWebPLossless|].
    apply Z.land_0_l. }
  rewrite Hweb. cbn [Z.eqb negb].
  destruct (Z.eqb_spec (opsin_xsize opsin) 0); [contradiction|].
  destruct (Z.eqb_spec (opsin_ysize opsin) 0); [contradiction|]. cbn [orb].
  destruct (kMaxWidth <? opsin_xsize opsin); [reflexivity|].
  rewrite (Z.mod_small (opsin_xsize opsin * opsin_ysize opsin)) by nia.
  destruct (max_num_pixels dparams <? _); [reflexivity|].
  rewrite Nat2Z.id, drop_app_length.
  destruct (Decode _ _ data) as [[img bytes_read]|]; [|reflexivity].
  destruct (alpha_channel params); reflexivity.
Qed.
End Container.

Lemma ToyCodec_byte_of (n : Z) :
  ToyCodec.is_byteb n = true -> Z.of_N (Byte.to_N (ToyCodec.byte_of n)) = n.
Proof.
  unfold ToyCodec.is_byteb, ToyCodec.byte_of.
  rewrite andb_true_iff, Z.leb_le, Z.ltb_lt. intros [H0 H1].
  destruct (Byte.of_N (Z.to_N n)) as [b|] eqn:E.
  - apply Byte.to_of_N in E. simpl. rewrite E. lia.
  - apply Byte.of_N_None_iff in E. lia.
Qed.

Lemma ToyCodec_round_trip (h : Header) (header_bytes rest : list Byte.byte) :
  ToyCodec.StoreHeader h = Some header_bytes ->
  header_bytes <> [] /\
  ToyDecoder.LoadHeader (header_bytes ++ rest)
  = Some (h, Z.of_nat (length header_bytes)).
Proof.
  unfold ToyCodec.StoreHeader.
  destruct (ToyCodec.is_byteb (h_xsize h)) eqn:Ex; [|discriminate].
  destruct (ToyCodec.is_byteb (h_ysize h)) eqn:Ey; [|discriminate].
  destruct (ToyCodec.is_byteb (h_flags h)) eqn:Ef; [|discriminate].
  cbn [andb]. intros [= <-]. split; [discriminate|].
  cbn [app ToyDecoder.LoadHeader length].
  rewrite !ToyCodec_byte_of by assumption. destruct h; reflexivity.
Qed.

Lemma OpsinToPik_stream_is_decoded_witness :
  exists stream,
    ToyCodec.encode ToyEncoder.quant_only (3, 5) = ([ConstantQuant], Some (Ok stream)) /\
    ToyCodec.decode ToyDecoder.params stream
    = Ok (mkMeta _ _ [Byte.x03] None, Z.of_nat (length stream)).
Proof.
  exists [Byte.x03; Byte.x05; Byte.x00; Byte.x03].
  assert (Henc : ToyCodec.encode ToyEncoder.quant_only (3, 5)
                 = ([ConstantQuant],
                    Some (Ok [Byte.x03; Byte.x05; Byte.x00; Byte.x03])))
    by (vm_compute; reflexivity).
  split; [exact Henc|].
  destruct (OpsinToPik_stream_is_decoded (Z * Z) fst snd
              (fun _ _ => Some [Byte.x01]) (fun _ _ _ => Some [Byte.x02])
              (fun _ _ => Some [Byte.x03]) (fun _ _ => Some [Byte.x04])
              ToyCodec.StoreHeader ToyDecoder.LoadHeader 2 (list Byte.byte)
              ToyCodec.Decode (list Byte.byte) (fun img => img) unit
              (fun _ _ _ => Some (tt, 0)) ToyCodec_round_trip eq_refl
              ToyEncoder.quant_only ToyDecoder.params (3, 5) _ _ Henc)
    as (hb & data & Hs & Hh & Hd); [simpl; lia | simpl; lia |].
  unfold ToyCodec.decode. rewrite Hd.
  injection Hh as <-. vm_compute in Hs. injection Hs as <-.
  vm_compute. reflexivity.
Defined.

(** ** The image-level conversions *)

Lemma Row3_SetRow3 (img : Image3 Z) (y x : Z) (v : Z * Z * Z) (y' x' : Z) :
  wf3 img -> in_image3 img y x ->
  Row3 (SetRow3 img y x v) y' x'
  = if (y' =? y) && (x' =? x) then v else Row3 img y' x'.
Proof.
  destruct img as [[p0 p1] p2], v as [[a b] c].
  intros (W0 & W1 & W2 & X1 & Y1 & X2 & Y2) [Hy Hx].
  unfold in_image3, xsize3, ysize3 in *. cbn [fst snd] in *.
  unfold Row3, SetRow3.
  rewrite (get_set 0 p0 y x a y' x' W0) by (unfold in_image; lia).
  rewrite (get_set 0 p1 y x b y' x' W1) by (unfold in_image; lia).
  rewrite (get_set 0 p2 y x c y' x' W2) by (unfold in_image; lia).
  destruct (_ && _); reflexivity.
Qed.

Lemma wf3_SetRow3 (img : Image3 Z) (y x : Z) (v : Z * Z * Z) :
  wf3 img ->
  wf3 (SetRow3 img y x v) /\
  xsize3 (SetRow3 img y x v) = xsize3 img /\
  ysize3 (SetRow3 img y x v) = ysize3 img.
Proof.
  destruct img as [[p0 p1] p2], v as [[a b] c].
  intros (W0 & W1 & W2 & X1 & Y1 & X2 & Y2).
  unfold wf3, xsize3, ysize3, SetRow3. cbn [fst snd].
  destruct (set_sizes p0 y x a) as [-> ->].
  destruct (set_sizes p1 y x b) as [-> ->].
  destruct (set_sizes p2 y x c) as [-> ->].
  repeat split; try assumption; apply wf_set; assumption.
Qed.

(** Two nested loops that convert an image pixel by pixel, where the
    conversion is defined on every pixel of the source. *)
Section PixelLoops.
Variable conv : Z * Z * Z -> option (Z * Z * Z).
Variable src : Image3 Z.
Hypothesis conv_defined :
  forall y x, in_image3 src y x -> is_Some (conv (Row3 src y x)).

Local Abbreviation step y :=
  (fun x (acc : option (Image3 Z)) =>
     dst ← acc; p ← conv (Row3 src y x); Some (SetRow3 dst y x p)).

Local Abbreviation done_at := (converted_to conv src).

Lemma pixel_loops (dst : Image3 Z) :
  0 <= xsize3 src -> 0 <= ysize3 src ->
  wf3 dst -> xsize3 dst = xsize3 src -> ysize3 dst = ysize3 src ->
  exists out,
    for_range 0 (ysize3 src) (fun y => for_range 0 (xsize3 src) (step y))
              (Some dst) = Some out /\
    pixelwise conv src out.
Proof.
  intros HX HY Hwf Hxs Hys.
  assert (H : exists out,
             for_range 0 (ysize3 src)
               (fun y => for_range 0 (xsize3 src) (step y)) (Some dst) = Some out /\
             done_at (ysize3 src) 0 out).
  { apply (for_range_inv
             (fun k acc => exists out, acc = Some out /\ done_at k 0 out));
      [exact HY | |].
    - exists dst. split; [reflexivity|]. split; [exact Hwf|].
      split; [exact Hxs|]. split; [exact Hys|].
      intros y x [Hy Hx] H. lia.
    - intros k acc Hk (out & -> & Hout).
      assert (Hrow : exists out',
                 for_range 0 (xsize3 src) (step k) (Some out) = Some out' /\
                 done_at k (xsize3 src) out').
      { apply (for_range_inv
                 (fun j acc => exists out', acc = Some out' /\ done_at k j out'));
          [exact HX | exists out; split; [reflexivity | exact Hout] |].
        intros j acc' Hj (out' & -> & W & Xs & Ys & Hpix).
        destruct (conv_defined k j) as [p Ep]; [split; lia|].
        exists (SetRow3 out' k j p). cbn [mbind option_bind]. rewrite Ep.
        cbn [mbind option_bind]. split; [reflexivity|].
        destruct (wf3_SetRow3 out' k j p W) as (W' & Xs' & Ys').
        split; [exact W'|]. split; [congruence|]. split; [congruence|].
        intros y x Hin Hlt.
        rewrite (Row3_SetRow3 out' k j p y x W) by (split; lia).
        destruct (Z.eqb_spec y k) as [-> | Hny]; cbn [andb].
        - destruct (Z.eqb_spec x j) as [-> | Hnx]; [exact Ep|].
          apply Hpix; [exact Hin | lia].
        - apply Hpix; [exact Hin | lia]. }
      destruct Hrow as (out' & -> & W & Xs & Ys & Hpix).
      exists out'. split; [reflexivity|].
      split; [exact W|]. split; [exact Xs|]. split; [exact Ys|].
      intros y x [Hy Hx] Hlt. apply Hpix; [split; assumption | lia]. }
  destruct H as (out & E & W & Xs & Ys & Hpix).
  exists out. split; [exact E|].
  split; [exact W|]. split; [exact Xs|]. split; [exact Ys|].
  intros y x [Hy Hx]. apply Hpix; [split; assumption | lia].
Qed.
End PixelLoops.

Lemma wf3_sizes (img : Image3 Z) : wf3 img -> 0 <= xsize3 img /\ 0 <= ysize3 img.
Proof. destruct img as [[p0 p1] p2]. intros ((H1 & H2 & _) & _). auto. Qed.

Lemma RGBImageToYUVRec709_pixelwise (sizeof_T bits : Z) (fresh rgb : Image3 Z) :
  sizeof_T = 1 \/ sizeof_T = 2 -> 0 <= bits <= 16 ->
  wf3 rgb -> samples3 (8 * sizeof_T) rgb ->
  wf3 fresh -> xsize3 fresh = xsize3 rgb -> ysize3 fresh = ysize3 rgb ->
  exists yuv,
    RGBImageToYUVRec709 sizeof_T rgb bits fresh = Some yuv /\
    pixelwise (fun '(r, g, b) => RGBPixelToYUV_T sizeof_T r g b bits) rgb yuv /\
    samples3 bits yuv.
Proof.
  intros Hs Hb Hwf Hsamp Hf Hxs Hys.
  assert (Hconv : forall y x, in_image3 rgb y x ->
            exists p, (fun '(r, g, b) => RGBPixelToYUV_T sizeof_T r g b bits)
                        (Row3 rgb y x) = Some p /\
                      sample_range bits (fst (fst p)) /\
                      sample_range bits (snd (fst p)) /\
                      sample_range bits (snd p)).
  { intros y x Hin. specialize (Hsamp y x Hin).
    destruct (Row3 rgb y x) as [[r g] b]. unfold sample_range in Hsamp.
    destruct (RGBPixelToYUV_T_defined sizeof_T r g b bits Hs Hb)
      as (yv & uv & vv & E & R); try lia.
    exists (yv, uv, vv). split; [exact E | exact R]. }
  destruct (wf3_sizes rgb Hwf) as [HX HY].
  destruct (pixel_loops (fun '(r, g, b) => RGBPixelToYUV_T sizeof_T r g b bits)
              rgb) with (dst := fresh) as (yuv & E & Hpw); try assumption.
  { intros y x Hin. destruct (Hconv y x Hin) as (p & Ep & _). exists p. exact Ep. }
  exists yuv. split; [exact E|]. split; [exact Hpw|].
  destruct Hpw as (_ & Xs & Ys & Hpix).
  intros y x [Hy Hx].
  assert (Hin : in_image3 rgb y x) by (split; lia).
  destruct (Hconv y x Hin) as (p & Ep & R).
  rewrite (Hpix y x Hin) in Ep. injection Ep as <-.
  destruct (Row3 yuv y x) as [[a b] c]. exact R.
Qed.

Lemma YUVRec709ImageToRGB_pixelwise (sizeof_T bits : Z) (fresh yuv : Image3 Z) :
  sizeof_T = 1 \/ sizeof_T = 2 -> 1 <= bits <= 30 ->
  wf3 yuv -> samples3 16 yuv ->
  wf3 fresh -> xsize3 fresh = xsize3 yuv -> ysize3 fresh = ysize3 yuv ->
  exists rgb,
    YUVRec709ImageToRGB sizeof_T yuv bits fresh = Some rgb /\
    pixelwise (fun '(yv, uv, vv) => YUVPixelToRGB_T sizeof_T yv uv vv bits)
              yuv rgb /\
    samples3 (8 * sizeof_T) rgb.
Proof.
  intros Hs Hb Hwf Hsamp Hf Hxs Hys.
  assert (Hconv : forall y x, in_image3 yuv y x ->
            exists p, (fun '(yv, uv, vv) => YUVPixelToRGB_T sizeof_T yv uv vv bits)
                        (Row3 yuv y x) = Some p /\
                      sample_range (8 * sizeof_T) (fst (fst p)) /\
                      sample_range (8 * sizeof_T) (snd (fst p)) /\
                      sample_range (8 * sizeof_T) (snd p)).
  { intros y x Hin. specialize (Hsamp y x Hin).
    destruct (Row3 yuv y x) as [[yv uv] vv]. unfold sample_range in Hsamp.
    destruct (YUVPixelToRGB_T_defined sizeof_T yv uv vv bits Hs Hb)
      as (r & g & b & E & R); try lia.
    exists (r, g, b). split; [exact E | exact R]. }
  destruct (wf3_sizes yuv Hwf) as [HX HY].
  destruct (pixel_loops
              (fun '(yv, uv, vv) => YUVPixelToRGB_T sizeof_T yv uv vv bits) yuv)
    with (dst := fresh) as (rgb & E & Hpw); try assumption.
  { intros y x Hin. destruct (Hconv y x Hin) as (p & Ep & _). exists p. exact Ep. }
  exists rgb. split; [exact E|]. split; [exact Hpw|].
  destruct Hpw as (_ & Xs & Ys & Hpix).
  intros y x [Hy Hx].
  assert (Hin : in_image3 yuv y x) by (split; lia).
  destruct (Hconv y x Hin) as (p & Ep & R).
  rewrite (Hpix y x Hin) in Ep. injection Ep as <-.
  destruct (Row3 rgb y x) as [[a b] c]. exact R.
Qed.

(** X23: [YUVRec709ImageFromRGB8] and [YUVRec709ImageFromRGB16], at a
    depth of at most 16 bits, are defined on every image of 8-bit or
    16-bit samples; the result has the sizes of the source, each of its
    pixels is the typed [RGBPixelToYUV] of the source pixel at the same
    place, whatever the new image held when it was constructed, and all
    its samples lie in [[0, 2^bits - 1]]. *)
Theorem YUVRec709ImageFromRGB_converts (fresh rgb : Image3 Z) (bits : Z) :
  0 <= bits <= 16 -> wf3 rgb ->
  wf3 fresh -> xsize3 fresh = xsize3 rgb -> ysize3 fresh = ysize3 rgb ->
  (samples3 8 rgb ->
   exists yuv,
     YUVRec709ImageFromRGB8 fresh rgb bits = Some yuv /\
     pixelwise (fun '(r, g, b) => RGBPixelToYUV_T 1 r g b bits) rgb yuv /\
     samples3 bits yuv) /\
  (samples3 16 rgb ->
   exists yuv,
     YUVRec709ImageFromRGB16 fresh rgb bits = Some yuv /\
     pixelwise (fun '(r, g, b) => RGBPixelToYUV_T 2 r g b bits) rgb yuv /\
     samples3 bits yuv).
Proof.
  intros Hb Hwf Hf Hxs Hys. split; intros Hsamp.
  - apply (RGBImageToYUVRec709_pixelwise 1); auto.
  - apply (RGBImageToYUVRec709_pixelwise 2); auto.
Qed.

Lemma YUVRec709ImageFromRGB_converts_witness :
  exists yuv,
    YUVRec709ImageFromRGB8 ToyImage3.junk ToyImage3.rgb 10 = Some yuv /\
    Row3 yuv 0 0 = (943, 512, 512) /\
    samples3 10 yuv.
Proof.
  assert (Hwf : wf3 ToyImage3.rgb /\ wf3 ToyImage3.junk).
  { split; (split; [|split; [|split; [|repeat split]]]);
      (split; [simpl; lia|]; split; [simpl; lia|]; split; [reflexivity|];
       repeat constructor). }
  destruct Hwf as [Hrgb Hjunk].
  destruct (YUVRec709ImageFromRGB_converts ToyImage3.junk ToyImage3.rgb 10
              ltac:(lia) Hrgb Hjunk eq_refl eq_refl) as [H8 _].
  destruct H8 as (yuv & E & (_ & _ & _ & Hpix) & Hs).
  - intros y x [Hy Hx]. change (ysize3 ToyImage3.rgb) with 1 in Hy.
    change (xsize3 ToyImage3.rgb) with 2 in Hx.
    assert (Hy0 : y = 0) by lia. subst y.
    assert (Hx01 : x = 0 \/ x = 1) by lia.
    destruct Hx01 as [-> | ->]; vm_compute; intuition discriminate.
  - exists yuv. split; [exact E|]. split; [|exact Hs].
    assert (Hin : in_image3 ToyImage3.rgb 0 0).
    { unfold in_image3. change (ysize3 ToyImage3.rgb) with 1.
      change (xsize3 ToyImage3.rgb) with 2. lia. }
    specialize (Hpix 0 0 Hin).
    change (Some (943, 512, 512) = Some (Row3 yuv 0 0)) in Hpix. congruence.
Defined.

(** X24: [RGB8ImageFromYUVRec709] and [RGB16ImageFromYUVRec709], at a
    depth of 1 to 30 bits, are defined on every image of [uint16_t]
    samples; the result has the sizes of the source, each of its pixels is
    the typed [YUVPixelToRGB] of the source pixel at the same place,
    whatever the new image held when it was constructed, and all its
    samples are 8-bit, respectively 16-bit, values. *)
Theorem RGBImageFromYUVRec709_converts (fresh yuv : Image3 Z) (bits : Z) :
  1 <= bits <= 30 -> wf3 yuv -> samples3 16 yuv ->
  wf3 fresh -> xsize3 fresh = xsize3 yuv -> ysize3 fresh = ysize3 yuv ->
  (exists rgb,
     RGB8ImageFromYUVRec709 fresh yuv bits = Some rgb /\
     pixelwise (fun '(yv, uv, vv) => YUVPixelToRGB_T 1 yv uv vv bits) yuv rgb /\
     samples3 8 rgb) /\
  (exists rgb,
     RGB16ImageFromYUVRec709 fresh yuv bits = Some rgb /\
     pixelwise (fun '(yv, uv, vv) => YUVPixelToRGB_T 2 yv uv vv bits) yuv rgb /\
     samples3 16 rgb).
Proof.
  intros Hb Hwf Hsamp Hf Hxs Hys. split.
  - apply (YUVRec709ImageToRGB_pixelwise 1); auto.
  - apply (YUVRec709ImageToRGB_pixelwise 2); auto.
Qed.

Lemma RGBImageFromYUVRec709_converts_witness :
  exists rgb,
    RGB8ImageFromYUVRec709 ToyImage3.junk ToyImage3.rgb 8 = Some rgb /\
    samples3 8 rgb.
Proof.
  assert (Hwf : wf3 ToyImage3.rgb /\ wf3 ToyImage3.junk).
  { split; (split; [|split; [|split; [|repeat split]]]);
      (split; [simpl; lia|]; split; [simpl; lia|]; split; [reflexivity|];
       repeat constructor). }
  destruct Hwf as [Hrgb Hjunk].
  destruct (RGBImageFromYUVRec709_converts ToyImage3.junk ToyImage3.rgb 8
              ltac:(lia) Hrgb) as [H8 _]; try assumption; try reflexivity.
  - intros y x [Hy Hx]. change (ysize3 ToyImage3.rgb) with 1 in Hy.
    change (xsize3 ToyImage3.rgb) with 2 in Hx.
    assert (Hy0 : y = 0) by lia. subst y.
    assert (Hx01 : x = 0 \/ x = 1) by lia.
    destruct Hx01 as [-> | ->]; vm_compute; intuition discriminate.
  - destruct H8 as (rgb & E & _ & Hs). exists rgb. auto.
Defined.

Lemma sample_range_mono (bits bits' n : Z) :
  0 <= bits <= bits' -> sample_range bits n -> sample_range bits' n.
Proof.
  unfold sample_range. intros Hb Hn.
  assert (2 ^ bits <= 2 ^ bits') by (apply Z.pow_le_mono_r; lia). lia.
Qed.

(** X25: an image of 8-bit greys converted by [YUVRec709ImageFromRGB8]
    to YUV of 10 to 16 bits and back by [RGB8ImageFromYUVRec709] at the
    same depth comes out with every pixel unchanged. *)
Theorem grey_image_round_trip (fresh1 fresh2 rgb : Image3 Z) (bits : Z) :
  10 <= bits <= 16 -> wf3 rgb -> grey8 rgb ->
  wf3 fresh1 -> xsize3 fresh1 = xsize3 rgb -> ysize3 fresh1 = ysize3 rgb ->
  wf3 fresh2 -> xsize3 fresh2 = xsize3 rgb -> ysize3 fresh2 = ysize3 rgb ->
  exists yuv rgb',
    YUVRec709ImageFromRGB8 fresh1 rgb bits = Some yuv /\
    RGB8ImageFromYUVRec709 fresh2 yuv bits = Some rgb' /\
    xsize3 rgb' = xsize3 rgb /\ ysize3 rgb' = ysize3 rgb /\
    forall y x, in_image3 rgb y x -> Row3 rgb' y x = Row3 rgb y x.
Proof.
  intros Hb Hwf Hgrey W1 X1 Y1 W2 X2 Y2.
  destruct (RGBImageToYUVRec709_pixelwise 1 bits fresh1 rgb)
    as (yuv & E1 & (Wy & Xy & Yy & Py) & Sy); try assumption;
    [left; reflexivity | lia | |].
  { intros y x Hin. destruct (Hgrey y x Hin) as (n & Hn & ->).
    unfold sample_range. change (2 ^ (8 * 1) - 1) with 255. lia. }
  destruct (YUVRec709ImageToRGB_pixelwise 1 bits fresh2 yuv)
    as (rgb' & E2 & (Wr & Xr & Yr & Pr) & _); try assumption;
    [left; reflexivity | lia | | congruence | congruence |].
  { intros y x Hin. specialize (Sy y x Hin).
    destruct (Row3 yuv y x) as [[a b] c]. destruct Sy as (Sa & Sb & Sc).
    repeat split; apply (sample_range_mono bits 16); try assumption; lia. }
  exists yuv, rgb'. split; [exact E1|]. split; [exact E2|].
  split; [congruence|]. split; [congruence|].
  intros y x Hin.
  assert (Hin' : in_image3 yuv y x).
  { unfold in_image3 in *. rewrite Xy, Yy. exact Hin. }
  specialize (Py y x Hin). specialize (Pr y x Hin').
  destruct (Hgrey y x Hin) as (n & Hn & En). rewrite En in Py |- *.
  destruct (grey_round_trip n bits Hn Hb) as (yv & uv & vv & G1 & G2).
  rewrite G1 in Py. injection Py as Py. rewrite <- Py in Pr.
  rewrite G2 in Pr. injection Pr as Pr. symmetry. exact Pr.
Qed.

Lemma grey_image_round_trip_witness :
  exists yuv rgb',
    YUVRec709ImageFromRGB8 ToyImage3.junk ToyImage3.grey 10 = Some yuv /\
    RGB8ImageFromYUVRec709 ToyImage3.junk yuv 10 = Some rgb' /\
    Row3 rgb' 0 1 = (200, 200, 200).
Proof.
  assert (Hwf : wf3 ToyImage3.grey /\ wf3 ToyImage3.junk).
  { split; (split; [|split; [|split; [|repeat split]]]);
      (split; [simpl; lia|]; split; [simpl; lia|]; split; [reflexivity|];
       repeat constructor). }
  destruct Hwf as [Hgrey Hjunk].
  destruct (grey_image_round_trip ToyImage3.junk ToyImage3.junk ToyImage3.grey 10)
    as (yuv & rgb' & E1 & E2 & _ & _ & Hpix); try assumption; try reflexivity;
    [lia | |].
  - intros y x [Hy Hx]. change (ysize3 ToyImage3.grey) with 1 in Hy.
    change (xsize3 ToyImage3.grey) with 2 in Hx.
    assert (Hy0 : y = 0) by lia. subst y.
    assert (Hx01 : x = 0 \/ x = 1) by lia.
    destruct Hx01 as [-> | ->];
      [exists 17 | exists 200]; (split; [lia | reflexivity]).
  - exists yuv, rgb'. split; [exact E1|]. split; [exact E2|].
    rewrite Hpix; [reflexivity|].
    unfold in_image3. change (ysize3 ToyImage3.grey) with 1.
    change (xsize3 ToyImage3.grey) with 2. lia.
Defined.
